(** * LiveInterval.cpp: live ranges, the batch updater and sub-ranges

    A shallow embedding of [lib/CodeGen/LiveInterval.cpp] and the properties
    of it that the specification states.

    Conventions of the embedding.
    - A [SlotIndex] is its integer index; iterators into the segment vector
      are positions ([nat]), [end()] being the length.
    - A [VNInfo*] is a handle into the value-number arena (the bump
      allocator); handle [0] is [nullptr].
    - Every [assert] of the source is a check in the [Res] monad: a failed
      assertion stops the operation with an [Error].  Reads outside a
      vector and dereferences of a null or dangling handle are [Undefined].
    - Sizes and ids are natural numbers (vectors are far shorter than the
      range of [unsigned] and [size_t]); where the source subtracts or
      converts such a number, the wrap-around is written out. *)

From Stdlib Require Import ZArith Bool Lia.
From stdpp Require Import base tactics option list gmap.

(** ** The result monad of fail-fast operations *)

Inductive Error :=
| InvalidSegment
| DeadSlotDef
| OverlapMismatch
| OrderViolation
| StaleVN
| AppendPrecondition
| AssertionFailed
| Undefined
| OutOfFuel.

Inductive Res (A : Type) :=
| Ok (a : A)
| Err (e : Error).
Arguments Ok {A} a.
Arguments Err {A} e.

Definition bind {A B} (m : Res A) (k : A → Res B) : Res B :=
  match m with
  | Ok a => k a
  | Err e => Err e
  end.

Notation "x <- c ;; k" := (bind c (λ x, k))
  (at level 100, c at next level, right associativity).

(** [assert(b && "...")] *)
Definition check (b : bool) (e : Error) : Res unit :=
  if b then Ok tt else Err e.

(** Indexing a vector; a read outside it is undefined behaviour. *)
Definition at_ {A} (l : list A) (i : nat) : Res A :=
  match l !! i with
  | Some x => Ok x
  | None => Err Undefined
  end.

(** [I[-1]], and a write [*I = x] through an iterator. *)
Definition at_prev {A} (l : list A) (i : nat) : Res A :=
  match i with
  | 0 => Err Undefined
  | S j => at_ l j
  end.

Definition write_at {A} (l : list A) (i : nat) (x : A) : Res (list A) :=
  if i <? length l then Ok (<[i := x]> l) else Err Undefined.

(** An array indexed by an [int] or an [unsigned]. *)
Definition at_Z {A} (l : list A) (z : Z) : Res A :=
  if (z <? 0)%Z then Err Undefined else at_ l (Z.to_nat z).

(** [v.erase(first, last)] and [v.insert(pos, x)] on a vector. *)
Definition erase {A} (l : list A) (first last : nat) : list A :=
  take first l ++ drop last l.

Definition insert_at {A} (l : list A) (pos : nat) (x : A) : list A :=
  take pos l ++ x :: drop pos l.

(** ** Slot indexes *)

(** Modelled from the spec: SlotIndex is declared in SlotIndexes.h, which is
    not among the sources.  The spec gives a total order on positions with
    four slots per instruction (block/base, early-clobber, register, dead)
    and writes slots as integers, so an index is [4 * instruction + slot];
    the default-constructed index is the invalid one. *)
Abbreviation SlotIndex := Z (only parsing).

Definition SlotIndex_invalid : SlotIndex := (-1)%Z.
Definition isValid (s : SlotIndex) : bool := (0 <=? s)%Z.
Definition isBlock (s : SlotIndex) : bool := (s mod 4 =? 0)%Z.
Definition isDead (s : SlotIndex) : bool := (s mod 4 =? 3)%Z.
Definition getDeadSlot (s : SlotIndex) : SlotIndex := (4 * (s / 4) + 3)%Z.
Definition getPrevSlot (s : SlotIndex) : SlotIndex := (s - 1)%Z.
Definition getNextSlot (s : SlotIndex) : SlotIndex := (s + 1)%Z.
Definition isSameInstr (a b : SlotIndex) : bool := (a / 4 =? b / 4)%Z.
Definition isEarlierInstr (a b : SlotIndex) : bool := (a / 4 <? b / 4)%Z.

(** ** Value numbers and their arena *)

(** Modelled from the spec: VNInfo is declared in LiveInterval.h, which is
    not among the sources.  The spec gives it a dense [id], a [def] slot and
    the flags [unused] and [phi_def]; [copyFrom] copies everything but the
    id, [markUnused] sets the flag. *)
Module VNInfo.
Record t := mk { id : nat; def : SlotIndex; unused : bool; phi_def : bool }.

Definition copyFrom (dst src : t) : t :=
  {| id := id dst; def := def src; unused := unused src;
     phi_def := phi_def src |}.

Definition markUnused (v : t) : t :=
  {| id := id v; def := def v; unused := true; phi_def := phi_def v |}.

Definition set_id (v : t) (i : nat) : t :=
  {| id := i; def := def v; unused := unused v; phi_def := phi_def v |}.

Definition set_def (v : t) (d : SlotIndex) : t :=
  {| id := id v; def := d; unused := unused v; phi_def := phi_def v |}.
End VNInfo.

(** A [VNInfo*]: [0] is [nullptr], [S k] is the [k]-th object of the arena. *)
Abbreviation VNPtr := nat (only parsing).
Definition nullptr : VNPtr := 0.

Abbreviation Arena := (list VNInfo.t) (only parsing).

Definition deref (A : Arena) (p : VNPtr) : Res VNInfo.t :=
  match p with
  | 0 => Err Undefined
  | S k => at_ A k
  end.

Definition store (A : Arena) (p : VNPtr) (v : VNInfo.t) : Arena :=
  match p with
  | 0 => A
  | S k => <[k := v]> A
  end.

(** [new (VNInfoAllocator) VNInfo(id, def)] *)
Definition alloc (A : Arena) (v : VNInfo.t) : Arena * VNPtr :=
  (A ++ [v], S (length A)).

(** ** Segments and live ranges *)

(** Modelled from the spec: [LiveRange::Segment] is declared in
    LiveInterval.h, which is not among the sources.  A segment is the
    half-open interval [start, end) and the value number live in it. *)
Record Segment := mkSegment {
  start : SlotIndex;
  end_ : SlotIndex;
  valno : VNPtr
}.

Definition set_start (s : Segment) (x : SlotIndex) : Segment :=
  {| start := x; end_ := end_ s; valno := valno s |}.
Definition set_end (s : Segment) (x : SlotIndex) : Segment :=
  {| start := start s; end_ := x; valno := valno s |}.
Definition set_valno (s : Segment) (p : VNPtr) : Segment :=
  {| start := start s; end_ := end_ s; valno := p |}.
Arguments set_start _ _ /.
Arguments set_end _ _ /.
Arguments set_valno _ _ /.

(** Modelled from the spec: the constructor [Segment(S, E, V)] of the absent
    header rejects an empty or backwards interval ([InvalidSegment]). *)
Definition Segment_new (S E : SlotIndex) (V : VNPtr) : Res Segment :=
  _ <- check (S <? E)%Z InvalidSegment ;;
  Ok (mkSegment S E V).

(** Modelled from the spec: [Segment()] of the absent header, the
    placeholder the updater inserts to widen its gap. *)
Definition Segment_default : Segment :=
  {| start := SlotIndex_invalid; end_ := SlotIndex_invalid; valno := nullptr |}.

(** Modelled from the spec: [Segment::operator<] of the absent header,
    the order of the segment set: by start, then by end. *)
Definition Segment_lt (a b : Segment) : bool :=
  (start a <? start b)%Z || ((start a =? start b)%Z && (end_ a <? end_ b)%Z).

(** Modelled from the spec: [Segment::contains] and
    [Segment::containsInterval] of the absent header; the interval
    [S, E) must be a forward one and lie within the segment. *)
Definition Segment_contains (s : Segment) (i : SlotIndex) : bool :=
  (start s <=? i)%Z && (i <? end_ s)%Z.

Definition Segment_containsInterval (s : Segment) (S E : SlotIndex)
  : Res bool :=
  _ <- check (S <? E)%Z InvalidSegment ;;
  Ok (((start s <=? S)%Z && (S <? end_ s)%Z)
      && ((start s <? E)%Z && (E <=? end_ s)%Z)).

(** Modelled from the spec: [LiveRange] is declared in LiveInterval.h: the
    segment vector, the table of value numbers, and the segment set, which
    is null ([None]) once the range is in vector form.  The set is kept as
    the sequence of its elements in order. *)
Record LiveRange := mkLiveRange {
  segments : list Segment;
  valnos : list VNPtr;
  segmentSet : option (list Segment)
}.

Definition with_segments (lr : LiveRange) (l : list Segment) : LiveRange :=
  {| segments := l; valnos := valnos lr; segmentSet := segmentSet lr |}.
Definition with_valnos (lr : LiveRange) (v : list VNPtr) : LiveRange :=
  {| segments := segments lr; valnos := v; segmentSet := segmentSet lr |}.
Definition with_segmentSet (lr : LiveRange) (s : option (list Segment))
  : LiveRange :=
  {| segments := segments lr; valnos := valnos lr; segmentSet := s |}.

(** ** Binary searches *)

(** The loop of [std::upper_bound] over the positions [I, I + Len) of a
    vector, for a predicate [p] standing for [val < *middle]. *)
Fixpoint upper_bound_loop (fuel : nat) (p : Segment → bool)
    (l : list Segment) (I Len : nat) : nat :=
  match fuel with
  | 0 => I
  | S fuel' =>
    if Len =? 0 then I
    else
      let Mid := Nat.div2 Len in
      match l !! (I + Mid) with
      | Some s =>
        if p s then upper_bound_loop fuel' p l I Mid
        else upper_bound_loop fuel' p l (I + Mid + 1) (Len - (Mid + 1))
      | None => I
      end
  end.

(** [std::upper_bound(LR->begin(), LR->end(), Pos)], where
    [Pos < Segment] compares with the segment's start. *)
Definition upper_bound (l : list Segment) (Pos : SlotIndex) : nat :=
  upper_bound_loop (length l) (λ s, (Pos <? start s)%Z) l 0 (length l).

(** The do-while loop of [LiveRange::find]. *)
Fixpoint find_loop (fuel : nat) (l : list Segment) (Pos : SlotIndex)
    (I Len : nat) : nat :=
  match fuel with
  | 0 => I
  | S fuel' =>
    let Mid := Nat.div2 Len in
    match l !! (I + Mid) with
    | Some s =>
      let '(I', Len') :=
        if (Pos <? end_ s)%Z then (I, Mid)
        else (I + Mid + 1, Len - (Mid + 1)) in
      if Len' =? 0 then I' else find_loop fuel' l Pos I' Len'
    | None => I
    end
  end.

(** [LiveRange::find]: the result is a position, [length l] being [end()]. *)
Definition find (l : list Segment) (Pos : SlotIndex) : nat :=
  match last l with
  | None => length l
  | Some back =>
    if (end_ back <=? Pos)%Z then length l
    else find_loop (length l) l Pos 0 (length l)
  end.

(** Modelled from the spec: [contains(pos)] (LiveRange::liveAt of the absent
    header) holds when [find(pos)] returns a segment [s] with
    [s.start <= pos]. *)
Definition contains (l : list Segment) (Pos : SlotIndex) : bool :=
  match l !! find l Pos with
  | Some s => (start s <=? Pos)%Z
  | None => false
  end.

(** ** CalcLiveRangeUtilBase: algorithms shared by both collections *)

(** The methods a concrete subclass provides to the base class.  An
    iterator is a position in the in-order sequence of the collection.
    [iter_after_erase first last it] is the position an iterator [it] at or
    after [last] denotes once [erase(first, last)] has run: a vector
    iterator keeps its address, a set iterator keeps its element. *)
Class CalcLiveRangeUtil := {
  impl_find : list Segment → SlotIndex → nat;
  impl_findInsertPos : list Segment → Segment → nat;
  impl_insertAtEnd : list Segment → Segment → list Segment;
  coll_insert : list Segment → nat → Segment → list Segment * nat;
  iter_after_erase : nat → nat → nat → nat
}.

(** Modelled from the spec: [LiveRange::getNextValue] of the absent header
    gives a new value number the next dense id and appends it to the
    table. *)
Definition getNextValue (A : Arena) (vs : list VNPtr) (Def : SlotIndex)
  : Arena * list VNPtr * VNPtr :=
  let '(A', VNI) :=
    alloc A {| VNInfo.id := length vs; VNInfo.def := Def;
               VNInfo.unused := false; VNInfo.phi_def := false |} in
  (A', vs ++ [VNI], VNI).

(** The forward scan of [extendSegmentEndTo] for the first segment that
    cannot be merged; [rest] is the collection from [pos] on. *)
Fixpoint mergeTo_scan (ValNo : VNPtr) (NewEnd : SlotIndex)
    (rest : list Segment) (pos : nat) : Res nat :=
  match rest with
  | [] => Ok pos
  | s :: rest' =>
    if (end_ s <=? NewEnd)%Z then
      _ <- check (valno s =? ValNo) OverlapMismatch ;;
      mergeTo_scan ValNo NewEnd rest' (S pos)
    else Ok pos
  end.

Definition extendSegmentEndTo (coll : list Segment) (I : nat)
    (NewEnd : SlotIndex) : Res (list Segment) :=
  _ <- check (I <? length coll) AssertionFailed ;;
  S0 <- at_ coll I ;;
  let ValNo := valno S0 in
  MergeTo <- mergeTo_scan ValNo NewEnd (drop (I + 1) coll) (I + 1) ;;
  prev <- at_ coll (MergeTo - 1) ;;
  let S1 := set_end S0 (Z.max NewEnd (end_ prev)) in
  let coll1 := <[I := S1]> coll in
  match coll1 !! MergeTo with
  | Some M =>
    if (start M <=? end_ S1)%Z && (valno M =? ValNo) then
      Ok (erase (<[I := set_end S1 (end_ M)]> coll1) (I + 1) (MergeTo + 1))
    else Ok (erase coll1 (I + 1) MergeTo)
  | None => Ok (erase coll1 (I + 1) MergeTo)
  end.

(** The backward do-while scan of [extendSegmentStartTo]: [None] when the
    scan reaches [begin()], else the first position whose segment starts
    before [NewStart]. *)
Fixpoint startTo_scan (ValNo : VNPtr) (NewStart : SlotIndex)
    (coll : list Segment) (MergeTo : nat) : Res (option nat) :=
  match MergeTo with
  | 0 => Ok None
  | S m =>
    s <- at_ coll MergeTo ;;
    _ <- check (valno s =? ValNo) OverlapMismatch ;;
    p <- at_ coll m ;;
    if (NewStart <=? start p)%Z then startTo_scan ValNo NewStart coll m
    else Ok (Some m)
  end.

Section CalcLiveRangeUtilBase.
Context `{Impl : CalcLiveRangeUtil}.

Definition extendSegmentStartTo (coll : list Segment) (I : nat)
    (NewStart : SlotIndex) : Res (list Segment * nat) :=
  _ <- check (I <? length coll) AssertionFailed ;;
  S0 <- at_ coll I ;;
  let ValNo := valno S0 in
  r <- startTo_scan ValNo NewStart coll I ;;
  match r with
  | None =>
    Ok (erase (<[I := set_start S0 NewStart]> coll) 0 I,
        iter_after_erase 0 I I)
  | Some MergeTo =>
    M <- at_ coll MergeTo ;;
    if (NewStart <=? end_ M)%Z && (valno M =? ValNo) then
      Ok (erase (<[MergeTo := set_end M (end_ S0)]> coll)
            (MergeTo + 1) (I + 1), MergeTo)
    else
      M' <- at_ coll (MergeTo + 1) ;;
      Ok (erase (<[MergeTo + 1 :=
                     set_end (set_start M' NewStart) (end_ S0)]> coll)
            (MergeTo + 1 + 1) (I + 1), MergeTo + 1)
  end.

Definition createDeadDef (A : Arena) (vs : list VNPtr)
    (coll : list Segment) (Def : SlotIndex)
  : Res (Arena * list VNPtr * list Segment * VNPtr) :=
  _ <- check (negb (isDead Def)) DeadSlotDef ;;
  let I := impl_find coll Def in
  if I =? length coll then
    let '(A', vs', VNI) := getNextValue A vs Def in
    Seg <- Segment_new Def (getDeadSlot Def) VNI ;;
    Ok (A', vs', impl_insertAtEnd coll Seg, VNI)
  else
    S0 <- at_ coll I ;;
    if isSameInstr Def (start S0) then
      v <- deref A (valno S0) ;;
      _ <- check (VNInfo.def v =? start S0)%Z AssertionFailed ;;
      let Def' := Z.min Def (start S0) in
      if negb (Def' =? start S0)%Z then
        Ok (store A (valno S0) (VNInfo.set_def v Def'), vs,
            <[I := set_start S0 Def']> coll, valno S0)
      else Ok (A, vs, coll, valno S0)
    else
      _ <- check (isEarlierInstr Def (start S0)) AssertionFailed ;;
      let '(A', vs', VNI) := getNextValue A vs Def in
      Seg <- Segment_new Def (getDeadSlot Def) VNI ;;
      Ok (A', vs', fst (coll_insert coll I Seg), VNI).

Definition extendInBlock (coll : list Segment) (StartIdx Use : SlotIndex)
  : Res (list Segment * VNPtr) :=
  if length coll =? 0 then Ok (coll, nullptr)
  else
    Key <- Segment_new (getPrevSlot Use) Use nullptr ;;
    let I := impl_findInsertPos coll Key in
    if I =? 0 then Ok (coll, nullptr)
    else
      let I := I - 1 in
      S0 <- at_ coll I ;;
      if (end_ S0 <=? StartIdx)%Z then Ok (coll, nullptr)
      else if (end_ S0 <? Use)%Z then
        coll' <- extendSegmentEndTo coll I Use ;;
        S1 <- at_ coll' I ;;
        Ok (coll', valno S1)
      else Ok (coll, valno S0).

Definition addSegment (coll : list Segment) (S0 : Segment)
  : Res (list Segment * nat) :=
  let Start := start S0 in
  let End := end_ S0 in
  let I := impl_findInsertPos coll S0 in
  (* the segment before the insert position *)
  r <- (if negb (I =? 0) then
          B <- at_ coll (I - 1) ;;
          if valno S0 =? valno B then
            if (start B <=? Start)%Z && (Start <=? end_ B)%Z then
              coll' <- extendSegmentEndTo coll (I - 1) End ;;
              Ok (Some (coll', I - 1))
            else Ok None
          else
            _ <- check (end_ B <=? Start)%Z OverlapMismatch ;;
            Ok None
        else Ok None) ;;
  match r with
  | Some res => Ok res
  | None =>
    (* the segment at the insert position *)
    r' <- (if negb (I =? length coll) then
             N <- at_ coll I ;;
             if valno S0 =? valno N then
               if (start N <=? End)%Z then
                 r1 <- extendSegmentStartTo coll I Start ;;
                 let '(coll1, I1) := r1 in
                 N1 <- at_ coll1 I1 ;;
                 if (end_ N1 <? End)%Z then
                   coll2 <- extendSegmentEndTo coll1 I1 End ;;
                   Ok (Some (coll2, I1))
                 else Ok (Some (coll1, I1))
               else Ok None
             else
               _ <- check (End <=? start N)%Z OverlapMismatch ;;
               Ok None
           else Ok None) ;;
    match r' with
    | Some res => Ok res
    | None => Ok (coll_insert coll I S0)
    end
  end.
End CalcLiveRangeUtilBase.

(** *** The instantiation for the segment vector *)

#[export] Instance CalcLiveRangeUtilVector : CalcLiveRangeUtil := {|
  impl_find := find;
  impl_findInsertPos := λ coll S0, upper_bound coll (start S0);
  impl_insertAtEnd := λ coll S0, coll ++ [S0];
  coll_insert := λ coll I S0, (insert_at coll I S0, I);
  iter_after_erase := λ first last it, it
|}.

(** *** The instantiation for the segment set *)

(** [std::set<Segment>::upper_bound(S)] on the in-order sequence of a set:
    the first element greater than [S]. *)
Fixpoint set_upper_bound (l : list Segment) (S0 : Segment) : nat :=
  match l with
  | [] => 0
  | s :: l' => if Segment_lt S0 s then 0 else S (set_upper_bound l' S0)
  end.

(** [std::set<Segment>::insert(hint, S)]: the hint does not change where a
    key goes; an equivalent key already present blocks the insertion. *)
Definition set_insert (l : list Segment) (S0 : Segment) : list Segment * nat :=
  let pos := set_upper_bound l S0 in
  match (if pos =? 0 then None else l !! (pos - 1)) with
  | Some s =>
    if Segment_lt s S0 then (insert_at l pos S0, pos) else (l, pos - 1)
  | None => (insert_at l pos S0, pos)
  end.

Definition set_find (l : list Segment) (Pos : SlotIndex) : nat :=
  let I := set_upper_bound l (mkSegment Pos (getNextSlot Pos) nullptr) in
  if I =? 0 then I
  else
    match l !! (I - 1) with
    | Some PrevI => if (Pos <? end_ PrevI)%Z then I - 1 else I
    | None => I
    end.

Definition set_findInsertPos (l : list Segment) (S0 : Segment) : nat :=
  let I := set_upper_bound l S0 in
  match l !! I with
  | Some s => if negb (start S0 <? start s)%Z then I + 1 else I
  | None => I
  end.

Definition CalcLiveRangeUtilSet : CalcLiveRangeUtil := {|
  impl_find := set_find;
  impl_findInsertPos := set_findInsertPos;
  impl_insertAtEnd := λ coll S0, fst (set_insert coll S0);
  coll_insert := λ coll I S0, set_insert coll S0;
  iter_after_erase := λ first last it, it - (last - first)
|}.

(** ** LiveRange methods *)

(** [LiveRange::verify]: the assertions of one segment, then those on the
    segment and its successor. *)
Definition verify_segment (A : Arena) (vs : list VNPtr) (s : Segment)
  : Res unit :=
  _ <- check (isValid (start s)) InvalidSegment ;;
  _ <- check (isValid (end_ s)) InvalidSegment ;;
  _ <- check (start s <? end_ s)%Z InvalidSegment ;;
  _ <- check (negb (valno s =? nullptr)) StaleVN ;;
  v <- deref A (valno s) ;;
  _ <- check (VNInfo.id v <? length vs) StaleVN ;;
  p <- at_ vs (VNInfo.id v) ;;
  check (valno s =? p) StaleVN.

Definition verify_next (s : Segment) (rest : list Segment) : Res unit :=
  match rest with
  | [] => Ok tt
  | n :: _ =>
    _ <- check (end_ s <=? start n)%Z OrderViolation ;;
    if (end_ s =? start n)%Z then
      check (negb (valno s =? valno n)) OrderViolation
    else Ok tt
  end.

Fixpoint verify_from (A : Arena) (vs : list VNPtr) (l : list Segment)
  : Res unit :=
  match l with
  | [] => Ok tt
  | s :: l' =>
    _ <- verify_segment A vs s ;;
    _ <- verify_next s l' ;;
    verify_from A vs l'
  end.

Definition verify (A : Arena) (lr : LiveRange) : Res unit :=
  verify_from A (valnos lr) (segments lr).

Definition LiveRange_createDeadDef (A : Arena) (lr : LiveRange)
    (Def : SlotIndex) : Res (Arena * LiveRange * VNPtr) :=
  match segmentSet lr with
  | Some set =>
    r <- @createDeadDef CalcLiveRangeUtilSet A (valnos lr) set Def ;;
    let '(A', vs', set', VNI) := r in
    Ok (A', with_segmentSet (with_valnos lr vs') (Some set'), VNI)
  | None =>
    r <- @createDeadDef CalcLiveRangeUtilVector A (valnos lr)
           (segments lr) Def ;;
    let '(A', vs', segs', VNI) := r in
    Ok (A', with_segments (with_valnos lr vs') segs', VNI)
  end.

(** The trailing entries [markValNoForDeletion] pops after the last one;
    the table is passed back to front. *)
Fixpoint pop_unused (A : Arena) (rvs : list VNPtr) : Res (list VNPtr) :=
  match rvs with
  | [] => Ok []
  | p :: rest =>
    v <- deref A p ;;
    if VNInfo.unused v then pop_unused A rest else Ok rvs
  end.

(** [getNumValNums() - 1] is computed on [unsigned]: it wraps around when
    the table is empty. *)
Definition last_id (vs : list VNPtr) : Z :=
  if length vs =? 0 then (2 ^ 32 - 1)%Z else (Z.of_nat (length vs) - 1)%Z.

Definition markValNoForDeletion (A : Arena) (vs : list VNPtr)
    (ValNo : VNPtr) : Res (Arena * list VNPtr) :=
  v <- deref A ValNo ;;
  if (Z.of_nat (VNInfo.id v) =? last_id vs)%Z then
    match reverse vs with
    | [] => Err Undefined
    | _ :: rest =>
      rest' <- pop_unused A rest ;;
      Ok (A, reverse rest')
    end
  else Ok (store A ValNo (VNInfo.markUnused v), vs).

Fixpoint RenumberValues_loop (A : Arena) (vs : list VNPtr)
    (Seen : gset nat) (l : list Segment) : Res (Arena * list VNPtr) :=
  match l with
  | [] => Ok (A, vs)
  | s :: l' =>
    let VNI := valno s in
    if bool_decide (VNI ∈ Seen) then RenumberValues_loop A vs Seen l'
    else
      v <- deref A VNI ;;
      _ <- check (negb (VNInfo.unused v)) AssertionFailed ;;
      RenumberValues_loop (store A VNI (VNInfo.set_id v (length vs)))
        (vs ++ [VNI]) ({[VNI]} ∪ Seen) l'
  end.

Definition RenumberValues (A : Arena) (lr : LiveRange)
  : Res (Arena * LiveRange) :=
  r <- RenumberValues_loop A [] ∅ (segments lr) ;;
  Ok (r.1, with_valnos lr r.2).

Definition addSegmentToSet (lr : LiveRange) (S0 : Segment) : Res LiveRange :=
  match segmentSet lr with
  | Some set =>
    r <- @addSegment CalcLiveRangeUtilSet set S0 ;;
    Ok (with_segmentSet lr (Some r.1))
  | None => Err Undefined
  end.

Definition LiveRange_addSegment (lr : LiveRange) (S0 : Segment)
  : Res (LiveRange * nat) :=
  match segmentSet lr with
  | Some _ =>
    lr' <- addSegmentToSet lr S0 ;;
    Ok (lr', length (segments lr'))
  | None =>
    r <- @addSegment CalcLiveRangeUtilVector (segments lr) S0 ;;
    Ok (with_segments lr r.1, r.2)
  end.

Definition append (lr : LiveRange) (S0 : Segment) : Res LiveRange :=
  _ <- check (match last (segments lr) with
              | None => true
              | Some b => (end_ b <=? start S0)%Z
              end) OrderViolation ;;
  Ok (with_segments lr (segments lr ++ [S0])).

Definition LiveRange_extendInBlock (lr : LiveRange)
    (StartIdx Kill : SlotIndex) : Res (LiveRange * VNPtr) :=
  match segmentSet lr with
  | Some set =>
    r <- @extendInBlock CalcLiveRangeUtilSet set StartIdx Kill ;;
    Ok (with_segmentSet lr (Some r.1), r.2)
  | None =>
    r <- @extendInBlock CalcLiveRangeUtilVector (segments lr) StartIdx Kill ;;
    Ok (with_segments lr r.1, r.2)
  end.

(** The scan of [removeSegment] for another segment of the value:
    [II != I && II->valno == ValNo]. *)
Definition valno_used_elsewhere (l : list Segment) (I : nat) (ValNo : VNPtr)
  : bool :=
  existsb (λ '(II, s), negb (II =? I) && (valno s =? ValNo))
    (imap (λ II s, (II, s)) l).

Definition removeSegment (A : Arena) (lr : LiveRange) (Start End : SlotIndex)
    (RemoveDeadValNo : bool) : Res (Arena * LiveRange) :=
  let segs := segments lr in
  let I := find segs Start in
  _ <- check (negb (I =? length segs)) AssertionFailed ;;
  S0 <- at_ segs I ;;
  c <- Segment_containsInterval S0 Start End ;;
  _ <- check c AssertionFailed ;;
  let ValNo := valno S0 in
  if (start S0 =? Start)%Z then
    if (end_ S0 =? End)%Z then
      r <- (if RemoveDeadValNo && negb (valno_used_elsewhere segs I ValNo)
            then markValNoForDeletion A (valnos lr) ValNo
            else Ok (A, valnos lr)) ;;
      Ok (r.1, with_segments (with_valnos lr r.2) (erase segs I (I + 1)))
    else Ok (A, with_segments lr (<[I := set_start S0 End]> segs))
  else if (end_ S0 =? End)%Z then
    Ok (A, with_segments lr (<[I := set_end S0 Start]> segs))
  else
    let OldEnd := end_ S0 in
    New <- Segment_new End OldEnd ValNo ;;
    Ok (A, with_segments lr
             (insert_at (<[I := set_end S0 Start]> segs) (I + 1) New)).

Definition removeValNo (A : Arena) (lr : LiveRange) (ValNo : VNPtr)
  : Res (Arena * LiveRange) :=
  if length (segments lr) =? 0 then Ok (A, lr)
  else
    let segs := filter (λ s, valno s ≠ ValNo) (segments lr) in
    r <- markValNoForDeletion A (valnos lr) ValNo ;;
    Ok (r.1, with_segments (with_valnos lr r.2) segs).

(** The loop of [MergeValueNumberInto] from the position [I] on. *)
Fixpoint MergeValueNumberInto_loop (fuel : nat) (V1 V2 : VNPtr)
    (segs : list Segment) (I : nat) : Res (list Segment) :=
  match fuel with
  | 0 => Err OutOfFuel
  | S fuel' =>
    if I =? length segs then Ok segs
    else
      s <- at_ segs I ;;
      if negb (valno s =? V1) then
        MergeValueNumberInto_loop fuel' V1 V2 segs (I + 1)
      else
        (* a previous, touching V2 segment absorbs this one; [r] is the
           vector, the iterator [I] and the iterator [S] afterwards *)
        r <- (if negb (I =? 0) then
                Prev <- at_ segs (I - 1) ;;
                if (valno Prev =? V2) && (end_ Prev =? start s)%Z then
                  Ok (erase (<[I - 1 := set_end Prev (end_ s)]> segs)
                        I (I + 1), I - 1 + 1, I - 1)
                else Ok (segs, I + 1, I)
              else Ok (segs, I + 1, I)) ;;
        let '(segs1, I1, S1) := r in
        s1 <- at_ segs1 S1 ;;
        let segs2 := <[S1 := set_valno s1 V2]> segs1 in
        if negb (I1 =? length segs2) then
          n <- at_ segs2 I1 ;;
          s2 <- at_ segs2 S1 ;;
          if (start n =? end_ s2)%Z && (valno n =? V2) then
            MergeValueNumberInto_loop fuel' V1 V2
              (erase (<[S1 := set_end s2 (end_ n)]> segs2) I1 (I1 + 1))
              (S1 + 1)
          else MergeValueNumberInto_loop fuel' V1 V2 segs2 I1
        else MergeValueNumberInto_loop fuel' V1 V2 segs2 I1
  end.

Definition MergeValueNumberInto (A : Arena) (lr : LiveRange)
    (V1 V2 : VNPtr) : Res (Arena * LiveRange * VNPtr) :=
  _ <- check (negb (V1 =? V2)) AssertionFailed ;;
  v1 <- deref A V1 ;;
  v2 <- deref A V2 ;;
  (* make sure V2 is smaller than V1 *)
  let '(A1, V1', V2') :=
    if VNInfo.id v1 <? VNInfo.id v2
    then (store A V1 (VNInfo.copyFrom v1 v2), V2, V1)
    else (A, V1, V2) in
  segs <- MergeValueNumberInto_loop (S (length (segments lr))) V1' V2'
            (segments lr) 0 ;;
  r <- markValNoForDeletion A1 (valnos lr) V1' ;;
  Ok (r.1, with_segments (with_valnos lr r.2) segs, V2').

Definition flushSegmentSet (A : Arena) (lr : LiveRange) : Res LiveRange :=
  match segmentSet lr with
  | None => Err AssertionFailed
  | Some set =>
    _ <- check (length (segments lr) =? 0) AppendPrecondition ;;
    let lr' := with_segmentSet (with_segments lr (segments lr ++ set)) None in
    _ <- verify A lr' ;;
    Ok lr'
  end.

(** ** LiveRangeUpdater *)

(** Modelled from the spec: the fields of [LiveRangeUpdater], which is
    declared in LiveInterval.h.  [LR = None] is a null destination;
    [WriteI] and [ReadI] are positions in [LR->segments]. *)
Record LiveRangeUpdater := mkUpdater {
  LR : option LiveRange;
  LastStart : SlotIndex;
  WriteI : nat;
  ReadI : nat;
  Spills : list Segment
}.

(** Modelled from the spec: the constructor [LiveRangeUpdater(LiveRange *lr)]
    of the absent header leaves a clean updater. *)
Definition LiveRangeUpdater_new (lr : option LiveRange) : LiveRangeUpdater :=
  {| LR := lr; LastStart := SlotIndex_invalid; WriteI := 0; ReadI := 0;
     Spills := [] |}.

(** Modelled from the spec: [isDirty()] of the absent header; the state is
    dirty when [LastStart] is valid. *)
Definition isDirty (u : LiveRangeUpdater) : bool := isValid (LastStart u).

Definition coalescable (A B : Segment) : Res bool :=
  _ <- check (start A <=? start B)%Z OrderViolation ;;
  if (end_ A =? start B)%Z then Ok (valno A =? valno B)
  else if (end_ A <? start B)%Z then Ok false
  else
    _ <- check (valno A =? valno B) OverlapMismatch ;;
    Ok true.

(** The backwards merge of [mergeSpills]. *)
Fixpoint mergeSpills_loop (fuel : nat) (segs Spills : list Segment)
    (Src Dst SpillSrc : nat) : Res (list Segment * nat) :=
  match fuel with
  | 0 => if Src =? Dst then Ok (segs, SpillSrc) else Err OutOfFuel
  | S fuel' =>
    if Src =? Dst then Ok (segs, SpillSrc)
    else
      from_src <- (if negb (Src =? 0) then
                     a <- at_prev segs Src ;;
                     b <- at_prev Spills SpillSrc ;;
                     Ok (start b <? start a)%Z
                   else Ok false) ;;
      _ <- check (negb (Dst =? 0)) Undefined ;;
      if from_src then
        x <- at_prev segs Src ;;
        segs' <- write_at segs (Dst - 1) x ;;
        mergeSpills_loop fuel' segs' Spills (Src - 1) (Dst - 1) SpillSrc
      else
        x <- at_prev Spills SpillSrc ;;
        segs' <- write_at segs (Dst - 1) x ;;
        mergeSpills_loop fuel' segs' Spills Src (Dst - 1) (SpillSrc - 1)
  end.

(** [size_t GapSize = ReadI - WriteI]: the difference of two iterators,
    which wraps around when [ReadI] is before [WriteI]. *)
Definition gap_size (WriteI ReadI : nat) : Z :=
  if ReadI <? WriteI then (2 ^ 64 - (Z.of_nat WriteI - Z.of_nat ReadI))%Z
  else (Z.of_nat ReadI - Z.of_nat WriteI)%Z.

(** [mergeSpills] on the segments of the range, the two iterators and the
    spills. *)
Definition mergeSpills (segs : list Segment) (WriteI ReadI : nat)
    (Spills : list Segment) : Res (list Segment * nat * list Segment) :=
  let GapSize := gap_size WriteI ReadI in
  let NumMoved := Z.to_nat (Z.min (Z.of_nat (length Spills)) GapSize) in
  let Src := WriteI in
  let Dst := Src + NumMoved in
  r <- mergeSpills_loop Dst segs Spills Src Dst (length Spills) ;;
  let '(segs', SpillSrc) := r in
  _ <- check (NumMoved =? length Spills - SpillSrc) AssertionFailed ;;
  Ok (segs', Dst, take SpillSrc Spills).

Definition flush (A : Arena) (u : LiveRangeUpdater) : Res LiveRangeUpdater :=
  if negb (isDirty u) then Ok u
  else
    match LR u with
    | None => Err AssertionFailed
    | Some lr =>
      if length (Spills u) =? 0 then
        let lr' := with_segments lr (erase (segments lr) (WriteI u) (ReadI u)) in
        _ <- verify A lr' ;;
        Ok {| LR := Some lr'; LastStart := SlotIndex_invalid;
              WriteI := WriteI u; ReadI := ReadI u; Spills := Spills u |}
      else
        let GapSize := gap_size (WriteI u) (ReadI u) in
        let segs :=
          if (GapSize <? Z.of_nat (length (Spills u)))%Z then
            take (ReadI u) (segments lr)
            ++ replicate (length (Spills u) - Z.to_nat GapSize) Segment_default
            ++ drop (ReadI u) (segments lr)
          else erase (segments lr) (WriteI u + length (Spills u)) (ReadI u) in
        let ReadI' := WriteI u + length (Spills u) in
        r <- mergeSpills segs (WriteI u) ReadI' (Spills u) ;;
        let '(segs', WriteI', Spills') := r in
        let lr' := with_segments lr segs' in
        _ <- verify A lr' ;;
        Ok {| LR := Some lr'; LastStart := SlotIndex_invalid;
              WriteI := WriteI'; ReadI := ReadI'; Spills := Spills' |}
    end.

(** [while (ReadI != E && ReadI->end <= Seg.start) *WriteI++ = *ReadI++;] *)
Fixpoint advance_copy (fuel : nat) (segs : list Segment) (Start : SlotIndex)
    (WriteI ReadI : nat) : Res (list Segment * nat * nat) :=
  match fuel with
  | 0 => Err OutOfFuel
  | S fuel' =>
    if ReadI =? length segs then Ok (segs, WriteI, ReadI)
    else
      r <- at_ segs ReadI ;;
      if (end_ r <=? Start)%Z then
        segs' <- write_at segs WriteI r ;;
        advance_copy fuel' segs' Start (WriteI + 1) (ReadI + 1)
      else Ok (segs, WriteI, ReadI)
  end.

(** [while (ReadI != E && coalescable(Seg, *ReadI))]; [rest] is the range
    from [ReadI] on, which the loop does not write. *)
Fixpoint coalesce_read (Seg : Segment) (rest : list Segment) (ReadI : nat)
  : Res (Segment * nat) :=
  match rest with
  | [] => Ok (Seg, ReadI)
  | r :: rest' =>
    c <- coalescable Seg r ;;
    if c then
      coalesce_read (set_end Seg (Z.max (end_ Seg) (end_ r))) rest' (ReadI + 1)
    else Ok (Seg, ReadI)
  end.

(** The tail of [add], from "Coalesce as much as possible" on. *)
Definition add_insert (lr : LiveRange) (LastStart : SlotIndex)
    (segs : list Segment) (WriteI ReadI : nat) (Spills : list Segment)
    (Seg : Segment) : Res LiveRangeUpdater :=
  let E := length segs in
  r <- coalesce_read Seg (drop ReadI segs) ReadI ;;
  let '(Seg, ReadI) := r in
  (* try coalescing Spills.back() into Seg *)
  r <- (match last Spills with
        | Some back =>
          c <- coalescable back Seg ;;
          if c then
            Ok (mkSegment (start back) (Z.max (end_ back) (end_ Seg))
                  (valno Seg), removelast Spills)
          else Ok (Seg, Spills)
        | None => Ok (Seg, Spills)
        end) ;;
  let '(Seg, Spills) := r in
  (* try coalescing Seg into WriteI[-1] *)
  r <- (if negb (WriteI =? 0) then
          w <- at_prev segs WriteI ;;
          c <- coalescable w Seg ;;
          if c then Ok (Some (set_end w (Z.max (end_ w) (end_ Seg))))
          else Ok None
        else Ok None) ;;
  match r with
  | Some w' =>
    segs' <- write_at segs (WriteI - 1) w' ;;
    Ok {| LR := Some (with_segments lr segs'); LastStart := LastStart;
          WriteI := WriteI; ReadI := ReadI; Spills := Spills |}
  | None =>
    if negb (WriteI =? ReadI) then
      segs' <- write_at segs WriteI Seg ;;
      Ok {| LR := Some (with_segments lr segs'); LastStart := LastStart;
            WriteI := WriteI + 1; ReadI := ReadI; Spills := Spills |}
    else if WriteI =? E then
      Ok {| LR := Some (with_segments lr (segs ++ [Seg]));
            LastStart := LastStart;
            WriteI := length (segs ++ [Seg]); ReadI := length (segs ++ [Seg]);
            Spills := Spills |}
    else
      Ok {| LR := Some (with_segments lr segs); LastStart := LastStart;
            WriteI := WriteI; ReadI := ReadI; Spills := Spills ++ [Seg] |}
  end.

(** The head of [add]: flush the state if [Start] moves backwards and
    start over from the beginning of the range. *)
Definition add_prepare (A : Arena) (u : LiveRangeUpdater) (Seg : Segment)
  : Res LiveRangeUpdater :=
  if negb (isValid (LastStart u)) || (start Seg <? LastStart u)%Z then
    u' <- (if isDirty u then flush A u else Ok u) ;;
    _ <- check (length (Spills u') =? 0) AssertionFailed ;;
    Ok {| LR := LR u'; LastStart := LastStart u'; WriteI := 0; ReadI := 0;
          Spills := Spills u' |}
  else Ok u.

(** "Advance ReadI until it ends after Seg.start": the segments, the two
    iterators and the spills afterwards. *)
Definition add_advance (segs : list Segment) (WriteI ReadI : nat)
    (Spills : list Segment) (Seg : Segment)
  : Res (list Segment * nat * nat * list Segment) :=
  let E := length segs in
  if negb (ReadI =? E) then
    rd <- at_ segs ReadI ;;
    if (end_ rd <=? start Seg)%Z then
      (* first try to close the gap between WriteI and ReadI with spills *)
      r1 <- (if negb (ReadI =? WriteI)
             then mergeSpills segs WriteI ReadI Spills
             else Ok (segs, WriteI, Spills)) ;;
      let '(segs1, WriteI1, Spills1) := r1 in
      (* then advance ReadI *)
      if ReadI =? WriteI1 then
        Ok (segs1, find segs1 (start Seg), find segs1 (start Seg), Spills1)
      else
        r2 <- advance_copy (S E) segs1 (start Seg) WriteI1 ReadI ;;
        let '(segs2, WriteI2, ReadI2) := r2 in
        Ok (segs2, WriteI2, ReadI2, Spills1)
    else Ok (segs, WriteI, ReadI, Spills)
  else Ok (segs, WriteI, ReadI, Spills).

(** The body of [add] once the state is prepared: advance, check whether
    the [ReadI] segment begins early, then coalesce and insert. *)
Definition add_from (lr : LiveRange) (u : LiveRangeUpdater) (Seg : Segment)
  : Res LiveRangeUpdater :=
  let LastStart := start Seg in
  let E := length (segments lr) in
  r <- add_advance (segments lr) (WriteI u) (ReadI u) (Spills u) Seg ;;
  let '(segs, WriteI, ReadI, Spills) := r in
  _ <- (if negb (ReadI =? E) then
          rd <- at_ segs ReadI ;;
          check (start Seg <? end_ rd)%Z AssertionFailed
        else Ok tt) ;;
  rd <- (if negb (ReadI =? E) then
           rd <- at_ segs ReadI ;;
           if (start rd <=? start Seg)%Z then Ok (Some rd) else Ok None
         else Ok None) ;;
  match rd with
  | Some rd =>
    _ <- check (valno rd =? valno Seg) OverlapMismatch ;;
    (* bail if Seg is completely contained in ReadI *)
    if (end_ Seg <=? end_ rd)%Z then
      Ok {| LR := Some (with_segments lr segs); LastStart := LastStart;
            WriteI := WriteI; ReadI := ReadI; Spills := Spills |}
    else
      add_insert lr LastStart segs WriteI (ReadI + 1) Spills
        (set_start Seg (start rd))
  | None => add_insert lr LastStart segs WriteI ReadI Spills Seg
  end.

Definition add (A : Arena) (u : LiveRangeUpdater) (Seg : Segment)
  : Res LiveRangeUpdater :=
  match LR u with
  | None => Err AssertionFailed
  | Some lr0 =>
    (* fall back to the regular add method if the live range is using the
       segment set *)
    if bool_decide (segmentSet lr0 ≠ None) then
      lr' <- addSegmentToSet lr0 Seg ;;
      Ok {| LR := Some lr'; LastStart := LastStart u; WriteI := WriteI u;
            ReadI := ReadI u; Spills := Spills u |}
    else
      u <- add_prepare A u Seg ;;
      match LR u with
      | None => Err AssertionFailed
      | Some lr => add_from lr u Seg
      end
  end.

(** ** LiveRange::join *)

(** The scan of [join] that decides [MustMapCurValNos]; [i] counts up
    through the value numbers [vs] of the range that remain. *)
Fixpoint join_must_map (LHS : list Z) (NewVNInfo : list VNPtr)
    (vs : list VNPtr) (i : nat) : Res bool :=
  match vs with
  | [] => Ok false
  | vi :: vs' =>
    z <- at_ LHS i ;;
    let LHSValID := (z mod 2 ^ 32)%Z in
    if negb (Z.of_nat i =? LHSValID)%Z then Ok true
    else
      n <- at_Z NewVNInfo LHSValID ;;
      if negb (n =? nullptr) && negb (n =? vi) then Ok true
      else join_must_map LHS NewVNInfo vs' (i + 1)
  end.

(** [NewVNInfo[Assignments[V->id]]] *)
Definition join_lookup (A : Arena) (Assignments : list Z)
    (NewVNInfo : list VNPtr) (V : VNPtr) : Res VNPtr :=
  v <- deref A V ;;
  z <- at_ Assignments (VNInfo.id v) ;;
  at_Z NewVNInfo z.

(** The in-place rewrite of the range's own segments; [rest] is the part
    of the vector the iterator [I] has not read yet. *)
Fixpoint join_map_loop (A : Arena) (LHS : list Z) (NewVNInfo : list VNPtr)
    (segs : list Segment) (OutIt : nat) (rest : list Segment) (I : nat)
  : Res (list Segment * nat) :=
  match rest with
  | [] => Ok (segs, OutIt)
  | s :: rest' =>
    nextValNo <- join_lookup A LHS NewVNInfo (valno s) ;;
    _ <- check (negb (nextValNo =? nullptr)) AssertionFailed ;;
    o <- at_ segs OutIt ;;
    if (valno o =? nextValNo) && (end_ o =? start s)%Z then
      join_map_loop A LHS NewVNInfo (<[OutIt := set_end o (end_ s)]> segs)
        OutIt rest' (I + 1)
    else
      o' <- at_ segs (OutIt + 1) ;;
      let o1 := set_valno o' nextValNo in
      let o2 := if negb (OutIt + 1 =? I)
                then set_end (set_start o1 (start s)) (end_ s) else o1 in
      join_map_loop A LHS NewVNInfo (<[OutIt + 1 := o2]> segs)
        (OutIt + 1) rest' (I + 1)
  end.

Definition join_map (A : Arena) (LHS : list Z) (NewVNInfo : list VNPtr)
    (segs : list Segment) : Res (list Segment) :=
  match segs with
  | [] => Ok segs
  | s0 :: rest =>
    p <- join_lookup A LHS NewVNInfo (valno s0) ;;
    r <- join_map_loop A LHS NewVNInfo (<[0 := set_valno s0 p]> segs) 0
           rest 1 ;;
    let '(segs', OutIt) := r in
    Ok (erase segs' (OutIt + 1) (length segs'))
  end.

Fixpoint join_map_other (A : Arena) (RHS : list Z) (NewVNInfo : list VNPtr)
    (segs : list Segment) : Res (list Segment) :=
  match segs with
  | [] => Ok []
  | s :: rest =>
    p <- join_lookup A RHS NewVNInfo (valno s) ;;
    rest' <- join_map_other A RHS NewVNInfo rest ;;
    Ok (set_valno s p :: rest')
  end.

(** The renumbering loop over [NewVNInfo]. *)
Fixpoint join_renumber (A : Arena) (vs : list VNPtr) (NumVals : nat)
    (NumValNos : nat) (news : list VNPtr) : Res (Arena * list VNPtr * nat) :=
  match news with
  | [] => Ok (A, vs, NumValNos)
  | VNI :: news' =>
    if negb (VNI =? nullptr) then
      vs' <- (if NumVals <=? NumValNos then Ok (vs ++ [VNI])
              else write_at vs NumValNos VNI) ;;
      v <- deref A VNI ;;
      join_renumber (store A VNI (VNInfo.set_id v NumValNos)) vs' NumVals
        (NumValNos + 1) news'
    else join_renumber A vs NumVals NumValNos news'
  end.

Fixpoint add_all (A : Arena) (u : LiveRangeUpdater) (l : list Segment)
  : Res LiveRangeUpdater :=
  match l with
  | [] => Ok u
  | s :: l' =>
    u' <- add A u s ;;
    add_all A u' l'
  end.

(** [join], with the flush that the destructor of its updater runs when the
    function returns.  The result is the arena, this range and [Other]. *)
Definition join (A : Arena) (lr Other : LiveRange)
    (LHSValNoAssignments RHSValNoAssignments : list Z)
    (NewVNInfo : list VNPtr) : Res (Arena * LiveRange * LiveRange) :=
  _ <- verify A lr ;;
  let NumVals := length (valnos lr) in
  let NumNewVals := length NewVNInfo in
  MustMapCurValNos <-
    join_must_map LHSValNoAssignments NewVNInfo (valnos lr) 0 ;;
  segs <- (if MustMapCurValNos && negb (length (segments lr) =? 0)
           then join_map A LHSValNoAssignments NewVNInfo (segments lr)
           else Ok (segments lr)) ;;
  osegs <- join_map_other A RHSValNoAssignments NewVNInfo (segments Other) ;;
  r <- join_renumber A (valnos lr) NumVals 0 NewVNInfo ;;
  let '(A', vs, _) := r in
  let vs' := if NumNewVals <? NumVals then take NumNewVals vs else vs in
  let lr' := with_valnos (with_segments lr segs) vs' in
  u <- add_all A' (LiveRangeUpdater_new (Some lr')) osegs ;;
  u' <- flush A' u ;;
  match LR u' with
  | Some lr'' => Ok (A', lr'', with_segments Other osegs)
  | None => Err AssertionFailed
  end.

(** ** LiveInterval and its sub-ranges *)

(** Modelled from the spec: [LiveInterval::SubRange] is declared in
    LiveInterval.h.  A node of the singly-linked list is a live range, its
    lane mask and the [Next] pointer.  Nodes live in a heap of their own;
    the address [0] is [nullptr]. *)
Record SubRange := mkSubRange {
  SR_range : LiveRange;
  LaneMask : Z;
  Next : nat
}.

Definition set_Next (n : SubRange) (p : nat) : SubRange :=
  {| SR_range := SR_range n; LaneMask := LaneMask n; Next := p |}.

(** Modelled from the spec: [LiveInterval] (declared in LiveInterval.h) is
    a live range, the register and the head of the sub-range list. *)
Record LiveInterval := mkLiveInterval {
  LI_range : LiveRange;
  reg : Z;
  SubRanges : nat
}.

(** The sub-range heap; [freed] records the nodes whose destructor ran
    (the bump allocator does not reclaim their memory). *)
Record SubRangeHeap := mkHeap {
  nodes : gmap nat SubRange;
  freed : list nat
}.

(** A [SubRange **]: the list head of the interval or the [Next] field of
    a node. *)
Inductive NextPtrLoc :=
| HeadOf
| NextOf (a : nat).

Definition node_at (H : SubRangeHeap) (a : nat) : Res SubRange :=
  match a with
  | 0 => Err Undefined
  | _ => match nodes H !! a with
         | Some n => Ok n
         | None => Err Undefined
         end
  end.

(** Modelled from the spec: [empty()] of the absent header holds for a
    range without segments. *)
Definition SubRange_empty (n : SubRange) : bool :=
  length (segments (SR_range n)) =? 0.

(** [*NextPtr = I] *)
Definition write_loc (H : SubRangeHeap) (li : LiveInterval) (loc : NextPtrLoc)
    (p : nat) : Res (SubRangeHeap * LiveInterval) :=
  match loc with
  | HeadOf =>
    Ok (H, {| LI_range := LI_range li; reg := reg li; SubRanges := p |})
  | NextOf a =>
    n <- node_at H a ;;
    Ok ({| nodes := <[a := set_Next n p]> (nodes H); freed := freed H |}, li)
  end.

(** [freeSubRange(S)]: the destructor of the node runs; the heap records
    the call. *)
Definition freeSubRange (H : SubRangeHeap) (a : nat) : SubRangeHeap :=
  {| nodes := nodes H; freed := freed H ++ [a] |}.

(** The inner do-while of [removeEmptySubRanges]: free the run of empty
    nodes that starts at [I]; the result is the first node after it. *)
Fixpoint skip_empty (fuel : nat) (H : SubRangeHeap) (I : nat)
  : Res (SubRangeHeap * nat) :=
  match fuel with
  | 0 => Err OutOfFuel
  | S fuel' =>
    n <- node_at H I ;;
    let Next_ := Next n in
    let H' := freeSubRange H I in
    if negb (Next_ =? 0) then
      n' <- node_at H' Next_ ;;
      if SubRange_empty n' then skip_empty fuel' H' Next_
      else Ok (H', Next_)
    else Ok (H', Next_)
  end.

Fixpoint removeEmptySubRanges_loop (fuel : nat) (H : SubRangeHeap)
    (li : LiveInterval) (NextPtr : NextPtrLoc) (I : nat)
  : Res (SubRangeHeap * LiveInterval) :=
  match fuel with
  | 0 => Err OutOfFuel
  | S fuel' =>
    if I =? 0 then Ok (H, li)
    else
      n <- node_at H I ;;
      if negb (SubRange_empty n) then
        removeEmptySubRanges_loop fuel' H li (NextOf I) (Next n)
      else
        r <- skip_empty fuel' H I ;;
        let '(H', I') := r in
        r' <- write_loc H' li NextPtr I' ;;
        let '(H'', li') := r' in
        removeEmptySubRanges_loop fuel' H'' li' NextPtr I'
  end.

(** [removeEmptySubRanges]; [fuel] bounds the number of nodes visited. *)
Definition removeEmptySubRanges (fuel : nat) (H : SubRangeHeap)
    (li : LiveInterval) : Res (SubRangeHeap * LiveInterval) :=
  removeEmptySubRanges_loop fuel H li HeadOf (SubRanges li).

(** ** Queries on a live range *)

(** The loop of [std::lower_bound] over the positions [I, I + Len) of a
    vector, for a predicate [lt] standing for [*middle < val]. *)
Fixpoint lower_bound_loop (fuel : nat) (lt : Segment → bool)
    (l : list Segment) (I Len : nat) : nat :=
  match fuel with
  | 0 => I
  | S fuel' =>
    if Len =? 0 then I
    else
      let Mid := Nat.div2 Len in
      match l !! (I + Mid) with
      | Some s =>
        if lt s then lower_bound_loop fuel' lt l (I + Mid + 1) (Len - (Mid + 1))
        else lower_bound_loop fuel' lt l I Mid
      | None => I
      end
  end.

(** [std::lower_bound(begin(), end(), Pos)], where [Segment < Pos] compares
    the segment's start. *)
Definition lower_bound (l : list Segment) (Pos : SlotIndex) : nat :=
  lower_bound_loop (length l) (λ s, (start s <? Pos)%Z) l 0 (length l).

(** [LiveRange::overlaps(Start, End)]: whether the range overlaps the
    interval [Start, End). *)
Definition overlaps (l : list Segment) (Start End : SlotIndex) : Res bool :=
  _ <- check (Start <? End)%Z AssertionFailed ;;
  let I := lower_bound l End in
  if I =? 0 then Ok false
  else
    s <- at_ l (I - 1) ;;
    Ok (Start <? end_ s)%Z.

(** The loop of [overlapsFrom]: [i] runs through [a] and [j] through [b];
    the two ranges change roles so that [i] is at the segment that starts
    first. *)
Fixpoint overlapsFrom_loop (fuel : nat) (a : list Segment) (i : nat)
    (b : list Segment) (j : nat) : Res bool :=
  match fuel with
  | 0 => Err OutOfFuel
  | S fuel' =>
    if i =? length a then Ok false
    else
      si <- at_ a i ;;
      sj <- at_ b j ;;
      if (start sj <? start si)%Z then
        (* std::swap(i, j); std::swap(ie, je); *)
        if (start si <? end_ sj)%Z then Ok true
        else overlapsFrom_loop fuel' b (j + 1) a i
      else
        if (start sj <? end_ si)%Z then Ok true
        else overlapsFrom_loop fuel' a (i + 1) b j
  end.

(** [LiveRange::overlapsFrom(other, StartPos)] on the segments of the two
    ranges; [StartPos] is a position in [other]. *)
Definition overlapsFrom (l other : list Segment) (StartPos : nat)
  : Res bool :=
  _ <- check (negb (length l =? 0)) AssertionFailed ;;
  si <- at_ l 0 ;;
  sj <- at_ other StartPos ;;
  _ <- check (((start sj <=? start si)%Z || (StartPos =? 0))
              && negb (StartPos =? length other)) AssertionFailed ;;
  if (start si <? start sj)%Z then
    let i := upper_bound l (start sj) in
    let i := if negb (i =? 0) then i - 1 else i in
    if StartPos =? length other then Ok false
    else overlapsFrom_loop (length l + length other) l i other StartPos
  else if (start sj <? start si)%Z then
    r <- (if negb (StartPos + 1 =? length other) then
            n <- at_ other (StartPos + 1) ;;
            if (start n <=? start si)%Z then
              _ <- check ((StartPos + 1 <? length other) && (0 <? length l))
                     AssertionFailed ;;
              let j :=
                upper_bound_loop (length other - StartPos)
                  (λ s, (start si <? start s)%Z) other StartPos
                  (length other - StartPos) in
              Ok (if negb (j =? 0) then j - 1 else j)
            else Ok StartPos
          else Ok StartPos) ;;
    let j := r in
    if j =? length other then Ok false
    else overlapsFrom_loop (length l + length other) l 0 other j
  else Ok true.

(** ** Merging the segments of another range *)

(** Modelled from the spec: [LiveRangeUpdater::add(Start, End, VNI)] of the
    absent header builds the segment and adds it; the loop of
    [MergeSegmentsInAsValue] runs it on every segment of [RHS]. *)
Fixpoint add_all_as (A : Arena) (u : LiveRangeUpdater) (l : list Segment)
    (LHSValNo : VNPtr) : Res LiveRangeUpdater :=
  match l with
  | [] => Ok u
  | s :: l' =>
    Seg <- Segment_new (start s) (end_ s) LHSValNo ;;
    u' <- add A u Seg ;;
    add_all_as A u' l' LHSValNo
  end.

(** [MergeSegmentsInAsValue], with the flush that the destructor of its
    updater runs when the function returns. *)
Definition MergeSegmentsInAsValue (A : Arena) (lr RHS : LiveRange)
    (LHSValNo : VNPtr) : Res LiveRange :=
  u <- add_all_as A (LiveRangeUpdater_new (Some lr)) (segments RHS)
         LHSValNo ;;
  u' <- flush A u ;;
  match LR u' with
  | Some lr' => Ok lr'
  | None => Err AssertionFailed
  end.

(** [MergeValueInAsValue]: the same for the segments of [RHS] whose value
    is [RHSValNo]. *)
Fixpoint add_value_as (A : Arena) (u : LiveRangeUpdater) (l : list Segment)
    (RHSValNo LHSValNo : VNPtr) : Res LiveRangeUpdater :=
  match l with
  | [] => Ok u
  | s :: l' =>
    if valno s =? RHSValNo then
      Seg <- Segment_new (start s) (end_ s) LHSValNo ;;
      u' <- add A u Seg ;;
      add_value_as A u' l' RHSValNo LHSValNo
    else add_value_as A u l' RHSValNo LHSValNo
  end.

Definition MergeValueInAsValue (A : Arena) (lr RHS : LiveRange)
    (RHSValNo LHSValNo : VNPtr) : Res LiveRange :=
  u <- add_value_as A (LiveRangeUpdater_new (Some lr)) (segments RHS)
         RHSValNo LHSValNo ;;
  u' <- flush A u ;;
  match LR u' with
  | Some lr' => Ok lr'
  | None => Err AssertionFailed
  end.

(** ** Clearing the sub-ranges *)

(** The loop of [clearSubRanges] from the node [I] on. *)
Fixpoint clearSubRanges_loop (fuel : nat) (H : SubRangeHeap) (I : nat)
  : Res SubRangeHeap :=
  match fuel with
  | 0 => Err OutOfFuel
  | S fuel' =>
    if I =? 0 then Ok H
    else
      n <- node_at H I ;;
      let Next_ := Next n in
      clearSubRanges_loop fuel' (freeSubRange H I) Next_
  end.

(** [clearSubRanges]; [fuel] bounds the number of nodes visited. *)
Definition clearSubRanges (fuel : nat) (H : SubRangeHeap) (li : LiveInterval)
  : Res (SubRangeHeap * LiveInterval) :=
  H' <- clearSubRanges_loop fuel H (SubRanges li) ;;
  Ok (H', {| LI_range := LI_range li; reg := reg li; SubRanges := 0 |}).

(** ** DistributeRange *)

(** [VNIClasses[S.valno->id]] *)
Definition class_of (A : Arena) (VNIClasses : list nat) (s : Segment)
  : Res nat :=
  v <- deref A (valno s) ;;
  at_ VNIClasses (VNInfo.id v).

(** [SplitLRs[eq-1]]: the targets are an array of pointers to ranges that
    are distinct objects; a null pointer is [None]. *)
Definition split_at_class (SplitLRs : list (option LiveRange)) (eq : nat)
  : Res LiveRange :=
  T <- at_ SplitLRs (eq - 1) ;;
  match T with
  | Some T => Ok T
  | None => Err Undefined
  end.

(** Modelled from the spec: [expiredAt] of the absent header; a range is
    expired at a slot at or after the end of its last segment. *)
Definition expiredAt (l : list Segment) (index : SlotIndex) : Res bool :=
  match last l with
  | Some back => Ok (end_ back <=? index)%Z
  | None => Err AssertionFailed
  end.

(** [while (J != E && VNIClasses[J->valno->id] == 0) ++J;] with [n]
    segments left before [E]. *)
Fixpoint DistributeRange_skip (n : nat) (A : Arena) (VNIClasses : list nat)
    (segs : list Segment) (J : nat) : Res nat :=
  match n with
  | 0 => Ok J
  | S n' =>
    s <- at_ segs J ;;
    c <- class_of A VNIClasses s ;;
    if c =? 0 then DistributeRange_skip n' A VNIClasses segs (J + 1)
    else Ok J
  end.

(** The loop that moves the segments, with [n] segments left before [E]. *)
Fixpoint DistributeRange_move (n : nat) (A : Arena) (VNIClasses : list nat)
    (segs : list Segment) (SplitLRs : list (option LiveRange)) (J I : nat)
  : Res (list Segment * list (option LiveRange) * nat) :=
  match n with
  | 0 => Ok (segs, SplitLRs, J)
  | S n' =>
    s <- at_ segs I ;;
    eq <- class_of A VNIClasses s ;;
    if negb (eq =? 0) then
      T <- split_at_class SplitLRs eq ;;
      ex <- (if length (segments T) =? 0 then Ok true
             else expiredAt (segments T) (start s)) ;;
      _ <- check ex AssertionFailed ;;
      DistributeRange_move n' A VNIClasses segs
        (<[eq - 1 := Some (with_segments T (segments T ++ [s]))]> SplitLRs)
        J (I + 1)
    else
      segs' <- write_at segs J s ;;
      DistributeRange_move n' A VNIClasses segs' SplitLRs (J + 1) (I + 1)
  end.

(** [while (j != e && VNIClasses[j] == 0) ++j;] with [n] values left
    before [e]. *)
Fixpoint DistributeRange_skip_values (n : nat) (VNIClasses : list nat)
    (j : nat) : Res nat :=
  match n with
  | 0 => Ok j
  | S n' =>
    c <- at_ VNIClasses j ;;
    if c =? 0 then DistributeRange_skip_values n' VNIClasses (j + 1)
    else Ok j
  end.

(** The loop that transfers the value numbers, with [n] values left
    before [e]. *)
Fixpoint DistributeRange_values (n : nat) (A : Arena)
    (VNIClasses : list nat) (vs : list VNPtr)
    (SplitLRs : list (option LiveRange)) (j i : nat)
  : Res (Arena * list VNPtr * list (option LiveRange) * nat) :=
  match n with
  | 0 => Ok (A, vs, SplitLRs, j)
  | S n' =>
    VNI <- at_ vs i ;;
    eq <- at_ VNIClasses i ;;
    v <- deref A VNI ;;
    if negb (eq =? 0) then
      T <- split_at_class SplitLRs eq ;;
      DistributeRange_values n'
        (store A VNI (VNInfo.set_id v (length (valnos T)))) VNIClasses vs
        (<[eq - 1 := Some (with_valnos T (valnos T ++ [VNI]))]> SplitLRs)
        j (i + 1)
    else
      vs' <- write_at vs j VNI ;;
      DistributeRange_values n' (store A VNI (VNInfo.set_id v j)) VNIClasses
        vs' SplitLRs (j + 1) (i + 1)
  end.

(** [DistributeRange(LR, SplitLRs, VNIClasses)]: the arena, the range and
    the targets afterwards. *)
Definition DistributeRange (A : Arena) (lr : LiveRange)
    (SplitLRs : list (option LiveRange)) (VNIClasses : list nat)
  : Res (Arena * LiveRange * list (option LiveRange)) :=
  let E := length (segments lr) in
  J <- DistributeRange_skip E A VNIClasses (segments lr) 0 ;;
  r <- DistributeRange_move (E - J) A VNIClasses (segments lr) SplitLRs J J ;;
  let '(segs, SplitLRs1, J1) := r in
  let segs' := erase segs J1 E in
  let e := length (valnos lr) in
  j <- DistributeRange_skip_values e VNIClasses 0 ;;
  r <- DistributeRange_values (e - j) A VNIClasses (valnos lr) SplitLRs1
         j j ;;
  let '(A', vs, SplitLRs2, j1) := r in
  Ok (A', with_valnos (with_segments lr segs') (take j1 vs), SplitLRs2).

(** ** Queries that walk two ranges *)

(** The [do ... while] of [overlaps(Other, CP, Indexes)]:
    [do if (++J == JE) return false; while (J->end < I->start);]
    The result is [None] when the function returns. *)
Fixpoint overlaps_advance (fuel : nat) (b : list Segment) (J : nat)
    (IStart : SlotIndex) : Res (option nat) :=
  match fuel with
  | 0 => Err OutOfFuel
  | S fuel' =>
    let J := J + 1 in
    if J =? length b then Ok None
    else
      sj <- at_ b J ;;
      if (end_ sj <? IStart)%Z then overlaps_advance fuel' b J IStart
      else Ok (Some J)
  end.

(** The [for (;;)] of [overlaps(Other, CP, Indexes)]; [I] is a position
    in [a] and [J] one in [b], and the two ranges change roles so that
    [J] is advanced.  [isCoalescable Def] stands for
    [CP.isCoalescable(Indexes.getInstructionFromIndex(Def))], which is
    code of the register coalescer. *)
Fixpoint overlaps_loop (fuel : nat) (isCoalescable : SlotIndex → bool)
    (a : list Segment) (I : nat) (b : list Segment) (J : nat) : Res bool :=
  match fuel with
  | 0 => Err OutOfFuel
  | S fuel' =>
    si <- at_ a I ;;
    sj <- at_ b J ;;
    _ <- check (start si <=? end_ sj)%Z AssertionFailed ;;
    let Def := Z.max (start si) (start sj) in
    if (start sj <? end_ si)%Z && (isBlock Def || negb (isCoalescable Def))
    then Ok true
    else
      (* std::swap(I, J); std::swap(IE, JE); *)
      let '(a', I', si', b', J') :=
        if (end_ si <? end_ sj)%Z then (b, J, sj, a, I)
        else (a, I, si, b, J) in
      r <- overlaps_advance (length b') b' J' (start si') ;;
      match r with
      | None => Ok false
      | Some J' => overlaps_loop fuel' isCoalescable a' I' b' J'
      end
  end.

(** [LiveRange::overlaps(Other, CP, Indexes)] on the segments of the two
    ranges. *)
Definition overlaps_coalescable (isCoalescable : SlotIndex → bool)
    (l other : list Segment) : Res bool :=
  _ <- check (negb (length l =? 0)) AssertionFailed ;;
  match head other with
  | None => Ok false
  | Some o0 =>
    (* Other.beginIndex() *)
    let I := find l (start o0) in
    if I =? length l then Ok false
    else
      si <- at_ l I ;;
      let J := find other (start si) in
      if J =? length other then Ok false
      else overlaps_loop (length l + length other) isCoalescable l I other J
  end.

(** Modelled from the spec: [advanceTo(I, Pos)] is declared in the absent
    header; the cursor [I], which is not [end()], moves forward to the
    first segment that ends after [Pos], and to [end()] when [Pos] is at
    or after the end of the last segment. *)
Fixpoint advanceTo_loop (fuel : nat) (l : list Segment) (I : nat)
    (Pos : SlotIndex) : Res nat :=
  match fuel with
  | 0 => Err OutOfFuel
  | S fuel' =>
    s <- at_ l I ;;
    if (end_ s <=? Pos)%Z then advanceTo_loop fuel' l (I + 1) Pos
    else Ok I
  end.

Definition advanceTo (l : list Segment) (I : nat) (Pos : SlotIndex)
  : Res nat :=
  _ <- check (negb (I =? length l)) AssertionFailed ;;
  match last l with
  | None => Err AssertionFailed
  | Some back =>
    if (end_ back <=? Pos)%Z then Ok (length l)
    else advanceTo_loop (length l) l I Pos
  end.

(** The [while (I->end < O.end)] of [covers]: the cursor follows the
    segments that are adjacent.  The result is [None] when the function
    returns false. *)
Fixpoint covers_follow (fuel : nat) (l : list Segment) (I : nat)
    (OEnd : SlotIndex) : Res (option nat) :=
  match fuel with
  | 0 => Err OutOfFuel
  | S fuel' =>
    s <- at_ l I ;;
    if (end_ s <? OEnd)%Z then
      let Last := s in
      let I := I + 1 in
      if I =? length l then Ok None
      else
        n <- at_ l I ;;
        if negb (end_ Last =? start n)%Z then Ok None
        else covers_follow fuel' l I OEnd
    else Ok (Some I)
  end.

(** The loop of [covers] over the segments [O] of [Other]. *)
Fixpoint covers_loop (l : list Segment) (I : nat) (other : list Segment)
  : Res bool :=
  match other with
  | [] => Ok true
  | OSeg :: other' =>
    I <- advanceTo l I (start OSeg) ;;
    if I =? length l then Ok false
    else
      s <- at_ l I ;;
      if (start OSeg <? start s)%Z then Ok false
      else
        r <- covers_follow (length l) l I (end_ OSeg) ;;
        match r with
        | None => Ok false
        | Some I' => covers_loop l I' other'
        end
  end.

(** [LiveRange::covers(Other)] on the segments of the two ranges. *)
Definition covers (l other : list Segment) : Res bool :=
  if length l =? 0 then Ok (length other =? 0)
  else covers_loop l 0 other.

(** The loop of [isLiveAtIndexes] over the slots. *)
Fixpoint isLiveAtIndexes_loop (l : list Segment) (SegmentI : nat)
    (Slots : list SlotIndex) : Res bool :=
  match Slots with
  | [] => Ok false
  | Slot :: Slots' =>
    SegmentI <- advanceTo l SegmentI Slot ;;
    if SegmentI =? length l then Ok false
    else
      s <- at_ l SegmentI ;;
      if Segment_contains s Slot then Ok true
      else isLiveAtIndexes_loop l SegmentI Slots'
  end.

(** [LiveRange::isLiveAtIndexes(Slots)]. *)
Definition isLiveAtIndexes (l : list Segment) (Slots : list SlotIndex)
  : Res bool :=
  match Slots with
  | [] => Ok false
  | Slot :: _ =>
    let SegmentI := find l Slot in
    if SegmentI =? length l then Ok false
    else isLiveAtIndexes_loop l SegmentI Slots
  end.

(** ** [LiveInterval::verify] *)

(** The loop of [LiveInterval::verify] over the sub-ranges, from the
    node [I] on; [Mask] holds the lanes of the sub-ranges seen, and lane
    masks are 32-bit. *)
Fixpoint LiveInterval_verify_loop (fuel : nat) (A : Arena)
    (H : SubRangeHeap) (main : list Segment) (MaxMask Mask : Z) (I : nat)
  : Res unit :=
  match fuel with
  | 0 => Err OutOfFuel
  | S fuel' =>
    if I =? 0 then Ok tt
    else
      SR <- node_at H I ;;
      _ <- check (Z.land Mask (LaneMask SR) =? 0)%Z AssertionFailed ;;
      let Mask := Z.lor Mask (LaneMask SR) in
      _ <- check (Z.land Mask (Z.lxor MaxMask (2 ^ 32 - 1)) =? 0)%Z
             AssertionFailed ;;
      _ <- check (negb (SubRange_empty SR)) AssertionFailed ;;
      _ <- verify A (SR_range SR) ;;
      c <- covers main (segments (SR_range SR)) ;;
      _ <- check c AssertionFailed ;;
      LiveInterval_verify_loop fuel' A H main MaxMask Mask (Next SR)
  end.

(** [LiveInterval::verify(MRI)]; [MaxMask] is [None] when [MRI] is null,
    else the value of [MRI->getMaxLaneMaskForVReg(reg)], and [fuel]
    bounds the number of nodes visited. *)
Definition LiveInterval_verify (fuel : nat) (A : Arena) (H : SubRangeHeap)
    (li : LiveInterval) (MaxMask : option Z) : Res unit :=
  _ <- verify A (LI_range li) ;;
  let Mask := 0%Z in
  let MaxMask := match MaxMask with
                 | Some m => m
                 | None => (2 ^ 32 - 1)%Z
                 end in
  LiveInterval_verify_loop fuel A H (segments (LI_range li)) MaxMask Mask
    (SubRanges li).

(** * Specifications *)

(** [a] lies before [b] and cannot be coalesced with it. *)
Definition seg_before (a b : Segment) : Prop :=
  (end_ a ≤ start b)%Z ∧ ((end_ a = start b)%Z → valno a ≠ valno b).

(** Invariants 1-3 of a live range: every segment is a forward interval,
    consecutive segments do not overlap, and touching ones differ in
    value. *)
Fixpoint ordered (l : list Segment) : Prop :=
  match l with
  | [] => True
  | s :: l' =>
    (start s < end_ s)%Z
    ∧ match l' with
      | [] => True
      | n :: _ => seg_before s n
      end
    ∧ ordered l'
  end.

(** [r] splits [l] into a part where [p] fails and a part where it holds. *)
Definition partition_point (p : Segment → bool)
    (l : list Segment) (r : nat)
  : Prop :=
  r ≤ length l
  ∧ (∀ i a, i < r → l !! i = Some a → p a = false)
  ∧ (∀ i a, r ≤ i → l !! i = Some a → p a = true).

(** The handle [p] is an entry of the table [vs] at its own id. *)
Definition vn_in_table (A : Arena) (vs : list VNPtr) (p : VNPtr) : Prop :=
  ∃ v, deref A p = Ok v ∧ vs !! VNInfo.id v = Some p.

(** The handle [p] is an entry of the table that is not flagged unused. *)
Definition vn_live (A : Arena) (vs : list VNPtr) (p : VNPtr) : Prop :=
  ∃ v, deref A p = Ok v ∧ vs !! VNInfo.id v = Some p
       ∧ VNInfo.unused v = false.

(** The invariants 1-5 of the data model, for a range in vector form whose
    table holds handles of the arena. *)
Record LRInv (A : Arena) (lr : LiveRange) : Prop := mkLRInv {
  inv_vector : segmentSet lr = None;
  inv_ordered : ordered (segments lr);
  inv_valid : Forall (λ s, (0 ≤ start s)%Z) (segments lr);
  inv_table : Forall (λ s, vn_live A (valnos lr) (valno s)) (segments lr);
  inv_handles : Forall (λ p, ∃ v, deref A p = Ok v) (valnos lr)
}.

(** What [LiveRange::verify] asserts. *)
Definition verified (A : Arena) (lr : LiveRange) : Prop :=
  ordered (segments lr)
  ∧ Forall (λ s, (0 ≤ start s)%Z) (segments lr)
  ∧ Forall (λ s, vn_in_table A (valnos lr) (valno s)) (segments lr).

(** The effect of [markValNoForDeletion] on a value number of the table,
    spelled out. *)
Definition marked_for_deletion (A : Arena) (vs : list VNPtr) (ValNo : VNPtr)
    (A' : Arena) (vs' : list VNPtr) : Prop :=
  ∃ v, deref A ValNo = Ok v ∧
  if decide (VNInfo.id v = length vs - 1) then
    (* the final slot: it is popped, with the unused entries before it *)
    A' = A ∧ ∃ k, vs' = take k vs ∧ k ≤ VNInfo.id v
      ∧ (∀ i p, k ≤ i < VNInfo.id v → vs !! i = Some p →
           ∃ w, deref A p = Ok w ∧ VNInfo.unused w = true)
      ∧ (∀ p, last vs' = Some p →
           ∃ w, deref A p = Ok w ∧ VNInfo.unused w = false)
  else
    (* any other slot: it is flagged, in place *)
    vs' = vs ∧ A' = store A ValNo (VNInfo.markUnused v).

(** [Start, End) lies within one segment of the range. *)
Definition within_segment (l : list Segment) (Start End : SlotIndex) : Prop :=
  (Start < End)%Z ∧ ∃ s, s ∈ l ∧ (start s ≤ Start)%Z ∧ (End ≤ end_ s)%Z.

(** The end the extended segment gets before it looks at [MergeTo]. *)
Definition end_before_merge (s : Segment) (NewEnd : SlotIndex)
    (swallowed : list Segment) : SlotIndex :=
  Z.max NewEnd (match last swallowed with
                | Some n => end_ n
                | None => end_ s
                end).

(** [extendSegmentEndTo] on the segment [s] between [pre] and [rest], of
    which the scan swallows the first [k] segments. *)
Definition extended_end (pre : list Segment) (s : Segment)
    (rest : list Segment) (NewEnd : SlotIndex) (k : nat) : list Segment :=
  let e1 := end_before_merge s NewEnd (take k rest) in
  match drop k rest with
  | M :: post =>
    if (start M <=? e1)%Z && (valno M =? valno s)
    then pre ++ set_end s (end_ M) :: post
    else pre ++ set_end s e1 :: M :: post
  | [] => pre ++ [set_end s e1]
  end.

(** What [extendInBlock] does to the segment [s] that precedes [Use], when
    the segments after it start at or after [Use]: the new end of [s] and
    the segments that stay after it. *)
Definition extended_in_block (s : Segment) (post : list Segment)
    (Use : SlotIndex) : SlotIndex * list Segment :=
  if (end_ s <? Use)%Z then
    match post with
    | M :: post' =>
      if (start M =? Use)%Z && (valno M =? valno s)
      then (end_ M, post') else (Use, post)
    | [] => (Use, post)
    end
  else (end_ s, post).

(** The value number [createDeadDef] allocates. *)
Definition new_value (vs : list VNPtr) (Def : SlotIndex) : VNInfo.t :=
  {| VNInfo.id := length vs; VNInfo.def := Def; VNInfo.unused := false;
     VNInfo.phi_def := false |}.

(** The first segment that ends after [Def], if there is one. *)
Definition first_after (l : list Segment) (Def : SlotIndex)
  : option Segment := l !! find l Def.

(** What a caller of [createDeadDef] must ensure: the slot is a valid
    one and not a dead slot; a first segment ending after [Def] either
    starts in a later instruction, or starts in the same instruction, at
    the def of its value, no segment of that value ending at [Def]. *)
Definition createDeadDef_pre (A : Arena) (lr : LiveRange) (Def : SlotIndex)
  : Prop :=
  (0 ≤ Def)%Z ∧ isDead Def = false ∧
  ∀ s, first_after (segments lr) Def = Some s →
    if isSameInstr Def (start s) then
      (∃ v, deref A (valno s) = Ok v ∧ VNInfo.def v = start s)
      ∧ (∀ a, a ∈ segments lr → end_ a = Def → valno a ≠ valno s)
    else isEarlierInstr Def (start s) = true.

(** Every segment of [l'] has the start and the value of a segment of [l]. *)
Definition same_keys (l l' : list Segment) : Prop :=
  Forall (λ n, ∃ m, m ∈ l ∧ start n = start m ∧ valno n = valno m) l'.

(** No segment of another value overlaps [S0]. *)
Definition no_conflict (l : list Segment) (S0 : Segment) : Prop :=
  ∀ n, n ∈ l → valno n ≠ valno S0 →
       (end_ n ≤ start S0)%Z ∨ (end_ S0 ≤ start n)%Z.

(** What a caller of [addSegment] must ensure: the segment is a forward
    interval of valid slots, its value is a live entry of the table, and no
    segment of another value overlaps it. *)
Definition addSegment_pre (A : Arena) (lr : LiveRange) (S0 : Segment) : Prop :=
  (0 ≤ start S0)%Z ∧ (start S0 < end_ S0)%Z
  ∧ vn_live A (valnos lr) (valno S0)
  ∧ no_conflict (segments lr) S0.

(** The value [v] is live at the position [p]. *)
Definition live_at (l : list Segment) (p : SlotIndex) (v : VNPtr) : Prop :=
  ∃ s, s ∈ l ∧ (start s ≤ p < end_ s)%Z ∧ valno s = v.

(** One round of the loop on a [V1] segment [S0] between [pre] and [post]:
    the list before the resulting segment, that segment, and the list
    after it. *)
Definition merge_step (V2 : VNPtr) (pre : list Segment) (S0 : Segment)
    (post : list Segment) : list Segment * Segment * list Segment :=
  let '(pre1, S1) :=
    match reverse pre with
    | Prev :: rp =>
      if (valno Prev =? V2) && (end_ Prev =? start S0)%Z
      then (reverse rp, set_end Prev (end_ S0))
      else (pre, S0)
    | [] => (pre, S0)
    end in
  let S1v := set_valno S1 V2 in
  match post with
  | N :: post' =>
    if (start N =? end_ S1v)%Z && (valno N =? V2)
    then (pre1, set_end S1v (end_ N), post')
    else (pre1, S1v, post)
  | [] => (pre1, S1v, post)
  end.

(** [l'] covers the points of [l], with the same values except that [V1]
    may have become [V2]. *)
Definition relabels (V1 V2 : VNPtr) (l l' : list Segment) : Prop :=
  ∀ p, (∀ v', live_at l' p v' →
          ∃ v, live_at l p v ∧ (v' = v ∨ (v = V1 ∧ v' = V2)))
       ∧ (∀ v, live_at l p v → ∃ v', live_at l' p v').

(** Every segment of [l'] starts where a segment of [l] starts and has
    its value or [V2]. *)
Definition merged_keys (V2 : VNPtr) (l l' : list Segment) : Prop :=
  Forall (λ n, ∃ m, m ∈ l ∧ start n = start m
                    ∧ (valno n = valno m ∨ valno n = V2)) l'.

(** The survivor and the loser of a merge: the survivor has the smaller id. *)
Definition survivor (v1 v2 : VNInfo.t) (V1 V2 : VNPtr) : VNPtr :=
  if VNInfo.id v1 <? VNInfo.id v2 then V1 else V2.

Definition loser (v1 v2 : VNInfo.t) (V1 V2 : VNPtr) : VNPtr :=
  if VNInfo.id v1 <? VNInfo.id v2 then V2 else V1.

(** The arena once the survivor carries the definition of [V2]. *)
Definition arena_after_copy (A : Arena) (v1 v2 : VNInfo.t) (V1 : VNPtr)
  : Arena :=
  if VNInfo.id v1 <? VNInfo.id v2 then store A V1 (VNInfo.copyFrom v1 v2)
  else A.

(** What a caller of [MergeValueNumberInto] must ensure: two different
    entries of the table, the second one in use. *)
Definition MergeValueNumberInto_pre (A : Arena) (lr : LiveRange)
    (V1 V2 : VNPtr) : Prop :=
  V1 ≠ V2 ∧ vn_in_table A (valnos lr) V1 ∧ vn_live A (valnos lr) V2.

(** The heap holds the linked list [l] of (address, node) pairs from the
    pointer [head] on. *)
Fixpoint is_list (N : gmap nat SubRange) (head : nat)
    (l : list (nat * SubRange)) : Prop :=
  match l with
  | [] => head = 0
  | (a, n) :: l' =>
    head = a ∧ a ≠ 0 ∧ N !! a = Some n ∧ is_list N (Next n) l'
  end.

(** The address of the first node of a list, [nullptr] if there is none. *)
Definition head_addr (l : list (nat * SubRange)) : nat :=
  match l with
  | [] => 0
  | (a, _) :: _ => a
  end.

(** The node holds a sub-range without segments. *)
Definition node_empty (x : nat * SubRange) : Prop :=
  SubRange_empty x.2 = true.

Global Instance node_empty_dec x : Decision (node_empty x).
Proof. unfold node_empty. apply _. Defined.

(** What a [SubRange **] points to. *)
Definition read_loc (N : gmap nat SubRange) (li : LiveInterval)
    (loc : NextPtrLoc) : nat :=
  match loc with
  | HeadOf => SubRanges li
  | NextOf a => match N !! a with
                | Some n => Next n
                | None => 0
                end
  end.

(** The location is the list head, or a live node outside the list [l]. *)
Definition loc_ok (N : gmap nat SubRange) (loc : NextPtrLoc)
    (l : list (nat * SubRange)) : Prop :=
  match loc with
  | HeadOf => True
  | NextOf a => a ≠ 0 ∧ is_Some (N !! a) ∧ a ∉ l.*1
  end.

(** The nodes [l'] are the nodes [l] up to their [Next] pointers. *)
Definition same_nodes (l l' : list (nat * SubRange)) : Prop :=
  Forall2 (λ x y, x.1 = y.1 ∧ SR_range x.2 = SR_range y.2
                  ∧ LaneMask x.2 = LaneMask y.2) l l'.

(** The backwards merge, on the two lists last element first: the later
    start goes first, the spill when in doubt; once the spills are used up
    the rest of the range stays as it is. *)
Fixpoint merge_desc (ra : list Segment) : list Segment → list Segment :=
  fix inner (rs : list Segment) : list Segment :=
    match rs with
    | [] => ra
    | x :: rs' =>
      match ra with
      | [] => x :: inner rs'
      | a :: ra' =>
        if (start x <? start a)%Z then a :: merge_desc ra' rs
        else x :: inner rs'
      end
    end.

(** The merge of area 1 and spills, first element first. *)
Definition merge_asc (a1 sp : list Segment) : list Segment :=
  reverse (merge_desc (reverse a1) (reverse sp)).

(** [ordered], read from the last segment backwards. *)
Fixpoint sorted_desc (l : list Segment) : Prop :=
  match l with
  | [] => True
  | a :: l' =>
    (start a < end_ a)%Z ∧ Forall (λ y, seg_before y a) l' ∧ sorted_desc l'
  end.

(** The three areas of the comment that heads the class, and the gap
    between the first two. *)
Record Areas := mkAreas {
  area1 : list Segment;
  gap : list Segment;
  area2 : list Segment;
  spills : list Segment
}.

(** The segments the state stands for. *)
Definition pts (s : Areas) : list Segment :=
  area1 s ++ spills s ++ area2 s.

(** The updater [u] on the range [lr] is in the state [s]. *)
Definition repr (u : LiveRangeUpdater) (lr : LiveRange) (s : Areas) : Prop :=
  LR u = Some lr ∧ segmentSet lr = None
  ∧ segments lr = area1 s ++ gap s ++ area2 s
  ∧ WriteI u = length (area1 s)
  ∧ ReadI u = length (area1 s) + length (gap s)
  ∧ Spills u = spills s.

(** The invariants of the class: the areas are ordered and coalesced,
    area 1 and the spills precede area 2 and cannot be coalesced with it,
    area 1 and the spills neither overlap nor can be coalesced, and both
    start at or before [last]. *)
Definition UInv (s : Areas) (last : SlotIndex) : Prop :=
  ordered (area1 s) ∧ ordered (spills s) ∧ ordered (area2 s)
  ∧ (∀ a b, a ∈ area1 s ++ spills s → b ∈ area2 s → seg_before a b)
  ∧ (∀ a x, a ∈ area1 s → x ∈ spills s → seg_before a x ∨ seg_before x a)
  ∧ (∀ a, a ∈ area1 s ++ spills s → (start a ≤ last)%Z).

(** The range a flush leaves behind. *)
Definition flushed (s : Areas) : list Segment :=
  merge_asc (area1 s) (spills s) ++ area2 s.

(** A segment the range may hold: a valid start and a live value. *)
Definition seg_wf (A : Arena) (vs : list VNPtr) (s : Segment) : Prop :=
  (0 ≤ start s)%Z ∧ vn_live A vs (valno s).

(** The state of the updater after the advance: the last spills (from the
    [j]-th on) are merged into area 1, and the first [m] segments of
    area 2 have moved behind them. *)
Definition advanced (s : Areas) (j m : nat) (G' : list Segment) : Areas :=
  {| area1 := merge_asc (area1 s) (drop j (spills s)) ++ take m (area2 s);
     gap := G'; area2 := drop m (area2 s); spills := take j (spills s) |}.

(** The updater on [lr] in the state [s]. *)
Definition updater_of (lr : LiveRange) (L : SlotIndex) (s : Areas)
  : LiveRangeUpdater :=
  {| LR := Some (with_segments lr (area1 s ++ gap s ++ area2 s));
     LastStart := L; WriteI := length (area1 s);
     ReadI := length (area1 s) + length (gap s); Spills := spills s |}.

(** What the segment [NEW] that [add] stores stands for: it has the value
    of [N], begins where [N] or a segment of the same value begins, and
    every point of it is a point of [N] or was live with that value. *)
Definition stands_for (l : list Segment) (N NEW : Segment) : Prop :=
  valno NEW = valno N ∧ (start NEW < end_ NEW)%Z
  ∧ (start NEW = start N
     ∨ ∃ y, y ∈ l ∧ start NEW = start y ∧ valno y = valno N)
  ∧ (∀ p, (start NEW ≤ p < end_ NEW)%Z →
          (start N ≤ p < end_ N)%Z ∨ live_at l p (valno N)).

(** Two segments that share a point have different values exactly when
    they conflict. *)
Definition consistent (l : list Segment) : Prop :=
  ∀ p v v', live_at l p v → live_at l p v' → v = v'.

(** The updater [u] works on the range [lr], whose value table is [vs],
    and stands for the segments of [s].  A clean updater has no spills
    and stands for the segments of the range. *)
Definition updater_ok (A : Arena) (vs : list VNPtr)
    (u : LiveRangeUpdater) (lr : LiveRange) (s : Areas)
  : Prop :=
  LR u = Some lr ∧ segmentSet lr = None ∧ valnos lr = vs
  ∧ Forall (seg_wf A vs) (pts s)
  ∧ if isValid (LastStart u) then repr u lr s ∧ UInv s (LastStart u)
    else Spills u = [] ∧ s = mkAreas [] [] (segments lr) []
         ∧ ordered (segments lr).

(** [NewVNInfo[Assignments[V->id]]], or [nullptr] where it is not
    defined. *)
Definition value_map (A : Arena) (Asg : list Z) (New : list VNPtr)
    (V : VNPtr) : VNPtr :=
  match join_lookup A Asg New V with
  | Ok P => P
  | Err _ => nullptr
  end.

(** The segment [s] with its value mapped by [f]. *)
Definition remap (f : VNPtr → VNPtr) (s : Segment) : Segment :=
  set_valno s (f (valno s)).

(** The segments the rewrite of the range's own segments leaves: the
    values are mapped, and a segment that touches its predecessor and
    has the same new value is merged into it. *)
Fixpoint coalesce_map (f : VNPtr → VNPtr) (o : Segment)
    (rest : list Segment) : list Segment :=
  match rest with
  | [] => [o]
  | s :: rest' =>
    if (valno o =? f (valno s)) && (end_ o =? start s)%Z
    then coalesce_map f (set_end o (end_ s)) rest'
    else o :: coalesce_map f (mkSegment (start s) (end_ s) (f (valno s)))
                rest'
  end.

(** What [join] needs: the range satisfies the invariants; the segments
    of [Other] are not empty and start at valid slots; the assignments of
    the range's own values are indices into [NewVNInfo], whose size fits
    in an [int]; the values of [NewVNInfo] are objects of the arena that
    are not flagged unused; every value a segment has is mapped to some
    value; and where two of the mapped segments share a point, they have
    the same value. *)
Definition join_pre (A : Arena) (lr Other : LiveRange) (LHS RHS : list Z)
    (New : list VNPtr) : Prop :=
  LRInv A lr
  ∧ Forall (λ s, (0 ≤ start s < end_ s)%Z) (segments Other)
  ∧ length LHS = length (valnos lr)
  ∧ Forall (λ z, (0 ≤ z < Z.of_nat (length New))%Z) LHS
  ∧ (Z.of_nat (length New) < 2 ^ 31)%Z
  ∧ Forall (λ p, p ≠ nullptr →
                 ∃ v, deref A p = Ok v ∧ VNInfo.unused v = false) New
  ∧ (∀ s, s ∈ segments lr → value_map A LHS New (valno s) ≠ nullptr)
  ∧ (∀ s, s ∈ segments Other → value_map A RHS New (valno s) ≠ nullptr)
  ∧ consistent (map (remap (value_map A LHS New)) (segments lr)
                ++ map (remap (value_map A RHS New)) (segments Other)).

(** The public mutations of a live range, with their arguments. *)
Inductive Mutation :=
| MCreateDeadDef (Def : SlotIndex)
| MAddSegment (S0 : Segment)
| MExtendInBlock (StartIdx Use : SlotIndex)
| MRemoveSegment (Start End : SlotIndex) (RemoveDeadValNo : bool)
| MRemoveValNo (ValNo : VNPtr)
| MMergeValueNumberInto (V1 V2 : VNPtr)
| MRenumberValues
| MJoin (Other : LiveRange) (LHSValNoAssignments RHSValNoAssignments : list Z)
    (NewVNInfo : list VNPtr).

(** The arena and the range a mutation leaves. *)
Definition apply_mutation (A : Arena) (lr : LiveRange) (m : Mutation)
  : Res (Arena * LiveRange) :=
  match m with
  | MCreateDeadDef Def =>
    r <- LiveRange_createDeadDef A lr Def ;; Ok (r.1.1, r.1.2)
  | MAddSegment S0 => r <- LiveRange_addSegment lr S0 ;; Ok (A, r.1)
  | MExtendInBlock StartIdx Use =>
    r <- LiveRange_extendInBlock lr StartIdx Use ;; Ok (A, r.1)
  | MRemoveSegment Start End RemoveDeadValNo =>
    removeSegment A lr Start End RemoveDeadValNo
  | MRemoveValNo ValNo => removeValNo A lr ValNo
  | MMergeValueNumberInto V1 V2 =>
    r <- MergeValueNumberInto A lr V1 V2 ;; Ok (r.1.1, r.1.2)
  | MRenumberValues => RenumberValues A lr
  | MJoin Other LHS RHS New =>
    r <- join A lr Other LHS RHS New ;; Ok (r.1.1, r.1.2)
  end.

(** What the caller of a mutation must ensure. *)
Definition mutation_pre (A : Arena) (lr : LiveRange) (m : Mutation) : Prop :=
  match m with
  | MCreateDeadDef Def => createDeadDef_pre A lr Def
  | MAddSegment S0 => addSegment_pre A lr S0
  | MExtendInBlock _ _ => True
  | MRemoveSegment Start End _ => within_segment (segments lr) Start End
  | MRemoveValNo ValNo => vn_in_table A (valnos lr) ValNo
  | MMergeValueNumberInto V1 V2 => MergeValueNumberInto_pre A lr V1 V2
  | MRenumberValues => True
  | MJoin Other LHS RHS New => join_pre A lr Other LHS RHS New
  end.

(** A join of two ranges: the value [1] of the first range and the
    value [2] of the second both become the value [1]. *)
Definition join_arena : Arena :=
  [VNInfo.mk 0 0 false false; VNInfo.mk 0 40 false false].

Definition join_lhs : LiveRange :=
  mkLiveRange [mkSegment 0 40 1] [1] None.

Definition join_rhs : LiveRange :=
  mkLiveRange [mkSegment 40 80 2] [2] None.

(** A value defined at the slot 10 that is live in [0,9) and [10,12). *)
Definition promote_arena : Arena := [VNInfo.mk 0 10 false false].

Definition promote_range : LiveRange :=
  mkLiveRange [mkSegment 0 9 1; mkSegment 10 12 1] [1] None.

(** Two values, the first with the lower id, on touching segments. *)
Definition merge_arena : Arena :=
  [VNInfo.mk 0 10 false false; VNInfo.mk 1 20 false false].

Definition merge_range : LiveRange :=
  mkLiveRange [mkSegment 10 20 1; mkSegment 20 30 2] [1; 2] None.

(** A range of one value with a hole between 10 and 20. *)
Definition updater_arena : Arena := [VNInfo.mk 0 0 false false].

Definition updater_range : LiveRange :=
  mkLiveRange [mkSegment 0 10 1; mkSegment 20 30 1] [1] None.

(** A value defined at the slot 10. *)
Definition dead_def_arena : Arena := [VNInfo.mk 0 10 false false].

(** A range of two values, the first on two segments. *)
Definition remove_arena : Arena :=
  [VNInfo.mk 0 0 false false; VNInfo.mk 1 8 false false].

Definition remove_range : LiveRange :=
  mkLiveRange [mkSegment 0 4 1; mkSegment 8 12 2; mkSegment 16 20 1] [1; 2]
    None.

(** An interval with an empty sub-range followed by one that is not. *)
Definition sub_empty : SubRange :=
  mkSubRange (mkLiveRange [] [] None) 1 2.

Definition sub_live : SubRange :=
  mkSubRange (mkLiveRange [mkSegment 0 4 1] [1] None) 2 0.

Definition sub_heap : SubRangeHeap :=
  mkHeap (<[1 := sub_empty]> (<[2 := sub_live]> ∅)) [].

Definition sub_interval : LiveInterval :=
  mkLiveInterval (mkLiveRange [mkSegment 0 4 1] [1] None) 7 1.

(** Two segment lists share a point exactly when two of their segments
    overlap. *)
Definition segments_overlap (a b : list Segment) : Prop :=
  ∃ x y, x ∈ a ∧ y ∈ b ∧ (start x < end_ y)%Z ∧ (start y < end_ x)%Z.

(** No segment of [a] overlaps a segment of [b]. *)
Definition apart (a b : list Segment) : Prop :=
  ∀ x y, x ∈ a → y ∈ b → (end_ x ≤ start y)%Z ∨ (end_ y ≤ start x)%Z.

(** The hint [StartPos] that [overlapsFrom] asserts: a position of
    [other], the first one unless its segment starts at or before the
    first segment of the range. *)
Definition hint_ok (l other : list Segment) (StartPos : nat) : Prop :=
  StartPos < length other
  ∧ (StartPos = 0
     ∨ ∃ sp s0, other !! StartPos = Some sp ∧ head l = Some s0
                ∧ (start sp ≤ start s0)%Z).

(** The table [vs] lists the values of the segments [done], each once, in
    the order in which they first appear. *)
Definition in_order_of_appearance (done : list Segment) (vs : list VNPtr)
  : Prop :=
  NoDup vs
  ∧ (∀ p, p ∈ vs ↔ ∃ s, s ∈ done ∧ valno s = p)
  ∧ (∀ i j p q, i < j → vs !! i = Some p → vs !! j = Some q →
       ∃ k s, done !! k = Some s ∧ valno s = p
              ∧ ∀ k' s', k' ≤ k → done !! k' = Some s' → valno s' ≠ q).

(** The class of the value of a segment, [0] where it is not defined. *)
Definition seg_class (A : Arena) (C : list nat) (s : Segment) : nat :=
  match class_of A C s with
  | Ok c => c
  | Err _ => 0
  end.

(** The segments of [l] whose value is in the class [c]. *)
Definition segments_of_class (A : Arena) (C : list nat) (l : list Segment)
    (c : nat) : list Segment :=
  filter (λ s, seg_class A C s = c) l.

(** The values of the class [c], among values paired with their class. *)
Definition vals_of (ps : list (VNPtr * nat)) (c : nat) : list VNPtr :=
  (filter (λ pc, pc.2 = c) ps).*1.

(** The values of the table [vs] that [VNIClasses] puts in the class [c],
    in the order of the table. *)
Definition values_of_class (C : list nat) (vs : list VNPtr) (c : nat)
  : list VNPtr :=
  vals_of (zip vs C) c.

(** Every entry of the table has its position as its id. *)
Definition table_wf (A : Arena) (vs : list VNPtr) : Prop :=
  ∀ i p, vs !! i = Some p → ∃ v, deref A p = Ok v ∧ VNInfo.id v = i.

(** The targets [Sp] of the classes of [C] hold the given segments and
    values; the other entries of the array are those of [Sp0]. *)
Definition targets_hold (C : list nat) (Sp0 Sp : list (option LiveRange))
    (segs_of : nat → list Segment) (values_of : nat → list VNPtr) : Prop :=
  length Sp = length Sp0
  ∧ (∀ c, c ∈ C → c ≠ 0 →
       Sp !! (c - 1)
       = Some (Some (mkLiveRange (segs_of c) (values_of c) None)))
  ∧ (∀ k, S k ∉ C → Sp !! k = Sp0 !! k).

(** The arena [A] after the values [donep] have been transferred: each
    has its position in the table of its class as its id; the values
    [restp] are as in [A0]; no value has changed its unused flag. *)
Definition arena_holds (A0 A : Arena) (donep restp : list (VNPtr * nat))
  : Prop :=
  (∀ c m p, vals_of donep c !! m = Some p →
            ∃ v, deref A p = Ok v ∧ VNInfo.id v = m)
  ∧ (∀ p, p ∈ restp.*1 → deref A p = deref A0 p)
  ∧ (∀ p v, deref A0 p = Ok v →
            ∃ v', deref A p = Ok v' ∧ VNInfo.unused v' = VNInfo.unused v).

(** The segments of the three areas of a dirty updater. *)
Definition pts_of (u : LiveRangeUpdater) : list Segment :=
  match LR u with
  | Some lr =>
    take (WriteI u) (segments lr) ++ Spills u
    ++ drop (ReadI u) (segments lr)
  | None => []
  end.

(** The segment [x] spans the segment [y] and has its value. *)
Definition spans (x y : Segment) : Prop :=
  (start x ≤ start y)%Z ∧ (end_ y ≤ end_ x)%Z ∧ valno x = valno y.

(** A segment of [l] spans [y]. *)
Definition seg_covered (l : list Segment) (y : Segment) : Prop :=
  ∃ x, x ∈ l ∧ spans x y.

(** A segment of the other range, as [add(S.start, S.end, LHSValNo)]
    builds it. *)
Definition as_value (V : VNPtr) (s : Segment) : Segment :=
  mkSegment (start s) (end_ s) V.

(** What [addSegment] leaves: an ordered collection that is live where
    the collection was and on the segment, in which the position returned
    is at a segment that contains the one added. *)
Definition added (coll : list Segment) (S0 : Segment)
    (coll' : list Segment) (I : nat) : Prop :=
  ordered coll'
  ∧ (∃ s, coll' !! I = Some s ∧ (start s ≤ start S0)%Z
          ∧ (end_ S0 ≤ end_ s)%Z ∧ valno s = valno S0)
  ∧ (∀ p v, live_at coll' p v ↔
            live_at coll p v
            ∨ ((start S0 ≤ p < end_ S0)%Z ∧ v = valno S0)).

(** The range is live at the point [p], with some value. *)
Definition live_somewhere (l : list Segment) (p : SlotIndex) : Prop :=
  ∃ v, live_at l p v.

(** The slots are in ascending order. *)
Definition ascending (Slots : list SlotIndex) : Prop :=
  ∀ i j a b, i < j → Slots !! i = Some a → Slots !! j = Some b → (a ≤ b)%Z.

(** The overlap of [x] and [y] is ignored: the later of the two starts is
    not at a block boundary and is at a coalescable copy. *)
Definition ignored (isCoalescable : SlotIndex → bool) (x y : Segment)
  : Prop :=
  isBlock (Z.max (start x) (start y)) = false
  ∧ isCoalescable (Z.max (start x) (start y)) = true.

(** Every segment of [a] is apart from every segment of [b], or their
    overlap is ignored. *)
Definition no_interference (isCoalescable : SlotIndex → bool)
    (a b : list Segment) : Prop :=
  ∀ x y, x ∈ a → y ∈ b →
    (end_ x ≤ start y)%Z ∨ (end_ y ≤ start x)%Z ∨ ignored isCoalescable x y.

(** The lanes of the masks are pairwise disjoint. *)
Fixpoint lanes_disjoint (ms : list Z) : Prop :=
  match ms with
  | [] => True
  | m :: ms' => Forall (λ m', Z.land m m' = 0%Z) ms' ∧ lanes_disjoint ms'
  end.

(** What [LiveInterval::verify] asserts of one sub-range: its lanes are
    lanes of [MaxMask], it is not empty, it passes [LiveRange::verify],
    and the main range is live wherever it is. *)
Definition subrange_ok (A : Arena) (main : list Segment) (MaxMask : Z)
    (n : SubRange) : Prop :=
  Z.land (LaneMask n) (Z.lxor MaxMask (2 ^ 32 - 1)) = 0%Z
  ∧ segments (SR_range n) ≠ []
  ∧ verified A (SR_range n)
  ∧ ∀ p v, live_at (segments (SR_range n)) p v → ∃ w, live_at main p w.

(** The collection a range keeps its segments in: the segment set while
    it has one, the segment vector otherwise. *)
Definition collection (lr : LiveRange) : list Segment :=
  match segmentSet lr with
  | Some set => set
  | None => segments lr
  end.

(** The range with [l] in that collection. *)
Definition with_collection (lr : LiveRange) (l : list Segment)
  : LiveRange :=
  match segmentSet lr with
  | Some _ => with_segmentSet lr (Some l)
  | None => with_segments lr l
  end.

(** * Proofs *)

(** ** Reasoning about the result monad *)

Lemma bind_Ok {A B} (m : Res A) (k : A → Res B) b :
  bind m k = Ok b ↔ ∃ a, m = Ok a ∧ k a = Ok b.
Proof.
  destruct m as [a|e]; simpl; split.
  - eauto.
  - by intros (a' & [= ->] & ?).
  - done.
  - by intros (? & ? & ?).
Qed.

Lemma check_Ok b e u : check b e = Ok u ↔ b = true.
Proof. destruct b, u; simpl; split; congruence. Qed.

Lemma at_Ok {A} (l : list A) i x : at_ l i = Ok x ↔ l !! i = Some x.
Proof. unfold at_. destruct (l !! i); split; congruence. Qed.

Lemma at_prev_Ok {A} (l : list A) i x :
  at_prev l i = Ok x ↔ ∃ j, i = S j ∧ l !! j = Some x.
Proof.
  destruct i as [|j]; simpl.
  - split; [done|]. by intros (? & ? & ?).
  - rewrite at_Ok. split; [eauto|]. by intros (? & [= ->] & ?).
Qed.

Lemma write_at_Ok {A} (l : list A) i x l' :
  write_at l i x = Ok l' ↔ i < length l ∧ l' = <[i := x]> l.
Proof.
  unfold write_at. destruct (Nat.ltb_spec i (length l)); split.
  - intros [= <-]. done.
  - intros [_ ->]. done.
  - done.
  - intros [? _]. lia.
Qed.

(** Unfold a successful monadic computation into its steps. *)
Ltac inv_res :=
  repeat match goal with
  | H : bind _ _ = Ok _ |- _ =>
    let a := fresh "r" in
    let Ha := fresh "Hr" in
    apply bind_Ok in H as (a & Ha & H)
  | H : check _ _ = Ok _ |- _ => apply check_Ok in H
  | H : at_ _ _ = Ok _ |- _ => apply at_Ok in H
  | H : write_at _ _ _ = Ok _ |- _ => apply write_at_Ok in H as [? ->]
  | H : Ok _ = Ok _ |- _ => injection H as H
  | H : Err _ = Ok _ |- _ => discriminate H
  | H : Ok _ = Err _ |- _ => discriminate H
  end.

(** Boolean tests as propositions. *)
Ltac bool_prop :=
  repeat match goal with
  | H : (_ && _) = true |- _ => apply andb_true_iff in H as [? ?]
  | H : (_ && _) = false |- _ => apply andb_false_iff in H
  | H : (_ || _) = true |- _ => apply orb_true_iff in H
  | H : (_ || _) = false |- _ => apply orb_false_iff in H as [? ?]
  | H : negb _ = true |- _ => apply negb_true_iff in H
  | H : negb _ = false |- _ => apply negb_false_iff in H
  | H : (_ <? _)%Z = true |- _ => apply Z.ltb_lt in H
  | H : (_ <? _)%Z = false |- _ => apply Z.ltb_ge in H
  | H : (_ <=? _)%Z = true |- _ => apply Z.leb_le in H
  | H : (_ <=? _)%Z = false |- _ => apply Z.leb_gt in H
  | H : (_ =? _)%Z = true |- _ => apply Z.eqb_eq in H
  | H : (_ =? _)%Z = false |- _ => apply Z.eqb_neq in H
  | H : (_ <? _) = true |- _ => apply Nat.ltb_lt in H
  | H : (_ <? _) = false |- _ => apply Nat.ltb_ge in H
  | H : (_ <=? _) = true |- _ => apply Nat.leb_le in H
  | H : (_ <=? _) = false |- _ => apply Nat.leb_gt in H
  | H : (_ =? _) = true |- _ => apply Nat.eqb_eq in H
  | H : (_ =? _) = false |- _ => apply Nat.eqb_neq in H
  end.

(** ** Ordered segment lists *)

Lemma ordered_cons_inv s l : ordered (s :: l) → ordered l.
Proof. simpl. tauto. Qed.

Lemma ordered_app_inv l1 l2 : ordered (l1 ++ l2) → ordered l1 ∧ ordered l2.
Proof.
  induction l1 as [|a l1 IH]; simpl; [tauto|].
  intros (Ha & Hn & Ho). destruct (IH Ho) as [H1 H2].
  split; [|done]. split; [done|]. split; [|done].
  destruct l1; simpl in *; tauto.
Qed.

Lemma ordered_Forall l : ordered l → Forall (λ s, (start s < end_ s)%Z) l.
Proof.
  induction l as [|a l IH]; simpl; [constructor|].
  intros (? & _ & ?). constructor; auto.
Qed.

(** Every segment of an ordered list ends before the later ones start. *)
Lemma ordered_cons_lt s l :
  ordered (s :: l) → Forall (λ n, (end_ s ≤ start n)%Z) l.
Proof.
  revert s. induction l as [|a l IH]; intros s; [constructor|].
  intros (Hs & [Hb _] & Ho). constructor; [done|].
  assert (Ha : (start a < end_ a)%Z) by (simpl in Ho; tauto).
  specialize (IH a Ho).
  eapply Forall_impl; [exact IH|]. simpl. intros; lia.
Qed.

Lemma ordered_lookup_lt l i j a b :
  ordered l → i < j → l !! i = Some a → l !! j = Some b →
  (end_ a ≤ start b)%Z.
Proof.
  revert i j. induction l as [|s l IH]; intros i j Ho Hij Hi Hj; [done|].
  destruct i as [|i], j as [|j]; try lia; simpl in *.
  - injection Hi as ->.
    pose proof (ordered_cons_lt _ _ Ho) as HF.
    rewrite Forall_lookup in HF. eauto.
  - eapply (IH i j); eauto. tauto. lia.
Qed.

Lemma ordered_lookup_pos l i a :
  ordered l → l !! i = Some a → (start a < end_ a)%Z.
Proof.
  intros Ho Hi. apply ordered_Forall in Ho.
  rewrite Forall_lookup in Ho. eauto.
Qed.

Lemma ordered_lookup_le l i j a b :
  ordered l → i ≤ j → l !! i = Some a → l !! j = Some b →
  (start a ≤ start b)%Z ∧ (end_ a ≤ end_ b)%Z.
Proof.
  intros Ho Hij Hi Hj.
  destruct (decide (i = j)) as [->|Hne].
  - rewrite Hi in Hj. injection Hj as ->. lia.
  - pose proof (ordered_lookup_lt l i j a b Ho ltac:(lia) Hi Hj).
    pose proof (ordered_lookup_pos _ _ _ Ho Hi).
    pose proof (ordered_lookup_pos _ _ _ Ho Hj). lia.
Qed.

Lemma ordered_lookup_next l i a b :
  ordered l → l !! i = Some a → l !! (S i) = Some b → seg_before a b.
Proof.
  revert i. induction l as [|s l IH]; intros i Ho Hi Hj; [done|].
  destruct i as [|i]; simpl in *.
  - injection Hi as ->. destruct l; [done|]. simpl in Hj. injection Hj as ->.
    tauto.
  - eapply IH; eauto. tauto.
Qed.

(** [ordered] from its pointwise description. *)
Lemma ordered_intro l :
  (∀ i a, l !! i = Some a → (start a < end_ a)%Z) →
  (∀ i a b, l !! i = Some a → l !! (S i) = Some b → seg_before a b) →
  ordered l.
Proof.
  induction l as [|s l IH]; intros Hp Hn; [done|]. simpl.
  split; [by apply (Hp 0)|]. split.
  - destruct l as [|n l]; [done|]. by apply (Hn 0).
  - apply IH.
    + intros i a Hi. by apply (Hp (S i)).
    + intros i a b Hi Hj. by apply (Hn (S i)).
Qed.

Lemma ordered_app l1 l2 :
  ordered l1 → ordered l2 →
  (∀ a b, last l1 = Some a → head l2 = Some b → seg_before a b) →
  ordered (l1 ++ l2).
Proof.
  induction l1 as [|s l1 IH]; intros H1 H2 Hb; [done|].
  simpl in *. destruct H1 as (Hs & Hn & Ho).
  split; [done|]. split.
  - destruct l1 as [|n l1]; simpl.
    + destruct l2 as [|b l2]; [done|]. by apply Hb.
    + done.
  - apply IH; [done..|]. intros a b Ha Hh. apply Hb; [|done].
    destruct l1; [done|]. done.
Qed.

(** ** The binary searches *)

Section bsearch.
Variable p : Segment → bool.
Variable l : list Segment.
Hypothesis p_mono : ∀ i j a b,
  i ≤ j → l !! i = Some a → l !! j = Some b → p a = true → p b = true.

Lemma partition_point_unique r1 r2 :
  partition_point p l r1 → partition_point p l r2 → r1 = r2.
Proof.
  intros (L1 & F1 & T1) (L2 & F2 & T2).
  destruct (Nat.lt_trichotomy r1 r2) as [Hlt|[->|Hlt]]; [|done|].
  - destruct (lookup_lt_is_Some_2 l r1 ltac:(lia)) as [a Ha].
    specialize (F2 _ _ Hlt Ha). specialize (T1 r1 a ltac:(lia) Ha).
    congruence.
  - destruct (lookup_lt_is_Some_2 l r2 ltac:(lia)) as [a Ha].
    specialize (F1 _ _ Hlt Ha). specialize (T2 r2 a ltac:(lia) Ha).
    congruence.
Qed.

Lemma div2_lt n : n ≠ 0 → Nat.div2 n < n.
Proof. intros. apply Nat.lt_div2. lia. Qed.

Lemma upper_bound_loop_spec fuel I Len :
  Len ≤ fuel → I + Len ≤ length l →
  (∀ i a, i < I → l !! i = Some a → p a = false) →
  (∀ i a, I + Len ≤ i → l !! i = Some a → p a = true) →
  partition_point p l (upper_bound_loop fuel p l I Len).
Proof using p_mono.
  revert I Len. induction fuel as [|fuel IH]; intros I Len Hf Hlen HF HT.
  - assert (Len = 0) as -> by lia. simpl.
    split; [lia|]. split; [done|]. intros i a ?. apply HT. lia.
  - simpl. destruct (Nat.eqb_spec Len 0) as [->|Hne].
    { split; [lia|]. split; [done|]. intros i a ?. apply HT. lia. }
    pose proof (div2_lt Len Hne) as Hmid.
    generalize dependent (Nat.div2 Len). intros Mid Hmid.
    destruct (lookup_lt_is_Some_2 l (I + Mid) ltac:(lia))
      as [s Hs].
    rewrite Hs. destruct (p s) eqn:Hp.
    + apply IH; [lia|lia|done|].
      intros i a Hi Ha. eapply (p_mono (I + Mid) i); eauto.
    + apply IH; [lia|lia| |].
      * intros i a Hi Ha. destruct (p a) eqn:Hpa; [|done].
        assert (p s = true); [|congruence].
        eapply (p_mono i (I + Mid)); eauto. lia.
      * intros i a Hi Ha. apply (HT i); [lia|done].
Qed.
End bsearch.

Lemma upper_bound_spec l Pos :
  ordered l → partition_point (λ s, (Pos <? start s)%Z) l (upper_bound l Pos).
Proof.
  intros Ho. unfold upper_bound. apply upper_bound_loop_spec.
  - intros i j a b Hij Ha Hb Hp. bool_prop. apply Z.ltb_lt.
    pose proof (ordered_lookup_le l i j a b Ho Hij Ha Hb). lia.
  - lia.
  - lia.
  - intros; lia.
  - intros i a Hi Ha. apply lookup_lt_Some in Ha. lia.
Qed.

Lemma find_loop_spec l Pos fuel I Len :
  ordered l →
  0 < Len → Len ≤ fuel → I + Len ≤ length l →
  (∀ i a, i < I → l !! i = Some a → (end_ a ≤ Pos)%Z) →
  (∀ i a, I + Len ≤ i → l !! i = Some a → (Pos < end_ a)%Z) →
  partition_point (λ s, (Pos <? end_ s)%Z) l (find_loop fuel l Pos I Len).
Proof.
  intros Ho. revert I Len.
  induction fuel as [|fuel IH]; intros I Len Hpos Hf Hlen HF HT; [lia|].
  simpl. pose proof (div2_lt Len ltac:(lia)) as Hmid.
  generalize dependent (Nat.div2 Len). intros Mid Hmid.
  destruct (lookup_lt_is_Some_2 l (I + Mid) ltac:(lia)) as [s Hs].
  rewrite Hs.
  assert (Hdone : ∀ r,
    (∀ i a, i < r → l !! i = Some a → (end_ a ≤ Pos)%Z) →
    (∀ i a, r ≤ i → l !! i = Some a → (Pos < end_ a)%Z) →
    r ≤ length l →
    partition_point (λ s, (Pos <? end_ s)%Z) l r).
  { intros r H1 H2 H3. split; [done|]. split.
    - intros i a Hi Ha. apply Z.ltb_ge. eauto.
    - intros i a Hi Ha. apply Z.ltb_lt. eauto. }
  destruct (Z.ltb_spec Pos (end_ s)) as [Hp|Hp].
  - assert (HT' : ∀ i a, I + Mid ≤ i → l !! i = Some a →
                         (Pos < end_ a)%Z).
    { intros i a Hi Ha.
      pose proof (ordered_lookup_le l (I + Mid) i s a Ho Hi Hs Ha). lia. }
    destruct (Nat.eqb_spec (Mid) 0) as [Hz|Hnz].
    + apply Hdone; [done| |lia]. intros i a Hi. apply HT'. lia.
    + apply IH; [lia|lia|lia|done|done].
  - assert (HF' : ∀ i a, i < I + Mid + 1 → l !! i = Some a →
                         (end_ a ≤ Pos)%Z).
    { intros i a Hi Ha.
      pose proof (ordered_lookup_le l i (I + Mid) a s Ho ltac:(lia) Ha Hs). lia. }
    destruct (Nat.eqb_spec (Len - (Mid + 1)) 0) as [Hz|Hnz].
    + apply Hdone; [done| |lia]. intros i a Hi. apply HT. lia.
    + apply IH; [lia|lia|lia|done|].
      intros i a Hi. apply HT. lia.
Qed.

Lemma find_spec l Pos :
  ordered l → partition_point (λ s, (Pos <? end_ s)%Z) l (find l Pos).
Proof.
  intros Ho. unfold find. destruct (last l) as [back|] eqn:Hlast.
  - destruct (Z.leb_spec (end_ back) Pos) as [Hle|Hgt].
    + split; [lia|]. split.
      * intros i a Hi Ha. apply Z.ltb_ge.
        rewrite last_lookup in Hlast.
        pose proof (lookup_lt_Some _ _ _ Ha) as Hlt.
        pose proof (ordered_lookup_le l i (pred (length l)) a back Ho
                      ltac:(lia) Ha Hlast).
        lia.
      * intros i a Hi Ha. apply lookup_lt_Some in Ha. lia.
    + assert (length l ≠ 0) by (destruct l; simpl; [done|lia]).
      apply find_loop_spec; [done|lia|lia|lia| |].
      * intros; lia.
      * intros i a Hi Ha. apply lookup_lt_Some in Ha. lia.
  - apply last_None in Hlast as ->. simpl.
    split; [simpl; lia|]. split; intros i a ? Ha; done.
Qed.

(** ** The arena *)

Lemma deref_Ok A p v : deref A p = Ok v ↔ ∃ k, p = S k ∧ A !! k = Some v.
Proof.
  destruct p as [|k]; simpl.
  - split; [done|]. by intros (? & ? & ?).
  - rewrite at_Ok. split; [eauto|]. by intros (? & [= ->] & ?).
Qed.

Lemma deref_store_eq A p v w : deref A p = Ok v → deref (store A p w) p = Ok w.
Proof.
  intros (k & -> & Hk)%deref_Ok. simpl. apply at_Ok.
  apply list_lookup_insert_eq. by eapply lookup_lt_Some.
Qed.

Lemma deref_store_ne A p q w : p ≠ q → deref (store A p w) q = deref A q.
Proof.
  intros Hne. destruct p as [|k], q as [|j]; simpl; try done.
  unfold at_. rewrite list_lookup_insert_ne; [done|congruence].
Qed.

Lemma deref_store A p q v w :
  deref A p = Ok v →
  deref (store A p w) q = if decide (p = q) then Ok w else deref A q.
Proof.
  intros Hp. case_decide as Hd.
  - subst. by eapply deref_store_eq.
  - by apply deref_store_ne.
Qed.

Lemma deref_alloc_old A p v w : deref A p = Ok v → deref (A ++ [w]) p = Ok v.
Proof.
  intros (k & -> & Hk)%deref_Ok. simpl. apply at_Ok.
  by apply lookup_app_l_Some.
Qed.

Lemma deref_alloc_new A w : deref (A ++ [w]) (S (length A)) = Ok w.
Proof. simpl. apply at_Ok. by rewrite lookup_app_r, Nat.sub_diag. Qed.

Lemma deref_fresh A v : deref A (S (length A)) = Ok v → False.
Proof.
  intros (k & [= <-] & Hk)%deref_Ok. apply lookup_lt_Some in Hk. lia.
Qed.

(** ** The invariants of a live range *)

Lemma vn_live_in_table A vs p : vn_live A vs p → vn_in_table A vs p.
Proof. intros (v & ? & ? & ?). by exists v. Qed.

Lemma verify_segment_Ok A vs s u :
  verify_segment A vs s = Ok u ↔
  (0 ≤ start s)%Z ∧ (start s < end_ s)%Z ∧ vn_in_table A vs (valno s).
Proof.
  unfold verify_segment, isValid, vn_in_table, nullptr. split.
  - intros H. inv_res. bool_prop. repeat split; [done..|].
    eexists. split; [done|]. by subst.
  - intros (H1 & H2 & v & Hv & Hl).
    assert (valno s ≠ 0) as Hnz.
    { intros Hz. rewrite Hz in Hv. done. }
    rewrite (proj2 (Z.leb_le _ _) H1); simpl.
    rewrite (proj2 (Z.leb_le 0 (end_ s)) ltac:(lia)); simpl.
    rewrite (proj2 (Z.ltb_lt _ _) H2); simpl.
    rewrite (proj2 (Nat.eqb_neq _ _) Hnz); simpl.
    rewrite Hv; simpl.
    rewrite (proj2 (Nat.ltb_lt _ _) (lookup_lt_Some _ _ _ Hl)); simpl.
    rewrite (proj2 (at_Ok _ _ _) Hl); simpl.
    rewrite Nat.eqb_refl; simpl. by destruct u.
Qed.

Lemma verify_next_Ok s rest u :
  verify_next s rest = Ok u ↔
  match rest with [] => True | n :: _ => seg_before s n end.
Proof.
  destruct u. destruct rest as [|n rest]; simpl; [done|].
  unfold seg_before. split.
  - intros H. inv_res. bool_prop. split; [done|]. intros He.
    rewrite (proj2 (Z.eqb_eq _ _) He) in H. inv_res. bool_prop. done.
  - intros [H1 H2]. rewrite (proj2 (Z.leb_le _ _) H1); simpl.
    destruct (Z.eqb_spec (end_ s) (start n)) as [He|]; [|done].
    rewrite (proj2 (Nat.eqb_neq _ _) (H2 He)). done.
Qed.

Lemma verify_from_Ok A vs l u :
  verify_from A vs l = Ok u ↔
  ordered l ∧ Forall (λ s, (0 ≤ start s)%Z) l
  ∧ Forall (λ s, vn_in_table A vs (valno s)) l.
Proof.
  destruct u. induction l as [|s l IH]; simpl.
  - split; [|done]. intros _. repeat split; constructor.
  - split.
    + intros H. inv_res. destruct r, r0.
      apply verify_segment_Ok in Hr as (? & ? & ?).
      apply verify_next_Ok in Hr0. apply IH in H as (? & ? & ?).
      repeat split; try done; by constructor.
    + intros ((? & ? & ?) & [? ?]%Forall_cons & [? ?]%Forall_cons).
      rewrite (proj2 (verify_segment_Ok A vs s tt)); [|done]. simpl.
      rewrite (proj2 (verify_next_Ok s l tt)); [|done]. simpl.
      by apply IH.
Qed.

Lemma verify_Ok A lr u : verify A lr = Ok u ↔ verified A lr.
Proof. apply verify_from_Ok. Qed.

Lemma LRInv_verified A lr : LRInv A lr → verified A lr.
Proof.
  intros []. repeat split; [done..|].
  eapply Forall_impl; [done|]. intros s. apply vn_live_in_table.
Qed.

(** ** markValNoForDeletion *)

Lemma pop_unused_spec A rvs :
  Forall (λ p, ∃ v, deref A p = Ok v) rvs →
  ∃ dropped rvs',
    pop_unused A rvs = Ok rvs' ∧ rvs = dropped ++ rvs'
    ∧ Forall (λ p, ∃ v, deref A p = Ok v ∧ VNInfo.unused v = true) dropped
    ∧ (∀ p, head rvs' = Some p →
            ∃ v, deref A p = Ok v ∧ VNInfo.unused v = false).
Proof.
  induction rvs as [|p rvs IH]; intros HF.
  - exists [], []. simpl. repeat split; [constructor|done].
  - apply Forall_cons in HF as [[v Hv] HF]. simpl. rewrite Hv. simpl.
    destruct (VNInfo.unused v) eqn:Hu.
    + destruct (IH HF) as (d & r & Hp & -> & Hd & Hh).
      exists (p :: d), r. repeat split; [done| |done].
      constructor; [by exists v|done].
    + exists [], (p :: rvs). repeat split; [constructor|].
      intros ? [= <-]. by exists v.
Qed.

Lemma markValNoForDeletion_spec A vs ValNo :
  Forall (λ p, ∃ v, deref A p = Ok v) vs →
  vn_in_table A vs ValNo →
  ∃ A' vs', markValNoForDeletion A vs ValNo = Ok (A', vs')
            ∧ marked_for_deletion A vs ValNo A' vs'.
Proof.
  intros HF (v & Hv & Hl). unfold markValNoForDeletion, marked_for_deletion.
  rewrite Hv. simpl. pose proof (lookup_lt_Some _ _ _ Hl) as Hlt.
  unfold last_id. destruct (Nat.eqb_spec (length vs) 0) as [|_]; [lia|].
  destruct (Z.eqb_spec (Z.of_nat (VNInfo.id v)) (Z.of_nat (length vs) - 1))
    as [He|Hne].
  - assert (Hlast : VNInfo.id v = length vs - 1) by lia.
    destruct (reverse vs) as [|b rest] eqn:Hrev.
    { apply (f_equal length) in Hrev. rewrite length_reverse in Hrev.
      simpl in Hrev. lia. }
    assert (Hvs : vs = reverse rest ++ [b]).
    { rewrite <- (reverse_involutive vs), Hrev. by rewrite reverse_cons. }
    assert (HFr : Forall (λ p, ∃ v, deref A p = Ok v) rest).
    { rewrite Hvs in HF. apply Forall_app in HF as [HF _].
      by rewrite Forall_reverse in HF. }
    destruct (pop_unused_spec A rest HFr) as (d & r & Hp & Hd & Hdu & Hh).
    rewrite Hp. simpl. eexists _, _. split; [done|].
    exists v. split; [done|]. rewrite decide_True by done.
    split; [done|]. exists (length r).
    assert (Hrest : reverse rest = reverse r ++ reverse d).
    { by rewrite Hd, reverse_app. }
    assert (Hlen : length vs = length r + length d + 1).
    { rewrite Hvs, Hrest. rewrite !length_app, !length_reverse. simpl. lia. }
    split; [|split; [lia|split]].
    + rewrite Hvs, Hrest. rewrite <- app_assoc.
      rewrite take_app_length'; [done|]. by rewrite length_reverse.
    + intros i p Hi Hip. rewrite Hvs, Hrest, <- app_assoc in Hip.
      rewrite lookup_app_r in Hip by (rewrite length_reverse; lia).
      rewrite length_reverse in Hip.
      rewrite lookup_app_l in Hip by (rewrite length_reverse; lia).
      apply list_elem_of_lookup_2 in Hip. rewrite elem_of_reverse in Hip.
      rewrite Forall_forall in Hdu. by apply Hdu.
    + intros p Hp'. apply Hh. rewrite last_reverse in Hp'. done.
  - eexists _, _. split; [done|]. exists v. split; [done|].
    rewrite decide_False by lia. done.
Qed.

(** Marking a value number that no segment uses keeps the table of the
    segments consistent. *)
Lemma marked_for_deletion_inv A vs ValNo A' vs' segs :
  Forall (λ p, ∃ v, deref A p = Ok v) vs →
  vn_in_table A vs ValNo →
  Forall (λ s, vn_live A vs (valno s)) segs →
  Forall (λ s, valno s ≠ ValNo) segs →
  marked_for_deletion A vs ValNo A' vs' →
  Forall (λ s, vn_live A' vs' (valno s)) segs
  ∧ Forall (λ p, ∃ v, deref A' p = Ok v) vs'.
Proof.
  intros HF (v0 & Hv0 & Hl0) Hlive Hne (v & Hv & Hm).
  rewrite Hv0 in Hv. injection Hv as <-.
  pose proof (lookup_lt_Some _ _ _ Hl0) as Hlt.
  case_decide as Hd.
  - destruct Hm as (-> & k & -> & Hk & Hun & _). split.
    + rewrite Forall_forall in Hlive, Hne. apply Forall_forall.
      intros s Hs. destruct (Hlive s Hs) as (w & Hw & Hlw & Hwu).
      exists w. split; [done|]. split; [|done].
      rewrite lookup_take_lt; [done|].
      destruct (decide (VNInfo.id w < k)) as [|Hge]; [done|].
      exfalso. pose proof (lookup_lt_Some _ _ _ Hlw).
      destruct (decide (VNInfo.id w = VNInfo.id v0)) as [Heq|Hneq].
      * rewrite Heq, Hl0 in Hlw. injection Hlw as Hlw.
        by apply (Hne s Hs).
      * destruct (Hun (VNInfo.id w) (valno s) ltac:(lia) Hlw)
          as (w' & Hw' & Hu').
        congruence.
    + by apply Forall_take.
  - destruct Hm as [-> ->]. split.
    + rewrite Forall_forall in Hlive, Hne. apply Forall_forall.
      intros s Hs. destruct (Hlive s Hs) as (w & Hw & Hlw & Hwu).
      exists w. rewrite deref_store_ne; [done|].
      intros Heq. by apply (Hne s Hs).
    + eapply Forall_impl; [done|]. intros p [w Hw]. simpl.
      erewrite deref_store by done. case_decide; eauto.
Qed.

(** ** Vector surgery around one position *)

Lemma split_at {A} (l : list A) i s :
  l !! i = Some s →
  ∃ pre post, l = pre ++ s :: post ∧ length pre = i
              ∧ pre = take i l ∧ post = drop (S i) l.
Proof.
  intros Hi. exists (take i l), (drop (S i) l).
  split; [by rewrite take_drop_middle|]. split; [|done].
  apply length_take_le. apply lookup_lt_Some in Hi. lia.
Qed.

Lemma lookup_middle {A} (pre post : list A) s :
  (pre ++ s :: post) !! length pre = Some s.
Proof. by rewrite list_lookup_middle. Qed.

Lemma insert_middle {A} (pre post : list A) s x :
  <[length pre := x]> (pre ++ s :: post) = pre ++ x :: post.
Proof. induction pre; simpl; [done|]. by f_equal. Qed.

Lemma erase_app {A} (pre mid post : list A) :
  erase (pre ++ mid ++ post) (length pre) (length pre + length mid)
  = pre ++ post.
Proof.
  unfold erase. rewrite take_app_length.
  rewrite drop_app_ge by lia.
  replace (length pre + length mid - length pre) with (length mid) by lia.
  by rewrite drop_app_length.
Qed.

Lemma erase_middle {A} (pre post : list A) s :
  erase (pre ++ s :: post) (length pre) (length pre + 1) = pre ++ post.
Proof. apply (erase_app pre [s] post). Qed.

Lemma erase_nil {A} (l : list A) i : erase l i i = l.
Proof. unfold erase. apply take_drop. Qed.

Lemma insert_at_app {A} (pre post : list A) x :
  insert_at (pre ++ post) (length pre) x = pre ++ x :: post.
Proof. unfold insert_at. by rewrite take_app_length, drop_app_length. Qed.

Lemma insert_at_next {A} (pre post : list A) x y :
  insert_at (pre ++ x :: post) (length pre + 1) y = pre ++ x :: y :: post.
Proof.
  replace (pre ++ x :: post) with ((pre ++ [x]) ++ post)
    by by rewrite <- app_assoc.
  replace (length pre + 1) with (length (pre ++ [x]))
    by (rewrite length_app; simpl; lia).
  by rewrite insert_at_app, <- app_assoc.
Qed.

Lemma insert_at_end {A} (l : list A) x : insert_at l (length l) x = l ++ [x].
Proof.
  unfold insert_at. by rewrite take_ge, drop_ge by lia.
Qed.

(** ** More on ordered lists *)

Lemma seg_before_strict a b : (end_ a < start b)%Z → seg_before a b.
Proof. intros H. split; lia. Qed.

Lemma ordered_cons_before s l : ordered (s :: l) → Forall (seg_before s) l.
Proof.
  intros Ho. destruct l as [|n l]; [constructor|].
  pose proof Ho as (Hs & Hb & Hn & _ & Hl).
  constructor; [done|].
  assert (HF : Forall (λ m, (end_ n ≤ start m)%Z) l).
  { apply ordered_cons_lt. by eapply ordered_cons_inv. }
  eapply Forall_impl; [exact HF|]. simpl. intros m Hm.
  apply seg_before_strict. destruct Hb. lia.
Qed.

Lemma ordered_cons s l :
  (start s < end_ s)%Z → ordered l →
  (∀ n, head l = Some n → seg_before s n) → ordered (s :: l).
Proof.
  intros Hs Hl Hh. simpl. split; [done|]. split; [|done].
  destruct l; [done|]. by apply Hh.
Qed.

Lemma ordered_app_before l1 l2 a b :
  ordered (l1 ++ l2) → a ∈ l1 → b ∈ l2 → seg_before a b.
Proof.
  induction l1 as [|s l1 IH]; intros Ho Ha Hb.
  - by apply elem_of_nil in Ha.
  - apply elem_of_cons in Ha as [->|Ha].
    + pose proof (ordered_cons_before _ _ Ho) as HF.
      rewrite Forall_forall in HF. apply HF. apply elem_of_app. by right.
    + apply IH; [|done..]. by eapply ordered_cons_inv.
Qed.

(** Strictly before, when something lies in between. *)
Lemma ordered_app_strict l1 m l2 a b :
  ordered (l1 ++ m :: l2) → a ∈ l1 → b ∈ l2 → (end_ a < start b)%Z.
Proof.
  intros Ho Ha Hb.
  assert (seg_before a m) as [H1 _].
  { eapply ordered_app_before; [done..|]. by left. }
  apply ordered_app_inv in Ho as [_ Ho].
  pose proof (ordered_cons_lt _ _ Ho) as HF. rewrite Forall_forall in HF.
  specialize (HF b Hb). destruct Ho as (Hm & _). lia.
Qed.

(** Replacing a segment by an ordered run of segments of the same value
    within its bounds keeps a list ordered. *)
Lemma ordered_replace pre s post mid :
  ordered (pre ++ s :: post) → ordered mid →
  Forall (λ m, (start s ≤ start m)%Z ∧ (end_ m ≤ end_ s)%Z
               ∧ valno m = valno s) mid →
  ordered (pre ++ mid ++ post).
Proof.
  intros Ho Hm HF. pose proof (ordered_app_inv _ _ Ho) as [Hpre Hsp].
  rewrite Forall_forall in HF.
  apply ordered_app; [done| |].
  - apply ordered_app; [done|by eapply ordered_cons_inv|].
    intros a b Ha Hb. apply last_Some_elem_of in Ha.
    destruct (HF a Ha) as (_ & He & Hv).
    assert (seg_before s b) as [H1 H2].
    { pose proof (ordered_cons_before _ _ Hsp) as HF'.
      rewrite Forall_forall in HF'. apply HF'.
      apply head_Some_elem_of. done. }
    split; [lia|]. intros Heq. rewrite Hv. apply H2. lia.
  - intros a b Ha Hb. apply last_Some_elem_of in Ha.
    destruct mid as [|m mid].
    + simpl in Hb. destruct post as [|n post]; [done|].
      simpl in Hb. injection Hb as ->.
      apply seg_before_strict.
      assert (seg_before a s) as [H1 _].
      { eapply ordered_app_before; [done..|]. by left. }
      pose proof Hsp as (Hs & [H2 _] & _). lia.
    + simpl in Hb. injection Hb as <-.
      destruct (HF m ltac:(by left)) as (Hs' & _ & Hv).
      assert (seg_before a s) as [H1 H2].
      { eapply ordered_app_before; [done..|]. by left. }
      split; [lia|]. intros Heq. rewrite Hv. apply H2. lia.
Qed.

Lemma ordered_delete pre s post :
  ordered (pre ++ s :: post) → ordered (pre ++ post).
Proof.
  intros Ho. apply (ordered_replace pre s post []); [done|done|constructor].
Qed.

Lemma ordered_filter (P : Segment → Prop) `{∀ s, Decision (P s)} l :
  ordered l → ordered (filter P l).
Proof.
  induction l as [|s l IH]; intros Ho; [done|].
  rewrite filter_cons. case_decide.
  - apply ordered_cons; [simpl in Ho; tauto|apply IH; by eapply ordered_cons_inv|].
    intros n Hn. apply head_Some_elem_of in Hn.
    apply list_elem_of_filter in Hn as [_ Hn].
    pose proof (ordered_cons_before _ _ Ho) as HF.
    rewrite Forall_forall in HF. by apply HF.
  - apply IH. by eapply ordered_cons_inv.
Qed.

(** Where [find] lands when a segment ends after [Pos] and the one before
    it does not. *)
Lemma find_unique l Pos i :
  ordered l → i ≤ length l →
  (∀ j a, j < i → l !! j = Some a → (end_ a ≤ Pos)%Z) →
  (∀ a, l !! i = Some a → (Pos < end_ a)%Z) →
  find l Pos = i.
Proof.
  intros Ho Hi HF HT.
  apply (partition_point_unique (λ s, (Pos <? end_ s)%Z) l).
  - by apply find_spec.
  - split; [done|]. split.
    + intros j a Hj Ha. apply Z.ltb_ge. eauto.
    + intros j a Hj Ha. apply Z.ltb_lt.
      destruct (decide (j = i)) as [->|Hne]; [eauto|].
      destruct (lookup_lt_is_Some_2 l i) as [b Hb].
      { apply lookup_lt_Some in Ha. lia. }
      pose proof (ordered_lookup_le l i j b a Ho ltac:(lia) Hb Ha).
      specialize (HT b Hb). lia.
Qed.

Lemma find_middle pre s post Pos :
  ordered (pre ++ s :: post) →
  (∀ a, last pre = Some a → (end_ a ≤ Pos)%Z) → (Pos < end_ s)%Z →
  find (pre ++ s :: post) Pos = length pre.
Proof.
  intros Ho Hl Hs. apply find_unique; [done|rewrite length_app; lia| |].
  - intros j a Hj Ha. rewrite lookup_app_l in Ha by done.
    destruct (last pre) as [b|] eqn:Hb.
    + rewrite last_lookup in Hb.
      pose proof (ordered_app_inv _ _ Ho) as [Hpre _].
      pose proof (ordered_lookup_le pre j (pred (length pre)) a b Hpre
                    ltac:(lia) Ha Hb).
      specialize (Hl b eq_refl). lia.
    + apply last_None in Hb. subst. simpl in Hj. lia.
  - intros a. rewrite lookup_middle. by intros [= <-].
Qed.

Lemma find_end l Pos :
  (∀ a, last l = Some a → (end_ a ≤ Pos)%Z) → find l Pos = length l.
Proof.
  intros Hl. unfold find. destruct (last l) as [b|]; [|done].
  specialize (Hl b eq_refl).
  by rewrite (proj2 (Z.leb_le _ _) Hl).
Qed.

Lemma Forall_filter_keep {A} (P Q : A → Prop) `{∀ x, Decision (P x)} l :
  Forall Q l → Forall Q (filter P l).
Proof.
  rewrite !Forall_forall. intros HQ x Hx.
  apply list_elem_of_filter in Hx as [_ Hx]. by apply HQ.
Qed.

(** ** removeValNo *)

Lemma removeValNo_spec A lr ValNo :
  segments lr ≠ [] →
  Forall (λ p, ∃ v, deref A p = Ok v) (valnos lr) →
  vn_in_table A (valnos lr) ValNo →
  ∃ A' vs',
    removeValNo A lr ValNo
    = Ok (A', {| segments := filter (λ s, valno s ≠ ValNo) (segments lr);
                 valnos := vs'; segmentSet := segmentSet lr |})
    ∧ marked_for_deletion A (valnos lr) ValNo A' vs'.
Proof.
  intros Hne HF Hin. unfold removeValNo.
  destruct (Nat.eqb_spec (length (segments lr)) 0) as [Hz|_].
  { destruct (segments lr); [done|]. simpl in Hz. lia. }
  destruct (markValNoForDeletion_spec A (valnos lr) ValNo HF Hin)
    as (A' & vs' & Hm & Hmark).
  rewrite Hm. simpl. by eexists _, _.
Qed.

Lemma removeValNo_inv A lr ValNo :
  LRInv A lr → vn_in_table A (valnos lr) ValNo →
  ∃ A' lr', removeValNo A lr ValNo = Ok (A', lr') ∧ LRInv A' lr'.
Proof.
  intros [Hv Ho Hval Ht Hh] Hin.
  destruct (decide (segments lr = [])) as [He|Hne].
  - unfold removeValNo. rewrite He. simpl. exists A, lr. split; [done|].
    split; try done; rewrite He; constructor.
  - destruct (removeValNo_spec A lr ValNo Hne Hh Hin)
      as (A' & vs' & Hr & Hm).
    eexists _, _. split; [exact Hr|].
    set (segs := filter (λ s, valno s ≠ ValNo) (segments lr)).
    destruct (marked_for_deletion_inv A (valnos lr) ValNo A' vs' segs)
      as [Ht' Hh']; try done.
    + by apply Forall_filter_keep.
    + apply Forall_forall. intros s Hs.
      by apply list_elem_of_filter in Hs as [? _].
    + split; simpl; try done.
      * by apply ordered_filter.
      * by apply Forall_filter_keep.
Qed.

(** ** RenumberValues *)

Lemma RenumberValues_loop_spec l : ∀ A vs (Seen : gset nat),
  (∀ p, p ∈ Seen ↔ p ∈ vs) →
  (∀ i p, vs !! i = Some p →
     ∃ v, deref A p = Ok v ∧ VNInfo.id v = i ∧ VNInfo.unused v = false) →
  Forall (λ s, valno s ∈ Seen
               ∨ ∃ v, deref A (valno s) = Ok v ∧ VNInfo.unused v = false) l →
  ∃ A' vs',
    RenumberValues_loop A vs Seen l = Ok (A', vs')
    ∧ (∀ i p, vs' !! i = Some p →
         ∃ v, deref A' p = Ok v ∧ VNInfo.id v = i
              ∧ VNInfo.unused v = false)
    ∧ (∀ p, p ∈ vs → p ∈ vs')
    ∧ Forall (λ s, valno s ∈ vs') l.
Proof.
  induction l as [|s l IH]; intros A vs Seen HS Hvs HF.
  - exists A, vs. simpl. repeat split; [done..|constructor].
  - apply Forall_cons in HF as [Hs HF]. simpl.
    case_bool_decide as Hin.
    + destruct (IH A vs Seen HS Hvs HF) as (A' & vs' & Hr & H1 & H2 & H3).
      exists A', vs'. repeat split; [done..|].
      constructor; [|done]. apply H2. by apply HS.
    + destruct Hs as [Hs|(v & Hv & Hu)]; [done|].
      rewrite Hv. simpl. rewrite Hu. simpl.
      edestruct (IH (store A (valno s) (VNInfo.set_id v (length vs)))
                   (vs ++ [valno s]) ({[valno s]} ∪ Seen))
        as (A' & vs' & Hr & H1 & H2 & H3).
      * intros p. rewrite elem_of_union, elem_of_singleton, elem_of_app.
        rewrite list_elem_of_singleton, HS. tauto.
      * intros i p Hip. apply lookup_app_Some in Hip as [Hip|[Hlen Hip]].
        -- destruct (Hvs i p Hip) as (w & Hw & Hi & Hwu).
           exists w. rewrite deref_store_ne; [done|].
           intros <-. apply Hin, HS. by eapply list_elem_of_lookup_2.
        -- apply list_lookup_singleton_Some in Hip as [Hi <-].
           eexists. erewrite deref_store_eq by done.
           split; [done|]. simpl. split; [lia|done].
      * eapply Forall_impl; [exact HF|]. simpl. intros s' [Hs'|Hs'].
        -- left. apply elem_of_union. by right.
        -- destruct (decide (valno s' = valno s)) as [Heq|Hneq].
           ++ left. apply elem_of_union. left. by apply elem_of_singleton.
           ++ right. rewrite deref_store_ne; done.
      * exists A', vs'. repeat split; [done..| |].
        -- intros p Hp. apply H2. apply elem_of_app. by left.
        -- constructor; [|done]. apply H2. apply elem_of_app. right.
           by apply list_elem_of_singleton.
Qed.

Lemma RenumberValues_inv A lr :
  LRInv A lr →
  ∃ A' lr', RenumberValues A lr = Ok (A', lr') ∧ LRInv A' lr'
            ∧ segments lr' = segments lr.
Proof.
  intros [Hv Ho Hval Ht Hh]. unfold RenumberValues.
  destruct (RenumberValues_loop_spec (segments lr) A [] ∅)
    as (A' & vs' & Hr & H1 & _ & H3).
  - intros p. rewrite elem_of_nil. set_solver.
  - intros i p Hip. done.
  - eapply Forall_impl; [exact Ht|]. simpl.
    intros s (v & Hd & _ & Hu). right. by exists v.
  - rewrite Hr. simpl. eexists _, _. split; [done|]. split; [|done].
    split; simpl; try done.
    + rewrite Forall_forall in H3. apply Forall_forall. intros s Hs.
      apply H3 in Hs. apply list_elem_of_lookup in Hs as [i Hi].
      destruct (H1 i _ Hi) as (v & Hd & Hid & Hu).
      exists v. rewrite Hid. done.
    + apply Forall_forall. intros p Hp.
      apply list_elem_of_lookup in Hp as [i Hi].
      destruct (H1 i _ Hi) as (v & Hd & _). by exists v.
Qed.

(** ** removeSegment *)

Lemma valno_used_elsewhere_false pre s post V :
  valno_used_elsewhere (pre ++ s :: post) (length pre) V = false →
  Forall (λ n, valno n ≠ V) (pre ++ post).
Proof.
  unfold valno_used_elsewhere. intros He. apply Forall_forall. intros n Hn.
  intros Hv.
  assert (∃ i, i ≠ length pre ∧ (pre ++ s :: post) !! i = Some n)
    as (i & Hi & Hl).
  { apply elem_of_app in Hn as [Hn|Hn].
    - apply list_elem_of_lookup in Hn as [i Hi]. exists i.
      pose proof (lookup_lt_Some _ _ _ Hi). split; [lia|].
      by apply lookup_app_l_Some.
    - apply list_elem_of_lookup in Hn as [i Hi]. exists (length pre + S i).
      split; [lia|]. rewrite lookup_app_r by lia.
      replace (length pre + S i - length pre) with (S i) by lia. done. }
  assert (existsb (λ '(II, s0), negb (II =? length pre) && (valno s0 =? V))
            (imap (λ II s0, (II, s0)) (pre ++ s :: post)) = true);
    [|congruence].
  apply existsb_exists. exists (i, n). split.
  - apply list_elem_of_In. apply elem_of_lookup_imap. by exists i, n.
  - rewrite (proj2 (Nat.eqb_neq _ _) Hi), (proj2 (Nat.eqb_eq _ _) Hv). done.
Qed.

Lemma removeSegment_inv A lr Start End RemoveDeadValNo :
  LRInv A lr → within_segment (segments lr) Start End →
  ∃ A' lr', removeSegment A lr Start End RemoveDeadValNo = Ok (A', lr')
            ∧ LRInv A' lr'.
Proof.
  intros [Hv Ho Hval Ht Hh] (Hlt & s & Hs & Hs1 & Hs2).
  apply list_elem_of_lookup in Hs as [i Hi].
  destruct (split_at _ _ _ Hi) as (pre & post & Hsegs & Hlen & _ & _).
  unfold removeSegment. rewrite Hsegs in *.
  pose proof (ordered_lookup_pos _ _ _ Ho Hi) as Hpos.
  rewrite (find_middle pre s post Start Ho); [|..|lia].
  2:{ intros a Ha. apply last_Some_elem_of in Ha.
      assert (seg_before a s) as [? _]; [|lia].
      eapply ordered_app_before; [done..|]. by left. }
  rewrite (proj2 (Nat.eqb_neq (length pre) (length (pre ++ s :: post))))
    by (rewrite length_app; simpl; lia).
  simpl. unfold at_. rewrite lookup_middle. simpl.
  unfold Segment_containsInterval.
  rewrite (proj2 (Z.ltb_lt _ _) Hlt). simpl.
  rewrite (proj2 (Z.leb_le _ _) Hs1), (proj2 (Z.leb_le _ _) Hs2).
  rewrite (proj2 (Z.ltb_lt Start (end_ s))) by lia.
  rewrite (proj2 (Z.ltb_lt (start s) End)) by lia. simpl.
  apply Forall_app in Hval as [Hval1 [Hvals Hval2]%Forall_cons].
  apply Forall_app in Ht as [Ht1 [Hts Ht2]%Forall_cons].
  destruct (Z.eqb_spec (start s) Start) as [Hst|Hst].
  - destruct (Z.eqb_spec (end_ s) End) as [Hen|Hen].
    + (* the whole segment goes *)
      pose proof (erase_middle pre post s) as Her.
      assert (Hord : ordered (pre ++ post)) by by eapply ordered_delete.
      assert (Hval' : Forall (λ s, (0 ≤ start s)%Z) (pre ++ post))
        by by apply Forall_app.
      assert (Ht' : Forall (λ s, vn_live A (valnos lr) (valno s))
                      (pre ++ post)) by by apply Forall_app.
      destruct (RemoveDeadValNo
                && negb (valno_used_elsewhere (pre ++ s :: post)
                           (length pre) (valno s))) eqn:Hdead.
      * bool_prop.
        destruct (markValNoForDeletion_spec A (valnos lr) (valno s) Hh)
          as (A' & vs' & Hm & Hmark); [by apply vn_live_in_table|].
        rewrite Hm. simpl. rewrite Her. eexists _, _. split; [done|].
        destruct (marked_for_deletion_inv A (valnos lr) (valno s) A' vs'
                    (pre ++ post)) as [Ht'' Hh'']; try done.
        -- by apply vn_live_in_table.
        -- by apply (valno_used_elsewhere_false pre s post).
      * simpl. rewrite Her. eexists _, _. split; [done|]. by split.
    + (* a prefix goes *)
      rewrite insert_middle. eexists _, _. split; [done|].
      split; simpl; try done.
      * apply (ordered_replace pre s post [set_start s End]); [done| |].
        -- simpl. repeat split; lia.
        -- constructor; [|constructor]. simpl. repeat split; lia.
      * apply Forall_app. split; [done|]. constructor; [simpl; lia|done].
      * apply Forall_app. split; [done|]. by constructor.
  - destruct (Z.eqb_spec (end_ s) End) as [Hen|Hen].
    + (* a suffix goes *)
      rewrite insert_middle. eexists _, _. split; [done|].
      split; simpl; try done.
      * apply (ordered_replace pre s post [set_end s Start]); [done| |].
        -- simpl. repeat split; lia.
        -- constructor; [|constructor]. simpl. repeat split; lia.
      * apply Forall_app. split; [done|]. by constructor.
      * apply Forall_app. split; [done|]. by constructor.
    + (* the segment is split in two *)
      unfold Segment_new. rewrite (proj2 (Z.ltb_lt End (end_ s))) by lia.
      simpl. rewrite insert_middle, insert_at_next.
      eexists _, _. split; [done|]. split; simpl; try done.
      * apply (ordered_replace pre s post
                 [set_end s Start; mkSegment End (end_ s) (valno s)]);
          [done| |].
        -- simpl. repeat split; simpl; intros; lia.
        -- constructor; [|constructor; [|constructor]];
             simpl; repeat split; lia.
      * apply Forall_app. split; [done|].
        constructor; [done|]. constructor; [simpl; lia|done].
      * apply Forall_app. split; [done|].
        constructor; [done|]. by constructor.
Qed.

(** ** Search results as a split of the vector *)

Lemma partition_point_split p l r :
  partition_point p l r →
  ∃ pre post, l = pre ++ post ∧ r = length pre
              ∧ Forall (λ s, p s = false) pre ∧ Forall (λ s, p s = true) post.
Proof.
  intros (Hr & HF & HT). exists (take r l), (drop r l).
  split; [by rewrite take_drop|]. split; [by rewrite length_take_le|].
  split; apply Forall_lookup; intros i a Ha.
  - apply lookup_take_Some in Ha as [Ha Hi]. eauto.
  - rewrite lookup_drop in Ha. eapply HT; [|done]. lia.
Qed.

Lemma upper_bound_split l Pos :
  ordered l →
  ∃ pre post, l = pre ++ post ∧ upper_bound l Pos = length pre
              ∧ Forall (λ s, (start s ≤ Pos)%Z) pre
              ∧ Forall (λ s, (Pos < start s)%Z) post.
Proof.
  intros Ho.
  destruct (partition_point_split _ _ _ (upper_bound_spec l Pos Ho))
    as (pre & post & ? & ? & H1 & H2).
  exists pre, post. repeat split; [done..| |].
  - eapply Forall_impl; [exact H1|]. simpl. intros; bool_prop; lia.
  - eapply Forall_impl; [exact H2|]. simpl. intros; bool_prop; lia.
Qed.

Lemma find_split l Pos :
  ordered l →
  ∃ pre post, l = pre ++ post ∧ find l Pos = length pre
              ∧ Forall (λ s, (end_ s ≤ Pos)%Z) pre
              ∧ Forall (λ s, (Pos < end_ s)%Z) post.
Proof.
  intros Ho.
  destruct (partition_point_split _ _ _ (find_spec l Pos Ho))
    as (pre & post & ? & ? & H1 & H2).
  exists pre, post. repeat split; [done..| |].
  - eapply Forall_impl; [exact H1|]. simpl. intros; bool_prop; lia.
  - eapply Forall_impl; [exact H2|]. simpl. intros; bool_prop; lia.
Qed.

(** ** extendSegmentEndTo *)

Lemma mergeTo_scan_spec ValNo NewEnd rest : ∀ pos,
  (∀ n, n ∈ rest → (end_ n ≤ NewEnd)%Z → valno n = ValNo) →
  ∃ k, mergeTo_scan ValNo NewEnd rest pos = Ok (pos + k)
       ∧ k ≤ length rest
       ∧ Forall (λ n, (end_ n ≤ NewEnd)%Z) (take k rest)
       ∧ (∀ n, rest !! k = Some n → (NewEnd < end_ n)%Z).
Proof.
  induction rest as [|n rest IH]; intros pos Hv.
  - exists 0. simpl. rewrite Nat.add_0_r.
    split; [done|]. split; [lia|]. split; [constructor|done].
  - simpl. destruct (Z.leb_spec (end_ n) NewEnd) as [Hle|Hgt].
    + rewrite (proj2 (Nat.eqb_eq _ _) (Hv n ltac:(by left) Hle)). simpl.
      destruct (IH (S pos)) as (k & Hk & Hlen & HF & Hstop).
      { intros m Hm. apply Hv. by right. }
      exists (S k). rewrite Hk.
      split; [f_equal; lia|]. split; [simpl; lia|].
      split; [by constructor|done].
    + exists 0. rewrite Nat.add_0_r.
      split; [done|]. split; [lia|]. split; [constructor|].
      intros m [= <-]. done.
Qed.

Lemma erase_after {A} (pre rest : list A) x k :
  k ≤ length rest →
  erase (pre ++ x :: rest) (length pre + 1) (length pre + 1 + k)
  = pre ++ x :: drop k rest.
Proof.
  intros Hk. unfold erase.
  replace (pre ++ x :: rest) with ((pre ++ [x]) ++ rest)
    by by rewrite <- app_assoc.
  rewrite take_app_length' by (rewrite length_app; simpl; lia).
  rewrite drop_app_ge by (rewrite length_app; simpl; lia).
  rewrite length_app. simpl.
  replace (length pre + 1 + k - (length pre + 1)) with k by lia.
  by rewrite <- app_assoc.
Qed.

Lemma extendSegmentEndTo_middle pre s rest NewEnd k :
  mergeTo_scan (valno s) NewEnd rest (length pre + 1)
  = Ok (length pre + 1 + k) →
  k ≤ length rest →
  extendSegmentEndTo (pre ++ s :: rest) (length pre) NewEnd
  = Ok (extended_end pre s rest NewEnd k).
Proof.
  intros Hscan Hk. unfold extendSegmentEndTo, extended_end.
  rewrite (proj2 (Nat.ltb_lt _ _)) by (rewrite length_app; simpl; lia).
  simpl. unfold at_ at 1. rewrite lookup_middle. simpl.
  replace (drop (length pre + 1) (pre ++ s :: rest)) with rest.
  2:{ rewrite drop_app_ge by lia.
      by replace (length pre + 1 - length pre) with 1 by lia. }
  rewrite Hscan. simpl.
  replace (length pre + 1 + k - 1) with (length pre + k) by lia.
  assert (Hprev : (pre ++ s :: rest) !! (length pre + k)
                  = Some (match last (take k rest) with
                          | Some n => n
                          | None => s
                          end)).
  { rewrite lookup_app_r by lia.
    replace (length pre + k - length pre) with k by lia.
    destruct k as [|k]; [done|]. simpl.
    rewrite last_lookup, length_take_le by lia. simpl.
    rewrite lookup_take_lt by lia.
    destruct (lookup_lt_is_Some_2 rest k ltac:(lia)) as [n Hn].
    by rewrite Hn. }
  unfold at_. rewrite Hprev. simpl. rewrite insert_middle.
  assert (He : end_ (match last (take k rest) with
                     | Some n => n
                     | None => s
                     end)
               = match last (take k rest) with
                 | Some n => end_ n
                 | None => end_ s
                 end) by by destruct (last (take k rest)).
  unfold end_before_merge. rewrite He.
  set (e1 := Z.max NewEnd _).
  rewrite lookup_app_r by lia.
  replace (length pre + 1 + k - length pre) with (S k) by lia. simpl.
  destruct (rest !! k) as [M|] eqn:HM.
  - rewrite (drop_S _ _ _ HM).
    destruct ((start M <=? e1)%Z && (valno M =? valno s)).
    + rewrite insert_middle.
      replace (length pre + 1 + k + 1) with (length pre + 1 + S k) by lia.
      rewrite erase_after by (apply lookup_lt_Some in HM; lia). done.
    + rewrite erase_after by lia. by rewrite (drop_S _ _ _ HM).
  - rewrite erase_after by lia.
    apply lookup_ge_None in HM. by rewrite drop_ge by lia.
Qed.

Lemma ordered_app_junction pre s post :
  ordered (pre ++ s :: post) →
  ∀ a, last pre = Some a → seg_before a s.
Proof.
  intros Ho a Ha. apply last_Some_elem_of in Ha.
  eapply ordered_app_before; [done..|]. by left.
Qed.

(** Changing the end of a segment, seen from the list before it. *)
Lemma ordered_replace_tail pre s s' post post' :
  ordered (pre ++ s :: post) → ordered (s' :: post') →
  start s' = start s → valno s' = valno s →
  ordered (pre ++ s' :: post').
Proof.
  intros Ho Ho' Hs Hv. apply ordered_app; [|done|].
  - by apply ordered_app_inv in Ho as [? _].
  - intros a b Ha [= <-].
    destruct (ordered_app_junction _ _ _ Ho a Ha) as [H1 H2].
    split; [lia|]. rewrite Hs, Hv. done.
Qed.

Lemma extendSegmentEndTo_ordered pre s rest NewEnd :
  ordered (pre ++ s :: rest) →
  (∀ n, n ∈ rest → valno n ≠ valno s → (NewEnd ≤ start n)%Z) →
  ∃ e' k,
    extendSegmentEndTo (pre ++ s :: rest) (length pre) NewEnd
    = Ok (pre ++ set_end s e' :: drop k rest)
    ∧ ordered (pre ++ set_end s e' :: drop k rest)
    ∧ (Z.max NewEnd (end_ s) ≤ e')%Z.
Proof.
  intros Ho Hconf.
  pose proof (ordered_app_inv _ _ Ho) as [Hpre Hsr].
  pose proof (ordered_cons_inv _ _ Hsr) as Hrest.
  pose proof (ordered_Forall _ Hrest) as Hpos. rewrite Forall_forall in Hpos.
  destruct (mergeTo_scan_spec (valno s) NewEnd rest (length pre + 1))
    as (k & Hscan & Hk & Hsw & Hstop).
  { intros n Hn Hle. destruct (decide (valno n = valno s)); [done|].
    specialize (Hconf n Hn ltac:(done)). specialize (Hpos n Hn). lia. }
  rewrite (extendSegmentEndTo_middle pre s rest NewEnd k Hscan Hk).
  unfold extended_end, end_before_merge.
  set (prevEnd := match last (take k rest) with
                  | Some n => end_ n
                  | None => end_ s
                  end).
  pose proof (take_drop k rest) as Hsplit.
  assert (Hs_pos : (start s < end_ s)%Z) by (simpl in Hsr; tauto).
  assert (Hprev1 : (end_ s ≤ prevEnd)%Z).
  { unfold prevEnd. destruct (last (take k rest)) as [n|] eqn:Hl; [|lia].
    apply last_Some_elem_of in Hl.
    assert (n ∈ rest) as Hn by (rewrite <- Hsplit, elem_of_app; by left).
    pose proof (ordered_cons_lt _ _ Hsr) as HF. rewrite Forall_forall in HF.
    specialize (HF n Hn). specialize (Hpos n Hn). lia. }
  assert (Hprev2 : ∀ M, head (drop k rest) = Some M → (prevEnd ≤ start M)%Z).
  { intros M HM. apply head_Some_elem_of in HM. unfold prevEnd.
    destruct (last (take k rest)) as [n|] eqn:Hl.
    - apply last_Some_elem_of in Hl. rewrite <- Hsplit in Hrest.
      by destruct (ordered_app_before _ _ n M Hrest Hl HM).
    - pose proof (ordered_cons_lt _ _ Hsr) as HF. rewrite Forall_forall in HF.
      apply HF. rewrite <- Hsplit, elem_of_app. by right. }
  assert (Hdrop : ordered (drop k rest)).
  { rewrite <- Hsplit in Hrest. by apply ordered_app_inv in Hrest as [_ ?]. }
  destruct (drop k rest) as [|M post] eqn:Hd.
  - exists (Z.max NewEnd prevEnd), k. rewrite Hd.
    split; [done|]. split; [|lia].
    eapply ordered_replace_tail; [done| |done..].
    simpl. repeat split; lia.
  - specialize (Hprev2 M eq_refl).
    assert (HMrest : M ∈ rest).
    { rewrite <- Hsplit, elem_of_app. right. by left. }
    assert (HMstop : (NewEnd < end_ M)%Z).
    { apply Hstop. rewrite <- (Nat.add_0_r k), <- lookup_drop, Hd. done. }
    destruct ((start M <=? Z.max NewEnd prevEnd)%Z && (valno M =? valno s))
      eqn:Hmerge.
    + bool_prop. exists (end_ M), (S k).
      assert (Hd' : drop (S k) rest = post).
      { replace (S k) with (k + 1) by lia. by rewrite <- drop_drop, Hd. }
      rewrite Hd'. split; [done|].
      specialize (Hpos M HMrest). split; [|lia].
      eapply ordered_replace_tail; [done| |done..].
      apply ordered_cons; [simpl; lia|by eapply ordered_cons_inv|].
      intros n Hn. destruct post as [|n' post]; [done|].
      injection Hn as ->. destruct Hdrop as (_ & [H1 H2] & _).
      split; simpl; [done|]. intros He. rewrite <- H0. by apply H2.
    + exists (Z.max NewEnd prevEnd), k. rewrite Hd.
      split; [done|]. split; [|lia].
      eapply ordered_replace_tail; [done| |done..].
      apply ordered_cons; [simpl; lia|done|].
      intros n [= <-]. simpl. apply andb_false_iff in Hmerge as [Hm|Hm].
      * bool_prop. apply seg_before_strict. simpl. lia.
      * bool_prop. specialize (Hconf M HMrest Hm).
        split; simpl; [lia|]. intros _. congruence.
Qed.

(** ** extendInBlock *)

Lemma extendSegmentEndTo_in_block pre s post Use :
  ordered (pre ++ s :: post) → (end_ s < Use)%Z →
  Forall (λ n, (Use ≤ start n)%Z) post →
  extendSegmentEndTo (pre ++ s :: post) (length pre) Use
  = Ok (pre ++ set_end s (extended_in_block s post Use).1
            :: (extended_in_block s post Use).2).
Proof.
  intros Ho Hlt Hpost.
  pose proof (ordered_app_inv _ _ Ho) as [_ Hsp].
  pose proof (ordered_Forall _ (ordered_cons_inv _ _ Hsp)) as Hpos.
  assert (Hscan : mergeTo_scan (valno s) Use post (length pre + 1)
                  = Ok (length pre + 1 + 0)).
  { rewrite Nat.add_0_r. destruct post as [|M post']; [done|]. simpl.
    apply Forall_cons in Hpost as [HM _]. apply Forall_cons in Hpos as [HM' _].
    by rewrite (proj2 (Z.leb_gt _ _)) by lia. }
  rewrite (extendSegmentEndTo_middle pre s post Use 0 Hscan ltac:(lia)).
  unfold extended_end, end_before_merge, extended_in_block. simpl.
  rewrite (proj2 (Z.ltb_lt _ _) Hlt), Z.max_l by lia.
  destruct post as [|M post']; [done|]. simpl.
  apply Forall_cons in Hpost as [HM _].
  destruct (Z.leb_spec (start M) Use), (Z.eqb_spec (start M) Use);
    try lia; simpl; by destruct (valno M =? valno s).
Qed.

(** The segment that precedes [Use] is the last one that starts before it. *)
Lemma upper_bound_prev pre s post Use :
  ordered (pre ++ s :: post) → (start s < Use)%Z →
  Forall (λ n, (Use ≤ start n)%Z) post →
  upper_bound (pre ++ s :: post) (getPrevSlot Use) = length pre + 1.
Proof.
  intros Ho Hs Hpost. unfold getPrevSlot.
  apply (partition_point_unique (λ n, (Use - 1 <? start n)%Z)
           (pre ++ s :: post)); [by apply upper_bound_spec|].
  split; [rewrite length_app; simpl; lia|]. split.
  - intros i a Hi Ha. apply Z.ltb_ge.
    pose proof (ordered_lookup_le _ i (length pre) a s Ho ltac:(lia) Ha
                  (lookup_middle pre post s)). lia.
  - intros i a Hi Ha. apply Z.ltb_lt.
    rewrite lookup_app_r in Ha by lia.
    destruct (i - length pre) as [|j] eqn:Hj; [lia|]. simpl in Ha.
    rewrite Forall_lookup in Hpost. specialize (Hpost _ _ Ha). simpl in *.
    lia.
Qed.

Lemma upper_bound_none l Use :
  ordered l → Forall (λ n, (Use ≤ start n)%Z) l →
  upper_bound l (getPrevSlot Use) = 0.
Proof.
  intros Ho Hl. unfold getPrevSlot.
  apply (partition_point_unique (λ n, (Use - 1 <? start n)%Z) l);
    [by apply upper_bound_spec|].
  split; [lia|]. split; [intros; lia|].
  intros i a _ Ha. apply Z.ltb_lt.
  rewrite Forall_lookup in Hl. specialize (Hl _ _ Ha). simpl in *. lia.
Qed.

Lemma extendInBlock_none_before l StartIdx Use :
  ordered l → Forall (λ n, (Use ≤ start n)%Z) l →
  @extendInBlock CalcLiveRangeUtilVector l StartIdx Use = Ok (l, nullptr).
Proof.
  intros Ho Hl. unfold extendInBlock.
  destruct (length l =? 0); [done|].
  unfold Segment_new, getPrevSlot at 1.
  rewrite (proj2 (Z.ltb_lt (Use - 1) Use)) by lia. simpl.
  by rewrite upper_bound_none.
Qed.

Lemma extendInBlock_preceding pre s post StartIdx Use :
  ordered (pre ++ s :: post) → (start s < Use)%Z →
  Forall (λ n, (Use ≤ start n)%Z) post →
  @extendInBlock CalcLiveRangeUtilVector (pre ++ s :: post) StartIdx Use
  = if (end_ s <=? StartIdx)%Z then Ok (pre ++ s :: post, nullptr)
    else Ok (pre ++ set_end s (extended_in_block s post Use).1
                 :: (extended_in_block s post Use).2, valno s).
Proof.
  intros Ho Hs Hpost. unfold extendInBlock.
  rewrite (proj2 (Nat.eqb_neq (length (pre ++ s :: post)) 0))
    by (rewrite length_app; simpl; lia).
  unfold Segment_new, getPrevSlot at 1.
  rewrite (proj2 (Z.ltb_lt (Use - 1) Use)) by lia. simpl.
  rewrite upper_bound_prev by done.
  rewrite (proj2 (Nat.eqb_neq (length pre + 1) 0)) by lia.
  replace (length pre + 1 - 1) with (length pre) by lia.
  unfold at_ at 1. rewrite lookup_middle. simpl.
  destruct (end_ s <=? StartIdx)%Z; [done|].
  destruct (Z.ltb_spec (end_ s) Use) as [Hlt|Hge].
  - rewrite extendSegmentEndTo_in_block by done. simpl.
    unfold at_. rewrite lookup_middle. done.
  - unfold extended_in_block.
    rewrite (proj2 (Z.ltb_ge (end_ s) Use)) by lia. simpl.
    by destruct s.
Qed.

(** ** Stability of the value-number table *)

Lemma vn_live_alloc A vs p w q :
  vn_live A vs p → vn_live (A ++ [w]) (vs ++ [q]) p.
Proof.
  intros (v & Hv & Hl & Hu). exists v.
  split; [by apply deref_alloc_old|]. split; [|done].
  by apply lookup_app_l_Some.
Qed.

Lemma vn_live_store_def A vs p q v d :
  deref A q = Ok v → vn_live A vs p →
  vn_live (store A q (VNInfo.set_def v d)) vs p.
Proof.
  intros Hq (w & Hw & Hl & Hu). unfold vn_live.
  destruct (decide (q = p)) as [->|Hne].
  - rewrite Hq in Hw. injection Hw as <-.
    exists (VNInfo.set_def v d). by erewrite deref_store_eq.
  - exists w. by rewrite deref_store_ne.
Qed.

Lemma handles_alloc A vs w :
  Forall (λ p, ∃ v, deref A p = Ok v) vs →
  Forall (λ p, ∃ v, deref (A ++ [w]) p = Ok v) (vs ++ [S (length A)]).
Proof.
  intros HF. apply Forall_app. split.
  - eapply Forall_impl; [exact HF|]. intros p [v Hv]. exists v.
    by apply deref_alloc_old.
  - constructor; [|constructor]. exists w. apply deref_alloc_new.
Qed.

Lemma handles_store A vs q v w :
  deref A q = Ok v →
  Forall (λ p, ∃ v, deref A p = Ok v) vs →
  Forall (λ p, ∃ v, deref (store A q w) p = Ok v) vs.
Proof.
  intros Hq HF. eapply Forall_impl; [exact HF|]. intros p [u Hu]. simpl.
  erewrite deref_store by done. case_decide; eauto.
Qed.

Lemma vn_live_fresh A vs p : vn_live A vs p → p ≠ S (length A).
Proof. intros (v & Hv & _) ->. by eapply deref_fresh. Qed.

(** ** Slots of an instruction *)

Lemma dead_slot_after Def : isDead Def = false → (Def < getDeadSlot Def)%Z.
Proof.
  unfold isDead, getDeadSlot. intros H. bool_prop.
  pose proof (Z.div_mod Def 4 ltac:(lia)).
  pose proof (Z.mod_pos_bound Def 4 ltac:(lia)). lia.
Qed.

Lemma dead_slot_earlier Def s :
  isEarlierInstr Def s = true → (getDeadSlot Def < s)%Z.
Proof.
  unfold isEarlierInstr, getDeadSlot. intros H. bool_prop.
  pose proof (Z.div_mod s 4 ltac:(lia)).
  pose proof (Z.mod_pos_bound s 4 ltac:(lia)). lia.
Qed.

(** ** createDeadDef on the segment vector *)

Lemma createDeadDef_at_end A vs coll Def :
  isDead Def = false → Forall (λ s, (end_ s ≤ Def)%Z) coll →
  @createDeadDef CalcLiveRangeUtilVector A vs coll Def
  = Ok (A ++ [new_value vs Def], vs ++ [S (length A)],
        coll ++ [mkSegment Def (getDeadSlot Def) (S (length A))],
        S (length A)).
Proof.
  intros Hd Hc. unfold createDeadDef. rewrite Hd. simpl.
  rewrite find_end.
  2:{ intros a Ha. apply last_Some_elem_of in Ha.
      rewrite Forall_forall in Hc. by apply Hc. }
  rewrite Nat.eqb_refl. unfold Segment_new.
  by rewrite (proj2 (Z.ltb_lt _ _) (dead_slot_after Def Hd)).
Qed.

Lemma createDeadDef_find pre s post Def :
  ordered (pre ++ s :: post) →
  Forall (λ a, (end_ a ≤ Def)%Z) pre → (Def < end_ s)%Z →
  find (pre ++ s :: post) Def = length pre.
Proof.
  intros Ho Hpre Hs. apply find_middle; [done| |done].
  intros a Ha. apply last_Some_elem_of in Ha.
  rewrite Forall_forall in Hpre. by apply Hpre.
Qed.

Lemma createDeadDef_promote A vs pre s post Def v :
  ordered (pre ++ s :: post) → isDead Def = false →
  Forall (λ a, (end_ a ≤ Def)%Z) pre → (Def < end_ s)%Z →
  isSameInstr Def (start s) = true →
  deref A (valno s) = Ok v → VNInfo.def v = start s →
  @createDeadDef CalcLiveRangeUtilVector A vs (pre ++ s :: post) Def
  = Ok (if (Z.min Def (start s) =? start s)%Z then A
        else store A (valno s) (VNInfo.set_def v (Z.min Def (start s))),
        vs, pre ++ set_start s (Z.min Def (start s)) :: post, valno s).
Proof.
  intros Ho Hd Hpre Hs Hsame Hv Hdef. unfold createDeadDef.
  rewrite Hd. simpl. rewrite createDeadDef_find by done.
  rewrite (proj2 (Nat.eqb_neq (length pre) (length (pre ++ s :: post))))
    by (rewrite length_app; simpl; lia).
  unfold at_. rewrite lookup_middle. simpl. rewrite Hsame, Hv. simpl.
  rewrite (proj2 (Z.eqb_eq _ _) Hdef). simpl.
  destruct (Z.eqb_spec (Z.min Def (start s)) (start s)) as [He|Hne]; simpl.
  - rewrite He. by destruct s.
  - by rewrite insert_middle.
Qed.

Lemma createDeadDef_before A vs pre s post Def :
  ordered (pre ++ s :: post) → isDead Def = false →
  Forall (λ a, (end_ a ≤ Def)%Z) pre → (Def < end_ s)%Z →
  isSameInstr Def (start s) = false →
  isEarlierInstr Def (start s) = true →
  @createDeadDef CalcLiveRangeUtilVector A vs (pre ++ s :: post) Def
  = Ok (A ++ [new_value vs Def], vs ++ [S (length A)],
        pre ++ mkSegment Def (getDeadSlot Def) (S (length A)) :: s :: post,
        S (length A)).
Proof.
  intros Ho Hd Hpre Hs Hsame Hearly. unfold createDeadDef.
  rewrite Hd. simpl. rewrite createDeadDef_find by done.
  rewrite (proj2 (Nat.eqb_neq (length pre) (length (pre ++ s :: post))))
    by (rewrite length_app; simpl; lia).
  unfold at_. rewrite lookup_middle. simpl. rewrite Hsame, Hearly. simpl.
  unfold Segment_new.
  rewrite (proj2 (Z.ltb_lt _ _) (dead_slot_after Def Hd)). simpl.
  by rewrite insert_at_app.
Qed.

(** ** The invariants under extendInBlock and createDeadDef *)

Lemma extended_in_block_Forall (P : Segment → Prop) s post Use :
  Forall P post → Forall P (extended_in_block s post Use).2.
Proof.
  intros HF. unfold extended_in_block.
  destruct (end_ s <? Use)%Z; [|done].
  destruct post as [|M post']; [done|].
  destruct ((start M =? Use)%Z && (valno M =? valno s)); [|done].
  by apply Forall_cons in HF as [_ ?].
Qed.

Lemma extendInBlock_inv A lr StartIdx Use :
  LRInv A lr →
  ∃ lr' v, LiveRange_extendInBlock lr StartIdx Use = Ok (lr', v)
           ∧ LRInv A lr'.
Proof.
  intros Hinv. pose proof Hinv as [Hv Ho Hval Ht Hh].
  unfold LiveRange_extendInBlock. rewrite Hv.
  destruct (upper_bound_split (segments lr) (getPrevSlot Use) Ho)
    as (pre & post & Hsegs & _ & Hpre & Hpost).
  assert (Hpost' : Forall (λ n, (Use ≤ start n)%Z) post).
  { eapply Forall_impl; [exact Hpost|]. unfold getPrevSlot. simpl.
    intros; lia. }
  destruct (decide (pre = [])) as [->|Hne].
  - simpl in Hsegs. rewrite extendInBlock_none_before; [|done|by rewrite Hsegs].
    simpl. eexists _, _. split; [done|]. by destruct lr.
  - destruct (exists_last Hne) as (pre' & s & ->).
    rewrite <- app_assoc in Hsegs. simpl in Hsegs. rewrite Hsegs in *.
    assert (Hs : (start s < Use)%Z).
    { apply Forall_app in Hpre as [_ [Hs _]%Forall_cons].
      unfold getPrevSlot in Hs. lia. }
    rewrite extendInBlock_preceding by done.
    destruct (end_ s <=? StartIdx)%Z.
    { simpl. eexists _, _. split; [done|].
      unfold with_segments. rewrite <- Hsegs. by destruct lr. }
    simpl. eexists _, _. split; [done|].
    apply Forall_app in Hval as [Hval1 [Hvals Hval2]%Forall_cons].
    apply Forall_app in Ht as [Ht1 [Hts Ht2]%Forall_cons].
    split; simpl; try done.
    + destruct (Z.ltb_spec (end_ s) Use) as [Hlt|Hge].
      * destruct (extendSegmentEndTo_ordered pre' s post Use Ho)
          as (e' & k & He & Hord & _).
        { intros n Hn _. rewrite Forall_forall in Hpost'. by apply Hpost'. }
        rewrite extendSegmentEndTo_in_block in He by done.
        injection He as He. by rewrite He.
      * unfold extended_in_block.
        rewrite (proj2 (Z.ltb_ge (end_ s) Use)) by lia. simpl.
        by destruct s.
    + apply Forall_app. split; [done|]. constructor; [done|].
      by apply extended_in_block_Forall.
    + apply Forall_app. split; [done|]. constructor; [done|].
      by apply extended_in_block_Forall.
Qed.

Lemma createDeadDef_inv A lr Def :
  LRInv A lr → createDeadDef_pre A lr Def →
  ∃ A' lr' v, LiveRange_createDeadDef A lr Def = Ok (A', lr', v)
              ∧ LRInv A' lr'.
Proof.
  intros [Hv Ho Hval Ht Hh] (Hdef & Hdead & Hfirst).
  unfold LiveRange_createDeadDef. rewrite Hv.
  destruct (find_split (segments lr) Def Ho)
    as (pre & post & Hsegs & Hfind & Hpre & Hpost).
  unfold first_after in Hfirst. rewrite Hfind, Hsegs in Hfirst.
  rewrite Hsegs in *.
  assert (Hfresh : Forall (λ s, valno s ≠ S (length A)) (pre ++ post)).
  { eapply Forall_impl; [exact Ht|]. intros s. apply vn_live_fresh. }
  assert (Hnew : vn_live (A ++ [new_value (valnos lr) Def])
                   (valnos lr ++ [S (length A)]) (S (length A))).
  { exists (new_value (valnos lr) Def). split; [apply deref_alloc_new|].
    simpl. split; [|done]. by rewrite lookup_app_r, Nat.sub_diag. }
  assert (Ht' : Forall (λ s, vn_live (A ++ [new_value (valnos lr) Def])
                               (valnos lr ++ [S (length A)]) (valno s))
                  (pre ++ post)).
  { eapply Forall_impl; [exact Ht|]. intros s. apply vn_live_alloc. }
  destruct post as [|s post].
  - (* no segment ends after Def *)
    rewrite app_nil_r in *. rewrite createDeadDef_at_end by done. simpl.
    eexists _, _, _. split; [done|]. split; simpl; try done.
    + apply ordered_app; [done| |].
      * simpl. pose proof (dead_slot_after Def Hdead). tauto.
      * intros a b Ha [= <-]. apply last_Some_elem_of in Ha.
        rewrite Forall_forall in Hpre, Hfresh. split; simpl; [by apply Hpre|].
        intros _. by apply Hfresh.
    + apply Forall_app. split; [done|]. by repeat constructor.
    + apply Forall_app. split; [done|]. by repeat constructor.
    + by apply handles_alloc.
  - apply Forall_cons in Hpost as [Hs Hpost].
    rewrite lookup_middle in Hfirst. specialize (Hfirst s eq_refl).
    apply Forall_app in Hval as [Hval1 [Hvals Hval2]%Forall_cons].
    pose proof (ordered_app_inv _ _ Ho) as [Hopre Hosp].
    destruct (isSameInstr Def (start s)) eqn:Hsame.
    + (* the definition moves to the earlier slot *)
      destruct Hfirst as [(v & Hdv & Hvd) Htouch].
      rewrite (createDeadDef_promote A (valnos lr) pre s post Def v)
        by done.
      simpl. eexists _, _, _. split; [done|].
      assert (Hord : ordered (pre ++ set_start s (Z.min Def (start s))
                                :: post)).
      { apply ordered_app; [done| |].
        - apply ordered_cons; [simpl; lia|by eapply ordered_cons_inv|].
          intros n Hn. destruct post as [|n' post]; [done|].
          injection Hn as ->. by destruct Hosp as (_ & ? & _).
        - intros a b Ha [= <-]. pose proof Ha as Ha'.
          apply last_Some_elem_of in Ha'.
          destruct (ordered_app_junction _ _ _ Ho a Ha) as [H1 H2].
          rewrite Forall_forall in Hpre. specialize (Hpre a Ha').
          split; simpl; [lia|]. intros He.
          destruct (Z.min_spec Def (start s)) as [[? Hm]|[? Hm]];
            rewrite Hm in He.
          + apply Htouch; [|done]. apply elem_of_app. by left.
          + by apply H2. }
      split; simpl; try done.
      * apply Forall_app. split; [done|]. constructor; [simpl; lia|done].
      * destruct (Z.min Def (start s) =? start s)%Z.
        -- apply Forall_app in Ht as [Ht1 [Hts Ht2]%Forall_cons].
           apply Forall_app. split; [done|]. by constructor.
        -- assert (Ht'' : Forall (λ s0, vn_live
                      (store A (valno s)
                         (VNInfo.set_def v (Z.min Def (start s))))
                      (valnos lr) (valno s0)) (pre ++ s :: post)).
           { eapply Forall_impl; [exact Ht|]. intros s0.
             by apply vn_live_store_def. }
           apply Forall_app in Ht'' as [Ht1 [Hts Ht2]%Forall_cons].
           apply Forall_app. split; [done|]. by constructor.
      * destruct (Z.min Def (start s) =? start s)%Z; [done|].
        by eapply handles_store.
    + (* a new value is defined before the segment *)
      rewrite createDeadDef_before by done. simpl.
      eexists _, _, _. split; [done|].
      apply Forall_app in Ht' as [Ht1 [Hts Ht2]%Forall_cons].
      apply Forall_app in Hfresh as [Hf1 [Hfs Hf2]%Forall_cons].
      split; simpl; try done.
      * apply ordered_app; [done| |].
        -- apply ordered_cons; [|done|].
           ++ simpl. by apply dead_slot_after.
           ++ intros n [= <-]. apply seg_before_strict. simpl.
              by apply dead_slot_earlier.
        -- intros a b Ha [= <-]. apply last_Some_elem_of in Ha.
           rewrite Forall_forall in Hpre, Hf1.
           split; simpl; [by apply Hpre|]. intros _. by apply Hf1.
      * apply Forall_app. split; [done|]. by repeat constructor.
      * apply Forall_app. split; [done|]. by repeat constructor.
      * by apply handles_alloc.
Qed.

(** ** addSegment on the segment vector *)

Lemma same_keys_sub l l1 : l1 ⊆ l → same_keys l l1.
Proof.
  intros Hsub. apply Forall_forall. intros n Hn. exists n. auto.
Qed.

Lemma same_keys_Forall (P : Segment → Prop) l l' :
  (∀ n m, start n = start m → valno n = valno m → P m → P n) →
  Forall P l → same_keys l l' → Forall P l'.
Proof.
  intros HP Hl Hk. rewrite Forall_forall in Hl.
  eapply Forall_impl; [exact Hk|]. simpl.
  intros n (m & Hm & Hs & Hv). eapply HP; eauto.
Qed.

Lemma extendSegmentStartTo_simple pre N post NewStart :
  (∀ B, last pre = Some B →
        (start B < NewStart)%Z
        ∧ ((valno B = valno N) → (end_ B < NewStart)%Z)) →
  @extendSegmentStartTo CalcLiveRangeUtilVector (pre ++ N :: post)
    (length pre) NewStart
  = Ok (pre ++ set_start N NewStart :: post, length pre).
Proof.
  intros HB. unfold extendSegmentStartTo.
  rewrite (proj2 (Nat.ltb_lt _ _)) by (rewrite length_app; simpl; lia).
  simpl. unfold at_ at 1. rewrite lookup_middle. simpl.
  destruct (decide (pre = [])) as [->|Hne].
  - simpl. by rewrite erase_nil.
  - destruct (exists_last Hne) as (pre' & B & ->).
    destruct (HB B (last_snoc _ _)) as [HB1 HB2].
    rewrite length_app. simpl.
    replace (length pre' + 1) with (S (length pre')) by lia. simpl.
    assert (HN : ((pre' ++ [B]) ++ N :: post) !! S (length pre') = Some N).
    { replace (S (length pre')) with (length (pre' ++ [B]))
        by (rewrite length_app; simpl; lia).
      apply lookup_middle. }
    assert (HBl : ((pre' ++ [B]) ++ N :: post) !! length pre' = Some B).
    { rewrite <- app_assoc. apply lookup_middle. }
    unfold at_. rewrite HN. simpl. rewrite Nat.eqb_refl. simpl.
    rewrite HBl. simpl.
    rewrite (proj2 (Z.leb_gt NewStart (start B))) by lia. simpl.
    rewrite HBl. simpl.
    assert ((NewStart <=? end_ B)%Z && (valno B =? valno N) = false) as ->.
    { apply andb_false_iff.
      destruct (Nat.eqb_spec (valno B) (valno N)) as [He|]; [|by right].
      left. apply Z.leb_gt. auto. }
    replace (length pre' + 1) with (S (length pre')) by lia.
    rewrite HN. simpl.
    replace (S (length pre' + 1)) with (S (S (length pre'))) by lia.
    rewrite erase_nil.
    replace (S (length pre')) with (length (pre' ++ [B]))
      by (rewrite length_app; simpl; lia).
    rewrite insert_middle. by destruct N.
Qed.

Lemma extendSegmentEndTo_keys pre s rest e' k :
  same_keys (pre ++ s :: rest) (pre ++ set_end s e' :: drop k rest).
Proof.
  apply Forall_app. split; [|constructor].
  - apply same_keys_sub. intros x Hx. apply elem_of_app. by left.
  - exists s. split; [|done]. apply elem_of_app. right. by left.
  - apply same_keys_sub. intros x Hx. apply elem_of_app. right. right.
    by eapply subseteq_drop.
Qed.

Lemma same_keys_trans l1 l2 l3 :
  same_keys l1 l2 → same_keys l2 l3 → same_keys l1 l3.
Proof.
  intros H12 H23. unfold same_keys in H12. rewrite Forall_forall in H12.
  eapply Forall_impl; [exact H23|]. simpl.
  intros n (m & Hm & Hs & Hv). destruct (H12 m Hm) as (m' & ? & ? & ?).
  exists m'. split; [done|]. split; congruence.
Qed.

Lemma same_keys_mono l1 l2 l : l1 ⊆ l2 → same_keys l1 l → same_keys l2 l.
Proof.
  intros Hsub Hk. eapply Forall_impl; [exact Hk|]. simpl.
  intros n (m & Hm & ?). exists m. auto.
Qed.

Lemma addSegment_ordered coll S0 :
  ordered coll → (start S0 < end_ S0)%Z → no_conflict coll S0 →
  ∃ coll' I,
    @addSegment CalcLiveRangeUtilVector coll S0 = Ok (coll', I)
    ∧ ordered coll' ∧ same_keys (S0 :: coll) coll'.
Proof.
  intros Ho HS Hconf. unfold addSegment. simpl.
  destruct (upper_bound_split coll (start S0) Ho)
    as (pre & post & Hcoll & Hub & Hpre & Hpost).
  rewrite Hub. subst coll.
  pose proof (ordered_Forall _ Ho) as Hpos. rewrite Forall_forall in Hpos.
  rewrite Forall_forall in Hpost.
  (* segments after the insert position that differ in value start at or
     after the end of [S0] *)
  assert (Hconf_post : ∀ n, n ∈ post → valno n ≠ valno S0 →
                            (end_ S0 ≤ start n)%Z).
  { intros n Hn Hv. specialize (Hpost n Hn).
    destruct (Hconf n) as [H|H]; [apply elem_of_app; by right|done| |done].
    specialize (Hpos n ltac:(apply elem_of_app; by right)). lia. }
  (* the first phase looks at the segment before the insert position *)
  assert (Hphase1 :
    (∃ coll' I, (if negb (length pre =? 0) then
            B <- at_ (pre ++ post) (length pre - 1) ;;
            if valno S0 =? valno B then
              if (start B <=? start S0)%Z && (start S0 <=? end_ B)%Z then
                coll' <- extendSegmentEndTo (pre ++ post) (length pre - 1)
                           (end_ S0) ;;
                Ok (Some (coll', length pre - 1))
              else Ok None
            else
              _ <- check (end_ B <=? start S0)%Z OverlapMismatch ;;
              Ok None
          else Ok None) = Ok (Some (coll', I))
        ∧ ordered coll' ∧ same_keys (S0 :: pre ++ post) coll')
    ∨ ((if negb (length pre =? 0) then
            B <- at_ (pre ++ post) (length pre - 1) ;;
            if valno S0 =? valno B then
              if (start B <=? start S0)%Z && (start S0 <=? end_ B)%Z then
                coll' <- extendSegmentEndTo (pre ++ post) (length pre - 1)
                           (end_ S0) ;;
                Ok (Some (coll', length pre - 1))
              else Ok None
            else
              _ <- check (end_ B <=? start S0)%Z OverlapMismatch ;;
              Ok None
          else Ok None) = Ok None
       ∧ ∀ B, last pre = Some B →
           (start B < start S0)%Z ∧ (end_ B ≤ start S0)%Z
           ∧ (valno B = valno S0 → (end_ B < start S0)%Z))).
  { destruct (decide (pre = [])) as [->|Hne]; [right; by split|].
    destruct (exists_last Hne) as (pre' & B & ->).
    rewrite length_app. simpl.
    rewrite (proj2 (Nat.eqb_neq (length pre' + 1) 0)) by lia. simpl.
    replace (length pre' + 1 - 1) with (length pre') by lia.
    rewrite <- app_assoc in *. simpl in *.
    unfold at_. rewrite lookup_middle. simpl.
    assert (HB : (start B ≤ start S0)%Z).
    { by apply Forall_app in Hpre as [_ [? _]%Forall_cons]. }
    assert (HBpos : (start B < end_ B)%Z).
    { apply Hpos. apply elem_of_app. right. by left. }
    destruct (Nat.eqb_spec (valno S0) (valno B)) as [Hv|Hv].
    - rewrite (proj2 (Z.leb_le _ _) HB). simpl.
      destruct (Z.leb_spec (start S0) (end_ B)) as [Hle|Hgt].
      + left.
        destruct (extendSegmentEndTo_ordered pre' B post (end_ S0) Ho)
          as (e' & k & He & Hord & _).
        { intros n Hn Hvn. apply Hconf_post; [done|congruence]. }
        rewrite He. simpl. eexists _, _. split; [done|]. split; [done|].
        eapply same_keys_mono; [|apply extendSegmentEndTo_keys].
        intros x Hx. by right.
      + right. split; [done|]. intros B' HB'.
        rewrite last_snoc in HB'. injection HB' as <-. lia.
    - assert (HBe : (end_ B ≤ start S0)%Z).
      { destruct (Hconf B) as [H|H];
          [apply elem_of_app; right; by left|congruence|done|lia]. }
      rewrite (proj2 (Z.leb_le _ _) HBe). simpl. right. split; [done|].
      intros B' HB'. rewrite last_snoc in HB'. injection HB' as <-.
      split; [lia|]. split; [done|]. congruence. }
  destruct Hphase1 as [(coll' & I & -> & Hord & Hkeys)|[-> HB]].
  { simpl. by eexists _, _. }
  simpl.
  (* the second phase looks at the segment at the insert position *)
  destruct post as [|N post].
  - rewrite app_nil_r in *. rewrite Nat.eqb_refl. simpl.
    rewrite insert_at_end. eexists _, _. split; [done|]. split.
    + apply ordered_app; [done|simpl; tauto|].
      intros a b Ha [= <-]. destruct (HB a Ha) as (_ & H1 & H2).
      split; [done|]. intros He Hv. specialize (H2 Hv). lia.
    + apply Forall_app. split; [|constructor; [|constructor]].
      * apply same_keys_sub. intros x Hx. by right.
      * exists S0. split; [by left|done].
  - rewrite (proj2 (Nat.eqb_neq (length pre) (length (pre ++ N :: post))))
      by (rewrite length_app; simpl; lia).
    simpl. unfold at_ at 1. rewrite lookup_middle. simpl.
    assert (HN : (start S0 < start N)%Z) by (apply Hpost; by left).
    assert (HNpos : (start N < end_ N)%Z).
    { apply Hpos. apply elem_of_app. right. by left. }
    assert (Hinsert :
      ((valno S0 = valno N → (end_ S0 < start N)%Z) →
       (end_ S0 ≤ start N)%Z →
       ordered (insert_at (pre ++ N :: post) (length pre) S0)
       ∧ same_keys (S0 :: pre ++ N :: post)
           (insert_at (pre ++ N :: post) (length pre) S0))).
    { intros H1 H2. rewrite insert_at_app. split.
      - apply ordered_app;
          [by apply ordered_app_inv in Ho as [? _]| |].
        + apply ordered_cons; [done|by apply ordered_app_inv in Ho as [_ ?]|].
          intros n [= <-]. split; [done|]. intros He Hv.
          specialize (H1 Hv). lia.
        + intros a b Ha [= <-]. destruct (HB a Ha) as (_ & H3 & H4).
          split; [done|]. intros He Hv. specialize (H4 Hv). lia.
      - apply Forall_app. split; [|constructor].
        + apply same_keys_sub. intros x Hx. right. apply elem_of_app.
          by left.
        + exists S0. split; [by left|done].
        + apply same_keys_sub. intros x Hx. right. apply elem_of_app.
          by right. }
    destruct (Nat.eqb_spec (valno S0) (valno N)) as [Hv|Hv].
    + destruct (Z.leb_spec (start N) (end_ S0)) as [Hle|Hgt].
      * rewrite extendSegmentStartTo_simple.
        2:{ intros B HB'. destruct (HB B HB') as (H1 & H2 & H3).
            split; [done|]. intros HvB. apply H3. congruence. }
        simpl. unfold at_. rewrite lookup_middle. simpl.
        assert (Ho1 : ordered (pre ++ set_start N (start S0) :: post)).
        { apply ordered_app;
            [by apply ordered_app_inv in Ho as [? _]| |].
          - apply ordered_app_inv in Ho as [_ Ho].
            apply ordered_cons; [simpl; lia|by eapply ordered_cons_inv|].
            intros n Hn. destruct post as [|n' post]; [done|].
            injection Hn as ->. by destruct Ho as (_ & ? & _).
          - intros a b Ha [= <-]. destruct (HB a Ha) as (_ & H3 & H4).
            split; simpl; [done|]. intros He HvB. rewrite <- Hv in HvB.
            specialize (H4 HvB). lia. }
        assert (Hk1 : same_keys (S0 :: pre ++ N :: post)
                        (pre ++ set_start N (start S0) :: post)).
        { apply Forall_app. split; [|constructor].
          - apply same_keys_sub. intros x Hx. right. apply elem_of_app.
            by left.
          - exists S0. split; [by left|]. simpl. by split.
          - apply same_keys_sub. intros x Hx. right. apply elem_of_app.
            right. by right. }
        destruct (Z.ltb_spec (end_ N) (end_ S0)) as [Hlt|Hge].
        -- destruct (extendSegmentEndTo_ordered pre
                       (set_start N (start S0)) post (end_ S0) Ho1)
             as (e' & k & He & Hord & _).
           { intros n Hn Hvn. simpl in Hvn.
             apply Hconf_post; [by right|congruence]. }
           simpl in He. rewrite He. simpl. eexists _, _. split; [done|].
           split; [done|].
           eapply same_keys_trans; [exact Hk1|].
           apply (extendSegmentEndTo_keys pre (set_start N (start S0))
                    post e' k).
        -- simpl. by eexists _, _.
      * simpl. eexists _, _. split; [done|]. apply Hinsert; [|lia].
        intros _. lia.
    + assert (HNe : (end_ S0 ≤ start N)%Z).
      { apply Hconf_post; [by left|congruence]. }
      rewrite (proj2 (Z.leb_le _ _) HNe). simpl.
      eexists _, _. split; [done|]. apply Hinsert; [|done]. done.
Qed.

Lemma addSegment_inv A lr S0 :
  LRInv A lr → addSegment_pre A lr S0 →
  ∃ lr' I, LiveRange_addSegment lr S0 = Ok (lr', I) ∧ LRInv A lr'.
Proof.
  intros [Hv Ho Hval Ht Hh] (H0 & HS & Hlive & Hconf).
  unfold LiveRange_addSegment. rewrite Hv.
  destruct (addSegment_ordered (segments lr) S0 Ho HS Hconf)
    as (coll' & I & Hadd & Hord & Hkeys).
  rewrite Hadd. simpl. eexists _, _. split; [done|].
  split; simpl; try done.
  - eapply (same_keys_Forall _ (S0 :: segments lr)); [|by constructor|done].
    simpl. intros n m Hs _ Hm. lia.
  - eapply (same_keys_Forall _ (S0 :: segments lr)); [|by constructor|done].
    simpl. intros n m _ Hvn Hm. by rewrite Hvn.
Qed.

(** ** The points of a live range *)

Lemma live_at_app l1 l2 p v :
  live_at (l1 ++ l2) p v ↔ live_at l1 p v ∨ live_at l2 p v.
Proof.
  unfold live_at. split.
  - intros (s & [Hs|Hs]%elem_of_app & ?); [left|right]; eauto.
  - intros [(s & Hs & ?)|(s & Hs & ?)]; exists s;
      (split; [apply elem_of_app; auto|done]).
Qed.

Lemma live_at_cons s l p v :
  live_at (s :: l) p v ↔ ((start s ≤ p < end_ s)%Z ∧ valno s = v)
                          ∨ live_at l p v.
Proof.
  unfold live_at. split.
  - intros (s' & [->|Hs]%elem_of_cons & ?); [by left|right; eauto].
  - intros [?|(s' & Hs & ?)]; [exists s|exists s'];
      (split; [|done]); [by left|by right].
Qed.

Lemma live_at_nil p v : live_at [] p v ↔ False.
Proof. split; [|done]. by intros (s & Hs%elem_of_nil & _). Qed.

(** In an ordered list a position lies in one segment at most. *)
Lemma live_at_unique l p v v' :
  ordered l → live_at l p v → live_at l p v' → v = v'.
Proof.
  intros Ho (s & Hs & Hp & <-) (s' & Hs' & Hp' & <-).
  apply list_elem_of_lookup in Hs as [i Hi].
  apply list_elem_of_lookup in Hs' as [j Hj].
  destruct (Nat.lt_trichotomy i j) as [Hlt|[->|Hlt]].
  - pose proof (ordered_lookup_lt l i j s s' Ho Hlt Hi Hj). lia.
  - congruence.
  - pose proof (ordered_lookup_lt l j i s' s Ho Hlt Hj Hi). lia.
Qed.

Lemma length_middle {A} (pre post : list A) x :
  length (pre ++ x :: post) = length pre + 1 + length post.
Proof. rewrite length_app. simpl. lia. Qed.

Lemma lookup_middle_next {A} (pre post : list A) x y :
  (pre ++ x :: y :: post) !! (length pre + 1) = Some y.
Proof.
  rewrite lookup_app_r by lia.
  by replace (length pre + 1 - length pre) with 1 by lia.
Qed.

(** ** MergeValueNumberInto *)

Section merge.
Variables V1 V2 : VNPtr.
Hypothesis V12 : V1 ≠ V2.

Lemma loop_done fuel l :
  MergeValueNumberInto_loop (S fuel) V1 V2 l (length l) = Ok l.
Proof. simpl. by rewrite Nat.eqb_refl. Qed.

Lemma loop_skip fuel pre S0 post :
  valno S0 ≠ V1 →
  MergeValueNumberInto_loop (S fuel) V1 V2 (pre ++ S0 :: post) (length pre)
  = MergeValueNumberInto_loop fuel V1 V2 (pre ++ S0 :: post)
      (length (pre ++ [S0])).
Proof.
  intros Hv. simpl.
  rewrite (proj2 (Nat.eqb_neq (length pre) (length (pre ++ S0 :: post))))
    by (rewrite length_app; simpl; lia).
  unfold at_. rewrite lookup_middle. simpl.
  rewrite (proj2 (Nat.eqb_neq _ _) Hv). simpl.
  rewrite length_app. done.
Qed.

Lemma loop_step fuel pre S0 post :
  valno S0 = V1 →
  MergeValueNumberInto_loop (S fuel) V1 V2 (pre ++ S0 :: post) (length pre)
  = let '(pre1, S2, post2) := merge_step V2 pre S0 post in
    MergeValueNumberInto_loop fuel V1 V2 (pre1 ++ S2 :: post2)
      (length (pre1 ++ [S2])).
Proof.
  intros Hv. simpl.
  rewrite (proj2 (Nat.eqb_neq (length pre) (length (pre ++ S0 :: post))))
    by (rewrite length_app; simpl; lia).
  unfold at_ at 1. rewrite lookup_middle. simpl.
  rewrite (proj2 (Nat.eqb_eq _ _) Hv). simpl.
  unfold merge_step.
  (* the second half of the round, on any prefix and current segment *)
  assert (Hnext : ∀ pre1 S1 segs1,
    segs1 = pre1 ++ S1 :: post →
    (s1 <- at_ segs1 (length pre1) ;;
     let segs2 := <[length pre1 := set_valno s1 V2]> segs1 in
     if negb (length pre1 + 1 =? length segs2) then
       n <- at_ segs2 (length pre1 + 1) ;;
       s2 <- at_ segs2 (length pre1) ;;
       if (start n =? end_ s2)%Z && (valno n =? V2) then
         MergeValueNumberInto_loop fuel V1 V2
           (erase (<[length pre1 := set_end s2 (end_ n)]> segs2)
              (length pre1 + 1) (length pre1 + 1 + 1))
           (length pre1 + 1)
       else MergeValueNumberInto_loop fuel V1 V2 segs2 (length pre1 + 1)
     else MergeValueNumberInto_loop fuel V1 V2 segs2 (length pre1 + 1))
    = let '(pre1', S2, post2) :=
        match post with
        | N :: post' =>
          if (start N =? end_ (set_valno S1 V2))%Z && (valno N =? V2)
          then (pre1, set_end (set_valno S1 V2) (end_ N), post')
          else (pre1, set_valno S1 V2, post)
        | [] => (pre1, set_valno S1 V2, post)
        end in
      MergeValueNumberInto_loop fuel V1 V2 (pre1' ++ S2 :: post2)
        (length (pre1' ++ [S2]))).
  { intros pre1 S1 segs1 ->. unfold at_ at 1. rewrite lookup_middle.
    cbn [bind]. cbv zeta. rewrite insert_middle, length_middle.
    destruct post as [|N post'].
    - cbn [length]. rewrite Nat.add_0_r, Nat.eqb_refl. cbn [negb].
      by rewrite length_app.
    - rewrite (proj2 (Nat.eqb_neq _ _)) by (cbn [length]; lia).
      cbn [negb]. unfold at_. rewrite lookup_middle_next, lookup_middle.
      cbn [bind].
      replace (end_ (set_valno S1 V2)) with (end_ S1) by done.
      destruct ((start N =? end_ S1)%Z && (valno N =? V2)).
      + rewrite insert_middle.
        rewrite (erase_after pre1 (N :: post') _ 1) by (simpl; lia).
        rewrite length_app. done.
      + by rewrite length_app. }
  destruct (decide (pre = [])) as [->|Hne].
  - exact (Hnext [] S0 (S0 :: post) eq_refl).
  - destruct (exists_last Hne) as (pre' & Prev & ->).
    rewrite reverse_snoc, length_app. simpl.
    rewrite (proj2 (Nat.eqb_neq (length pre' + 1) 0)) by lia. simpl.
    replace (length pre' + 1 - 1) with (length pre') by lia.
    rewrite <- app_assoc. simpl.
    unfold at_ at 1. rewrite lookup_middle. simpl.
    destruct ((valno Prev =? V2) && (end_ Prev =? start S0)%Z).
    + cbn [bind]. rewrite reverse_involutive, insert_middle.
      rewrite (erase_after pre' (S0 :: post) _ 1) by (simpl; lia).
      exact (Hnext pre' (set_end Prev (end_ S0)) _ eq_refl).
    + cbn [bind].
      replace (length pre' + 1) with (length (pre' ++ [Prev]))
        by (rewrite length_app; simpl; lia).
      replace (pre' ++ Prev :: S0 :: post)
        with ((pre' ++ [Prev]) ++ S0 :: post) by by rewrite <- app_assoc.
      exact (Hnext (pre' ++ [Prev]) S0 _ eq_refl).
Qed.
End merge.

(** Split the conjunctions in the goal, without unfolding definitions. *)
Ltac splits := repeat match goal with |- _ ∧ _ => split end.

Section merge_spec.
Variables V1 V2 : VNPtr.
Hypothesis V12 : V1 ≠ V2.

Lemma relabels_refl l : relabels V1 V2 l l.
Proof. intros p. split; intros v Hv; exists v; auto. Qed.

Lemma relabels_trans l1 l2 l3 :
  relabels V1 V2 l1 l2 → relabels V1 V2 l2 l3 → relabels V1 V2 l1 l3.
Proof.
  intros H12 H23 p. destruct (H12 p) as [A1 B1], (H23 p) as [A2 B2].
  split.
  - intros v'' H3. destruct (A2 _ H3) as (v' & H2 & Hv').
    destruct (A1 _ H2) as (v & H1 & Hv). exists v. split; [done|].
    destruct Hv' as [->|[-> ->]], Hv as [->|[-> ->]]; auto.
  - intros v H1. destruct (B1 _ H1) as (v' & H2). eauto.
Qed.

Lemma relabels_app l1 l1' l2 :
  relabels V1 V2 l1 l1' → relabels V1 V2 (l1 ++ l2) (l1' ++ l2).
Proof.
  intros H p. destruct (H p) as [A B]. split.
  - intros v' [H1|H2]%live_at_app.
    + destruct (A _ H1) as (v & ? & ?). exists v.
      split; [apply live_at_app; by left|done].
    + exists v'. split; [apply live_at_app; by right|by left].
  - intros v [H1|H2]%live_at_app.
    + destruct (B _ H1) as (v' & ?). exists v'. apply live_at_app.
      by left.
    + exists v. apply live_at_app. by right.
Qed.

Lemma relabels_app_l l0 l1 l1' :
  relabels V1 V2 l1 l1' → relabels V1 V2 (l0 ++ l1) (l0 ++ l1').
Proof.
  intros H p. destruct (H p) as [A B]. split.
  - intros v' [H1|H2]%live_at_app.
    + exists v'. split; [apply live_at_app; by left|by left].
    + destruct (A _ H2) as (v & ? & ?). exists v.
      split; [apply live_at_app; by right|done].
  - intros v [H1|H2]%live_at_app.
    + exists v. apply live_at_app. by left.
    + destruct (B _ H2) as (v' & ?). exists v'. apply live_at_app.
      by right.
Qed.

(** Relabelling one segment. *)
Lemma relabels_one S0 :
  valno S0 = V1 → relabels V1 V2 [S0] [set_valno S0 V2].
Proof.
  intros Hv p. split.
  - intros v' [[Hp <-]|[]%live_at_nil]%live_at_cons. exists V1.
    split; [|by right]. apply live_at_cons. by left.
  - intros v [[Hp <-]|[]%live_at_nil]%live_at_cons. exists V2.
    apply live_at_cons. by left.
Qed.

(** Joining two touching segments into one of the value [V2]. *)
Lemma relabels_join a b :
  (start a ≤ end_ a)%Z → (start b ≤ end_ b)%Z → end_ a = start b →
  (valno a = V2 ∨ valno a = V1) → (valno b = V2 ∨ valno b = V1) →
  relabels V1 V2 [a; b] [mkSegment (start a) (end_ b) V2].
Proof.
  intros Ha Hb Hab Hva Hvb p. split.
  - intros v' [[Hp <-]|[]%live_at_nil]%live_at_cons. simpl in Hp.
    destruct (Z.lt_ge_cases p (end_ a)) as [Hlt|Hge].
    + exists (valno a). split.
      * apply live_at_cons. left. split; [lia|done].
      * simpl. destruct Hva as [->| ->]; auto.
    + exists (valno b). split.
      * apply live_at_cons. right. apply live_at_cons. left.
        split; [lia|done].
      * simpl. destruct Hvb as [->| ->]; auto.
  - intros v Hv. exists V2. apply live_at_cons. left. simpl.
    split; [|done].
    apply live_at_cons in Hv as [[Hp _]|Hv]; [lia|].
    apply live_at_cons in Hv as [[Hp _]|[]%live_at_nil]. lia.
Qed.

Lemma merged_keys_refl l : merged_keys V2 l l.
Proof. apply Forall_forall. intros n Hn. exists n. auto. Qed.

Lemma merged_keys_trans l1 l2 l3 :
  merged_keys V2 l1 l2 → merged_keys V2 l2 l3 → merged_keys V2 l1 l3.
Proof.
  intros H12 H23. unfold merged_keys in H12.
  rewrite Forall_forall in H12.
  eapply Forall_impl; [exact H23|]. simpl.
  intros n (m & Hm & Hs & Hv). destruct (H12 m Hm) as (m' & ? & ? & Hv').
  exists m'. split; [done|]. split; [congruence|].
  destruct Hv as [->|]; auto.
Qed.

Lemma merged_keys_intro l l' :
  (∀ n, n ∈ l' → ∃ m, m ∈ l ∧ start n = start m
                      ∧ (valno n = valno m ∨ valno n = V2)) →
  merged_keys V2 l l'.
Proof. intros H. by apply Forall_forall. Qed.

(** The first half of a round: a touching [V2] segment before [S0]
    absorbs it, and the result carries [V2]. *)
Lemma merge_prev_spec pre S0 :
  ordered (pre ++ [S0]) → valno S0 = V1 →
  Forall (λ s, valno s ≠ V1) pre →
  ∃ pre1 S1,
    (match reverse pre with
     | Prev :: rp =>
       if (valno Prev =? V2) && (end_ Prev =? start S0)%Z
       then (reverse rp, set_end Prev (end_ S0))
       else (pre, S0)
     | [] => (pre, S0)
     end) = (pre1, S1)
    ∧ ordered (pre1 ++ [set_valno S1 V2])
    ∧ end_ S1 = end_ S0
    ∧ Forall (λ s, valno s ≠ V1) pre1
    ∧ relabels V1 V2 (pre ++ [S0]) (pre1 ++ [set_valno S1 V2])
    ∧ merged_keys V2 (pre ++ [S0]) (pre1 ++ [set_valno S1 V2]).
Proof.
  intros Ho Hv Hpre.
  assert (Hkeep : ordered (pre ++ [set_valno S0 V2])
                  ∨ ∃ pre' Prev, pre = pre' ++ [Prev] ∧ valno Prev = V2
                                 ∧ end_ Prev = start S0).
  { destruct (decide (pre = [])) as [->|Hne].
    { left. simpl in *. tauto. }
    destruct (exists_last Hne) as (pre' & Prev & ->).
    destruct (decide (valno Prev = V2 ∧ end_ Prev = start S0)) as [?|Hn].
    { right. exists pre', Prev. tauto. }
    left. rewrite <- app_assoc in *. simpl in *.
    eapply ordered_replace_tail; [exact Ho| |done..].
    pose proof (ordered_app_inv _ _ Ho) as [_ (HP & [H1 H2] & HS & _)].
    simpl. splits; try done. split; [done|]. simpl. intros He Hvp.
    apply Hn. auto. }
  assert (Hkeys0 : merged_keys V2 (pre ++ [S0]) (pre ++ [set_valno S0 V2])).
  { apply merged_keys_intro. intros n [Hn|Hn]%elem_of_app.
    - exists n. split; [apply elem_of_app; by left|auto].
    - apply list_elem_of_singleton in Hn as ->. exists S0.
      split; [apply elem_of_app; right; by left|]. simpl. auto. }
  destruct (decide (pre = [])) as [->|Hne].
  { simpl. exists [], S0. destruct Hkeep as [Hk|(? & ? & ? & _)];
      [|by destruct x].
    splits; try done. apply (relabels_app_l [] _ _).
    by apply relabels_one. }
  destruct (exists_last Hne) as (pre' & Prev & ->).
  rewrite reverse_snoc.
  destruct ((valno Prev =? V2) && (end_ Prev =? start S0)%Z) eqn:Hc.
  - bool_prop. clear Hkeep.
    exists pre', (set_end Prev (end_ S0)). rewrite reverse_involutive.
    rewrite <- app_assoc in *. simpl in Ho.
    pose proof (ordered_app_inv _ _ Ho) as [Hop (HP & _ & HS & _)].
    apply Forall_app in Hpre as [Hpre' _].
    split; [done|]. split; [|split; [done|split; [done|split]]].
    + eapply ordered_replace_tail; [exact Ho| |done|simpl; congruence].
      simpl. repeat split; lia.
    + simpl. apply relabels_app_l.
      replace {| start := start Prev; end_ := end_ S0; valno := V2 |}
        with (mkSegment (start Prev) (end_ S0) V2) by done.
      apply relabels_join; try lia; auto.
    + apply merged_keys_intro. intros n [Hn|Hn]%elem_of_app.
      * exists n. split; [apply elem_of_app; by left|auto].
      * apply list_elem_of_singleton in Hn as ->. exists Prev.
        split; [apply elem_of_app; right; by left|]. simpl. auto.
  - destruct Hkeep as [Hk|(pre'' & Prev' & Heq & Hv' & He')].
    + exists (pre' ++ [Prev]), S0. splits; try done.
      apply relabels_app_l. by apply relabels_one.
    + apply app_inj_tail in Heq as [-> ->].
      rewrite (proj2 (Nat.eqb_eq _ _) Hv'), (proj2 (Z.eqb_eq _ _) He')
        in Hc. done.
Qed.

(** Joining the current [V2] segment with a touching [V2] segment after
    it does not change the points. *)
Lemma relabels_next S1 N :
  (start S1 ≤ end_ S1)%Z → (start N ≤ end_ N)%Z →
  valno S1 = V2 → valno N = V2 → start N = end_ S1 →
  relabels V1 V2 [S1; N] [set_end S1 (end_ N)].
Proof.
  intros H1 H2 Hv1 HvN He. destruct S1 as [s1 e1 v1]. simpl in *. subst v1 e1.
  apply (relabels_join (mkSegment s1 (start N) V2) N); simpl; auto.
Qed.

Lemma merge_step_spec pre S0 post :
  ordered (pre ++ S0 :: post) → valno S0 = V1 →
  Forall (λ s, valno s ≠ V1) pre →
  ∃ pre1 S2 post2,
    merge_step V2 pre S0 post = (pre1, S2, post2)
    ∧ ordered ((pre1 ++ [S2]) ++ post2)
    ∧ Forall (λ s, valno s ≠ V1) (pre1 ++ [S2])
    ∧ relabels V1 V2 (pre ++ S0 :: post) ((pre1 ++ [S2]) ++ post2)
    ∧ merged_keys V2 (pre ++ S0 :: post) ((pre1 ++ [S2]) ++ post2)
    ∧ length post2 ≤ length post.
Proof.
  intros Ho Hv Hpre.
  replace (pre ++ S0 :: post) with ((pre ++ [S0]) ++ post) in *
    by by rewrite <- app_assoc.
  pose proof (ordered_app_inv _ _ Ho) as [Ho1 Hop].
  destruct (merge_prev_spec pre S0 Ho1 Hv Hpre)
    as (pre1 & S1 & Hm & Hord1 & Hend & Hpre1 & Hrel & Hkeys).
  unfold merge_step. rewrite Hm.
  assert (HS0 : ∀ N, head post = Some N → seg_before S0 N).
  { intros N HN. eapply ordered_app_before; [exact Ho| |].
    - apply elem_of_app. right. by left.
    - by apply head_Some_elem_of. }
  assert (Hrel' : relabels V1 V2 ((pre ++ [S0]) ++ post)
                    ((pre1 ++ [set_valno S1 V2]) ++ post))
    by by apply relabels_app.
  assert (Hkeys' : merged_keys V2 ((pre ++ [S0]) ++ post)
                     ((pre1 ++ [set_valno S1 V2]) ++ post)).
  { apply Forall_app. split.
    - eapply Forall_impl; [exact Hkeys|]. simpl.
      intros n (m & Hmm & ?). exists m. split; [|done].
      apply elem_of_app. by left.
    - apply Forall_forall. intros n Hn. exists n.
      split; [apply elem_of_app; by right|auto]. }
  assert (Hv1 : Forall (λ s, valno s ≠ V1) (pre1 ++ [set_valno S1 V2])).
  { apply Forall_app. split; [done|]. constructor; [|constructor].
    simpl. congruence. }
  assert (HS1pos : (start S1 < end_ S1)%Z).
  { apply ordered_app_inv in Hord1 as [_ (? & _)]. done. }
  destruct post as [|N post'].
  { eexists _, _, _. split; [done|]. rewrite !app_nil_r in *.
    splits; try done. }
  pose proof Hop as (HNpos & HNnext & Hop').
  destruct (HS0 N eq_refl) as [HSN1 HSN2].
  destruct ((start N =? end_ (set_valno S1 V2))%Z && (valno N =? V2))
    eqn:Hc.
  - bool_prop. simpl in H. eexists _, _, _. split; [done|].
    assert (Hjoin : relabels V1 V2 ((pre1 ++ [set_valno S1 V2]) ++ N :: post')
                ((pre1 ++ [set_end (set_valno S1 V2) (end_ N)]) ++ post')).
    { rewrite <- !app_assoc. apply relabels_app_l.
      apply (relabels_app [_; _] [_] post').
      apply relabels_next; simpl; try done; lia. }
    split; [|split; [|split; [|split]]].
    + rewrite <- app_assoc. simpl.
      eapply (ordered_replace_tail pre1 (set_valno S1 V2) _ []);
        [exact Hord1| |done..].
      apply ordered_cons; [simpl; lia|done|].
      intros n Hn. destruct post' as [|n' post'']; [done|].
      injection Hn as ->. destruct HNnext as [Hn1 Hn2].
      split; simpl; [done|]. intros He. rewrite <- H0. auto.
    + apply Forall_app. split; [done|]. constructor; [|constructor].
      simpl. congruence.
    + eapply relabels_trans; [exact Hrel'|exact Hjoin].
    + eapply merged_keys_trans; [exact Hkeys'|].
      apply merged_keys_intro. intros n [[Hn|Hn]%elem_of_app|Hn]%elem_of_app.
      * exists n. split; [|auto]. apply elem_of_app. left.
        apply elem_of_app. by left.
      * apply list_elem_of_singleton in Hn as ->.
        exists (set_valno S1 V2). split; [|simpl; auto].
        apply elem_of_app. left. apply elem_of_app. right. by left.
      * exists n. split; [|auto]. apply elem_of_app. right. by right.
    + simpl. lia.
  - eexists _, _, _. split; [done|]. splits; try done.
    apply ordered_app; [done|done|].
    intros a b Ha [= <-]. rewrite last_snoc in Ha. injection Ha as <-.
    simpl. split; simpl; [lia|]. intros He HvN.
    apply andb_false_iff in Hc as [Hc|Hc]; bool_prop; simpl in *.
    + lia.
    + congruence.
Qed.

Lemma loop_spec n : ∀ pre post fuel,
  length post = n → n < fuel →
  ordered (pre ++ post) → Forall (λ s, valno s ≠ V1) pre →
  ∃ res,
    MergeValueNumberInto_loop fuel V1 V2 (pre ++ post) (length pre) = Ok res
    ∧ ordered res ∧ Forall (λ s, valno s ≠ V1) res
    ∧ relabels V1 V2 (pre ++ post) res ∧ merged_keys V2 (pre ++ post) res.
Proof.
  induction (lt_wf n) as [n _ IH]. intros pre post fuel Hn Hf Ho Hpre.
  destruct fuel as [|fuel]; [lia|].
  destruct post as [|S0 post].
  - rewrite app_nil_r in *. rewrite loop_done. exists pre.
    split; [done|]. splits; try done.
    + apply relabels_refl.
    + apply merged_keys_refl.
  - simpl in Hn.
    destruct (decide (valno S0 = V1)) as [Hv|Hv].
    + rewrite loop_step by done.
      destruct (merge_step_spec pre S0 post Ho Hv Hpre)
        as (pre1 & S2 & post2 & Hm & Hord & Hv1 & Hrel & Hkeys & Hlen).
      rewrite Hm.
      replace (pre1 ++ S2 :: post2) with ((pre1 ++ [S2]) ++ post2)
        by by rewrite <- app_assoc.
      destruct (IH (length post2) ltac:(lia) (pre1 ++ [S2]) post2 fuel
                  eq_refl ltac:(lia) Hord Hv1)
        as (res & Hr & Hor & Hvr & Hrr & Hkr).
      rewrite length_app in Hr |- *. simpl in Hr |- *.
      exists res. split; [done|]. splits; try done.
      * eapply relabels_trans; done.
      * eapply merged_keys_trans; done.
    + rewrite loop_skip by done.
      replace (pre ++ S0 :: post) with ((pre ++ [S0]) ++ post) in *
        by by rewrite <- app_assoc.
      destruct (IH (length post) ltac:(lia) (pre ++ [S0]) post fuel
                  eq_refl ltac:(lia) Ho)
        as (res & Hr & Hor & Hvr & Hrr & Hkr).
      { apply Forall_app. split; [done|]. by repeat constructor. }
      exists res. done.
Qed.
End merge_spec.

(** ** MergeValueNumberInto as a whole *)

Lemma MergeValueNumberInto_spec A lr V1 V2 v1 v2 :
  ordered (segments lr) →
  Forall (λ p, ∃ v, deref A p = Ok v) (valnos lr) →
  V1 ≠ V2 →
  deref A V1 = Ok v1 → valnos lr !! VNInfo.id v1 = Some V1 →
  deref A V2 = Ok v2 → valnos lr !! VNInfo.id v2 = Some V2 →
  let W := survivor v1 v2 V1 V2 in
  let L := loser v1 v2 V1 V2 in
  ∃ A' lr',
    MergeValueNumberInto A lr V1 V2 = Ok (A', lr', W)
    ∧ segmentSet lr' = segmentSet lr
    ∧ ordered (segments lr')
    ∧ (∀ p v, live_at (segments lr') p v ↔
              ∃ v0, live_at (segments lr) p v0
                    ∧ v = if decide (v0 = V1 ∨ v0 = V2) then W else v0)
    ∧ Forall (λ s, valno s ≠ L) (segments lr')
    ∧ merged_keys W (segments lr) (segments lr')
    ∧ marked_for_deletion (arena_after_copy A v1 v2 V1) (valnos lr) L
        A' (valnos lr')
    ∧ (∃ w, deref A' W = Ok w
            ∧ VNInfo.id w = Nat.min (VNInfo.id v1) (VNInfo.id v2)).
Proof.
  intros Ho Hh V12 Hv1 Hl1 Hv2 Hl2 W L.
  assert (Hid : VNInfo.id v1 ≠ VNInfo.id v2) by (intros He; congruence).
  assert (HWL : L ≠ W).
  { unfold L, W, loser, survivor. destruct (_ <? _); congruence. }
  unfold MergeValueNumberInto.
  rewrite (proj2 (Nat.eqb_neq _ _) V12). cbn [negb check bind].
  rewrite Hv1, Hv2. cbn [bind].
  set (A1 := arena_after_copy A v1 v2 V1).
  assert (Hsplit : (if VNInfo.id v1 <? VNInfo.id v2
                    then (store A V1 (VNInfo.copyFrom v1 v2), V2, V1)
                    else (A, V1, V2)) = (A1, L, W)).
  { unfold A1, arena_after_copy, L, W, loser, survivor.
    by destruct (_ <? _). }
  rewrite Hsplit.
  destruct (loop_spec L W HWL (length (segments lr)) [] (segments lr)
              (S (length (segments lr))) eq_refl ltac:(lia) Ho
              ltac:(constructor))
    as (res & Hloop & Hor & Hnl & Hrel & Hkeys).
  cbn [app length] in Hloop, Hrel, Hkeys.
  rewrite Hloop. cbn [bind].
  assert (HA1h : Forall (λ p, ∃ v, deref A1 p = Ok v) (valnos lr)).
  { unfold A1, arena_after_copy. destruct (_ <? _); [|done].
    by eapply handles_store. }
  assert (HL : ∃ vl, deref A1 L = Ok vl
                     ∧ valnos lr !! VNInfo.id vl = Some L).
  { unfold A1, arena_after_copy, L, loser.
    destruct (VNInfo.id v1 <? VNInfo.id v2).
    - exists v2. by rewrite deref_store_ne.
    - by exists v1. }
  assert (HWd : ∃ w, deref A1 W = Ok w
                     ∧ VNInfo.id w = Nat.min (VNInfo.id v1) (VNInfo.id v2)).
  { unfold A1, arena_after_copy, W, survivor.
    destruct (Nat.ltb_spec (VNInfo.id v1) (VNInfo.id v2)).
    - eexists. erewrite deref_store_eq by done. split; [done|]. simpl. lia.
    - exists v2. split; [done|]. lia. }
  destruct (markValNoForDeletion_spec A1 (valnos lr) L HA1h HL)
    as (A' & vs' & Hm & Hmark).
  rewrite Hm. simpl. eexists _, _. split; [done|]. simpl.
  split; [done|]. split; [done|]. split; [|split; [done|split; [done|split]]].
  - (* the points of the result *)
    assert (Hfwd : ∀ p v, live_at res p v →
              ∃ v0, live_at (segments lr) p v0
                    ∧ v = if decide (v0 = V1 ∨ v0 = V2) then W else v0).
    { intros p v Hv. destruct (Hrel p) as [Hr _].
      destruct (Hr v Hv) as (v0 & Hv0 & Hcase). exists v0. split; [done|].
      assert (v ≠ L).
      { destruct Hv as (s & Hs & _ & <-). rewrite Forall_forall in Hnl.
        by apply Hnl. }
      assert (HLW : (L = V1 ∧ W = V2) ∨ (L = V2 ∧ W = V1)).
      { unfold L, W, loser, survivor. destruct (_ <? _); auto. }
      case_decide as Hd; destruct Hcase as [->|[-> ->]]; try done.
      - destruct HLW as [[? ?]|[? ?]], Hd as [?|?]; congruence.
      - exfalso. apply Hd. destruct HLW as [[? ?]|[? ?]]; auto. }
    intros p v. split; [apply Hfwd|].
    intros (v0 & Hv0 & ->). destruct (Hrel p) as [_ Hr].
    destruct (Hr v0 Hv0) as (v' & Hv').
    destruct (Hfwd p v' Hv') as (v0' & Hv0' & ->).
    by rewrite (live_at_unique _ _ _ _ Ho Hv0 Hv0').
  - done.
  - (* the survivor after the loser is marked *)
    destruct HWd as (w & Hw & Hidw). destruct Hmark as (vl & Hvl & Hmark).
    case_decide.
    + destruct Hmark as [-> _]. by exists w.
    + destruct Hmark as [_ ->]. exists w. by rewrite deref_store_ne.
Qed.

Lemma MergeValueNumberInto_inv A lr V1 V2 :
  LRInv A lr → MergeValueNumberInto_pre A lr V1 V2 →
  ∃ A' lr' W, MergeValueNumberInto A lr V1 V2 = Ok (A', lr', W)
              ∧ LRInv A' lr'.
Proof.
  intros [Hv Ho Hval Ht Hh] (V12 & (v1 & Hv1 & Hl1) & (v2 & Hv2 & Hl2 & Hu2)).
  destruct (MergeValueNumberInto_spec A lr V1 V2 v1 v2 Ho Hh V12 Hv1 Hl1
              Hv2 Hl2)
    as (A' & lr' & Hm & Hset & Hord & _ & Hnl & Hkeys & Hmark & _).
  eexists _, _, _. split; [exact Hm|].
  set (A1 := arena_after_copy A v1 v2 V1) in *.
  set (W := survivor v1 v2 V1 V2) in *.
  set (L := loser v1 v2 V1 V2) in *.
  assert (Hid : VNInfo.id v1 ≠ VNInfo.id v2) by (intros He; congruence).
  assert (HA1h : Forall (λ p, ∃ v, deref A1 p = Ok v) (valnos lr)).
  { unfold A1, arena_after_copy. destruct (_ <? _); [|done].
    by eapply handles_store. }
  assert (HWlive : vn_live A1 (valnos lr) W).
  { unfold A1, arena_after_copy, W, survivor.
    destruct (Nat.ltb_spec (VNInfo.id v1) (VNInfo.id v2)).
    - eexists. erewrite deref_store_eq by done. done.
    - by exists v2. }
  assert (Hlive1 : ∀ p, p ≠ L → vn_live A (valnos lr) p →
                        vn_live A1 (valnos lr) p).
  { intros p HpL Hp. revert HWlive HpL.
    unfold A1, arena_after_copy, L, loser, W, survivor.
    destruct (Nat.ltb_spec (VNInfo.id v1) (VNInfo.id v2)); [|done].
    intros HWlive HpL.
    destruct (decide (p = V1)) as [->|Hne]; [exact HWlive|].
    destruct Hp as (w & Hw & ?). exists w. by rewrite deref_store_ne. }
  assert (HLt : vn_in_table A1 (valnos lr) L).
  { unfold A1, arena_after_copy, L, loser.
    destruct (VNInfo.id v1 <? VNInfo.id v2).
    - exists v2. by rewrite deref_store_ne.
    - by exists v1. }
  assert (Ht1 : Forall (λ s, vn_live A1 (valnos lr) (valno s))
                  (segments lr')).
  { rewrite Forall_forall in Ht, Hnl. unfold merged_keys in Hkeys.
    rewrite Forall_forall in Hkeys. apply Forall_forall. intros n Hn.
    destruct (Hkeys n Hn) as (m & Hm' & _ & [Hvn|Hvn]).
    - apply Hlive1; [by apply Hnl|]. rewrite Hvn. by apply Ht.
    - by rewrite Hvn. }
  destruct (marked_for_deletion_inv A1 (valnos lr) L A' (valnos lr')
              (segments lr') HA1h HLt Ht1 Hnl Hmark) as [Ht' Hh'].
  split; try done.
  - congruence.
  - rewrite Forall_forall in Hval. unfold merged_keys in Hkeys.
    eapply Forall_impl; [exact Hkeys|]. simpl.
    intros n (m & Hm' & Hs & _). rewrite Hs. by apply Hval.
Qed.

(** ** The sub-range list of a live interval *)

Lemma is_list_head N head l : is_list N head l → head = head_addr l.
Proof. destruct l as [|[a n] l]; simpl; tauto. Qed.

Lemma node_at_Ok H a n :
  node_at H a = Ok n ↔ a ≠ 0 ∧ nodes H !! a = Some n.
Proof.
  unfold node_at. destruct a as [|a].
  - split; [done|]. by intros [? _].
  - destruct (nodes H !! S a); split; try done.
    + intros [= ->]. done.
    + intros [_ [= ->]]. done.
    + by intros [_ ?].
Qed.

(** Updating a node outside a list leaves the list as it is. *)
Lemma is_list_insert_ne N head l b nb :
  b ∉ l.*1 → is_list N head l → is_list (<[b := nb]> N) head l.
Proof.
  revert head. induction l as [|[a n] l IH]; intros head Hb; [done|].
  simpl in *. intros (-> & Ha & Hn & Hl).
  rewrite not_elem_of_cons in Hb. destruct Hb as [Hba Hb].
  split; [done|]. split; [done|]. split.
  - by rewrite lookup_insert_ne.
  - by apply IH.
Qed.

Lemma is_list_ext N N' head l :
  (∀ a, a ∈ l.*1 → N' !! a = N !! a) → is_list N head l → is_list N' head l.
Proof.
  revert head. induction l as [|[a n] l IH]; intros head Heq; [done|].
  simpl in *. intros (-> & Ha & Hn & Hl).
  split; [done|]. split; [done|]. split.
  - rewrite Heq; [done|]. by left.
  - apply IH; [|done]. intros b Hb. apply Heq. by right.
Qed.

(** The inner loop frees the run of empty nodes at the front of the list. *)
Lemma skip_empty_spec l : ∀ fuel H a n,
  is_list (nodes H) a ((a, n) :: l) → length l < fuel →
  ∃ run rest,
    l = run ++ rest
    ∧ skip_empty fuel H a
      = Ok ({| nodes := nodes H; freed := freed H ++ a :: run.*1 |},
            head_addr rest)
    ∧ Forall node_empty run
    ∧ (∀ x, head rest = Some x → ¬ node_empty x).
Proof.
  induction l as [|[b m] l IH]; intros fuel H a n Hl Hf.
  - destruct fuel as [|fuel]; [simpl in Hf; lia|].
    destruct Hl as (_ & Ha & Hn & Hnext). simpl in Hnext.
    exists [], []. split; [done|]. split; [|split; [constructor|done]].
    simpl. rewrite (proj2 (node_at_Ok H a n)) by done. simpl.
    rewrite Hnext. simpl. done.
  - destruct fuel as [|fuel]; [simpl in Hf; lia|]. simpl in Hf.
    destruct Hl as (_ & Ha & Hn & Hnext).
    pose proof Hnext as (Hb & Hb0 & Hm & Hl').
    simpl. rewrite (proj2 (node_at_Ok H a n)) by done. cbn [bind].
    rewrite (proj2 (Nat.eqb_neq (Next n) 0)) by lia. cbn [negb].
    unfold freeSubRange at 1.
    rewrite (proj2 (node_at_Ok _ (Next n) m)) by (simpl; by subst).
    cbn [bind]. destruct (SubRange_empty m) eqn:Hem.
    + destruct (IH fuel (freeSubRange H a) b m) as (run & rest & -> & Hs & Hr & Hh).
      { simpl. done. }
      { lia. }
      exists ((b, m) :: run), rest. split; [done|]. split; [|split; [|done]].
      * rewrite Hb. rewrite Hs. simpl. by rewrite <- app_assoc.
      * by constructor.
    + exists [], ((b, m) :: l). split; [done|].
      split; [|split; [constructor|]].
      * simpl. by rewrite Hb.
      * intros x [= <-]. unfold node_empty. simpl. congruence.
Qed.

Lemma removeEmptySubRanges_loop_spec n : ∀ l fuel H li loc,
  length l = n →
  is_list (nodes H) (read_loc (nodes H) li loc) l → NoDup l.*1 →
  loc_ok (nodes H) loc l → length l < fuel →
  ∃ H' li' l',
    removeEmptySubRanges_loop fuel H li loc (read_loc (nodes H) li loc)
    = Ok (H', li')
    ∧ is_list (nodes H') (read_loc (nodes H') li' loc) l'
    ∧ same_nodes (filter (λ x, ¬ node_empty x) l) l'
    ∧ freed H' = freed H ++ (filter node_empty l).*1
    ∧ LI_range li' = LI_range li ∧ reg li' = reg li
    ∧ (loc ≠ HeadOf → SubRanges li' = SubRanges li)
    ∧ (∀ a, a ∉ l.*1 → loc ≠ NextOf a → nodes H' !! a = nodes H !! a)
    ∧ (∀ a na, loc = NextOf a → nodes H !! a = Some na →
         ∃ na', nodes H' !! a = Some na' ∧ SR_range na' = SR_range na
                ∧ LaneMask na' = LaneMask na).
Proof.
  induction (lt_wf n) as [n _ IH]. intros l fuel H li loc Hn Hl Hnd Hloc Hf.
  destruct fuel as [|fuel]; [lia|].
  destruct l as [|[a x] l].
  - simpl in Hl. simpl. rewrite Hl. simpl.
    exists H, li, []. rewrite Hl. splits; try done.
    + constructor.
    + by rewrite app_nil_r.
    + intros b nb _ Hb. by exists nb.
  - pose proof Hl as (Hhead & Ha & Hx & Hnext).
    rewrite Hhead. simpl.
    rewrite (proj2 (Nat.eqb_neq a 0)) by done.
    rewrite (proj2 (node_at_Ok H a x)) by done. cbn [bind].
    rewrite fmap_cons in Hnd. apply NoDup_cons in Hnd as [Hal Hnd].
    cbn [fst] in Hal. simpl in Hn.
    destruct (SubRange_empty x) eqn:Hex; cbn [negb].
    + (* a run of empty nodes is unlinked *)
      destruct (skip_empty_spec l fuel H a x) as (run & rest & -> & Hs & Hr & Hh).
      { simpl. done. }
      { simpl in Hf. lia. }
      rewrite Hs. cbn [bind].
      set (H1 := {| nodes := nodes H; freed := freed H ++ a :: run.*1 |}).
      assert (Hrest : is_list (nodes H) (head_addr rest) rest).
      { clear -Hnext. revert Hnext. generalize (Next x).
        induction run as [|[b m] run IHr]; intros h Hli.
        - simpl in Hli. by rewrite <- (is_list_head _ _ _ Hli).
        - simpl in Hli. destruct Hli as (_ & _ & _ & Hli). by eapply IHr. }
      rewrite fmap_app in Hal, Hnd.
      apply NoDup_app in Hnd as (Hnd1 & Hdisj & Hnd2).
      assert (Hwrite : ∃ H2 li2,
        write_loc H1 li loc (head_addr rest) = Ok (H2, li2)
        ∧ read_loc (nodes H2) li2 loc = head_addr rest
        ∧ is_list (nodes H2) (head_addr rest) rest
        ∧ loc_ok (nodes H2) loc rest
        ∧ freed H2 = freed H1
        ∧ LI_range li2 = LI_range li ∧ reg li2 = reg li
        ∧ (loc ≠ HeadOf → SubRanges li2 = SubRanges li)
        ∧ (∀ b, loc ≠ NextOf b → nodes H2 !! b = nodes H !! b)
        ∧ (∀ b nb, loc = NextOf b → nodes H !! b = Some nb →
             ∃ nb', nodes H2 !! b = Some nb' ∧ SR_range nb' = SR_range nb
                    ∧ LaneMask nb' = LaneMask nb)).
      { destruct loc as [|b]; simpl.
        - eexists _, _. split; [done|]. simpl. splits; try done.
        - destruct Hloc as (Hb0 & [nb Hnb] & Hbl).
          rewrite (proj2 (node_at_Ok H1 b nb)) by done. simpl.
          eexists _, _. split; [done|]. simpl.
          rewrite lookup_insert_eq. simpl.
          rewrite !fmap_cons, !fmap_app in Hbl. simpl in Hbl.
          apply not_elem_of_cons in Hbl as [Hba Hbl].
          apply not_elem_of_app in Hbl as [Hbrun Hbrest].
          splits; try done.
          + by apply is_list_insert_ne.
          + intros c Hc. rewrite lookup_insert_ne; [done|congruence].
          + intros c nc [= <-] Hc. rewrite Hnb in Hc. injection Hc as <-.
            rewrite lookup_insert_eq. by eexists. }
      destruct Hwrite as (H2 & li2 & Hw & Hread & Hl2 & Hloc2 & Hfr2 & Hr1
                          & Hr2 & Hr3 & Hn2 & Hn3).
      rewrite Hw. cbn [bind].
      destruct (IH (length rest) ltac:(rewrite length_app in Hn; lia) rest fuel
                  H2 li2 loc eq_refl)
        as (H' & li' & l' & Hloop & Hl' & Hsame & Hfr & Hli1 & Hli2 & Hli3
            & Hout & Hloc');
        [by rewrite Hread|done|done|simpl in Hf; rewrite length_app in Hf; lia|].
      rewrite Hread in Hloop. rewrite Hloop.
      exists H', li', l'. split; [done|]. split; [done|].
      assert (Hfilt1 : filter (λ y, ¬ node_empty y) ((a, x) :: run ++ rest)
                       = filter (λ y, ¬ node_empty y) rest).
      { rewrite filter_cons_False by (unfold node_empty; simpl; tauto).
        rewrite filter_app.
        replace (filter (λ y, ¬ node_empty y) run) with (@nil (nat * SubRange));
          [done|].
        symmetry. clear -Hr. induction Hr as [|y run Hy Hr IHr]; [done|].
        rewrite filter_cons_False by tauto. done. }
      assert (Hfilt2 : (filter node_empty ((a, x) :: run ++ rest)).*1
                       = a :: run.*1 ++ (filter node_empty rest).*1).
      { rewrite filter_cons_True by done. simpl. f_equal.
        rewrite filter_app, fmap_app. f_equal. f_equal.
        clear -Hr. induction Hr as [|y run Hy Hr IHr]; [done|].
        rewrite filter_cons_True by done. by f_equal. }
      rewrite Hfilt1, Hfilt2. splits.
      * done.
      * rewrite Hfr, Hfr2. simpl. by rewrite <- app_assoc.
      * congruence.
      * congruence.
      * intros Hne. rewrite Hli3 by done. by apply Hr3.
      * intros b Hb Hbl. rewrite Hout; [by apply Hn2|..|done].
        intros Hbr. apply Hb. right. change (b ∈ (run ++ rest).*1).
        rewrite fmap_app. apply elem_of_app. by right.
      * intros b nb -> Hb. destruct (Hn3 b nb eq_refl Hb) as (nb' & ? & ? & ?).
        destruct (Hloc' b nb' eq_refl) as (nb'' & ? & ? & ?); [done|].
        exists nb''. split; [done|]. split; congruence.
    + (* a non-empty node stays, and the walk goes on behind it *)
      assert (Hrd : read_loc (nodes H) li (NextOf a) = Next x).
      { simpl. by rewrite Hx. }
      destruct (IH (length l) ltac:(lia) l fuel H li (NextOf a) eq_refl)
        as (H' & li' & l' & Hloop & Hl' & Hsame & Hfr & Hli1 & Hli2 & Hli3
            & Hout & Hloc');
        [by rewrite Hrd|done|simpl; eauto|simpl in Hf; lia|].
      rewrite Hrd in Hloop. rewrite Hloop.
      destruct (Hloc' a x eq_refl Hx) as (x' & Hx' & Hx1 & Hx2).
      exists H', li', ((a, x') :: l'). split; [done|].
      assert (Hlocne : ∀ b, loc = NextOf b → b ≠ a).
      { intros b -> ->. destruct Hloc as (_ & _ & Hc). apply Hc. by left. }
      splits.
      * assert (Hhd : read_loc (nodes H') li' loc = a).
        { destruct loc as [|b]; simpl.
          - rewrite Hli3 by done. done.
          - simpl in Hhead. rewrite Hout; [done| |].
            + destruct Hloc as (_ & _ & Hc). rewrite fmap_cons in Hc.
              by apply not_elem_of_cons in Hc as [_ ?].
            + intros [= Heq]. by apply (Hlocne b). }
        rewrite Hhd. simpl. split; [done|]. split; [done|]. split; [done|].
        simpl in Hl'. by rewrite Hx' in Hl'.
      * rewrite filter_cons_True by (unfold node_empty; simpl; congruence).
        constructor; [|done]. simpl. auto.
      * rewrite filter_cons_False by (unfold node_empty; simpl; congruence).
        done.
      * done.
      * done.
      * intros Hne. by apply Hli3.
      * intros b Hb Hbl. apply Hout.
        -- by apply not_elem_of_cons in Hb as [_ ?].
        -- apply not_elem_of_cons in Hb as [? _]. congruence.
      * intros b nb -> Hb. specialize (Hlocne b eq_refl).
        rewrite Hout; [by exists nb| |congruence].
        destruct Hloc as (_ & _ & Hc). rewrite fmap_cons in Hc.
        by apply not_elem_of_cons in Hc as [_ ?].
Qed.

(** ** mergeSpills as a merge of two lists *)

Lemma merge_desc_nil_r ra : merge_desc ra [] = ra.
Proof. by destruct ra. Qed.

Lemma merge_desc_nil_l x rs : merge_desc [] (x :: rs) = x :: merge_desc [] rs.
Proof. done. Qed.

Lemma merge_desc_cons a ra x rs :
  merge_desc (a :: ra) (x :: rs)
  = if (start x <? start a)%Z then a :: merge_desc ra (x :: rs)
    else x :: merge_desc (a :: ra) rs.
Proof. done. Qed.

Arguments merge_desc : simpl never.

Lemma merge_desc_length ra rs :
  length (merge_desc ra rs) = length ra + length rs.
Proof.
  revert rs. induction ra as [|a ra IHa]; intros rs.
  - induction rs as [|x rs IHs]; [by rewrite merge_desc_nil_r|].
    rewrite merge_desc_nil_l. simpl. by rewrite IHs.
  - induction rs as [|x rs IHs]; [rewrite merge_desc_nil_r; simpl; lia|].
    rewrite merge_desc_cons. destruct (start x <? start a)%Z; simpl.
    + rewrite IHa. simpl. lia.
    + rewrite IHs. simpl. lia.
Qed.

Lemma merge_desc_elem s ra rs :
  s ∈ merge_desc ra rs ↔ s ∈ ra ∨ s ∈ rs.
Proof.
  revert rs. induction ra as [|a ra IHa]; intros rs.
  - induction rs as [|x rs IHs].
    + rewrite merge_desc_nil_r, elem_of_nil. tauto.
    + rewrite merge_desc_nil_l, !elem_of_cons, IHs, elem_of_nil. tauto.
  - induction rs as [|x rs IHs].
    + rewrite merge_desc_nil_r, elem_of_nil. tauto.
    + rewrite merge_desc_cons. destruct (start x <? start a)%Z.
      * rewrite !elem_of_cons, IHa, elem_of_cons. tauto.
      * rewrite !elem_of_cons, IHs, elem_of_cons. tauto.
Qed.

(** The loop of [mergeSpills] computes that merge in place. *)
Lemma mergeSpills_loop_spec n : ∀ ra rs fuel segs Spills Src Dst SpillSrc,
  length ra + length rs = n →
  take Src segs = reverse ra → Src = length ra →
  Dst = Src + length rs → Dst ≤ length segs → Dst ≤ fuel →
  length rs ≤ SpillSrc →
  take (length rs) (drop (SpillSrc - length rs) Spills) = reverse rs →
  mergeSpills_loop fuel segs Spills Src Dst SpillSrc
  = Ok (reverse (merge_desc ra rs) ++ drop Dst segs, SpillSrc - length rs).
Proof.
  induction (lt_wf n) as [n _ IH].
  intros ra rs fuel segs Spills Src Dst SpillSrc Hn Hra HSrc HDst Hlen Hfuel
    Hss Hrs.
  destruct rs as [|x rs].
  - (* all the spills are placed *)
    simpl in HDst. rewrite Nat.add_0_r in HDst. subst Dst.
    rewrite merge_desc_nil_r, <- Hra, take_drop. simpl.
    rewrite Nat.sub_0_r.
    destruct fuel; simpl; by rewrite Nat.eqb_refl.
  - simpl in HDst, Hss, Hn.
    destruct fuel as [|fuel]; [lia|]. simpl.
    rewrite (proj2 (Nat.eqb_neq Src Dst)) by lia.
    (* the spill the loop looks at *)
    assert (Hx : Spills !! (SpillSrc - 1) = Some x).
    { assert (reverse (x :: rs) !! length rs = Some x) as Hl.
      { rewrite reverse_cons, lookup_app_r by (rewrite length_reverse; lia).
        by rewrite length_reverse, Nat.sub_diag. }
      rewrite <- Hrs in Hl. simpl in Hl.
      rewrite lookup_take_lt in Hl by lia. rewrite lookup_drop in Hl.
      by replace (SpillSrc - S (length rs) + length rs) with (SpillSrc - 1)
        in Hl by lia. }
    assert (Hxp : at_prev Spills SpillSrc = Ok x).
    { apply at_prev_Ok. exists (SpillSrc - 1). split; [lia|done]. }
    assert (Hrs' : take (length rs) (drop (SpillSrc - 1 - length rs) Spills)
                   = reverse rs).
    { simpl in Hrs. rewrite reverse_cons in Hrs.
      assert (take (length rs)
                (take (S (length rs))
                   (drop (SpillSrc - S (length rs)) Spills))
              = take (length rs) (reverse rs ++ [x])) as Ht
        by by rewrite Hrs.
      rewrite take_take, Nat.min_l in Ht by lia.
      rewrite take_app_length' in Ht by by rewrite length_reverse.
      by replace (SpillSrc - 1 - length rs) with (SpillSrc - S (length rs))
        by lia. }
    rewrite (proj2 (Nat.eqb_neq Dst 0)) by lia. cbn [negb check bind].
    assert (Hwrite : ∀ y, write_at segs (Dst - 1) y
                          = Ok (<[Dst - 1 := y]> segs)).
    { intros y. unfold write_at.
      by rewrite (proj2 (Nat.ltb_lt _ _)) by lia. }
    assert (Hdrop : ∀ y, drop (Dst - 1) (<[Dst - 1 := y]> segs)
                         = y :: drop Dst segs).
    { intros y. rewrite drop_insert_ge by lia. rewrite Nat.sub_diag.
      destruct (lookup_lt_is_Some_2 segs (Dst - 1) ltac:(lia)) as [z Hz].
      rewrite (drop_S _ _ _ Hz). simpl.
      by replace (S (Dst - 1)) with Dst by lia. }
    destruct ra as [|a ra].
    + (* the range is used up: the spill goes in *)
      simpl in HSrc. subst Src. simpl. rewrite Hxp. cbn [bind].
      rewrite Hwrite. cbn [bind].
      rewrite (IH (length rs) ltac:(simpl in Hn; lia) [] rs fuel _ Spills 0
                 (Dst - 1) (SpillSrc - 1)); try done; try lia.
      * rewrite Hdrop, merge_desc_nil_l, reverse_cons, <- app_assoc.
        simpl. do 2 f_equal. lia.
      * rewrite length_insert. lia.
    + simpl in HSrc, Hn.
      assert (Ha : segs !! (Src - 1) = Some a).
      { assert (reverse (a :: ra) !! length ra = Some a) as Hl.
        { rewrite reverse_cons, lookup_app_r by (rewrite length_reverse; lia).
          by rewrite length_reverse, Nat.sub_diag. }
        rewrite <- Hra in Hl. rewrite lookup_take_lt in Hl by lia.
        by replace (Src - 1) with (length ra) by lia. }
      assert (Hap : at_prev segs Src = Ok a).
      { apply at_prev_Ok. exists (Src - 1). split; [lia|done]. }
      rewrite (proj2 (Nat.eqb_neq Src 0)) by lia. cbn [negb].
      rewrite Hap, Hxp. cbn [bind]. rewrite merge_desc_cons.
      destruct (start x <? start a)%Z.
      * (* the segment of the range goes in *)
        rewrite Hwrite. cbn [bind].
        rewrite (IH (length ra + S (length rs)) ltac:(lia) ra (x :: rs) fuel
                   _ Spills (Src - 1) (Dst - 1) SpillSrc);
          try done; simpl; try lia.
        -- rewrite Hdrop, reverse_cons, <- app_assoc. done.
        -- rewrite take_insert_ge by lia.
           assert (take (Src - 1) (take Src segs)
                   = take (Src - 1) (reverse (a :: ra))) as Ht
             by by rewrite Hra.
           rewrite take_take, Nat.min_l in Ht by lia.
           rewrite Ht, reverse_cons.
           rewrite take_app_length' by (rewrite length_reverse; lia). done.
        -- rewrite length_insert. lia.
      * (* the spill goes in *)
        rewrite Hwrite. cbn [bind].
        rewrite (IH (S (length ra) + length rs) ltac:(lia) (a :: ra) rs fuel
                   _ Spills Src (Dst - 1) (SpillSrc - 1));
          try done; simpl; try lia.
        -- rewrite Hdrop, reverse_cons, <- app_assoc.
           simpl. do 2 f_equal. lia.
        -- rewrite take_insert_ge by lia. done.
        -- rewrite length_insert. lia.
Qed.

Lemma merge_asc_nil_r a1 : merge_asc a1 [] = a1.
Proof.
  unfold merge_asc. rewrite reverse_nil, merge_desc_nil_r.
  apply reverse_involutive.
Qed.

Lemma merge_asc_elem s a1 sp : s ∈ merge_asc a1 sp ↔ s ∈ a1 ∨ s ∈ sp.
Proof.
  unfold merge_asc. by rewrite elem_of_reverse, merge_desc_elem,
    !elem_of_reverse.
Qed.

Lemma merge_asc_length a1 sp :
  length (merge_asc a1 sp) = length a1 + length sp.
Proof.
  unfold merge_asc. by rewrite length_reverse, merge_desc_length,
    !length_reverse.
Qed.

Lemma ordered_snoc l a :
  ordered (l ++ [a]) ↔
  ordered l ∧ (start a < end_ a)%Z ∧ Forall (λ y, seg_before y a) l.
Proof.
  split.
  - intros Ho. pose proof (ordered_app_inv _ _ Ho) as [Hl (Ha & _)].
    split; [done|]. split; [done|]. apply Forall_forall. intros y Hy.
    eapply ordered_app_before; [exact Ho|done|by left].
  - intros (Hl & Ha & HF). apply ordered_app; [done|simpl; tauto|].
    intros y b Hy [= <-]. rewrite Forall_forall in HF. apply HF.
    by apply last_Some_elem_of.
Qed.

Lemma ordered_sorted_desc l : ordered l ↔ sorted_desc (reverse l).
Proof.
  induction l as [|a l IH] using rev_ind; [done|].
  rewrite reverse_snoc, ordered_snoc. simpl. rewrite IH.
  rewrite Forall_reverse. tauto.
Qed.

Lemma sorted_desc_ordered rl : sorted_desc rl ↔ ordered (reverse rl).
Proof. by rewrite ordered_sorted_desc, reverse_involutive. Qed.

Lemma sorted_desc_pos rl s : sorted_desc rl → s ∈ rl → (start s < end_ s)%Z.
Proof.
  induction rl as [|a rl IH]; [by intros _ ?%elem_of_nil|].
  intros (Ha & _ & Hr) [->|Hs]%elem_of_cons; auto.
Qed.

Lemma merge_desc_sorted ra rs :
  sorted_desc ra → sorted_desc rs →
  (∀ a x, a ∈ ra → x ∈ rs → seg_before a x ∨ seg_before x a) →
  sorted_desc (merge_desc ra rs).
Proof.
  revert rs. induction ra as [|a ra IHa]; intros rs.
  - intros _ Hs _. induction rs as [|x rs IHs];
      [by rewrite merge_desc_nil_r|].
    rewrite merge_desc_nil_l. destruct Hs as (Hx & HF & Hs).
    simpl. split; [done|]. split; [|by apply IHs].
    apply Forall_forall. intros y Hy. apply merge_desc_elem in Hy as [Hy|Hy];
      [by apply elem_of_nil in Hy|].
    rewrite Forall_forall in HF. by apply HF.
  - induction rs as [|x rs IHs]; intros Ha Hs Hcross;
      [by rewrite merge_desc_nil_r|].
    rewrite merge_desc_cons.
    pose proof Ha as (Hapos & HFa & Hra).
    pose proof Hs as (Hxpos & HFx & Hrs).
    rewrite Forall_forall in HFa, HFx.
    assert (Hax : seg_before a x ∨ seg_before x a)
      by (apply Hcross; by left).
    destruct (Z.ltb_spec (start x) (start a)) as [Hlt|Hge].
    + (* [a] is the last segment *)
      simpl. split; [done|]. split.
      * apply Forall_forall. intros y Hy.
        apply merge_desc_elem in Hy as [Hy|Hy]; [by apply HFa|].
        assert (Hyx : y = x ∨ y ∈ rs) by by apply elem_of_cons.
        assert (Hypos : (start y < end_ y)%Z)
          by by apply (sorted_desc_pos (x :: rs)).
        destruct (Hcross a y ltac:(by left) Hy) as [[H1 _]|?]; [|done].
        exfalso. destruct Hyx as [->|Hyr]; [lia|].
        destruct (HFx y Hyr) as [H2 _]. lia.
      * apply IHa; [done..|]. intros b y Hb Hy. apply Hcross; [by right|done].
    + (* [x] is the last segment *)
      simpl. split; [done|]. split.
      * apply Forall_forall. intros y Hy.
        apply merge_desc_elem in Hy as [Hy|Hy]; [|by apply HFx].
        assert (Hya : y = a ∨ y ∈ ra) by by apply elem_of_cons.
        assert (Hypos : (start y < end_ y)%Z)
          by by apply (sorted_desc_pos (a :: ra)).
        destruct (Hcross y x Hy ltac:(by left)) as [?|[H1 _]]; [done|].
        exfalso. destruct Hya as [->|Hyr]; [lia|].
        destruct (HFa y Hyr) as [H2 _]. lia.
      * apply IHs; [done..|]. intros b y Hb Hy. apply Hcross; [done|by right].
Qed.

Lemma merge_asc_ordered a1 sp :
  ordered a1 → ordered sp →
  (∀ a x, a ∈ a1 → x ∈ sp → seg_before a x ∨ seg_before x a) →
  ordered (merge_asc a1 sp).
Proof.
  intros H1 H2 Hc. unfold merge_asc. apply sorted_desc_ordered.
  apply merge_desc_sorted.
  - by apply ordered_sorted_desc.
  - by apply ordered_sorted_desc.
  - intros a x Ha Hx. apply Hc; by apply elem_of_reverse.
Qed.

(** [mergeSpills] on a range made of area 1, a gap and area 2. *)
Lemma mergeSpills_spec a1 G a2 sp :
  let k := Nat.min (length sp) (length G) in
  mergeSpills (a1 ++ G ++ a2) (length a1) (length a1 + length G) sp
  = Ok (merge_asc a1 (drop (length sp - k) sp) ++ drop k G ++ a2,
        length a1 + k, take (length sp - k) sp).
Proof.
  intros k. unfold mergeSpills, gap_size.
  rewrite (proj2 (Nat.ltb_ge _ _)) by lia.
  replace (Z.to_nat (Z.min (Z.of_nat (length sp))
             (Z.of_nat (length a1 + length G) - Z.of_nat (length a1))))
    with k by (unfold k; lia).
  rewrite (mergeSpills_loop_spec _ (reverse a1)
             (reverse (drop (length sp - k) sp)) _ _ _ _ _ _ eq_refl).
  - cbn [bind]. rewrite length_reverse, length_drop.
    replace (length sp - (length sp - (length sp - k))) with (length sp - k)
      by (unfold k; lia).
    replace (length sp - (length sp - k)) with k by (unfold k; lia).
    rewrite Nat.eqb_refl. cbn [check bind]. unfold merge_asc.
    rewrite drop_app_ge by lia.
    replace (length a1 + k - length a1) with k by lia.
    rewrite drop_app_le by (unfold k; lia). done.
  - by rewrite reverse_involutive, take_app_length.
  - by rewrite length_reverse.
  - rewrite length_reverse, length_drop. unfold k. lia.
  - rewrite !length_app. unfold k. lia.
  - lia.
  - rewrite length_reverse, length_drop. lia.
  - rewrite length_reverse, length_drop, reverse_involutive.
    replace (length sp - (length sp - (length sp - k))) with (length sp - k)
      by (unfold k; lia).
    rewrite take_ge; [done|]. rewrite length_drop. lia.
Qed.

(** ** The state of a dirty updater *)

Lemma UInv_mono s last last' : (last ≤ last')%Z → UInv s last → UInv s last'.
Proof.
  intros Hle (H1 & H2 & H3 & H4 & H5 & H6). unfold UInv. splits; try done.
  intros a Ha. specialize (H6 a Ha). lia.
Qed.

Lemma flushed_elem x s : x ∈ flushed s ↔ x ∈ pts s.
Proof.
  unfold flushed, pts. rewrite !elem_of_app, merge_asc_elem. tauto.
Qed.

Lemma flushed_ordered s last : UInv s last → ordered (flushed s).
Proof.
  intros (H1 & H2 & H3 & H4 & H5 & _). unfold flushed.
  apply ordered_app; [by apply merge_asc_ordered|done|].
  intros a b Ha Hb. apply last_Some_elem_of in Ha.
  apply head_Some_elem_of in Hb. apply H4; [|done].
  apply elem_of_app. by apply merge_asc_elem.
Qed.

Section updater.
Variable A : Arena.
Variable vs : list VNPtr.

Lemma verified_intro lr :
  valnos lr = vs → ordered (segments lr) → Forall (seg_wf A vs) (segments lr) →
  verify A lr = Ok tt.
Proof.
  intros Hvs Ho Hwf. apply verify_Ok. split; [done|]. rewrite Hvs.
  split; (eapply Forall_impl; [exact Hwf|]); intros s [? ?]; [done|].
  by apply vn_live_in_table.
Qed.

(** [flush] on a dirty updater. *)
Lemma flush_dirty u lr s :
  repr u lr s → valnos lr = vs → UInv s (LastStart u) →
  isValid (LastStart u) = true → Forall (seg_wf A vs) (pts s) →
  flush A u
  = Ok {| LR := Some (with_segments lr (flushed s));
          LastStart := SlotIndex_invalid;
          WriteI := length (area1 s) + length (spills s);
          ReadI := if length (spills s) =? 0 then ReadI u
                   else length (area1 s) + length (spills s);
          Spills := [] |}.
Proof.
  intros (HLR & Hset & Hsegs & HW & HR & HS) Hvs Hinv Hvalid Hwf.
  unfold flush, isDirty. rewrite Hvalid, HLR. cbn [negb].
  assert (Hver : ∀ lr', valnos lr' = vs → segments lr' = flushed s →
                        verify A lr' = Ok tt).
  { intros lr' Hv' Hs'. apply verified_intro; [done|..]; rewrite Hs'.
    - by eapply flushed_ordered.
    - apply Forall_forall. intros x Hx. rewrite Forall_forall in Hwf.
      apply Hwf. by apply flushed_elem. }
  rewrite HS, HW, HR, Hsegs.
  destruct (spills s) as [|x sp] eqn:Hsp.
  - (* nothing to merge: the gap is erased *)
    simpl. rewrite erase_app.
    assert (Hfl : flushed s = area1 s ++ area2 s).
    { unfold flushed. by rewrite Hsp, merge_asc_nil_r. }
    rewrite <- Hfl. rewrite Hver by done. simpl.
    by rewrite Nat.add_0_r.
  - (* the gap is resized to the spills, which are merged into it *)
    rewrite (proj2 (Nat.eqb_neq (length (x :: sp)) 0)) by (simpl; lia).
    unfold gap_size. rewrite (proj2 (Nat.ltb_ge _ _)) by lia.
    set (n := length (x :: sp)).
    assert (Hresize : ∃ G',
      (if (Z.of_nat (length (area1 s) + length (gap s))
           - Z.of_nat (length (area1 s)) <? Z.of_nat n)%Z
       then take (length (area1 s) + length (gap s))
              (area1 s ++ gap s ++ area2 s)
            ++ replicate
                 (n - Z.to_nat (Z.of_nat (length (area1 s) + length (gap s))
                                - Z.of_nat (length (area1 s))))
                 Segment_default
            ++ drop (length (area1 s) + length (gap s))
                 (area1 s ++ gap s ++ area2 s)
       else erase (area1 s ++ gap s ++ area2 s) (length (area1 s) + n)
              (length (area1 s) + length (gap s)))
      = area1 s ++ G' ++ area2 s ∧ length G' = n).
    { destruct (Z.ltb_spec
        (Z.of_nat (length (area1 s) + length (gap s))
         - Z.of_nat (length (area1 s))) (Z.of_nat n)) as [Hlt|Hge].
      - exists (gap s ++ replicate (n - length (gap s)) Segment_default).
        split.
        + rewrite !app_assoc.
          rewrite take_app_length' by (rewrite length_app; lia).
          rewrite drop_app_length' by (rewrite length_app; lia).
          rewrite <- !app_assoc. do 3 f_equal. f_equal. lia.
        + rewrite length_app, length_replicate. lia.
      - exists (take n (gap s)). split.
        + unfold erase. rewrite take_app_ge by lia.
          replace (length (area1 s) + n - length (area1 s)) with n by lia.
          rewrite take_app_le by lia.
          rewrite !app_assoc.
          rewrite drop_app_length' by (rewrite length_app; lia).
          by rewrite <- !app_assoc.
        + rewrite length_take. lia. }
    destruct Hresize as (G' & -> & HG').
    rewrite <- HG'. rewrite mergeSpills_spec.
    rewrite HG', Nat.min_id, Nat.sub_diag, drop_0, take_0.
    rewrite <- HG', drop_all, app_nil_l. cbn [bind].
    assert (Hfl : flushed s = merge_asc (area1 s) (x :: sp) ++ area2 s).
    { unfold flushed. by rewrite Hsp. }
    rewrite <- Hfl. rewrite Hver by done. cbn [bind].
    by rewrite HG'.
Qed.
End updater.

(** ** The coalescing test *)

Lemma coalescable_true A B :
  coalescable A B = Ok true ↔
  (start A ≤ start B)%Z ∧ (start B ≤ end_ A)%Z ∧ valno A = valno B.
Proof.
  unfold coalescable.
  destruct (Z.leb_spec (start A) (start B)); cbn [check bind];
    [|split; [done|lia]].
  destruct (Z.eqb_spec (end_ A) (start B)).
  { destruct (Nat.eqb_spec (valno A) (valno B)); split; try done;
      try (intros; repeat split; try done; lia); tauto. }
  destruct (Z.ltb_spec (end_ A) (start B)); [split; [done|lia]|].
  destruct (Nat.eqb_spec (valno A) (valno B)); cbn [check bind].
  - split; [|done]. intros _. repeat split; [done|lia|done].
  - split; [done|tauto].
Qed.

Lemma coalescable_false A B :
  coalescable A B = Ok false ↔ (start A ≤ start B)%Z ∧ seg_before A B.
Proof.
  unfold coalescable, seg_before.
  destruct (Z.leb_spec (start A) (start B)); cbn [check bind];
    [|split; [done|lia]].
  destruct (Z.eqb_spec (end_ A) (start B)).
  { destruct (Nat.eqb_spec (valno A) (valno B)).
    - split; [done|]. intros (_ & _ & Hn). by destruct Hn.
    - split; [|done]. intros _. split; [done|]. split; [lia|done]. }
  destruct (Z.ltb_spec (end_ A) (start B)).
  { split; [|done]. intros _. split; [done|]. split; [lia|done]. }
  destruct (Nat.eqb_spec (valno A) (valno B)); cbn [check bind];
    (split; [done|]); intros (_ & ? & _); lia.
Qed.

(** The test answers when the two segments are in order and overlap only
    with one value. *)
Lemma coalescable_total A B :
  (start A ≤ start B)%Z → ((start B < end_ A)%Z → valno A = valno B) →
  ∃ c, coalescable A B = Ok c.
Proof.
  intros Hs Hv. unfold coalescable.
  rewrite (proj2 (Z.leb_le _ _) Hs). cbn [check bind].
  destruct (Z.eqb_spec (end_ A) (start B)); [by eexists|].
  destruct (Z.ltb_spec (end_ A) (start B)); [by eexists|].
  rewrite (proj2 (Nat.eqb_eq _ _)) by (apply Hv; lia).
  by eexists.
Qed.

(** ** Advancing [ReadI] *)

(** The copy loop moves the segments of area 2 that end at or before
    [Start] to the end of area 1; the gap keeps its size. *)
Lemma advance_copy_spec a2 : ∀ a1 G fuel Start,
  length a2 < fuel → length G ≠ 0 →
  ∃ m G',
    advance_copy fuel (a1 ++ G ++ a2) Start (length a1)
      (length a1 + length G)
    = Ok ((a1 ++ take m a2) ++ G' ++ drop m a2,
          length (a1 ++ take m a2), length (a1 ++ take m a2) + length G')
    ∧ length G' = length G
    ∧ Forall (λ r, (end_ r ≤ Start)%Z) (take m a2)
    ∧ (∀ r, head (drop m a2) = Some r → (Start < end_ r)%Z).
Proof.
  induction a2 as [|r a2 IH]; intros a1 G fuel Start Hf HG.
  - destruct fuel as [|fuel]; [simpl in Hf; lia|]. exists 0, G. simpl.
    rewrite !app_nil_r.
    rewrite (proj2 (Nat.eqb_eq _ _)) by (rewrite length_app; lia).
    splits; [done|done|constructor|done].
  - destruct fuel as [|fuel]; [simpl in Hf; lia|]. simpl in Hf. simpl.
    rewrite (proj2 (Nat.eqb_neq _ _))
      by (rewrite !length_app; simpl; lia).
    assert (Hr : (a1 ++ G ++ r :: a2) !! (length a1 + length G) = Some r).
    { rewrite app_assoc. rewrite <- length_app. apply lookup_middle. }
    unfold at_. rewrite Hr. cbn [bind].
    destruct (Z.leb_spec (end_ r) Start) as [Hle|Hgt].
    + destruct G as [|g G]; [done|].
      unfold write_at.
      rewrite (proj2 (Nat.ltb_lt _ _))
        by (rewrite !length_app; simpl; lia).
      cbn [bind]. change ((g :: G) ++ r :: a2) with (g :: (G ++ r :: a2)).
      rewrite insert_middle.
      destruct (IH (a1 ++ [r]) (G ++ [r]) fuel Start ltac:(lia))
        as (m & G' & Hadv & HG' & Hmoved & Hhead).
      { rewrite length_app. simpl. lia. }
      exists (S m), G'.
      replace (a1 ++ r :: (G ++ r :: a2))
        with ((a1 ++ [r]) ++ (G ++ [r]) ++ a2)
        by (rewrite <- !app_assoc; done).
      replace (length a1 + 1) with (length (a1 ++ [r]))
        by (rewrite length_app; simpl; lia).
      replace (length a1 + length (g :: G) + 1)
        with (length (a1 ++ [r]) + length (G ++ [r]))
        by (rewrite !length_app; simpl; lia).
      rewrite Hadv. simpl. rewrite <- !app_assoc. simpl.
      splits; try done.
      * rewrite HG', length_app. simpl. lia.
      * by constructor.
    + exists 0, G. simpl. rewrite !app_nil_r.
      splits; [done|done|constructor|].
      intros ? [= <-]. done.
Qed.

(** The jump of both iterators to [find(Start)], on a range without a
    gap. *)
Lemma find_jump l Start :
  ordered l →
  ∃ m, find l Start = m ∧ m ≤ length l
       ∧ Forall (λ r, (end_ r ≤ Start)%Z) (take m l)
       ∧ (∀ r, head (drop m l) = Some r → (Start < end_ r)%Z).
Proof.
  intros Ho. destruct (find_spec l Start Ho) as (Hm & HF & HT).
  exists (find l Start). splits; [done|done| |].
  - apply Forall_lookup. intros i r Hr.
    apply lookup_take_Some in Hr as [Hr Hi].
    specialize (HF i r Hi Hr). simpl in HF. bool_prop. lia.
  - intros r Hr. rewrite head_lookup, lookup_drop, Nat.add_0_r in Hr.
    specialize (HT _ r (le_n _) Hr). simpl in HT. bool_prop. lia.
Qed.

(** On an ordered range whose area 2 begins with a segment that ends at or
    before [Start], the jump lands in area 2. *)
Lemma find_jump_area2 a1 a2 rd Start :
  ordered (a1 ++ a2) → head a2 = Some rd → (end_ rd ≤ Start)%Z →
  ∃ m, find (a1 ++ a2) Start = length (a1 ++ take m a2)
       ∧ Forall (λ r, (end_ r ≤ Start)%Z) (take m a2)
       ∧ (∀ r, head (drop m a2) = Some r → (Start < end_ r)%Z).
Proof.
  intros Ho Hrd Hle.
  destruct (find_jump _ Start Ho) as (m & -> & Hm & Hall & Hhead).
  destruct (decide (m < length a1)) as [Hlt|Hge].
  - exfalso. destruct (lookup_lt_is_Some_2 a1 m Hlt) as [y Hy].
    assert (Hy' : head (drop m (a1 ++ a2)) = Some y).
    { rewrite head_lookup, lookup_drop, Nat.add_0_r.
      by rewrite lookup_app_l. }
    specialize (Hhead _ Hy').
    assert (seg_before y rd) as [Hb _].
    { eapply ordered_app_before; [done| |].
      - by eapply list_elem_of_lookup_2.
      - by apply head_Some_elem_of. }
    apply ordered_app_inv in Ho as [_ Ho].
    apply ordered_Forall in Ho.
    apply head_Some_elem_of in Hrd.
    rewrite Forall_forall in Ho. specialize (Ho _ Hrd). simpl in Ho. lia.
  - exists (m - length a1).
    rewrite take_app_ge in Hall by lia.
    rewrite drop_app_ge in Hhead by lia.
    apply Forall_app in Hall as [_ Hall].
    rewrite length_app in Hm.
    splits; [|done|done].
    rewrite length_app, length_take. lia.
Qed.

(** Moving a prefix of area 2 that ends at or before [Start] to area 1
    keeps the invariants of the updater. *)
Lemma UInv_move s last Start m G' :
  UInv s last → (last ≤ Start)%Z →
  Forall (λ r, (end_ r ≤ Start)%Z) (take m (area2 s)) →
  UInv {| area1 := area1 s ++ take m (area2 s); gap := G';
          area2 := drop m (area2 s); spills := spills s |} Start.
Proof.
  intros (H1 & H2 & H3 & H4 & H5 & H6) Hle Hall.
  pose proof H3 as H3'. rewrite <- (take_drop m (area2 s)) in H3'.
  pose proof (ordered_app_inv _ _ H3') as [Ht Hd].
  unfold UInv. simpl. splits; [|done|done| | |].
  - apply ordered_app; [done..|]. intros a b Ha Hb.
    apply last_Some_elem_of in Ha. apply head_Some_elem_of in Hb.
    apply H4; [apply elem_of_app; by left|].
    by eapply subseteq_take.
  - intros a b Ha Hb.
    rewrite <- app_assoc, elem_of_app, elem_of_app in Ha.
    destruct Ha as [Ha|[Ha|Ha]].
    + apply H4; [apply elem_of_app; by left|]. by eapply subseteq_drop.
    + by eapply ordered_app_before.
    + apply H4; [apply elem_of_app; by right|]. by eapply subseteq_drop.
  - intros a x Ha Hx. apply elem_of_app in Ha as [Ha|Ha]; [by apply H5|].
    right. apply H4; [apply elem_of_app; by right|].
    by eapply subseteq_take.
  - intros a Ha.
    rewrite <- app_assoc, elem_of_app, elem_of_app in Ha.
    assert (H6' : ∀ a, a ∈ area1 s ∨ a ∈ spills s → (start a ≤ last)%Z).
    { intros a' Ha'. apply H6. by apply elem_of_app. }
    clear H6. rename H6' into H6.
    destruct Ha as [Ha|[Ha|Ha]].
    + specialize (H6 a (or_introl Ha)). lia.
    + rewrite Forall_forall in Hall. specialize (Hall _ Ha). simpl in Hall.
      apply ordered_Forall in Ht. rewrite Forall_forall in Ht.
      specialize (Ht _ Ha). simpl in Ht. lia.
    + specialize (H6 a (or_intror Ha)). lia.
Qed.

(** Merging the last spills into area 1 keeps them as well. *)
Lemma UInv_merge s last j G' :
  UInv s last →
  UInv {| area1 := merge_asc (area1 s) (drop j (spills s)); gap := G';
          area2 := area2 s; spills := take j (spills s) |} last.
Proof.
  intros (H1 & H2 & H3 & H4 & H5 & H6).
  pose proof H2 as H2'. rewrite <- (take_drop j (spills s)) in H2'.
  pose proof (ordered_app_inv _ _ H2') as [Ht Hd].
  assert (Hin : ∀ a, a ∈ merge_asc (area1 s) (drop j (spills s))
                       ++ take j (spills s) →
                     a ∈ area1 s ++ spills s).
  { intros a. rewrite !elem_of_app, merge_asc_elem.
    intros [[Ha|Ha]|Ha]; [by left|right..].
    - by eapply subseteq_drop.
    - by eapply subseteq_take. }
  unfold UInv. simpl. splits; [|done|done| | |].
  - apply merge_asc_ordered; [done..|]. intros a x Ha Hx.
    apply H5; [done|]. by eapply subseteq_drop.
  - intros a b Ha Hb. apply H4; [|done]. by apply Hin.
  - intros a x Ha Hx. apply merge_asc_elem in Ha as [Ha|Ha].
    + apply H5; [done|]. by eapply subseteq_take.
    + right. by eapply ordered_app_before.
  - intros a Ha. apply H6. by apply Hin.
Qed.

Lemma advanced_elem s j m G' x : x ∈ pts (advanced s j m G') ↔ x ∈ pts s.
Proof.
  unfold pts, advanced. simpl.
  rewrite !elem_of_app, merge_asc_elem.
  assert (Hs : x ∈ spills s ↔ x ∈ take j (spills s) ∨ x ∈ drop j (spills s)).
  { by rewrite <- elem_of_app, take_drop. }
  assert (Ha : x ∈ area2 s ↔ x ∈ take m (area2 s) ∨ x ∈ drop m (area2 s)).
  { by rewrite <- elem_of_app, take_drop. }
  tauto.
Qed.

Lemma advanced_UInv s last Start j m G' :
  UInv s last → (last ≤ Start)%Z →
  Forall (λ r, (end_ r ≤ Start)%Z) (take m (area2 s)) →
  UInv (advanced s j m G') Start.
Proof.
  intros Hu Hle Hall.
  apply (UInv_move _ last Start m G'
           (UInv_merge s last j G' Hu) Hle Hall).
Qed.

Lemma add_advance_spec s last Seg :
  UInv s last →
  ∃ j m G',
    let s' := advanced s j m G' in
    add_advance (area1 s ++ gap s ++ area2 s) (length (area1 s))
      (length (area1 s) + length (gap s)) (spills s) Seg
    = Ok (area1 s' ++ gap s' ++ area2 s', length (area1 s'),
          length (area1 s') + length (gap s'), spills s')
    ∧ length (area1 s' ++ gap s' ++ area2 s')
      = length (area1 s ++ gap s ++ area2 s)
    ∧ Forall (λ r, (end_ r ≤ start Seg)%Z) (take m (area2 s))
    ∧ (∀ r, head (area2 s') = Some r → (start Seg < end_ r)%Z).
Proof.
  destruct s as [a1 G a2 sp]. simpl. intros Hu.
  pose proof Hu as (H1 & H2 & H3 & H4 & H5 & H6). simpl in *.
  (* the state that stays as it is *)
  assert (Hid : ∀ r, add_advance (a1 ++ G ++ a2) (length a1)
                  (length a1 + length G) sp Seg
                = Ok (a1 ++ G ++ a2, length a1, length a1 + length G, sp) →
                (∀ rd, head a2 = Some rd → (start Seg < end_ rd)%Z) →
                r = tt → ∃ j m G',
    add_advance (a1 ++ G ++ a2) (length a1) (length a1 + length G) sp Seg
    = Ok ((merge_asc a1 (drop j sp) ++ take m a2) ++ G' ++ drop m a2,
          length (merge_asc a1 (drop j sp) ++ take m a2),
          length (merge_asc a1 (drop j sp) ++ take m a2) + length G',
          take j sp)
    ∧ length ((merge_asc a1 (drop j sp) ++ take m a2) ++ G' ++ drop m a2)
      = length (a1 ++ G ++ a2)
    ∧ Forall (λ r, (end_ r ≤ start Seg)%Z) (take m a2)
    ∧ (∀ r, head (drop m a2) = Some r → (start Seg < end_ r)%Z)).
  { intros _ Heq Hhead _. exists (length sp), 0, G.
    rewrite drop_all, merge_asc_nil_r, take_0, drop_0, app_nil_r.
    rewrite firstn_all. splits; [done|done|constructor|done]. }
  unfold add_advance.
  destruct a2 as [|rd a2].
  { apply (Hid tt); [|done|done]. unfold add_advance.
    rewrite (proj2 (Nat.eqb_eq _ _)) by (rewrite !length_app; simpl; lia).
    done. }
  assert (Hne : (length a1 + length G =? length (a1 ++ G ++ rd :: a2))
                = false).
  { apply Nat.eqb_neq. rewrite !length_app. simpl. lia. }
  assert (Hr : (a1 ++ G ++ rd :: a2) !! (length a1 + length G) = Some rd).
  { rewrite app_assoc. rewrite <- length_app. apply lookup_middle. }
  destruct (Z.leb_spec (end_ rd) (start Seg)) as [Hle|Hgt]; cycle 1.
  { apply (Hid tt); [|by intros ? [= <-]|done]. unfold add_advance.
    rewrite Hne. unfold at_. rewrite Hr. cbn [negb bind].
    by rewrite (proj2 (Z.leb_gt _ _) Hgt). }
  clear Hid. rewrite Hne. unfold at_ at 1. rewrite Hr. cbn [negb bind].
  rewrite (proj2 (Z.leb_le _ _) Hle).
  assert (Hord12 : ∀ a1', ordered a1' → (∀ a, a ∈ a1' → a ∈ a1 ++ sp) →
                          ordered (a1' ++ rd :: a2)).
  { intros a1' Ho Hin. apply ordered_app; [done..|]. intros a b Ha Hb.
    apply last_Some_elem_of in Ha. apply head_Some_elem_of in Hb.
    apply H4; [by apply Hin|done]. }
  destruct (Nat.eqb_spec (length a1 + length G) (length a1)) as [HG|HG].
  - (* no gap: jump *)
    assert (G = []) as -> by (apply length_zero_iff_nil; lia).
    cbn [negb bind]. simpl app. rewrite Nat.add_0_r, Nat.eqb_refl.
    destruct (find_jump_area2 a1 (rd :: a2) rd (start Seg))
      as (m & -> & Hall & Hhead); [|done|done|].
    { apply Hord12; [done|]. intros a Ha. apply elem_of_app. by left. }
    exists (length sp), m, [].
    rewrite drop_all, merge_asc_nil_r, firstn_all. simpl app.
    rewrite <- app_assoc, take_drop, Nat.add_0_r.
    splits; done.
  - cbn [negb]. rewrite mergeSpills_spec. cbn [bind].
    set (k := Nat.min (length sp) (length G)).
    set (a1' := merge_asc a1 (drop (length sp - k) sp)).
    assert (Hlen1 : length a1' = length a1 + k).
    { unfold a1'. rewrite merge_asc_length, length_drop. unfold k. lia. }
    assert (Hu' := UInv_merge _ _ (length sp - k) (drop k G) Hu).
    destruct Hu' as (H1' & _). simpl in H1'. fold a1' in H1'.
    assert (Hin' : ∀ a, a ∈ a1' → a ∈ a1 ++ sp).
    { intros a. unfold a1'. rewrite merge_asc_elem, elem_of_app.
      intros [?|?]; [by left|right]. by eapply subseteq_drop. }
    destruct (Nat.eqb_spec (length a1 + length G) (length a1 + k)) as [Hk|Hk].
    + (* the spills close the gap: jump *)
      rewrite drop_ge by lia. simpl app.
      destruct (find_jump_area2 a1' (rd :: a2) rd (start Seg))
        as (m & -> & Hall & Hhead); [by apply Hord12|done|done|].
      exists (length sp - k), m, []. fold a1'.
      simpl app. rewrite <- app_assoc, take_drop, Nat.add_0_r.
      splits; [done| |done|done].
      rewrite !length_app, Hlen1. lia.
    + (* a gap remains: copy *)
      destruct (advance_copy_spec (rd :: a2) a1' (drop k G)
                  (S (length (a1 ++ G ++ rd :: a2))) (start Seg))
        as (m & G' & Hadv & HG' & Hall & Hhead).
      { rewrite !length_app. simpl. lia. }
      { rewrite length_drop. unfold k in *. lia. }
      rewrite length_drop in Hadv, HG'.
      replace (length a1 + k) with (length a1') by done.
      replace (length a1 + length G) with (length a1' + (length G - k))
        by (unfold k in *; lia).
      rewrite Hadv. cbn [bind].
      exists (length sp - k), m, G'. fold a1'.
      splits; [done| |done|done].
      rewrite !length_app, length_take, length_drop, HG', Hlen1.
      simpl. unfold k in *. lia.
Qed.

(** ** Coalescing with the segments at [ReadI] *)

Lemma set_end_same N : set_end N (end_ N) = N.
Proof. by destruct N. Qed.

Lemma seg_before_all N l :
  ordered l → (∀ b, head l = Some b → seg_before N b) →
  ∀ b, b ∈ l → seg_before N b.
Proof.
  intros Ho Hh b Hb. destruct l as [|r l]; [by apply elem_of_nil in Hb|].
  destruct (Hh r eq_refl) as [H1 H2].
  apply elem_of_cons in Hb as [->|Hb]; [done|].
  pose proof (ordered_cons_before _ _ Ho) as HF.
  rewrite Forall_forall in HF. destruct (HF _ Hb) as [H3 _].
  destruct Ho as (Hr & _). apply seg_before_strict. lia.
Qed.

Lemma coalesce_read_spec rest : ∀ N R,
  ordered rest →
  (∀ b, b ∈ rest → (start N ≤ start b)%Z) →
  (∀ b, b ∈ rest → (start b < end_ N)%Z → valno b = valno N) →
  ∃ m e,
    coalesce_read N rest R = Ok (set_end N e, R + m)
    ∧ m ≤ length rest
    ∧ (end_ N ≤ e)%Z
    ∧ Forall (λ y, valno y = valno N) (take m rest)
    ∧ (∀ p, (start N ≤ p < e)%Z →
            (start N ≤ p < end_ N)%Z
            ∨ ∃ y, y ∈ take m rest ∧ (start y ≤ p < end_ y)%Z)
    ∧ (∀ b, b ∈ drop m rest → seg_before (set_end N e) b).
Proof.
  induction rest as [|r rest IH]; intros N R Ho Hs Hv.
  - exists 0, (end_ N). rewrite set_end_same, Nat.add_0_r.
    splits; [done|simpl; lia|lia|constructor|tauto|].
    intros b Hb. by apply elem_of_nil in Hb.
  - cbn [coalesce_read].
    destruct (coalescable_total N r) as [c Hc].
    { apply Hs. by left. }
    { intros Hlt. symmetry. apply Hv; [by left|done]. }
    rewrite Hc. cbn [bind]. destruct c.
    + apply coalescable_true in Hc as (Hc1 & Hc2 & Hc3).
      pose proof (ordered_cons_before _ _ Ho) as HF.
      rewrite Forall_forall in HF.
      destruct (IH (set_end N (Z.max (end_ N) (end_ r))) (R + 1))
        as (m & e & Hrun & Hm & He & Hval & Hcov & Hrest).
      * by eapply ordered_cons_inv.
      * intros b Hb. simpl. apply Hs. by right.
      * intros b Hb. simpl. intros Hlt. apply Hv; [by right|].
        destruct (HF _ Hb) as [? _]. lia.
      * exists (S m), e. rewrite Hrun. simpl in *.
        splits.
        -- do 2 f_equal. lia.
        -- lia.
        -- lia.
        -- constructor; [done|]. done.
        -- intros p Hp. destruct (Hcov p Hp) as [Hin|(y & Hy & Hpy)].
           ++ destruct (decide (p < end_ N)%Z); [left; lia|].
              right. exists r. split; [by left|lia].
           ++ right. exists y. split; [by right|done].
        -- done.
    + apply coalescable_false in Hc as (Hc1 & Hc2).
      exists 0, (end_ N). rewrite set_end_same, Nat.add_0_r. simpl.
      splits; [done|lia|lia|constructor|tauto|].
      apply seg_before_all; [done|]. by intros b [= <-].
Qed.

(** ** The three ways [add] stores the coalesced segment *)

Lemma seg_before_hull x y b e :
  seg_before x b → seg_before y b → valno x = valno y →
  (e = end_ x ∨ e = end_ y) →
  seg_before (set_end x e) b.
Proof.
  intros [H1 H2] [H3 H4] Hv He. unfold seg_before. simpl.
  destruct He as [->| ->]; [done|]. split; [done|].
  rewrite Hv. done.
Qed.

Section store.
Variables (a1 G' a2 sp : list Segment) (L : SlotIndex) (N : Segment).
Hypothesis Hu : UInv (mkAreas a1 G' a2 sp) L.
Hypothesis HN : (start N < end_ N)%Z.
Hypothesis HL : (start N ≤ L)%Z.
Hypothesis Hsp : ∀ y, y ∈ sp → seg_before y N.
Hypothesis Ha2 : ∀ b, b ∈ a2 → seg_before N b.

Lemma UInv_append G2 :
  (∀ y, y ∈ a1 → seg_before y N) →
  UInv (mkAreas (a1 ++ [N]) G2 a2 sp) L.
Proof using Hu HN HL Hsp Ha2.
  intros Ha1. destruct Hu as (H1 & H2 & H3 & H4 & H5 & H6). simpl in *.
  unfold UInv. simpl. splits; [|done|done| | |].
  - apply ordered_snoc. splits; [done|done|]. by apply Forall_forall.
  - intros a b Ha Hb. rewrite <- app_assoc in Ha.
    apply elem_of_app in Ha as [Ha|Ha].
    + apply H4; [|done]. apply elem_of_app. by left.
    + apply elem_of_cons in Ha as [->|Ha]; [by apply Ha2|].
      apply H4; [|done]. apply elem_of_app. by right.
  - intros a x Ha Hx. apply elem_of_app in Ha as [Ha|Ha]; [by apply H5|].
    apply list_elem_of_singleton in Ha as ->. right. by apply Hsp.
  - intros a Ha. rewrite <- app_assoc in Ha.
    apply elem_of_app in Ha as [Ha|Ha].
    + apply H6. apply elem_of_app. by left.
    + apply elem_of_cons in Ha as [->|Ha]; [done|].
      apply H6. apply elem_of_app. by right.
Qed.

Lemma UInv_spill G2 :
  (∀ y, y ∈ a1 → seg_before y N) →
  UInv (mkAreas a1 G2 a2 (sp ++ [N])) L.
Proof using Hu HN HL Hsp Ha2.
  intros Ha1. destruct Hu as (H1 & H2 & H3 & H4 & H5 & H6). simpl in *.
  unfold UInv. simpl. splits; [done| |done| | |].
  - apply ordered_snoc. splits; [done|done|]. by apply Forall_forall.
  - intros a b Ha Hb. rewrite app_assoc in Ha.
    apply elem_of_app in Ha as [Ha|Ha]; [by apply H4|].
    apply list_elem_of_singleton in Ha as ->. by apply Ha2.
  - intros a x Ha Hx. apply elem_of_app in Hx as [Hx|Hx]; [by apply H5|].
    apply list_elem_of_singleton in Hx as ->. left. by apply Ha1.
  - intros a Ha. rewrite app_assoc in Ha.
    apply elem_of_app in Ha as [Ha|Ha]; [by apply H6|].
    by apply list_elem_of_singleton in Ha as ->.
Qed.
End store.

Lemma UInv_coalesce a1 w G' G2 a2 sp L N :
  UInv (mkAreas (a1 ++ [w]) G' a2 sp) L →
  (start N < end_ N)%Z →
  (∀ y, y ∈ sp → seg_before y N) →
  (∀ b, b ∈ a2 → seg_before N b) →
  coalescable w N = Ok true →
  UInv (mkAreas (a1 ++ [set_end w (Z.max (end_ w) (end_ N))]) G2 a2 sp) L.
Proof.
  intros (H1 & H2 & H3 & H4 & H5 & H6) HN Hsp Ha2 Hc. simpl in *.
  apply coalescable_true in Hc as (Hc1 & Hc2 & Hc3).
  apply ordered_snoc in H1 as (H1 & Hw & H1w). rewrite Forall_forall in H1w.
  assert (Hww : w ∈ a1 ++ [w]) by (apply elem_of_app; right; by left).
  unfold UInv. simpl. splits; [|done|done| | |].
  - apply ordered_snoc. splits; [done|simpl; lia|].
    apply Forall_forall. intros y Hy. apply (H1w y Hy).
  - intros a b Ha Hb. rewrite <- app_assoc in Ha.
    apply elem_of_app in Ha as [Ha|Ha].
    + apply H4; [|done]. apply elem_of_app. left. apply elem_of_app. by left.
    + apply elem_of_cons in Ha as [->|Ha].
      * assert (Hwb : seg_before w b).
        { apply H4; [|done]. apply elem_of_app. by left. }
        destruct (Ha2 b Hb) as [Hn1 Hn2]. destruct Hwb as [Hw1 Hw2].
        unfold seg_before. simpl. split; [lia|].
        intros He. destruct (Z.max_spec (end_ w) (end_ N)) as [[_ Hm]|[_ Hm]];
          rewrite Hm in He.
        -- rewrite Hc3. by apply Hn2.
        -- by apply Hw2.
      * apply H4; [|done]. apply elem_of_app. by right.
  - intros a x Ha Hx. apply elem_of_app in Ha as [Ha|Ha].
    + apply H5; [|done]. apply elem_of_app. by left.
    + apply list_elem_of_singleton in Ha as ->.
      destruct (H5 w x Hww Hx) as [[Hb _]|Hb].
      * exfalso. destruct (Hsp x Hx) as [Hx1 _].
        apply ordered_Forall in H2. rewrite Forall_forall in H2.
        specialize (H2 _ Hx). simpl in H2. lia.
      * right. exact Hb.
  - intros a Ha. rewrite <- app_assoc in Ha.
    apply elem_of_app in Ha as [Ha|Ha].
    + apply H6. apply elem_of_app. left. apply elem_of_app. by left.
    + apply elem_of_cons in Ha as [->|Ha].
      * simpl. apply H6. apply elem_of_app. by left.
      * apply H6. apply elem_of_app. by right.
Qed.

(** ** The body of [add] *)

Lemma overlap_valno l y N :
  no_conflict l N → y ∈ l → (start y < end_ N)%Z → (start N < end_ y)%Z →
  valno y = valno N.
Proof.
  intros Hnc Hy H1 H2. destruct (decide (valno y = valno N)) as [|Hne]; [done|].
  destruct (Hnc y Hy Hne); lia.
Qed.

(** "Try coalescing Spills.back() into Seg". *)
Lemma spill_back_spec sp N2 :
  ordered sp →
  (∀ y, y ∈ sp → (start y ≤ start N2)%Z) →
  (∀ y, y ∈ sp → (start N2 < end_ y)%Z → valno y = valno N2) →
  ∃ N3 sp',
    match last sp with
    | Some back =>
      c <- coalescable back N2 ;;
      if c then
        Ok (mkSegment (start back) (Z.max (end_ back) (end_ N2)) (valno N2),
            removelast sp)
      else Ok (N2, sp)
    | None => Ok (N2, sp)
    end = Ok (N3, sp')
    ∧ (∀ y, y ∈ sp' → seg_before y N3)
    ∧ ((N3 = N2 ∧ sp' = sp)
       ∨ ∃ X, sp = sp' ++ [X] ∧ coalescable X N2 = Ok true
              ∧ N3 = mkSegment (start X) (Z.max (end_ X) (end_ N2))
                       (valno N2)).
Proof.
  intros Ho Hs Hv. destruct sp as [|X spi _] using rev_ind.
  { exists N2, []. simpl. splits; [done| |by left].
    intros y Hy. by apply elem_of_nil in Hy. }
  rewrite last_snoc.
  assert (HX : X ∈ spi ++ [X]) by (apply elem_of_app; right; by left).
  apply ordered_snoc in Ho as (Ho & HXne & Hb). rewrite Forall_forall in Hb.
  destruct (coalescable_total X N2) as [c Hc]; [by apply Hs|by apply Hv|].
  rewrite Hc. cbn [bind]. destruct c.
  - rewrite List.removelast_last. eexists _, spi. split; [done|].
    pose proof Hc as (Hc1 & Hc2 & Hc3)%coalescable_true.
    split; [|right; by exists X].
    intros y Hy. destruct (Hb y Hy) as [Hy1 Hy2]. unfold seg_before. simpl.
    split; [done|]. rewrite <- Hc3. done.
  - exists N2, (spi ++ [X]). split; [done|]. split; [|by left].
    apply coalescable_false in Hc as (Hc1 & Hc2 & Hc3).
    intros y Hy. apply elem_of_app in Hy as [Hy|Hy].
    + destruct (Hb y Hy) as [Hy1 _]. apply seg_before_strict. lia.
    + apply list_elem_of_singleton in Hy as ->. done.
Qed.

Lemma UInv_shrink a1 G a2 sp L sp' m G2 :
  UInv (mkAreas a1 G a2 sp) L →
  (sp' = sp ∨ ∃ X, sp = sp' ++ [X]) →
  UInv (mkAreas a1 G2 (drop m a2) sp') L.
Proof.
  intros (H1 & H2 & H3 & H4 & H5 & H6) Hsp. simpl in *.
  assert (Hsub : ∀ y, y ∈ sp' → y ∈ sp).
  { destruct Hsp as [->|[X ->]]; [done|]. intros y Hy.
    apply elem_of_app. by left. }
  assert (Hsub' : ∀ y, y ∈ a1 ++ sp' → y ∈ a1 ++ sp).
  { intros y. rewrite !elem_of_app. intros [?|?]; [by left|right; auto]. }
  unfold UInv. simpl. splits; [done| | | | |].
  - destruct Hsp as [->|[X ->]]; [done|]. by apply ordered_app_inv in H2 as [? _].
  - rewrite <- (take_drop m a2) in H3. by apply ordered_app_inv in H3 as [_ ?].
  - intros a b Ha Hb. apply H4; [by apply Hsub'|]. by eapply subseteq_drop.
  - intros a x Ha Hx. apply H5; [done|by apply Hsub].
  - intros a Ha. apply H6. by apply Hsub'.
Qed.

(** The final placement of the segment: into the gap, at the end of the
    range, or among the spills. *)
Lemma place_spec lr L a1 G2 a2 sp N3 :
  ∃ s',
    (if negb (length a1 =? length a1 + length G2) then
       segs' <- write_at (a1 ++ G2 ++ a2) (length a1) N3 ;;
       Ok {| LR := Some (with_segments lr segs'); LastStart := L;
             WriteI := length a1 + 1; ReadI := length a1 + length G2;
             Spills := sp |}
     else if length a1 =? length (a1 ++ G2 ++ a2) then
       Ok {| LR := Some (with_segments lr ((a1 ++ G2 ++ a2) ++ [N3]));
             LastStart := L;
             WriteI := length ((a1 ++ G2 ++ a2) ++ [N3]);
             ReadI := length ((a1 ++ G2 ++ a2) ++ [N3]);
             Spills := sp |}
     else
       Ok {| LR := Some (with_segments lr (a1 ++ G2 ++ a2));
             LastStart := L; WriteI := length a1;
             ReadI := length a1 + length G2; Spills := sp ++ [N3] |})
    = Ok (updater_of lr L s')
    ∧ ((∃ G3, s' = mkAreas (a1 ++ [N3]) G3 a2 sp)
       ∨ s' = mkAreas a1 G2 a2 (sp ++ [N3])).
Proof.
  destruct G2 as [|g G2].
  - rewrite Nat.add_0_r, Nat.eqb_refl. cbn [negb]. simpl app.
    destruct a2 as [|b a2].
    + rewrite app_nil_r, Nat.eqb_refl.
      exists (mkAreas (a1 ++ [N3]) [] [] sp). split; [|left; by exists []].
      unfold updater_of. simpl. rewrite app_nil_r, Nat.add_0_r. done.
    + rewrite (proj2 (Nat.eqb_neq _ _))
        by (rewrite length_app; simpl; lia).
      exists (mkAreas a1 [] (b :: a2) (sp ++ [N3])). split; [|by right].
      unfold updater_of. simpl. by rewrite Nat.add_0_r.
  - rewrite (proj2 (Nat.eqb_neq _ _)) by (simpl; lia). cbn [negb].
    unfold write_at.
    rewrite (proj2 (Nat.ltb_lt _ _)) by (rewrite !length_app; simpl; lia).
    cbn [bind]. change ((g :: G2) ++ a2) with (g :: (G2 ++ a2)).
    rewrite insert_middle.
    exists (mkAreas (a1 ++ [N3]) G2 a2 sp). split; [|left; by exists G2].
    unfold updater_of. simpl. rewrite <- app_assoc, length_app. simpl.
    do 2 f_equal. lia.
Qed.

Lemma add_insert_spec lr L s N :
  UInv s (start N) → (start N < end_ N)%Z →
  (∀ b, b ∈ area2 s → (start N ≤ start b)%Z) →
  no_conflict (pts s) N →
  ∃ s' NEW,
    add_insert lr L (area1 s ++ gap s ++ area2 s) (length (area1 s))
      (length (area1 s) + length (gap s)) (spills s) N
    = Ok (updater_of lr L s')
    ∧ UInv s' (start N)
    ∧ stands_for (pts s) N NEW
    ∧ (∀ x, x ∈ pts s' → x ∈ pts s ∨ x = NEW).
Proof.
  destruct s as [a1 G a2 sp]. simpl. intros Hu HN Hs2 Hnc.
  pose proof Hu as (H1 & H2 & H3 & H4 & H5 & H6). simpl in *.
  pose proof (ordered_Forall _ H1) as Hne1. rewrite Forall_forall in Hne1.
  pose proof (ordered_Forall _ H2) as Hnes. rewrite Forall_forall in Hnes.
  pose proof (ordered_Forall _ H3) as Hne2. rewrite Forall_forall in Hne2.
  assert (Hin1 : ∀ y, y ∈ a1 → y ∈ pts (mkAreas a1 G a2 sp)).
  { intros y Hy. unfold pts. simpl. apply elem_of_app. by left. }
  assert (Hins : ∀ y, y ∈ sp → y ∈ pts (mkAreas a1 G a2 sp)).
  { intros y Hy. unfold pts. simpl. rewrite !elem_of_app. right. by left. }
  assert (Hin2 : ∀ y, y ∈ a2 → y ∈ pts (mkAreas a1 G a2 sp)).
  { intros y Hy. unfold pts. simpl. rewrite !elem_of_app. right. by right. }
  assert (H61 : ∀ y, y ∈ a1 → (start y ≤ start N)%Z).
  { intros y Hy. apply H6. apply elem_of_app. by left. }
  assert (H6s : ∀ y, y ∈ sp → (start y ≤ start N)%Z).
  { intros y Hy. apply H6. apply elem_of_app. by right. }
  unfold add_insert.
  assert (Hdrop : drop (length a1 + length G) (a1 ++ G ++ a2) = a2).
  { rewrite app_assoc. apply drop_app_length'. by rewrite length_app. }
  rewrite Hdrop.
  (* the segments of area 2 that are coalesced with N *)
  destruct (coalesce_read_spec a2 N (length a1 + length G) H3 Hs2)
    as (m & e & Hrun & Hm & He & Hval & Hcov & Hrest).
  { intros b Hb Hlt. apply (overlap_valno _ _ _ Hnc (Hin2 b Hb) Hlt).
    specialize (Hs2 b Hb). specialize (Hne2 b Hb). simpl in Hne2. lia. }
  rewrite Hrun. cbn [bind]. clear Hrun.
  set (N2 := set_end N e).
  set (G2 := G ++ take m a2). set (a2' := drop m a2).
  replace (a1 ++ G ++ a2) with (a1 ++ G2 ++ a2')
    by (unfold G2, a2'; by rewrite <- app_assoc, take_drop).
  replace (length a1 + length G + m) with (length a1 + length G2)
    by (unfold G2; rewrite length_app, length_take; lia).
  rewrite Forall_forall in Hval.
  assert (Hcov2 : ∀ p, (start N2 ≤ p < end_ N2)%Z →
            (start N ≤ p < end_ N)%Z
            ∨ live_at (pts (mkAreas a1 G a2 sp)) p (valno N)).
  { intros p Hp. destruct (Hcov p Hp) as [?|(y & Hy & Hpy)]; [by left|].
    right. exists y. split; [|split; [done|by apply Hval]].
    apply Hin2. by eapply subseteq_take. }
  (* the last spill *)
  destruct (spill_back_spec sp N2 H2) as (N3 & sp' & Hsp & HK1 & Hcase).
  { intros y Hy. simpl. by apply H6s. }
  { intros y Hy Hlt. simpl in *.
    apply (overlap_valno _ _ _ Hnc (Hins y Hy)); [|done].
    specialize (H6s y Hy). lia. }
  rewrite Hsp. cbn [bind]. clear Hsp.
  assert (Hsp' : sp' = sp ∨ ∃ X, sp = sp' ++ [X]).
  { destruct Hcase as [[_ ->]|(X & -> & _)]; [by left|right; by exists X]. }
  assert (Hsub : ∀ y, y ∈ sp' → y ∈ sp).
  { destruct Hsp' as [->|[X ->]]; [done|]. intros y Hy.
    apply elem_of_app. by left. }
  pose proof (UInv_shrink _ _ _ _ _ sp' m G2 Hu Hsp') as Hut.
  fold a2' in Hut.
  assert (HN3 : stands_for (pts (mkAreas a1 G a2 sp)) N N3).
  { destruct Hcase as [[-> _]|(X & HX & Hc & ->)].
    - unfold stands_for, N2. simpl. splits; [done|lia|by left|done].
    - apply coalescable_true in Hc as (Hc1 & Hc2 & Hc3). simpl in *.
      assert (HXin : X ∈ sp) by (rewrite HX, elem_of_app; right; by left).
      specialize (Hnes X HXin). simpl in Hnes.
      unfold stands_for. simpl. splits; [done|lia| |].
      + right. exists X. split; [by apply Hins|done].
      + intros p Hp. destruct (decide (p < end_ X)%Z).
        * right. exists X. split; [by apply Hins|]. split; [lia|done].
        * apply Hcov2. unfold N2. simpl. lia. }
  assert (HG1 : ∀ y, y ∈ a1 → (start y ≤ start N3)%Z).
  { intros y Hy. destruct Hcase as [[-> _]|(X & HX & Hc & ->)].
    - simpl. by apply H61.
    - simpl. apply coalescable_true in Hc as (Hc1 & Hc2 & Hc3). simpl in *.
      assert (HXin : X ∈ sp) by (rewrite HX, elem_of_app; right; by left).
      specialize (Hne1 y Hy). simpl in Hne1.
      destruct (H5 y X Hy HXin) as [[Hb _]|[Hb1 Hb2]]; [lia|].
      exfalso. specialize (H61 y Hy).
      assert (valno y = valno N) as Hvy.
      { apply (overlap_valno _ _ _ Hnc (Hin1 y Hy)); lia. }
      apply Hb2; [lia|]. by rewrite Hvy. }
  assert (HG2 : ∀ y, y ∈ a1 → (start N3 < end_ y)%Z → valno y = valno N3).
  { intros y Hy Hlt. destruct Hcase as [[-> _]|(X & HX & Hc & ->)].
    - simpl in *. apply (overlap_valno _ _ _ Hnc (Hin1 y Hy)); [|done].
      specialize (H61 y Hy). lia.
    - exfalso. simpl in *.
      assert (HXin : X ∈ sp) by (rewrite HX, elem_of_app; right; by left).
      specialize (HG1 y Hy). simpl in HG1.
      specialize (Hnes X HXin). simpl in Hnes.
      destruct (H5 y X Hy HXin) as [[Hb _]|[Hb _]]; lia. }
  assert (HK3 : ∀ b, b ∈ a2' → seg_before N3 b).
  { intros b Hb. destruct Hcase as [[-> _]|(X & HX & Hc & ->)].
    - by apply Hrest.
    - apply coalescable_true in Hc as (Hc1 & Hc2 & Hc3). simpl in *.
      assert (HXin : X ∈ sp) by (rewrite HX, elem_of_app; right; by left).
      assert (seg_before X b) as [Hx1 Hx2].
      { apply H4; [apply elem_of_app; by right|].
        by eapply subseteq_drop. }
      destruct (Hrest b Hb) as [Hn1 Hn2]. simpl in *.
      unfold seg_before. simpl. split; [lia|]. intros Heq.
      destruct (Z.max_spec (end_ X) e) as [[_ Hmx]|[_ Hmx]];
        rewrite Hmx in Heq; [by apply Hn2|].
      rewrite <- Hc3. by apply Hx2. }
  assert (Hle3 : (start N3 ≤ start N)%Z).
  { destruct Hcase as [[-> _]|(X & HX & Hc & ->)]; simpl; [lia|].
    apply H6s. rewrite HX, elem_of_app. right. by left. }
  clear Hcase Hcov Hrest.
  pose proof HN3 as (Hv3 & Hne3 & Hkey3 & Hcov3).
  assert (Hmem : ∀ a1' sp'' x,
            x ∈ pts (mkAreas a1' G2 a2' sp'') →
            x ∈ a1' ∨ x ∈ sp'' ∨ x ∈ a2).
  { intros a1' sp'' x. unfold pts. simpl. rewrite !elem_of_app.
    intros [?|[?|?]]; [by left|right; by left|right; right].
    by eapply subseteq_drop. }
  (* the segment before WriteI *)
  assert (Hw :
    ((if negb (length a1 =? 0) then
        w <- at_prev (a1 ++ G2 ++ a2') (length a1) ;;
        c <- coalescable w N3 ;;
        if c then Ok (Some (set_end w (Z.max (end_ w) (end_ N3))))
        else Ok None
      else Ok None) = Ok None
     ∧ ∀ y, y ∈ a1 → seg_before y N3)
    ∨ ∃ a1i w, a1 = a1i ++ [w] ∧ coalescable w N3 = Ok true
        ∧ (if negb (length a1 =? 0) then
             w <- at_prev (a1 ++ G2 ++ a2') (length a1) ;;
             c <- coalescable w N3 ;;
             if c then Ok (Some (set_end w (Z.max (end_ w) (end_ N3))))
             else Ok None
           else Ok None)
          = Ok (Some (set_end w (Z.max (end_ w) (end_ N3))))).
  { destruct a1 as [|w a1i _] using rev_ind.
    { left. split; [done|]. intros y Hy. by apply elem_of_nil in Hy. }
    assert (Hww : w ∈ a1i ++ [w]) by (apply elem_of_app; right; by left).
    rewrite (proj2 (Nat.eqb_neq _ _)) by (rewrite length_app; simpl; lia).
    cbn [negb].
    assert (Hat : at_prev ((a1i ++ [w]) ++ G2 ++ a2') (length (a1i ++ [w]))
                  = Ok w).
    { apply at_prev_Ok. exists (length a1i). split.
      - rewrite length_app. simpl. lia.
      - rewrite <- app_assoc. simpl. apply lookup_middle. }
    rewrite Hat. cbn [bind].
    destruct (coalescable_total w N3) as [c Hc];
      [by apply HG1|intros; by apply HG2|].
    rewrite Hc. cbn [bind]. destruct c.
    { right. by exists a1i, w. }
    left. split; [done|].
    apply coalescable_false in Hc as (Hc1 & Hc2).
    apply ordered_snoc in H1 as (_ & Hwne & Hbw). rewrite Forall_forall in Hbw.
    intros y Hy. apply elem_of_app in Hy as [Hy|Hy].
    - destruct (Hbw y Hy) as [Hy1 Hy2]. unfold seg_before. split; [lia|].
      intros Heq. rewrite <- (HG2 w Hww) by lia. apply Hy2. lia.
    - by apply list_elem_of_singleton in Hy as ->. }
  destruct Hw as [[-> Hall]|(a1i & w & -> & Hc & ->)]; cbn [bind].
  - destruct (place_spec lr L a1 G2 a2' sp' N3) as (s' & -> & Hshape).
    exists s', N3. splits; [done| |done|].
    + destruct Hshape as [[G3 ->]| ->].
      * by apply (UInv_append _ G2 _ _ _ _ Hut).
      * by apply (UInv_spill _ G2 _ _ _ _ Hut).
    + assert (Hx : ∀ x, x ∈ pts s' → x ∈ a1 ∨ x ∈ sp' ∨ x ∈ a2 ∨ x = N3).
      { intros x. destruct Hshape as [[G3 ->]| ->]; unfold pts; simpl;
          rewrite !elem_of_app, list_elem_of_singleton;
          (intros [Hx|[Hx|Hx]];
           [..|right; right; left; by eapply subseteq_drop]); tauto. }
      intros x Hxs. destruct (Hx x Hxs) as [?|[?|[?|?]]]; auto.
  - assert (Hww : w ∈ a1i ++ [w]) by (apply elem_of_app; right; by left).
    unfold write_at.
    rewrite (proj2 (Nat.ltb_lt _ _)) by (rewrite !length_app; simpl; lia).
    cbn [bind].
    set (w' := set_end w (Z.max (end_ w) (end_ N3))).
    exists (mkAreas (a1i ++ [w']) G2 a2' sp'), w'.
    pose proof Hc as (Hc1 & Hc2 & Hc3)%coalescable_true.
    splits.
    + unfold updater_of. simpl.
      replace (length (a1i ++ [w]) - 1) with (length a1i)
        by (rewrite length_app; simpl; lia).
      rewrite <- !app_assoc. simpl. rewrite insert_middle.
      rewrite !length_app. done.
    + by apply (UInv_coalesce _ _ G2 G2 _ _ _ _ Hut).
    + specialize (Hne1 w Hww). simpl in Hne1.
      unfold stands_for, w'. simpl. splits.
      * by rewrite Hc3.
      * lia.
      * right. exists w. split; [by apply Hin1|]. split; [done|].
        by rewrite Hc3.
      * intros p Hp. destruct (decide (p < end_ w)%Z).
        -- right. exists w. split; [by apply Hin1|]. split; [lia|].
           by rewrite Hc3.
        -- apply Hcov3. lia.
    + intros x Hx. apply Hmem in Hx as [Hx|[Hx|Hx]].
      * apply elem_of_app in Hx as [Hx|Hx].
        -- left. apply Hin1. apply elem_of_app. by left.
        -- right. by apply list_elem_of_singleton in Hx.
      * left. by apply Hins, Hsub.
      * left. by apply Hin2.
Qed.

Lemma stands_for_ext l l' N NEW :
  (∀ x, x ∈ l → x ∈ l') → stands_for l N NEW → stands_for l' N NEW.
Proof.
  intros Hsub (H1 & H2 & H3 & H4). unfold stands_for. splits; [done|done| |].
  - destruct H3 as [?|(y & Hy & ?)]; [by left|right].
    exists y. split; [by apply Hsub|done].
  - intros p Hp. destruct (H4 p Hp) as [?|(y & Hy & ?)]; [by left|right].
    exists y. split; [by apply Hsub|done].
Qed.

Lemma repr_updater_of lr L s :
  segmentSet lr = None →
  repr (updater_of lr L s)
    (with_segments lr (area1 s ++ gap s ++ area2 s)) s.
Proof. intros Hset. unfold repr, updater_of. simpl. by splits. Qed.

(** [add] from a prepared state on: the updater ends in a state that
    satisfies the invariants, and whose segments are the old ones and one
    that stands for [Seg]. *)
Lemma add_from_spec lr u s last Seg :
  repr u lr s → UInv s last → (last ≤ start Seg)%Z →
  (start Seg < end_ Seg)%Z → no_conflict (pts s) Seg →
  ∃ s',
    add_from lr u Seg = Ok (updater_of lr (start Seg) s')
    ∧ UInv s' (start Seg)
    ∧ (∀ x, x ∈ pts s' → x ∈ pts s ∨ stands_for (pts s) Seg x).
Proof.
  intros (HLR & Hset & Hsegs & HW & HR & HS) Hu Hlast HSeg Hnc.
  unfold add_from. rewrite Hsegs, HW, HR, HS.
  destruct (add_advance_spec s last Seg Hu)
    as (j & m & G' & Hadv & Hlen & Hall & Hhead).
  cbv zeta in Hadv, Hlen, Hhead. rewrite Hadv. cbn [bind]. clear Hadv.
  pose proof (advanced_UInv s last (start Seg) j m G' Hu Hlast Hall) as Hu1.
  assert (Hnc1 : no_conflict (pts (advanced s j m G')) Seg).
  { intros n Hn. apply Hnc. by apply advanced_elem in Hn. }
  rewrite <- Hlen. clear Hlen Hall.
  set (s1 := advanced s j m G') in *.
  enough (∃ s',
    (_ <- (if negb (length (area1 s1) + length (gap s1)
                    =? length (area1 s1 ++ gap s1 ++ area2 s1))
           then rd <- at_ (area1 s1 ++ gap s1 ++ area2 s1)
                        (length (area1 s1) + length (gap s1)) ;;
                check (start Seg <? end_ rd)%Z AssertionFailed
           else Ok ()) ;;
     rd <- (if negb (length (area1 s1) + length (gap s1)
                     =? length (area1 s1 ++ gap s1 ++ area2 s1))
            then rd <- at_ (area1 s1 ++ gap s1 ++ area2 s1)
                         (length (area1 s1) + length (gap s1)) ;;
                 if (start rd <=? start Seg)%Z then Ok (Some rd) else Ok None
            else Ok None) ;;
     match rd with
     | Some rd0 =>
       _ <- check (valno rd0 =? valno Seg) OverlapMismatch ;;
       if (end_ Seg <=? end_ rd0)%Z then
         Ok {| LR := Some (with_segments lr
                             (area1 s1 ++ gap s1 ++ area2 s1));
               LastStart := start Seg; WriteI := length (area1 s1);
               ReadI := length (area1 s1) + length (gap s1);
               Spills := spills s1 |}
       else add_insert lr (start Seg) (area1 s1 ++ gap s1 ++ area2 s1)
              (length (area1 s1)) (length (area1 s1) + length (gap s1) + 1)
              (spills s1) (set_start Seg (start rd0))
     | None =>
       add_insert lr (start Seg) (area1 s1 ++ gap s1 ++ area2 s1)
         (length (area1 s1)) (length (area1 s1) + length (gap s1))
         (spills s1) Seg
     end) = Ok (updater_of lr (start Seg) s')
    ∧ UInv s' (start Seg)
    ∧ (∀ x, x ∈ pts s' → x ∈ pts s1 ∨ stands_for (pts s1) Seg x))
    as (s' & Hres & Hu' & Hmem).
  { exists s'. splits; [exact Hres|done|].
    intros x Hx. destruct (Hmem x Hx) as [H|H].
    - left. by apply advanced_elem in H.
    - right. eapply stands_for_ext; [|done]. intros y.
      unfold s1. by rewrite advanced_elem. }
  clearbody s1. clear s Hu Hsegs HW HR HS Hnc. rename s1 into s.
  rename Hu1 into Hu. rename Hnc1 into Hnc.
  assert (Hback : ∀ s' : Areas,
    (∀ x, x ∈ pts s' → x ∈ pts s ∨ stands_for (pts s) Seg x) →
    ∀ x, x ∈ pts s' → x ∈ pts s ∨ stands_for (pts s) Seg x) by done.
  destruct s as [a1 G a2 sp]. simpl in *.
  pose proof Hu as (H1 & H2 & H3 & H4 & H5 & H6). simpl in *.
  destruct a2 as [|rd a2].
  { (* ReadI is at the end *)
    rewrite (proj2 (Nat.eqb_eq _ _)) by (rewrite !length_app; simpl; lia).
    cbn [negb bind].
    destruct (add_insert_spec lr (start Seg) (mkAreas a1 G [] sp) Seg)
      as (s' & NEW & Hadd & Hu' & Hst & Hmem); [done|done| |done|].
    { intros b Hb. by apply elem_of_nil in Hb. }
    simpl in Hadd. rewrite Hadd. exists s'. splits; [done|done|].
    apply Hback. intros x Hx. destruct (Hmem x Hx) as [?| ->]; auto. }
  rewrite (proj2 (Nat.eqb_neq _ _)) by (rewrite !length_app; simpl; lia).
  cbn [negb].
  assert (Hr : (a1 ++ G ++ rd :: a2) !! (length a1 + length G) = Some rd).
  { rewrite app_assoc. rewrite <- length_app. apply lookup_middle. }
  unfold at_. rewrite Hr. cbn [bind].
  specialize (Hhead rd eq_refl).
  rewrite (proj2 (Z.ltb_lt _ _) Hhead). cbn [check bind].
  pose proof (ordered_cons_before _ _ H3) as Hafter.
  rewrite Forall_forall in Hafter.
  pose proof H3 as (Hrdne & _).
  assert (Hrdin : rd ∈ pts (mkAreas a1 G (rd :: a2) sp)).
  { unfold pts. simpl. rewrite !elem_of_app. right. right. by left. }
  destruct (Z.leb_spec (start rd) (start Seg)) as [Hearly|Hlate].
  - (* the segment at ReadI begins early *)
    cbn [bind].
    assert (Hv : valno rd = valno Seg).
    { apply (overlap_valno _ _ _ Hnc Hrdin); lia. }
    rewrite (proj2 (Nat.eqb_eq _ _) Hv). cbn [check bind].
    destruct (Z.leb_spec (end_ Seg) (end_ rd)) as [Hin|Hout].
    { exists (mkAreas a1 G (rd :: a2) sp). splits; [done|done|].
      apply Hback. intros x Hx. by left. }
    set (N := set_start Seg (start rd)).
    destruct (add_insert_spec lr (start Seg)
                (mkAreas a1 (G ++ [rd]) a2 sp) N)
      as (s' & NEW & Hadd & Hu' & Hst & Hmem).
    + unfold UInv. simpl. splits; [done|done| | |done|].
      * by eapply ordered_cons_inv.
      * intros a b Ha Hb. apply H4; [done|]. by right.
      * intros a Ha.
        assert (seg_before a rd) as [Hb _] by (apply H4; [done|by left]).
        assert (start a < end_ a)%Z; [|lia].
        apply elem_of_app in Ha as [Ha|Ha].
        -- apply ordered_Forall in H1. rewrite Forall_forall in H1.
           by apply H1.
        -- apply ordered_Forall in H2. rewrite Forall_forall in H2.
           by apply H2.
    + simpl. lia.
    + simpl. intros b Hb. destruct (Hafter b Hb) as [? _]. lia.
    + intros n Hn Hne. simpl in *.
      assert (Hn' : n ∈ pts (mkAreas a1 G (rd :: a2) sp)).
      { unfold pts in *. simpl in *. rewrite !elem_of_app in *.
        destruct Hn as [?|[?|?]]; [by left|right; by left|].
        right. right. by right. }
      destruct (Hnc n Hn' Hne) as [Hb|Hb]; [|by right].
      left. unfold pts in Hn. simpl in Hn. rewrite app_assoc in Hn.
      apply elem_of_app in Hn as [Hn|Hn].
      * assert (seg_before n rd) as [? _] by (apply H4; [done|by left]).
        done.
      * exfalso. destruct (Hafter n Hn) as [? _].
        apply ordered_cons_inv in H3. apply ordered_Forall in H3.
        rewrite Forall_forall in H3. specialize (H3 n Hn). simpl in H3. lia.
    + simpl in Hadd.
      replace (a1 ++ G ++ rd :: a2) with (a1 ++ (G ++ [rd]) ++ a2)
        by (by rewrite <- !app_assoc).
      replace (length a1 + length G + 1)
        with (length a1 + length (G ++ [rd]))
        by (rewrite length_app; simpl; lia).
      exists s'. split; [exact Hadd|]. split.
      { eapply UInv_mono; [|done]. simpl. lia. }
      apply Hback.
      assert (Hsub : ∀ y, y ∈ pts (mkAreas a1 (G ++ [rd]) a2 sp) →
                          y ∈ pts (mkAreas a1 G (rd :: a2) sp)).
      { intros y. unfold pts. simpl. rewrite !elem_of_app.
        intros [?|[?|?]]; [by left|right; by left|].
        right. right. by right. }
      intros x Hx. destruct (Hmem x Hx) as [?| ->]; [left; by apply Hsub|].
      right. destruct Hst as (Hs1 & Hs2 & Hs3 & Hs4). simpl in *.
      unfold stands_for. splits; [done|done| |].
      * right. destruct Hs3 as [->|(y & Hy & ? & ?)].
        -- by exists rd.
        -- exists y. split; [by apply Hsub|done].
      * intros p Hp. destruct (Hs4 p Hp) as [Hp'|(y & Hy & ?)].
        -- destruct (decide (p < start Seg)%Z).
           ++ right. exists rd. split; [done|]. split; [lia|done].
           ++ left. lia.
        -- right. exists y. split; [by apply Hsub|done].
  - cbn [bind].
    destruct (add_insert_spec lr (start Seg) (mkAreas a1 G (rd :: a2) sp) Seg)
      as (s' & NEW & Hadd & Hu' & Hst & Hmem); [done|done| |done|].
    { simpl. intros b Hb. apply elem_of_cons in Hb as [->|Hb]; [lia|].
      destruct (Hafter b Hb) as [? _]. lia. }
    simpl in Hadd. rewrite Hadd. exists s'. splits; [done|done|].
    apply Hback. intros x Hx. destruct (Hmem x Hx) as [?| ->]; auto.
Qed.

Lemma consistent_no_conflict l S0 l' :
  consistent (l ++ S0 :: l') →
  (∀ n, n ∈ l → (start n < end_ n)%Z) → (start S0 < end_ S0)%Z →
  no_conflict l S0.
Proof.
  intros Hc Hne HS n Hn Hv. specialize (Hne n Hn).
  destruct (decide (end_ n ≤ start S0)%Z); [by left|].
  destruct (decide (end_ S0 ≤ start n)%Z); [by right|].
  exfalso. apply Hv.
  apply (Hc (Z.max (start n) (start S0))).
  - exists n. split; [apply elem_of_app; by left|]. split; [lia|done].
  - exists S0. split; [apply elem_of_app; right; by left|].
    split; [lia|done].
Qed.

Section add.
Variable A : Arena.
Variable vs : list VNPtr.

Lemma updater_ok_nonempty u lr s n :
  updater_ok A vs u lr s → n ∈ pts s → (start n < end_ n)%Z.
Proof.
  intros (_ & _ & _ & _ & Hst) Hn.
  destruct (isValid (LastStart u)).
  - destruct Hst as (_ & H1 & H2 & H3 & _).
    apply ordered_Forall in H1, H2, H3. rewrite Forall_forall in H1, H2, H3.
    unfold pts in Hn. rewrite !elem_of_app in Hn.
    destruct Hn as [?|[?|?]]; auto.
  - destruct Hst as (_ & -> & Ho). unfold pts in Hn. simpl in Hn.
    apply ordered_Forall in Ho.
    rewrite Forall_forall in Ho. by apply Ho.
Qed.

(** The head of [add] leaves a state the body of [add] can start from. *)
Lemma add_prepare_spec u lr s Seg :
  updater_ok A vs u lr s →
  ∃ u1 lr1 s1 last,
    add_prepare A u Seg = Ok u1 ∧ repr u1 lr1 s1 ∧ valnos lr1 = vs
    ∧ UInv s1 last ∧ (last ≤ start Seg)%Z
    ∧ (∀ x, x ∈ pts s1 ↔ x ∈ pts s).
Proof.
  intros (HLR & Hset & Hvs & Hwf & Hst). unfold add_prepare.
  destruct (isValid (LastStart u)) eqn:Hval.
  - destruct Hst as [Hrepr Hu]. cbn [negb orb].
    destruct (Z.ltb_spec (start Seg) (LastStart u)) as [Hlt|Hge].
    + unfold isDirty. rewrite Hval.
      rewrite (flush_dirty A vs u lr s) by done. cbn [bind Spills].
      simpl. eexists _, (with_segments lr (flushed s)),
               (mkAreas [] [] (flushed s) []), (start Seg).
      splits; [done| |done| |lia|].
      * unfold repr. simpl. by splits.
      * unfold UInv. simpl. splits; try done.
        -- by eapply flushed_ordered.
        -- intros a b Ha. by apply elem_of_nil in Ha.
        -- intros a x Ha. by apply elem_of_nil in Ha.
        -- intros a Ha. by apply elem_of_nil in Ha.
      * intros x. unfold pts at 1. simpl. apply flushed_elem.
    + exists u, lr, s, (LastStart u). by splits.
  - destruct Hst as (HS & -> & Ho). cbn [negb orb]. unfold isDirty.
    rewrite Hval. cbn [bind]. rewrite HS. simpl.
    eexists _, lr, (mkAreas [] [] (segments lr) []), (start Seg).
    splits; [done| |done| |lia|done].
    + unfold repr. simpl. by splits.
    + unfold UInv. simpl. splits; try done.
      * intros a b Ha. by apply elem_of_nil in Ha.
      * intros a x Ha. by apply elem_of_nil in Ha.
      * intros a Ha. by apply elem_of_nil in Ha.
Qed.

(** [add] on a range in vector form. *)
Lemma add_spec u lr s Seg :
  updater_ok A vs u lr s → seg_wf A vs Seg → (start Seg < end_ Seg)%Z →
  no_conflict (pts s) Seg →
  ∃ u' lr' s',
    add A u Seg = Ok u' ∧ updater_ok A vs u' lr' s'
    ∧ (∀ x, x ∈ pts s' → x ∈ pts s ∨ stands_for (pts s) Seg x).
Proof.
  intros Hok HwfS HSeg Hnc.
  destruct (add_prepare_spec u lr s Seg Hok)
    as (u1 & lr1 & s1 & last & Hprep & Hrepr & Hvs1 & Hu1 & Hlast & Hpts).
  destruct Hok as (HLR & Hset & Hvs & Hwf & Hst).
  unfold add. rewrite HLR.
  rewrite bool_decide_eq_false_2 by (intros H; by apply H).
  rewrite Hprep. cbn [bind].
  pose proof Hrepr as (HLR1 & Hset1 & _). rewrite HLR1.
  destruct (add_from_spec lr1 u1 s1 last Seg Hrepr Hu1 Hlast HSeg)
    as (s' & Hadd & Hu' & Hmem).
  { intros n Hn. apply Hnc. by apply Hpts. }
  rewrite Hadd.
  assert (Hmem' : ∀ x, x ∈ pts s' → x ∈ pts s ∨ stands_for (pts s) Seg x).
  { intros x Hx. destruct (Hmem x Hx) as [H|H].
    - left. by apply Hpts.
    - right. eapply stands_for_ext; [|done]. intros y. by apply Hpts. }
  exists (updater_of lr1 (start Seg) s'),
    (with_segments lr1 (area1 s' ++ gap s' ++ area2 s')), s'.
  split; [done|]. split; [|done].
  destruct HwfS as [HS0 HSv].
  unfold updater_ok. splits; [done|done|done| |].
  - rewrite Forall_forall in Hwf. apply Forall_forall. intros x Hx.
    destruct (Hmem' x Hx) as [H|(Hv & _ & Hkey & _)]; [by apply Hwf|].
    unfold seg_wf. rewrite Hv. split; [|done].
    destruct Hkey as [->|(y & Hy & -> & _)]; [done|].
    by destruct (Hwf y Hy).
  - simpl. unfold isValid. rewrite (proj2 (Z.leb_le _ _) HS0).
    split; [by apply repr_updater_of|done].
Qed.

(** Adding a list of segments. *)
Lemma add_all_spec l : ∀ u lr s,
  updater_ok A vs u lr s → Forall (seg_wf A vs) l →
  Forall (λ n, (start n < end_ n)%Z) l →
  consistent (pts s ++ l) →
  ∃ u' lr' s',
    add_all A u l = Ok u' ∧ updater_ok A vs u' lr' s'
    ∧ (∀ p v, live_at (pts s') p v → live_at (pts s ++ l) p v).
Proof.
  induction l as [|Seg l IH]; intros u lr s Hok Hwf Hne Hc.
  { exists u, lr, s. splits; [done|done|].
    intros p v. by rewrite app_nil_r. }
  apply Forall_cons in Hwf as [HwfS Hwf].
  apply Forall_cons in Hne as [HneS Hne].
  destruct (add_spec u lr s Seg Hok HwfS HneS)
    as (u1 & lr1 & s1 & Hadd & Hok1 & Hmem).
  { eapply consistent_no_conflict; [done| |done].
    intros n Hn. by eapply updater_ok_nonempty. }
  assert (Htrack : ∀ p v, live_at (pts s1 ++ l) p v →
                          live_at (pts s ++ Seg :: l) p v).
  { intros p v (x & Hx & Hp & Hv). apply elem_of_app in Hx as [Hx|Hx].
    - destruct (Hmem x Hx) as [H|(Hv' & _ & _ & Hcov)].
      + exists x. split; [apply elem_of_app; by left|done].
      + destruct (Hcov p Hp) as [Hin|(y & Hy & Hpy & Hvy)].
        * exists Seg. split; [apply elem_of_app; right; by left|].
          split; [done|]. by rewrite <- Hv, Hv'.
        * exists y. split; [apply elem_of_app; by left|].
          split; [done|]. by rewrite Hvy, <- Hv', Hv.
    - exists x. split; [|done]. apply elem_of_app. right. by right. }
  destruct (IH u1 lr1 s1 Hok1 Hwf Hne) as (u' & lr' & s' & Hall & Hok' & Hlive).
  { intros p v v' H1 H2. eapply Hc; by apply Htrack. }
  exists u', lr', s'. simpl. rewrite Hadd. cbn [bind].
  splits; [done|done|].
  intros p v Hl. apply Htrack. apply live_at_app.
  apply Hlive in Hl. by apply live_at_app in Hl.
Qed.

(** The flush that ends the work of an updater leaves a range that
    satisfies the invariants of the data model. *)
Lemma flush_spec u lr s :
  updater_ok A vs u lr s →
  Forall (λ p, ∃ v, deref A p = Ok v) vs →
  ∃ u' lr',
    flush A u = Ok u' ∧ LR u' = Some lr' ∧ LRInv A lr'
    ∧ valnos lr' = vs
    ∧ (∀ x, x ∈ segments lr' ↔ x ∈ pts s).
Proof.
  intros (HLR & Hset & Hvs & Hwf & Hst) Hh.
  destruct (isValid (LastStart u)) eqn:Hval.
  - destruct Hst as [Hrepr Hu].
    rewrite (flush_dirty A vs u lr s) by done.
    eexists _, (with_segments lr (flushed s)). split; [done|].
    split; [done|].
    assert (Hwf' : Forall (seg_wf A vs) (flushed s)).
    { rewrite Forall_forall in Hwf. apply Forall_forall. intros x Hx.
      apply Hwf. by apply flushed_elem. }
    splits; [|done|intros x; apply flushed_elem].
    constructor; simpl.
    + done.
    + by eapply flushed_ordered.
    + eapply Forall_impl; [exact Hwf'|]. by intros x [? _].
    + rewrite Hvs. eapply Forall_impl; [exact Hwf'|]. by intros x [_ ?].
    + by rewrite Hvs.
  - destruct Hst as (HS & -> & Ho). unfold flush, isDirty.
    rewrite Hval. cbn [negb]. exists u, lr.
    unfold pts in Hwf. simpl in Hwf.
    splits; [done|done| |done|].
    + constructor.
      * done.
      * done.
      * eapply Forall_impl; [exact Hwf|]. by intros x [? _].
      * rewrite Hvs. eapply Forall_impl; [exact Hwf|]. by intros x [_ ?].
      * by rewrite Hvs.
    + intros x. unfold pts. simpl. done.
Qed.
End add.

(** ** The renumbering loop of [join] *)

Lemma join_renumber_spec news : ∀ A vs k NumVals,
  length vs = Nat.max NumVals k →
  Forall (λ p, p ≠ nullptr → ∃ v, deref A p = Ok v) news →
  ∃ A' vs' k',
    join_renumber A vs NumVals k news = Ok (A', vs', k')
    ∧ length vs' = Nat.max NumVals k' ∧ k ≤ k' ≤ k + length news
    ∧ (∀ i, i < k → vs' !! i = vs !! i)
    ∧ (∀ i p, vs' !! i = Some p →
              vs !! i = Some p ∨ (p ∈ news ∧ p ≠ nullptr))
    ∧ (∀ q v, deref A q = Ok v →
              ∃ v', deref A' q = Ok v'
                    ∧ VNInfo.unused v' = VNInfo.unused v)
    ∧ (∀ p, p ∈ news → p ≠ nullptr →
            ∃ v', deref A' p = Ok v' ∧ k ≤ VNInfo.id v' < k'
                  ∧ vs' !! VNInfo.id v' = Some p)
    ∧ (∀ q, q ∉ news → deref A' q = deref A q).
Proof.
  induction news as [|p news IH]; intros A vs k NumVals Hlen Hh.
  { exists A, vs, k. simpl. splits; try done; try lia.
    - intros i q Hq. by left.
    - intros q v Hq. by exists v.
    - intros q Hq. by apply elem_of_nil in Hq. }
  apply Forall_cons in Hh as [Hp Hh]. simpl.
  destruct (Nat.eqb_spec p nullptr) as [->|Hne]; cbn [negb].
  { destruct (IH A vs k NumVals Hlen Hh)
      as (A' & vs' & k' & Hrun & Hlen' & Hk & Hlow & Hent & Hder & Hnew
          & Hfr).
    exists A', vs', k'. splits; try done; try lia.
    - intros i q Hq. destruct (Hent i q Hq) as [?|[? ?]]; [by left|right].
      split; [by right|done].
    - intros q Hq Hqn. apply elem_of_cons in Hq as [->|Hq]; [done|].
      by apply Hnew.
    - intros q Hq. apply Hfr. intros Hin. apply Hq. by right. }
  destruct (Hp Hne) as [v Hv].
  set (vs1 := if NumVals <=? k then vs ++ [p] else <[k := p]> vs).
  assert (Hvs1 : (if NumVals <=? k then Ok (vs ++ [p]) else write_at vs k p)
                 = Ok vs1).
  { unfold vs1. destruct (Nat.leb_spec NumVals k); [done|].
    unfold write_at. by rewrite (proj2 (Nat.ltb_lt _ _)) by lia. }
  rewrite Hvs1, Hv. cbn [bind].
  assert (Hlen1 : length vs1 = Nat.max NumVals (k + 1)).
  { unfold vs1. destruct (Nat.leb_spec NumVals k).
    - rewrite length_app. simpl. lia.
    - rewrite length_insert. lia. }
  assert (Hk1 : vs1 !! k = Some p).
  { unfold vs1. destruct (Nat.leb_spec NumVals k).
    - replace k with (length vs) by lia. apply lookup_middle.
    - apply list_lookup_insert_eq. lia. }
  assert (Hlow1 : ∀ i, i ≠ k → vs1 !! i = Some p ∨ vs1 !! i = vs !! i
                        ∨ (vs1 !! i = None ∧ True)).
  { intros i Hi. right. unfold vs1. destruct (Nat.leb_spec NumVals k).
    - destruct (decide (i < length vs)).
      + left. by apply lookup_app_l.
      + right. split; [|done]. apply lookup_ge_None.
        rewrite length_app. simpl. lia.
    - left. by apply list_lookup_insert_ne. }
  set (A1 := store A p (VNInfo.set_id v k)).
  destruct (IH A1 vs1 (k + 1) NumVals Hlen1)
    as (A' & vs' & k' & Hrun & Hlen' & Hk & Hlow & Hent & Hder & Hnew & Hfr).
  { eapply Forall_impl; [exact Hh|]. intros q Hq Hqn.
    destruct (Hq Hqn) as [w Hw]. unfold A1.
    rewrite (deref_store _ _ _ _ _ Hv). case_decide; by eexists. }
  exists A', vs', k'. rewrite Hrun. splits; try done; try lia.
  - intros i Hi. rewrite Hlow by lia.
    destruct (Hlow1 i ltac:(lia)) as [H|[H|[H _]]]; [|done|].
    + unfold vs1 in *. destruct (Nat.leb_spec NumVals k).
      * by rewrite lookup_app_l by lia.
      * by rewrite list_lookup_insert_ne by lia.
    + unfold vs1 in *. destruct (Nat.leb_spec NumVals k).
      * apply lookup_ge_None in H. rewrite length_app in H. simpl in H. lia.
      * by rewrite list_lookup_insert_ne by lia.
  - intros i q Hq. destruct (Hent i q Hq) as [H|[H1 H2]].
    + destruct (decide (i = k)) as [->|Hik].
      * rewrite Hk1 in H. injection H as <-. right. split; [by left|done].
      * left. unfold vs1 in H. destruct (Nat.leb_spec NumVals k).
        -- apply lookup_app_Some in H as [H|[H1 H2]]; [done|].
           apply list_lookup_singleton_Some in H2 as [H2 _]. lia.
        -- by rewrite list_lookup_insert_ne in H by lia.
    + right. split; [by right|done].
  - intros q w Hq.
    assert (∃ w1, deref A1 q = Ok w1
                  ∧ VNInfo.unused w1 = VNInfo.unused w) as (w1 & Hw1 & Hu1).
    { unfold A1. rewrite (deref_store _ _ _ _ _ Hv). case_decide as Hd.
      - subst q. rewrite Hv in Hq. injection Hq as <-. by eexists.
      - by exists w. }
    destruct (Hder q w1 Hw1) as (w' & Hw' & Hu'). exists w'.
    split; [done|congruence].
  - intros q Hq Hqn. apply elem_of_cons in Hq as [->|Hq].
    + destruct (decide (p ∈ news)) as [Hin|Hout].
      * destruct (Hnew p Hin Hne) as (v' & ? & ? & ?). exists v'.
        splits; [done|lia|lia|done].
      * assert (deref A1 p = Ok (VNInfo.set_id v k)) as Hp1.
        { unfold A1. by eapply deref_store_eq. }
        exists (VNInfo.set_id v k). rewrite (Hfr p Hout). simpl.
        splits; [done|lia|lia|].
        rewrite Hlow by lia. done.
    + destruct (Hnew q Hq Hqn) as (v' & ? & ? & ?). exists v'.
      splits; [done|lia|lia|done].
  - intros q Hq. rewrite Hfr by (intros Hin; apply Hq; by right).
    unfold A1. apply deref_store_ne. intros ->. apply Hq. by left.
Qed.

(** ** The value mapping of [join] *)

Lemma value_map_lookup A Asg New V :
  value_map A Asg New V ≠ nullptr →
  join_lookup A Asg New V = Ok (value_map A Asg New V).
Proof. unfold value_map. by destruct (join_lookup A Asg New V). Qed.

Lemma join_map_other_spec A RHS New segs :
  (∀ s, s ∈ segs → value_map A RHS New (valno s) ≠ nullptr) →
  join_map_other A RHS New segs = Ok (map (remap (value_map A RHS New)) segs).
Proof.
  induction segs as [|s segs IH]; intros Hnn; [done|]. simpl.
  rewrite value_map_lookup by (apply Hnn; by left). cbn [bind].
  rewrite IH by (intros x Hx; apply Hnn; by right). done.
Qed.

Lemma coalesce_map_head f rest : ∀ o,
  ∃ e tl, coalesce_map f o rest = set_end o e :: tl.
Proof.
  induction rest as [|s rest IH]; intros o; cbn [coalesce_map].
  - exists (end_ o), []. by destruct o.
  - destruct ((valno o =? f (valno s)) && (end_ o =? start s)%Z).
    + destruct (IH (set_end o (end_ s))) as (e & tl & ->). by exists e, tl.
    + eexists (end_ o), _. by destruct o.
Qed.

Lemma coalesce_map_ordered f rest : ∀ o,
  (start o < end_ o)%Z → ordered rest →
  (∀ b, head rest = Some b → (end_ o ≤ start b)%Z) →
  ordered (coalesce_map f o rest).
Proof.
  induction rest as [|s rest IH]; intros o Ho Hr Hh; simpl; [done|].
  specialize (Hh s eq_refl).
  pose proof Hr as (Hs & _).
  assert (Hnext : ∀ b, head rest = Some b → (end_ s ≤ start b)%Z).
  { intros b Hb. destruct rest as [|r rest]; [done|]. injection Hb as ->.
    by destruct Hr as (_ & [? _] & _). }
  destruct ((valno o =? f (valno s)) && (end_ o =? start s)%Z) eqn:Htest.
  - apply IH; [simpl; lia|by eapply ordered_cons_inv|done].
  - apply ordered_cons; [done| |].
    + apply IH; [done|by eapply ordered_cons_inv|done].
    + intros n Hn.
      destruct (coalesce_map_head f rest
                  (mkSegment (start s) (end_ s) (f (valno s))))
        as (e & tl & Heq).
      rewrite Heq in Hn. injection Hn as <-. unfold seg_before. simpl.
      split; [done|]. intros Heq' Hv.
      apply andb_false_iff in Htest as [Ht|Ht].
      * apply Nat.eqb_neq in Ht. done.
      * apply Z.eqb_neq in Ht. done.
Qed.

Lemma coalesce_map_elem f rest : ∀ o x,
  x ∈ coalesce_map f o rest →
  (start x = start o ∧ valno x = valno o)
  ∨ ∃ s, s ∈ rest ∧ start x = start s ∧ valno x = f (valno s).
Proof.
  induction rest as [|s rest IH]; intros o x Hx; simpl in Hx.
  - apply list_elem_of_singleton in Hx as ->. by left.
  - destruct ((valno o =? f (valno s)) && (end_ o =? start s)%Z).
    + destruct (IH _ _ Hx) as [?|(y & Hy & ?)]; [by left|right].
      exists y. split; [by right|done].
    + apply elem_of_cons in Hx as [->|Hx]; [by left|].
      right. destruct (IH _ _ Hx) as [[? ?]|(y & Hy & ?)].
      * exists s. split; [by left|done].
      * exists y. split; [by right|done].
Qed.

Lemma coalesce_map_live f rest : ∀ o p v,
  live_at (coalesce_map f o rest) p v →
  live_at (o :: map (remap f) rest) p v.
Proof.
  induction rest as [|s rest IH]; intros o p v Hl; simpl in Hl; [done|].
  destruct ((valno o =? f (valno s)) && (end_ o =? start s)%Z) eqn:Htest.
  - apply andb_true_iff in Htest as [Ht1 Ht2].
    apply Nat.eqb_eq in Ht1. apply Z.eqb_eq in Ht2.
    apply IH in Hl. destruct Hl as (x & Hx & Hp & Hv).
    apply elem_of_cons in Hx as [->|Hx].
    + simpl in *. destruct (decide (p < end_ o)%Z).
      * exists o. split; [by left|]. split; [lia|done].
      * exists (remap f s). split; [right; by left|]. simpl.
        split; [lia|]. by rewrite <- Ht1.
    + exists x. split; [|done]. right. simpl. by right.
  - destruct Hl as (x & Hx & Hp & Hv).
    apply elem_of_cons in Hx as [->|Hx].
    + exists o. split; [by left|done].
    + destruct (IH (mkSegment (start s) (end_ s) (f (valno s))) p v)
        as (y & Hy & Hpy & Hvy).
      { by exists x. }
      apply elem_of_cons in Hy as [->|Hy].
      * exists (remap f s). split; [right; by left|done].
      * exists y. split; [|done]. right. simpl. by right.
Qed.

(** The loop of the in-place rewrite: [out] and [o] are the segments
    written so far, [junk] the segments between [OutIt + 1] and [I]. *)
Lemma join_map_loop_spec A LHS New rest : ∀ out o junk,
  let f := value_map A LHS New in
  (∀ s, s ∈ rest → f (valno s) ≠ nullptr) →
  ∃ junk',
    join_map_loop A LHS New (out ++ o :: junk ++ rest) (length out) rest
      (length out + 1 + length junk)
    = Ok (out ++ coalesce_map f o rest ++ junk',
          length out + length (coalesce_map f o rest) - 1).
Proof.
  induction rest as [|s rest IH]; intros out o junk f Hnn.
  { exists junk. simpl. rewrite app_nil_r. do 3 f_equal. lia. }
  cbn [join_map_loop coalesce_map].
  rewrite value_map_lookup by (apply Hnn; by left). cbn [bind]. fold f.
  rewrite (proj2 (Nat.eqb_neq _ _) (Hnn s ltac:(by left))).
  cbn [negb check bind].
  assert (Ho : (out ++ o :: junk ++ s :: rest) !! length out = Some o)
    by apply lookup_middle.
  unfold at_ at 1. rewrite Ho. cbn [bind].
  destruct ((valno o =? f (valno s)) && (end_ o =? start s)%Z) eqn:Htest.
  - rewrite insert_middle.
    destruct (IH out (set_end o (end_ s)) (junk ++ [s]))
      as [junk' Hrun].
    { intros x Hx. apply Hnn. by right. }
    rewrite <- app_assoc in Hrun. simpl in Hrun.
    rewrite length_app in Hrun. simpl in Hrun.
    replace (length out + 1 + length junk + 1)
      with (length out + 1 + (length junk + 1)) by lia.
    exists junk'. exact Hrun.
  - set (o2 := mkSegment (start s) (end_ s) (f (valno s))).
    destruct junk as [|j junk].
    + simpl app.
      assert (Hs : (out ++ o :: s :: rest) !! (length out + 1) = Some s).
      { replace (out ++ o :: s :: rest) with ((out ++ [o]) ++ s :: rest)
          by (by rewrite <- app_assoc).
        replace (length out + 1) with (length (out ++ [o]))
          by (rewrite length_app; simpl; lia).
        apply lookup_middle. }
      unfold at_. rewrite Hs. cbn [bind]. simpl length.
      rewrite Nat.add_0_r, Nat.eqb_refl. cbn [negb].
      replace (<[length out + 1 := set_valno s (f (valno s))]>
                 (out ++ o :: s :: rest))
        with ((out ++ [o]) ++ o2 :: [] ++ rest).
      2:{ replace (out ++ o :: s :: rest) with ((out ++ [o]) ++ s :: rest)
            by (by rewrite <- app_assoc).
          replace (length out + 1) with (length (out ++ [o]))
            by (rewrite length_app; simpl; lia).
          by rewrite insert_middle. }
      destruct (IH (out ++ [o]) o2 []) as [junk' Hrun].
      { intros x Hx. apply Hnn. by right. }
      rewrite length_app in Hrun. simpl in Hrun.
      rewrite Nat.add_0_r in Hrun. fold f in Hrun.
      simpl app. simpl in Hrun. rewrite Hrun. exists junk'.
      rewrite <- !app_assoc. simpl. do 3 f_equal. lia.
    + assert (Hj : (out ++ o :: (j :: junk) ++ s :: rest)
                     !! (length out + 1) = Some j).
      { replace (out ++ o :: (j :: junk) ++ s :: rest)
          with ((out ++ [o]) ++ j :: (junk ++ s :: rest))
          by (by rewrite <- app_assoc).
        replace (length out + 1) with (length (out ++ [o]))
          by (rewrite length_app; simpl; lia).
        apply lookup_middle. }
      unfold at_. rewrite Hj. cbn [bind].
      rewrite (proj2 (Nat.eqb_neq _ _)) by (simpl; lia). cbn [negb].
      replace (<[length out + 1 :=
                   set_end (set_start (set_valno j (f (valno s))) (start s))
                     (end_ s)]>
                 (out ++ o :: (j :: junk) ++ s :: rest))
        with ((out ++ [o]) ++ o2 :: (junk ++ [s]) ++ rest).
      2:{ replace (out ++ o :: (j :: junk) ++ s :: rest)
            with ((out ++ [o]) ++ j :: (junk ++ s :: rest))
            by (by rewrite <- app_assoc).
          replace (length out + 1) with (length (out ++ [o]))
            by (rewrite length_app; simpl; lia).
          rewrite insert_middle. by rewrite <- !app_assoc. }
      destruct (IH (out ++ [o]) o2 (junk ++ [s])) as [junk' Hrun].
      { intros x Hx. apply Hnn. by right. }
      rewrite !length_app in Hrun. simpl in Hrun. fold f in Hrun.
      replace (length out + 1 + length (j :: junk) + 1)
        with (length out + 1 + 1 + (length junk + 1)) by (simpl; lia).
      rewrite Hrun. exists junk'.
      rewrite <- !app_assoc. simpl. do 3 f_equal. lia.
Qed.

Lemma join_map_spec A LHS New s0 rest :
  let f := value_map A LHS New in
  (∀ s, s ∈ s0 :: rest → f (valno s) ≠ nullptr) →
  join_map A LHS New (s0 :: rest) = Ok (coalesce_map f (remap f s0) rest).
Proof.
  intros f Hnn. unfold join_map.
  rewrite value_map_lookup by (apply Hnn; by left). cbn [bind]. fold f.
  destruct (join_map_loop_spec A LHS New rest [] (remap f s0) [])
    as [junk' Hrun].
  { intros x Hx. apply Hnn. by right. }
  simpl in Hrun. simpl. fold f in Hrun. unfold remap in Hrun. simpl in Hrun.
  rewrite Hrun. cbn [bind]. f_equal. unfold erase.
  destruct (coalesce_map_head f rest (remap f s0)) as (e & tl & Heq).
  unfold remap in Heq. simpl in Heq. rewrite Heq. simpl.
  rewrite Nat.sub_0_r.
  replace (length tl + 1) with (S (length tl)) by lia. simpl.
  rewrite take_app_length. rewrite drop_all. by rewrite app_nil_r.
Qed.

(** ** [LiveRange::join] *)

Lemma join_must_map_spec LHS New vs : ∀ i,
  (∀ k, k < length vs →
        ∃ z, LHS !! (i + k) = Some z ∧ (0 ≤ z < Z.of_nat (length New))%Z) →
  (Z.of_nat (length New) < 2 ^ 31)%Z →
  ∃ b, join_must_map LHS New vs i = Ok b
       ∧ (b = false → ∀ k vi, vs !! k = Some vi →
            LHS !! (i + k) = Some (Z.of_nat (i + k))
            ∧ ∃ n, New !! (i + k) = Some n ∧ (n = nullptr ∨ n = vi)).
Proof.
  induction vs as [|vi vs IH]; intros i Hz HN.
  { exists false. split; [done|]. intros _ k v Hk. done. }
  cbn [join_must_map].
  destruct (Hz 0 ltac:(simpl; lia)) as (z & Hzi & Hzr).
  rewrite Nat.add_0_r in Hzi. unfold at_ at 1. rewrite Hzi. cbn [bind].
  rewrite Z.mod_small by lia.
  destruct (Z.eqb_spec (Z.of_nat i) z) as [<-|Hne]; cbn [negb];
    [|by exists true].
  assert (i < length New) as Hi by lia.
  destruct (lookup_lt_is_Some_2 New i Hi) as [n Hn].
  unfold at_Z. rewrite (proj2 (Z.ltb_ge _ _)) by lia.
  rewrite Nat2Z.id. unfold at_. rewrite Hn. cbn [bind].
  destruct (negb (n =? nullptr) && negb (n =? vi)) eqn:Htest;
    [by exists true|].
  destruct (IH (i + 1)) as (b & Hrun & Hb); [|done|].
  { intros k Hk. replace (i + 1 + k) with (i + S k) by lia.
    apply Hz. simpl. lia. }
  exists b. split; [done|]. intros -> k v Hk.
  destruct k as [|k].
  - injection Hk as <-. rewrite Nat.add_0_r. split; [done|].
    exists n. split; [done|].
    apply andb_false_iff in Htest as [Ht|Ht]; apply negb_false_iff in Ht;
      apply Nat.eqb_eq in Ht; auto.
  - replace (i + S k) with (i + 1 + k) by lia. by apply Hb.
Qed.

Lemma value_map_elem A Asg New V :
  value_map A Asg New V ≠ nullptr → value_map A Asg New V ∈ New.
Proof.
  intros Hnn. pose proof (value_map_lookup _ _ _ _ Hnn) as Hl.
  unfold join_lookup in Hl. inv_res. unfold at_Z in *.
  destruct (_ <? 0)%Z; [done|]. apply at_Ok in Hl.
  by eapply list_elem_of_lookup_2.
Qed.

Lemma join_inv A lr Other LHS RHS New :
  join_pre A lr Other LHS RHS New →
  ∃ A' lr' Other',
    join A lr Other LHS RHS New = Ok (A', lr', Other') ∧ LRInv A' lr'.
Proof.
  intros (Hinv & HO & HlenL & HL & HN & HNew & HmapL & HmapR & Hcons).
  set (fL := value_map A LHS New) in *.
  set (fR := value_map A RHS New) in *.
  unfold join.
  rewrite (proj2 (verify_Ok A lr tt) (LRInv_verified _ _ Hinv)).
  cbn [bind].
  (* the scan for mapped values *)
  destruct (join_must_map_spec LHS New (valnos lr) 0) as (b & -> & Hb);
    [|done|].
  { intros k Hk. simpl. destruct (lookup_lt_is_Some_2 LHS k) as [z Hz];
      [lia|]. exists z. split; [done|].
    rewrite Forall_forall in HL. apply HL.
    by eapply list_elem_of_lookup_2. }
  cbn [bind].
  (* the rewrite of the range's own segments *)
  assert (Hsegs : ∃ segs',
    (if b && negb (length (segments lr) =? 0)
     then join_map A LHS New (segments lr) else Ok (segments lr)) = Ok segs'
    ∧ ordered segs'
    ∧ (∀ x, x ∈ segs' → ∃ s, s ∈ segments lr ∧ start x = start s
                             ∧ valno x = fL (valno s))
    ∧ (∀ p v, live_at segs' p v →
              live_at (map (remap fL) (segments lr)) p v)).
  { pose proof (inv_ordered _ _ Hinv) as Ho.
    assert (Hsame : b = false → ∀ s, s ∈ segments lr → fL (valno s) = valno s).
    { intros -> s Hs. specialize (Hb eq_refl).
      pose proof (inv_table _ _ Hinv) as Ht. rewrite Forall_forall in Ht.
      destruct (Ht s Hs) as (v & Hv & Hid & _).
      destruct (Hb _ _ Hid) as (Hz & n & Hn & Hnv). simpl in Hz, Hn.
      assert (fL (valno s) = n) as Hf.
      { unfold fL, value_map, join_lookup. rewrite Hv. cbn [bind].
        unfold at_ at 1. rewrite Hz. cbn [bind]. unfold at_Z.
        rewrite (proj2 (Z.ltb_ge _ _)) by lia. rewrite Nat2Z.id.
        unfold at_. by rewrite Hn. }
      specialize (HmapL s Hs). rewrite Hf in *.
      by destruct Hnv as [->| ->]. }
    assert (Hid : (∀ s, s ∈ segments lr → fL (valno s) = valno s) →
      ordered (segments lr)
      ∧ (∀ x, x ∈ segments lr → ∃ s, s ∈ segments lr ∧ start x = start s
                                     ∧ valno x = fL (valno s))
      ∧ (∀ p v, live_at (segments lr) p v →
                live_at (map (remap fL) (segments lr)) p v)).
    { intros Hs. splits; [done| |].
      - intros x Hx. exists x. by rewrite Hs.
      - intros p v (x & Hx & Hp & Hv). exists (remap fL x).
        split; [by apply list_elem_of_fmap_2|]. simpl. by rewrite Hs. }
    destruct b; cbn [andb]; [|exists (segments lr); split; [done|]; auto].
    destruct (segments lr) as [|s0 rest] eqn:Hsg.
    { exists []. simpl. splits; try done.
      intros x Hx. by apply elem_of_nil in Hx. }
    cbn [length Nat.eqb negb].
    rewrite join_map_spec by done. fold fL.
    eexists. split; [done|]. splits.
    - pose proof Ho as (Hs0 & _).
      apply coalesce_map_ordered; [done|by eapply ordered_cons_inv|].
      intros n Hn. simpl. destruct rest as [|r rest]; [done|].
      injection Hn as ->. by destruct Ho as (_ & [? _] & _).
    - intros x Hx. apply coalesce_map_elem in Hx as [[? ?]|(y & Hy & ?)].
      + exists s0. split; [by left|done].
      + exists y. split; [by right|done].
    - intros p v Hl. by apply coalesce_map_live in Hl. }
  destruct Hsegs as (segs' & -> & Hord & Hel & Hlive). cbn [bind].
  rewrite join_map_other_spec by done. fold fR. cbn [bind].
  set (osegs := map (remap fR) (segments Other)).
  (* the new value table *)
  destruct (join_renumber_spec New A (valnos lr) 0 (length (valnos lr)))
    as (A' & vs' & k' & -> & Hlen' & Hk' & _ & Hent & Hder & Hnew & _).
  { lia. }
  { eapply Forall_impl; [exact HNew|]. intros p Hp Hpn.
    destruct (Hp Hpn) as (v & ? & _). by exists v. }
  cbn [bind].
  set (vs'' := if length New <? length (valnos lr)
               then take (length New) vs' else vs').
  assert (Hlook : ∀ i p, i < k' → vs' !! i = Some p → vs'' !! i = Some p).
  { intros i p Hi Hp. unfold vs''. destruct (_ <? _); [|done].
    rewrite lookup_take_lt by lia. done. }
  assert (Hvlive : ∀ p, p ∈ New → p ≠ nullptr → vn_live A' vs'' p).
  { intros p Hp Hpn. destruct (Hnew p Hp Hpn) as (v' & Hv' & Hid & Hvs).
    exists v'. splits; [done|by apply Hlook; [lia|]|].
    rewrite Forall_forall in HNew. destruct (HNew p Hp Hpn) as (v & Hv & Hu).
    destruct (Hder p v Hv) as (w & Hw & Huw). congruence. }
  assert (Hhandles : Forall (λ p, ∃ v, deref A' p = Ok v) vs'').
  { apply Forall_forall. intros p Hp.
    assert (p ∈ vs') as Hp'.
    { unfold vs'' in Hp. destruct (_ <? _); [|done].
      by eapply subseteq_take. }
    apply list_elem_of_lookup_1 in Hp' as [i Hi].
    destruct (Hent i p Hi) as [Hold|[Hin Hnn]].
    - pose proof (inv_handles _ _ Hinv) as Hh. rewrite Forall_forall in Hh.
      destruct (Hh p) as [v Hv]; [by eapply list_elem_of_lookup_2|].
      destruct (Hder p v Hv) as (w & ? & _). by exists w.
    - destruct (Hnew p Hin Hnn) as (v' & ? & _). by exists v'. }
  set (lr' := with_valnos (with_segments lr segs') vs'').
  (* the segments of Other are added *)
  destruct (add_all_spec A' vs'' osegs (LiveRangeUpdater_new (Some lr')) lr'
              (mkAreas [] [] segs' []))
    as (u & lr1 & s1 & -> & Hok & _).
  { unfold updater_ok. simpl. splits; [done|by destruct Hinv|done| |done..].
    unfold pts. simpl. apply Forall_forall. intros x Hx.
    destruct (Hel x Hx) as (s & Hs & Hst & Hv). split.
    - rewrite Hst. pose proof (inv_valid _ _ Hinv) as Hval.
      rewrite Forall_forall in Hval. by apply Hval.
    - rewrite Hv. apply Hvlive; [|by apply HmapL].
      apply value_map_elem. by apply HmapL. }
  { apply Forall_forall. intros x Hx. unfold osegs in Hx.
    apply list_elem_of_fmap in Hx as (s & -> & Hs). split.
    - simpl. rewrite Forall_forall in HO. specialize (HO s Hs). simpl in HO.
      lia.
    - simpl. apply Hvlive; [|by apply HmapR].
      apply value_map_elem. by apply HmapR. }
  { apply Forall_forall. intros x Hx. unfold osegs in Hx.
    apply list_elem_of_fmap in Hx as (s & -> & Hs). simpl.
    rewrite Forall_forall in HO. specialize (HO s Hs). simpl in HO. lia. }
  { unfold pts. simpl. intros p v v' H1 H2.
    apply (Hcons p); apply live_at_app.
    - apply live_at_app in H1 as [H1|H1]; [left; by apply Hlive|by right].
    - apply live_at_app in H2 as [H2|H2]; [left; by apply Hlive|by right]. }
  cbn [bind].
  (* the flush of the updater *)
  destruct (flush_spec A' vs'' u lr1 s1 Hok Hhandles)
    as (u' & lr'' & -> & HLR & Hres & _).
  cbn [bind]. rewrite HLR. by eexists _, _, _.
Qed.

(** * The claims *)

(** Goals about a list that is written out. *)
Ltac forall_list :=
  repeat match goal with
         | |- Forall _ [] => constructor
         | |- Forall _ (_ :: _) => constructor
         end; simpl.

(** ** The public mutations of a live range *)

(** C1, as amended: every public mutation of a live range (createDeadDef,
    addSegment, extendInBlock, removeSegment, removeValNo,
    MergeValueNumberInto, RenumberValues, and join with the flush of its
    updater), called within its precondition on a range in vector form
    that satisfies the invariants of the data model, returns, and the
    range it leaves satisfies the invariants: the segments are not empty,
    each ends at or before the start of the next, touching segments have
    different values, and the value of every segment is the entry of the
    value table at its id and is not flagged unused. *)
Theorem mutation_preserves_invariants A lr m :
  LRInv A lr → mutation_pre A lr m →
  ∃ A' lr', apply_mutation A lr m = Ok (A', lr') ∧ LRInv A' lr'.
Proof.
  intros Hinv Hpre. destruct m; simpl in Hpre; simpl apply_mutation.
  - destruct (createDeadDef_inv A lr Def Hinv Hpre) as (A' & lr' & v & -> & ?).
    by exists A', lr'.
  - destruct (addSegment_inv A lr S0 Hinv Hpre) as (lr' & I & -> & ?).
    by exists A, lr'.
  - destruct (extendInBlock_inv A lr StartIdx Use Hinv) as (lr' & v & -> & ?).
    by exists A, lr'.
  - destruct (removeSegment_inv A lr Start End RemoveDeadValNo Hinv Hpre)
      as (A' & lr' & -> & ?).
    by exists A', lr'.
  - destruct (removeValNo_inv A lr ValNo Hinv Hpre) as (A' & lr' & -> & ?).
    by exists A', lr'.
  - destruct (MergeValueNumberInto_inv A lr V1 V2 Hinv Hpre)
      as (A' & lr' & W & -> & ?).
    by exists A', lr'.
  - destruct (RenumberValues_inv A lr Hinv) as (A' & lr' & -> & ? & _).
    by exists A', lr'.
  - destruct (join_inv A lr Other LHSValNoAssignments RHSValNoAssignments
                NewVNInfo Hpre) as (A' & lr' & Other' & -> & ?).
    by exists A', lr'.
Qed.

(** The theorem holds of a join of two touching ranges. *)
Lemma mutation_preserves_invariants_witness :
  LRInv join_arena join_lhs
  ∧ mutation_pre join_arena join_lhs (MJoin join_rhs [0%Z] [0%Z] [1])
  ∧ ∃ A' lr',
      apply_mutation join_arena join_lhs (MJoin join_rhs [0%Z] [0%Z] [1])
      = Ok (A', lr')
      ∧ LRInv A' lr'.
Proof.
  assert (Hinv : LRInv join_arena join_lhs).
  { constructor; simpl.
    - reflexivity.
    - repeat split; lia.
    - forall_list. lia.
    - forall_list. eexists. split; [reflexivity|]. split; reflexivity.
    - forall_list. eexists. reflexivity. }
  assert (Hpre : mutation_pre join_arena join_lhs
                   (MJoin join_rhs [0%Z] [0%Z] [1])).
  { simpl. unfold join_pre. simpl.
    split; [exact Hinv|].
    split; [forall_list; lia|].
    split; [reflexivity|].
    split; [forall_list; lia|].
    split; [lia|].
    split; [forall_list; intros _; eexists; split; reflexivity|].
    split; [intros s Hs; apply list_elem_of_singleton in Hs as ->;
            vm_compute; discriminate|].
    split; [intros s Hs; apply list_elem_of_singleton in Hs as ->;
            vm_compute; discriminate|].
    intros p v v' (x & Hx & _ & <-) (y & Hy & _ & <-).
    apply elem_of_cons in Hx as [->|Hx];
      [|apply list_elem_of_singleton in Hx as ->];
      (apply elem_of_cons in Hy as [->|Hy];
       [|apply list_elem_of_singleton in Hy as ->]); reflexivity. }
  split; [exact Hinv|]. split; [exact Hpre|].
  exact (mutation_preserves_invariants join_arena join_lhs
           (MJoin join_rhs [0%Z] [0%Z] [1]) Hinv Hpre).
Defined.

(** C1, as the claim states it, fails: on the range [0,9) [10,12) of one
    value defined at 10, which satisfies the invariants, createDeadDef at
    the slot 9 of the same instruction moves the start of the second
    segment to 9 and leaves two touching segments of one value. *)
Lemma createDeadDef_breaks_invariant :
  LRInv promote_arena promote_range
  ∧ ∃ A' lr',
      apply_mutation promote_arena promote_range (MCreateDeadDef 9)
      = Ok (A', lr')
      ∧ segments lr' = [mkSegment 0 9 1; mkSegment 9 12 1]
      ∧ ¬ LRInv A' lr'.
Proof.
  split.
  - constructor; simpl.
    + reflexivity.
    + unfold seg_before. simpl. repeat split; try lia.
    + forall_list; lia.
    + forall_list; eexists; (split; [reflexivity|]); split; reflexivity.
    + forall_list. eexists. reflexivity.
  - eexists _, _. split; [vm_compute; reflexivity|]. split; [reflexivity|].
    intros [_ Ho _ _ _]. simpl in Ho.
    destruct Ho as (_ & [_ Hv] & _). simpl in Hv. by apply Hv.
Qed.

(** ** find and contains *)

(** C2: on an ordered range, [find(Pos)] is the position of the first
    segment that ends after [Pos] (every segment before it ends at or
    before [Pos]), and the end position when [Pos] is at or past the end
    of the last segment; [contains(Pos)] holds exactly when [find(Pos)]
    is a segment that contains [Pos], which is when some segment of the
    range contains [Pos]. *)
Theorem find_first_ending_after l Pos :
  ordered l →
  find l Pos ≤ length l
  ∧ (∀ i s, i < find l Pos → l !! i = Some s → (end_ s ≤ Pos)%Z)
  ∧ (∀ s, l !! find l Pos = Some s → (Pos < end_ s)%Z)
  ∧ ((∀ s, last l = Some s → (end_ s ≤ Pos)%Z) → find l Pos = length l)
  ∧ (contains l Pos = true ↔
     ∃ s, l !! find l Pos = Some s ∧ (start s ≤ Pos < end_ s)%Z)
  ∧ (contains l Pos = true ↔ ∃ s, s ∈ l ∧ (start s ≤ Pos < end_ s)%Z).
Proof.
  intros Ho. destruct (find_spec l Pos Ho) as (Hlen & HF & HT).
  assert (Hbefore : ∀ i s, i < find l Pos → l !! i = Some s →
                           (end_ s ≤ Pos)%Z).
  { intros i s Hi Hs. specialize (HF i s Hi Hs). simpl in HF. lia. }
  assert (Hat : ∀ s, l !! find l Pos = Some s → (Pos < end_ s)%Z).
  { intros s Hs. specialize (HT _ s (le_n _) Hs). simpl in HT. lia. }
  assert (Hiff : contains l Pos = true ↔
            ∃ s, l !! find l Pos = Some s ∧ (start s ≤ Pos < end_ s)%Z).
  { unfold contains. destruct (l !! find l Pos) as [s|] eqn:Hs.
    - specialize (Hat s eq_refl). split.
      + intros Hle. exists s. split; [done|lia].
      + intros (s' & [= <-] & ?). lia.
    - split; [done|]. by intros (s' & ? & _). }
  splits; [done|done|done| |done|].
  - intros Hlast. unfold find. destruct (last l) as [back|]; [|done].
    by rewrite (proj2 (Z.leb_le _ _) (Hlast back eq_refl)).
  - rewrite Hiff. split.
    + intros (s & Hs & ?). exists s. split; [|done].
      by eapply list_elem_of_lookup_2.
    + intros (s & Hs & Hp). apply list_elem_of_lookup_1 in Hs as [i Hi].
      destruct (Nat.lt_trichotomy i (find l Pos)) as [Hlt|[->|Hgt]].
      * specialize (Hbefore i s Hlt Hi). lia.
      * by exists s.
      * destruct (lookup_lt_is_Some_2 l (find l Pos)) as [a Ha].
        { apply lookup_lt_Some in Hi. lia. }
        exists a. split; [done|]. specialize (Hat a Ha).
        pose proof (ordered_lookup_lt l _ _ a s Ho Hgt Ha Hi).
        pose proof (ordered_Forall l Ho) as Hne.
        rewrite Forall_forall in Hne.
        specialize (Hne a (list_elem_of_lookup_2 _ _ _ Ha)). simpl in Hne.
        lia.
Qed.

(** The theorem holds of a range with a hole between 16 and 20. *)
Lemma find_first_ending_after_witness :
  ordered [mkSegment 0 16 1; mkSegment 20 36 2]
  ∧ find [mkSegment 0 16 1; mkSegment 20 36 2] 18 = 1
  ∧ contains [mkSegment 0 16 1; mkSegment 20 36 2] 18 = false
  ∧ (contains [mkSegment 0 16 1; mkSegment 20 36 2] 24 = true ↔
     ∃ s, s ∈ [mkSegment 0 16 1; mkSegment 20 36 2]
          ∧ (start s ≤ 24 < end_ s)%Z).
Proof.
  assert (Ho : ordered [mkSegment 0 16 1; mkSegment 20 36 2]).
  { simpl. unfold seg_before. simpl. repeat split; lia. }
  split; [exact Ho|]. split; [reflexivity|]. split; [reflexivity|].
  exact (proj2 (proj2 (proj2 (proj2 (proj2
           (find_first_ending_after _ 24%Z Ho)))))).
Defined.

(** ** extendInBlock *)

(** A range splits at [Use]: no segment starts before [Use], or there is
    a last segment that does. *)
Lemma split_at_use l Use :
  Forall (λ n, (Use ≤ start n)%Z) l
  ∨ ∃ pre s post, l = pre ++ s :: post ∧ (start s < Use)%Z
                  ∧ Forall (λ n, (Use ≤ start n)%Z) post.
Proof.
  induction l as [|a l IH]; [left; constructor|].
  destruct IH as [Hall|(pre & s & post & -> & Hs & Hpost)].
  - destruct (decide (start a < Use)%Z).
    + right. by exists [], a, l.
    + left. constructor; [lia|done].
  - right. by exists (a :: pre), s, post.
Qed.

(** The template on the segment vector: [extendInBlock(StartIdx, Use)]
    returns no value and leaves the collection as it is when no segment
    that starts before [Use] ends after [StartIdx]; otherwise the last
    segment [s] that starts before [Use] gets an end at or after [Use],
    and the value of [s] is returned. *)
Lemma extendInBlock_vector_preceding l StartIdx Use :
  ordered l →
  (Forall (λ n, ¬ ((start n < Use)%Z ∧ (StartIdx < end_ n)%Z)) l →
   @extendInBlock CalcLiveRangeUtilVector l StartIdx Use = Ok (l, nullptr))
  ∧ (∀ pre s post,
       l = pre ++ s :: post → (start s < Use)%Z →
       Forall (λ n, (Use ≤ start n)%Z) post → (StartIdx < end_ s)%Z →
       ∃ e post',
         @extendInBlock CalcLiveRangeUtilVector l StartIdx Use
         = Ok (pre ++ set_end s e :: post', valno s)
         ∧ (Use ≤ e)%Z ∧ (end_ s ≤ e)%Z
         ∧ ((post' = post ∧ e = Z.max (end_ s) Use)
            ∨ ∃ M, post = M :: post' ∧ (end_ s < Use)%Z ∧ start M = Use
                   ∧ valno M = valno s ∧ e = end_ M)).
Proof.
  intros Ho. split.
  - intros Hnone. destruct (split_at_use l Use)
      as [Hall|(pre & s & post & -> & Hs & Hpost)].
    + by apply extendInBlock_none_before.
    + rewrite extendInBlock_preceding by done.
      rewrite Forall_forall in Hnone.
      assert (¬ ((start s < Use)%Z ∧ (StartIdx < end_ s)%Z)) as Hn.
      { apply Hnone. apply elem_of_app. right. by left. }
      by rewrite (proj2 (Z.leb_le (end_ s) StartIdx)) by lia.
  - intros pre s post -> Hs Hpost Hlive.
    rewrite extendInBlock_preceding by done.
    rewrite (proj2 (Z.leb_gt (end_ s) StartIdx)) by lia.
    eexists _, _. split; [done|]. unfold extended_in_block.
    pose proof (ordered_app_inv _ _ Ho) as [_ Hsp].
    destruct (Z.ltb_spec (end_ s) Use) as [Hlt|Hge]; simpl.
    + destruct post as [|M post'].
      { simpl. splits; [lia|lia|]. left. split; [done|lia]. }
      destruct (Z.eqb_spec (start M) Use) as [HM|HM]; simpl.
      * destruct (Nat.eqb_spec (valno M) (valno s)) as [HV|HV]; simpl.
        -- destruct Hsp as (_ & _ & HMne & _).
           splits; [lia|lia|]. right. by exists M.
        -- splits; [lia|lia|]. left. split; [done|lia].
      * splits; [lia|lia|]. left. split; [done|lia].
    + splits; [lia|lia|]. left. split; [done|lia].
Qed.

(** ** addSegment *)

(** C4: [addSegment] merges the segment with the neighbours of its
    value: adding [20,30) and then [5,10) to the range [10,20) of one
    value leaves [5,30).  But a segment that starts inside a segment of
    its value and ends inside a later segment of another value is merged
    into the first without any check: adding [15,30) of the value 1 to
    [10,20) of 1 and [25,35) of 2 returns the overlapping segments
    [10,30) and [25,35), not an error, while adding [22,30), which
    starts outside [10,20), fails with OverlapMismatch. *)
Theorem addSegment_overlap_unchecked :
  (r <- LiveRange_addSegment (mkLiveRange [mkSegment 10 20 1] [1] None)
          (mkSegment 20 30 1) ;;
   LiveRange_addSegment r.1 (mkSegment 5 10 1))
  = Ok (mkLiveRange [mkSegment 5 30 1] [1] None, 0)
  ∧ LiveRange_addSegment
      (mkLiveRange [mkSegment 10 20 1; mkSegment 25 35 2] [1; 2] None)
      (mkSegment 15 30 1)
    = Ok (mkLiveRange [mkSegment 10 30 1; mkSegment 25 35 2] [1; 2] None, 0)
  ∧ ¬ ordered [mkSegment 10 30 1; mkSegment 25 35 2]
  ∧ LiveRange_addSegment
      (mkLiveRange [mkSegment 10 20 1; mkSegment 25 35 2] [1; 2] None)
      (mkSegment 22 30 1)
    = Err OverlapMismatch.
Proof.
  splits; [reflexivity|reflexivity| |reflexivity].
  simpl. unfold seg_before. simpl. intros (_ & [? _] & _). lia.
Qed.

(** ** MergeValueNumberInto *)

(** C5: [MergeValueNumberInto(V1, V2)] on two different values of the
    table of an ordered range returns the one of the two with the smaller
    id, the survivor.  The segments it leaves are ordered, so that no two
    touching segments have one value; they cover the points the range
    covered, with the survivor where the value was [V1] or [V2] and the
    old value elsewhere; no segment has the other value, which is marked
    for deletion.  On [10,20) of the value 1 and [20,30) of the value 2
    the result is the segment [10,30) of the value with the lower id. *)
Theorem MergeValueNumberInto_survivor A lr V1 V2 v1 v2 :
  ordered (segments lr) →
  Forall (λ p, ∃ v, deref A p = Ok v) (valnos lr) →
  V1 ≠ V2 →
  deref A V1 = Ok v1 → valnos lr !! VNInfo.id v1 = Some V1 →
  deref A V2 = Ok v2 → valnos lr !! VNInfo.id v2 = Some V2 →
  let W := survivor v1 v2 V1 V2 in
  let L := loser v1 v2 V1 V2 in
  (∃ A' lr',
     MergeValueNumberInto A lr V1 V2 = Ok (A', lr', W)
     ∧ ordered (segments lr')
     ∧ (∀ p v, live_at (segments lr') p v ↔
               ∃ v0, live_at (segments lr) p v0
                     ∧ v = if decide (v0 = V1 ∨ v0 = V2) then W else v0)
     ∧ Forall (λ s, valno s ≠ L) (segments lr')
     ∧ marked_for_deletion (arena_after_copy A v1 v2 V1) (valnos lr) L
         A' (valnos lr')
     ∧ (∃ w, deref A' W = Ok w
             ∧ VNInfo.id w = Nat.min (VNInfo.id v1) (VNInfo.id v2)))
  ∧ ∃ A', MergeValueNumberInto merge_arena merge_range 1 2
          = Ok (A', mkLiveRange [mkSegment 10 30 1] [1] None, 1).
Proof.
  intros Ho Hh Hne Hv1 Hi1 Hv2 Hi2 W L. split; [|by eexists].
  destruct (MergeValueNumberInto_spec A lr V1 V2 v1 v2 Ho Hh Hne Hv1 Hi1
              Hv2 Hi2)
    as (A' & lr' & Hrun & _ & Ho' & Hlive & Hno & _ & Hmark & Hid).
  by exists A', lr'.
Qed.

(** The theorem holds of the merge of two touching values. *)
Lemma MergeValueNumberInto_survivor_witness :
  ordered (segments merge_range)
  ∧ ∃ A' lr',
      MergeValueNumberInto merge_arena merge_range 1 2 = Ok (A', lr', 1)
      ∧ ordered (segments lr')
      ∧ Forall (λ s, valno s ≠ 2) (segments lr').
Proof.
  assert (Ho : ordered (segments merge_range)).
  { simpl. unfold seg_before. simpl. repeat split; lia. }
  split; [exact Ho|].
  assert (Hh : Forall (λ p, ∃ v, deref merge_arena p = Ok v)
                 (valnos merge_range)).
  { simpl. forall_list; eexists; reflexivity. }
  destruct (proj1 (MergeValueNumberInto_survivor merge_arena merge_range 1 2
              (VNInfo.mk 0 10 false false) (VNInfo.mk 1 20 false false) Ho
              Hh ltac:(discriminate) eq_refl eq_refl eq_refl eq_refl))
    as (A' & lr' & Hrun & Ho' & _ & Hno & _).
  exists A', lr'. split; [exact Hrun|]. split; [exact Ho'|exact Hno].
Defined.

(** ** The updater *)

(** C6: on the range [0,10) [20,30) of one value, an updater that adds
    [10,20) and then, out of order, [5,8) and is flushed leaves the
    single segment [0,30); and for two segments [A], [B] with
    [A.start <= B.start] the coalescing test holds exactly when
    [A.end >= B.start] and the two have the same value. *)
Theorem updater_coalesces :
  (u <- add updater_arena (LiveRangeUpdater_new (Some updater_range))
          (mkSegment 10 20 1) ;;
   u <- add updater_arena u (mkSegment 5 8 1) ;;
   u <- flush updater_arena u ;;
   Ok (LR u))
  = Ok (Some (mkLiveRange [mkSegment 0 30 1] [1] None))
  ∧ ∀ A0 B0, (start A0 ≤ start B0)%Z →
      (coalescable A0 B0 = Ok true ↔
       (start B0 ≤ end_ A0)%Z ∧ valno A0 = valno B0).
Proof.
  split; [reflexivity|]. intros A0 B0 Hle.
  rewrite coalescable_true. split.
  - intros (_ & ? & ?). split; [lia|done].
  - intros (? & ?). split; [done|]. split; [lia|done].
Qed.

(** The test holds of two touching segments of one value. *)
Lemma updater_coalesces_witness :
  (start (mkSegment 0 10 1) ≤ start (mkSegment 10 20 1))%Z
  ∧ coalescable (mkSegment 0 10 1) (mkSegment 10 20 1) = Ok true.
Proof.
  split; [simpl; lia|].
  apply (proj2 (proj2 updater_coalesces (mkSegment 0 10 1)
                  (mkSegment 10 20 1) ltac:(simpl; lia))).
  simpl. split; [lia|reflexivity].
Defined.

(** A flush leaves a clean updater. *)
Lemma flush_clean A u u' : flush A u = Ok u' → isDirty u' = false.
Proof.
  unfold flush. destruct (isDirty u) eqn:Hd; cbn [negb].
  2:{ intros [= <-]. done. }
  destruct (LR u) as [lr|]; [|done].
  destruct (length (Spills u) =? 0).
  - destruct (verify A _) as [[]|]; cbn [bind]; [|done].
    intros [= <-]. done.
  - destruct (mergeSpills _ _ _ _) as [[[segs' W'] Spills']|]; cbn [bind];
      [|done].
    destruct (verify A _) as [[]|]; cbn [bind]; [|done].
    intros [= <-]. done.
Qed.

(** C7: [flush] is idempotent: a second flush right after a flush
    returns the state the first one left, the updater and its range, since
    the first one leaves the updater clean. *)
Theorem flush_idempotent A u :
  (u' <- flush A u ;; flush A u') = flush A u
  ∧ ∀ u', flush A u = Ok u' → isDirty u' = false ∧ flush A u' = Ok u'.
Proof.
  assert (H2 : ∀ u', flush A u = Ok u' →
                     isDirty u' = false ∧ flush A u' = Ok u').
  { intros u' Hf. pose proof (flush_clean A u u' Hf) as Hc.
    split; [done|]. unfold flush. by rewrite Hc. }
  split; [|done].
  destruct (flush A u) as [u'|e] eqn:Hf; [|done].
  cbn [bind]. by apply H2.
Qed.

(** ** createDeadDef *)

(** C8, as amended: [createDeadDef(Def)] on an ordered range, [Def] not
    being a dead slot.  When no segment ends after [Def], it allocates a
    new value defined at [Def] and appends [Def, Def.dead).  Otherwise
    let [s] be the first segment that ends after [Def], whether it
    covers [Def] or not.  When [s] starts in the instruction of [Def],
    at the def of its value, the start of [s] and the def become the
    smaller of [Def] and the start, nothing changes when that is the
    start, and the value of [s] is returned, no value being allocated.
    When [s] starts in a later instruction, a new value is allocated and
    [Def, Def.dead) is inserted before [s]. *)
Theorem createDeadDef_first_ending_after A vs l Def :
  ordered l → isDead Def = false →
  (Forall (λ s, (end_ s ≤ Def)%Z) l →
   @createDeadDef CalcLiveRangeUtilVector A vs l Def
   = Ok (A ++ [new_value vs Def], vs ++ [S (length A)],
         l ++ [mkSegment Def (getDeadSlot Def) (S (length A))],
         S (length A)))
  ∧ (∀ pre s post,
       l = pre ++ s :: post →
       Forall (λ a, (end_ a ≤ Def)%Z) pre → (Def < end_ s)%Z →
       (isSameInstr Def (start s) = true →
        ∀ v, deref A (valno s) = Ok v → VNInfo.def v = start s →
          @createDeadDef CalcLiveRangeUtilVector A vs l Def
          = Ok (if (Z.min Def (start s) =? start s)%Z then A
                else store A (valno s)
                       (VNInfo.set_def v (Z.min Def (start s))),
                vs, pre ++ set_start s (Z.min Def (start s)) :: post,
                valno s)
          ∧ ((start s ≤ Def)%Z →
             @createDeadDef CalcLiveRangeUtilVector A vs l Def
             = Ok (A, vs, l, valno s)))
       ∧ (isSameInstr Def (start s) = false →
          isEarlierInstr Def (start s) = true →
          @createDeadDef CalcLiveRangeUtilVector A vs l Def
          = Ok (A ++ [new_value vs Def], vs ++ [S (length A)],
                pre ++ mkSegment Def (getDeadSlot Def) (S (length A))
                    :: s :: post,
                S (length A)))).
Proof.
  intros Ho Hd. split; [by apply createDeadDef_at_end|].
  intros pre s post -> Hpre Hs. split.
  - intros Hsame v Hv Hdef.
    pose proof (createDeadDef_promote A vs pre s post Def v Ho Hd Hpre Hs
                  Hsame Hv Hdef) as Hrun.
    split; [exact Hrun|]. intros Hle. rewrite Hrun.
    rewrite Z.min_r by done. rewrite Z.eqb_refl. by destruct s.
  - intros Hsame Hearlier. by apply createDeadDef_before.
Qed.

(** The theorem holds of a def at the early-clobber slot of an instruction
    whose register slot starts a segment. *)
Lemma createDeadDef_first_ending_after_witness :
  ordered [mkSegment 10 12 1] ∧ isDead 9 = false
  ∧ @createDeadDef CalcLiveRangeUtilVector dead_def_arena [1]
      [mkSegment 10 12 1] 9
    = Ok ([VNInfo.mk 0 9 false false], [1], [mkSegment 9 12 1], 1).
Proof.
  assert (Ho : ordered [mkSegment 10 12 1]).
  { simpl. repeat split; lia. }
  split; [exact Ho|]. split; [reflexivity|].
  exact (proj1 (proj1 (proj2 (createDeadDef_first_ending_after
           dead_def_arena [1] [mkSegment 10 12 1] 9 Ho eq_refl)
           [] (mkSegment 10 12 1) [] eq_refl (Forall_nil_2 _)
           ltac:(simpl; lia))
           eq_refl (VNInfo.mk 0 10 false false) eq_refl eq_refl)).
Defined.

(** C8, as the claim states it, fails: no segment of the range [10,12)
    covers the slot 9, and [createDeadDef(9)] allocates no value and
    inserts no segment: the slot 10 is in the same instruction, so the
    segment and the def of its value are moved to 9. *)
Lemma createDeadDef_uncovered_promotes :
  isDead 9 = false
  ∧ (∀ s, s ∈ [mkSegment 10 12 1] → ¬ (start s ≤ 9 < end_ s)%Z)
  ∧ @createDeadDef CalcLiveRangeUtilVector dead_def_arena [1]
      [mkSegment 10 12 1] 9
    = Ok ([VNInfo.mk 0 9 false false], [1], [mkSegment 9 12 1], 1).
Proof.
  split; [reflexivity|]. split; [|reflexivity].
  intros s Hs. apply list_elem_of_singleton in Hs as ->. simpl. lia.
Qed.

(** ** removeValNo *)

(** C9, as amended: on a range that has a segment, [removeValNo(ValNo)]
    for a value of the table erases the segments of that value and
    marks the value for deletion: when its id is the last of the table,
    the value is popped with the unused values that end the table
    before it; otherwise it is flagged unused where it is.  On a range
    without segments [removeValNo] returns at once: the arena and the
    range, its value table included, are what they were. *)
Theorem removeValNo_erases_and_marks A lr ValNo :
  (segments lr = [] → removeValNo A lr ValNo = Ok (A, lr))
  ∧ (segments lr ≠ [] →
     Forall (λ p, ∃ v, deref A p = Ok v) (valnos lr) →
     vn_in_table A (valnos lr) ValNo →
     ∃ A' lr',
       removeValNo A lr ValNo = Ok (A', lr')
       ∧ segments lr' = filter (λ s, valno s ≠ ValNo) (segments lr)
       ∧ segmentSet lr' = segmentSet lr
       ∧ marked_for_deletion A (valnos lr) ValNo A' (valnos lr')).
Proof.
  split.
  - intros Hnil. unfold removeValNo. by rewrite Hnil.
  - intros Hne Hh Hin.
    destruct (removeValNo_spec A lr ValNo Hne Hh Hin) as (A' & vs' & -> & Hm).
    by eexists _, _.
Qed.

(** The theorem holds of a value with two segments, and of the range
    with the same table and no segment. *)
Lemma removeValNo_erases_and_marks_witness :
  segments remove_range ≠ []
  ∧ vn_in_table remove_arena (valnos remove_range) 1
  ∧ (∃ A' lr',
       removeValNo remove_arena remove_range 1 = Ok (A', lr')
       ∧ segments lr' = [mkSegment 8 12 2]
       ∧ marked_for_deletion remove_arena [1; 2] 1 A' (valnos lr'))
  ∧ removeValNo remove_arena (mkLiveRange [] [1; 2] None) 1
    = Ok (remove_arena, mkLiveRange [] [1; 2] None).
Proof.
  assert (Hin : vn_in_table remove_arena (valnos remove_range) 1).
  { eexists. split; reflexivity. }
  split; [discriminate|]. split; [exact Hin|]. split.
  - destruct (proj2 (removeValNo_erases_and_marks remove_arena remove_range 1))
      as (A' & lr' & Hrun & Hsegs & _ & Hm).
    + discriminate.
    + simpl. forall_list; eexists; reflexivity.
    + exact Hin.
    + exists A', lr'. split; [exact Hrun|]. split; [exact Hsegs|exact Hm].
  - apply (proj1 (removeValNo_erases_and_marks remove_arena
                    (mkLiveRange [] [1; 2] None) 1)).
    reflexivity.
Defined.

(** C9, as the claim states it, fails: on a range without segments
    [removeValNo] returns at once, and the value stays in the table, not
    flagged. *)
Lemma removeValNo_empty_range_keeps_value :
  vn_in_table [VNInfo.mk 0 0 false false] [1] 1
  ∧ removeValNo [VNInfo.mk 0 0 false false] (mkLiveRange [] [1] None) 1
    = Ok ([VNInfo.mk 0 0 false false], mkLiveRange [] [1] None)
  ∧ ¬ marked_for_deletion [VNInfo.mk 0 0 false false] [1] 1
        [VNInfo.mk 0 0 false false] [1].
Proof.
  split; [eexists; split; reflexivity|]. split; [reflexivity|].
  intros (v & Hv & Hm). injection Hv as <-. simpl in Hm.
  destruct Hm as (_ & k & Hk & Hle & _).
  assert (k = 0) as -> by lia. done.
Qed.

(** ** removeEmptySubRanges *)

Lemma is_list_functional N l1 : ∀ h l2,
  is_list N h l1 → is_list N h l2 → l1 = l2.
Proof.
  induction l1 as [|[a n] l1 IH]; intros h [|[b m] l2]; simpl.
  - done.
  - intros -> (? & ? & _). congruence.
  - intros (? & ? & _) ->. congruence.
  - intros (-> & _ & Hn & H1) (<- & _ & Hm & H2).
    rewrite Hn in Hm. injection Hm as <-. f_equal. by eapply IH.
Qed.

Lemma is_list_suffix N l1 : ∀ h x l2,
  is_list N h (l1 ++ x :: l2) → is_list N x.1 (x :: l2).
Proof.
  induction l1 as [|[a n] l1 IH]; intros h [b m] l2; simpl.
  - intros (-> & ? & ? & ?). done.
  - intros (_ & _ & _ & H). by apply IH in H.
Qed.

(** A list in the heap visits no node twice. *)
Lemma is_list_NoDup N l : ∀ h, is_list N h l → NoDup l.*1.
Proof.
  induction l as [|[a n] l IH]; intros h Hl; [constructor|].
  rewrite fmap_cons. simpl in *. destruct Hl as (-> & Ha & Hn & Hl).
  constructor; [|by eapply IH].
  intros Hin. apply list_elem_of_fmap in Hin as ([b m] & Hb & Hin).
  simpl in Hb. subst b.
  apply list_elem_of_split in Hin as (l1 & l2 & ->).
  pose proof (is_list_suffix _ _ _ _ _ Hl) as Hsuf.
  change (is_list N a ((a, m) :: l2)) in Hsuf.
  assert (Hwhole : is_list N a ((a, n) :: l1 ++ (a, m) :: l2)).
  { simpl. done. }
  pose proof (is_list_functional N _ a _ Hwhole Hsuf) as Heq.
  apply (f_equal length) in Heq. simpl in Heq.
  rewrite length_app in Heq. simpl in Heq. lia.
Qed.

(** C10: on a heap that holds the list [l] of the sub-ranges of the
    interval, [removeEmptySubRanges] returns, and the list of the
    interval is then the list of the sub-ranges of [l] that are not
    empty, in their order, each at its address with its range and its
    lane mask; the empty ones are freed, the main range and the register
    of the interval and the nodes outside the list stay as they are. *)
Theorem removeEmptySubRanges_keeps_nonempty l fuel H li :
  is_list (nodes H) (SubRanges li) l → length l < fuel →
  ∃ H' li' l',
    removeEmptySubRanges fuel H li = Ok (H', li')
    ∧ is_list (nodes H') (SubRanges li') l'
    ∧ same_nodes (filter (λ x, ¬ node_empty x) l) l'
    ∧ freed H' = freed H ++ (filter node_empty l).*1
    ∧ LI_range li' = LI_range li ∧ reg li' = reg li
    ∧ (∀ a, a ∉ l.*1 → nodes H' !! a = nodes H !! a).
Proof.
  intros Hl Hf.
  destruct (removeEmptySubRanges_loop_spec (length l) l fuel H li HeadOf
              eq_refl Hl (is_list_NoDup _ _ _ Hl) I Hf)
    as (H' & li' & l' & Hrun & Hl' & Hsame & Hfreed & Hr & Hreg & _ & Hout
        & _).
  exists H', li', l'. splits; try done.
  intros a Ha. by apply Hout.
Qed.

(** The theorem holds of a list of an empty and a live sub-range. *)
Lemma removeEmptySubRanges_keeps_nonempty_witness :
  is_list (nodes sub_heap) (SubRanges sub_interval)
    [(1, sub_empty); (2, sub_live)]
  ∧ ∃ H' li' l',
      removeEmptySubRanges 3 sub_heap sub_interval = Ok (H', li')
      ∧ is_list (nodes H') (SubRanges li') l'
      ∧ same_nodes [(2, sub_live)] l'.
Proof.
  assert (Hl : is_list (nodes sub_heap) (SubRanges sub_interval)
                 [(1, sub_empty); (2, sub_live)]).
  { simpl. repeat split; try lia; reflexivity. }
  split; [exact Hl|].
  destruct (removeEmptySubRanges_keeps_nonempty
              [(1, sub_empty); (2, sub_live)] 3 sub_heap sub_interval Hl
              ltac:(simpl; lia))
    as (H' & li' & l' & Hrun & Hl' & Hsame & _).
  exists H', li', l'. split; [exact Hrun|]. split; [exact Hl'|exact Hsame].
Defined.

(** * Further properties of the code *)

(** The invariants of a range that is written out. *)
Ltac concrete_Forall :=
  repeat match goal with
         | |- Forall _ [] => constructor
         | |- Forall _ (_ :: _) => constructor
         end; simpl.

Ltac concrete_LRInv :=
  split; simpl;
  [ done
  | unfold seg_before; simpl; repeat split; (lia || done)
  | concrete_Forall; lia
  | concrete_Forall; by eexists
  | concrete_Forall; by eexists ].

(** ** What [verify] checks *)

Lemma ordered_pointwise l :
  ordered l ↔
  (∀ i a, l !! i = Some a → (start a < end_ a)%Z)
  ∧ (∀ i a b, l !! i = Some a → l !! (S i) = Some b → seg_before a b).
Proof.
  split.
  - intros Ho. split.
    + intros i a. by apply ordered_lookup_pos.
    + intros i a b. by apply ordered_lookup_next.
  - intros [H1 H2]. by apply ordered_intro.
Qed.

(** X1. [verify] passes exactly when every segment is a forward interval
    of valid slots whose value number is an object of the arena that the
    table holds at its id, and every segment ends at or before the start
    of the next one, the two differing in value where they touch. *)
Theorem verify_checks_invariants A lr :
  verify A lr = Ok tt ↔
  ∀ i s, segments lr !! i = Some s →
    (0 ≤ start s)%Z ∧ (start s < end_ s)%Z
    ∧ (∃ v, deref A (valno s) = Ok v
            ∧ valnos lr !! VNInfo.id v = Some (valno s))
    ∧ ∀ n, segments lr !! S i = Some n →
        (end_ s ≤ start n)%Z
        ∧ ((end_ s = start n)%Z → valno s ≠ valno n).
Proof.
  rewrite verify_Ok. unfold verified. rewrite ordered_pointwise.
  rewrite !Forall_lookup. split.
  - intros ((Hpos & Hnext) & Hval & Htab) i s Hs.
    split; [by eapply Hval|]. split; [by eapply Hpos|].
    split; [by apply (Htab i s)|].
    intros n Hn. by apply (Hnext i s n).
  - intros H. split; [split|split].
    + intros i a Ha. by apply (H i a).
    + intros i a b Ha Hb. by apply (H i a Ha).
    + intros i a Ha. by apply (H i a).
    + intros i a Ha. by apply (H i a).
Qed.

(** ** Overlap queries *)

Lemma segments_overlap_sym a b : segments_overlap a b → segments_overlap b a.
Proof. intros (x & y & ? & ? & ? & ?). exists y, x. done. Qed.

Lemma segments_overlap_point a b :
  ordered a → ordered b →
  segments_overlap a b ↔ ∃ p v w, live_at a p v ∧ live_at b p w.
Proof.
  intros Ha Hb. split.
  - intros (x & y & Hx & Hy & H1 & H2).
    pose proof (ordered_Forall _ Ha) as Fa.
    pose proof (ordered_Forall _ Hb) as Fb.
    rewrite Forall_forall in Fa, Fb.
    specialize (Fa x Hx). specialize (Fb y Hy). simpl in *.
    exists (Z.max (start x) (start y)), (valno x), (valno y).
    split; [exists x|exists y]; (split; [done|split; [lia|done]]).
  - intros (p & v & w & (x & Hx & Hpx & _) & (y & Hy & Hpy & _)).
    exists x, y. repeat split; try done; lia.
Qed.

Lemma lower_bound_loop_upper fuel lt l : ∀ I Len,
  lower_bound_loop fuel lt l I Len
  = upper_bound_loop fuel (λ s, negb (lt s)) l I Len.
Proof.
  induction fuel as [|fuel IH]; intros I Len; simpl; [done|].
  destruct (Len =? 0); [done|].
  destruct (l !! (I + Nat.div2 Len)) as [s|]; [|done].
  destruct (lt s); simpl; apply IH.
Qed.

Lemma lower_bound_spec l Pos :
  ordered l →
  partition_point (λ s, negb (start s <? Pos)%Z) l (lower_bound l Pos).
Proof.
  intros Ho. unfold lower_bound. rewrite lower_bound_loop_upper.
  apply upper_bound_loop_spec.
  - intros i j a b Hij Ha Hb Hp. bool_prop. apply negb_true_iff, Z.ltb_ge.
    pose proof (ordered_lookup_le l i j a b Ho Hij Ha Hb). lia.
  - lia.
  - lia.
  - intros; lia.
  - intros i a Hi Ha. apply lookup_lt_Some in Ha. lia.
Qed.

(** X2. On a range that satisfies the ordering invariants,
    [overlaps(Start, End)] holds exactly when some slot of [Start, End) is
    live; the call is refused when the interval is empty or backwards. *)
Theorem overlaps_interval_live l Start End :
  ordered l →
  ((Start < End)%Z →
   ∃ b, overlaps l Start End = Ok b
        ∧ (b = true ↔ ∃ p v, (Start ≤ p < End)%Z ∧ live_at l p v))
  ∧ ((End ≤ Start)%Z → overlaps l Start End = Err AssertionFailed).
Proof.
  intros Ho. split.
  - intros Hlt. unfold overlaps.
    rewrite (proj2 (Z.ltb_lt _ _) Hlt). simpl.
    destruct (lower_bound_spec l End Ho) as (Hlen & HF & HT).
    set (I := lower_bound l End) in *.
    destruct (Nat.eqb_spec I 0) as [HI|HI].
    + eexists. split; [done|]. split; [done|].
      intros (p & v & Hp & s & Hs & Hps & _).
      apply list_elem_of_lookup in Hs as [i Hi].
      specialize (HT i s ltac:(lia) Hi). bool_prop. lia.
    + destruct (lookup_lt_is_Some_2 l (I - 1) ltac:(lia)) as [s Hs].
      unfold at_. rewrite Hs. simpl. eexists. split; [done|].
      pose proof (HF (I - 1) s ltac:(lia) Hs) as Hst. bool_prop.
      pose proof (ordered_lookup_pos _ _ _ Ho Hs) as Hpos.
      split.
      * intros Hb. bool_prop.
        exists (Z.max Start (start s)), (valno s). split; [lia|].
        exists s. split; [by eapply list_elem_of_lookup_2|]. split; [lia|done].
      * intros (p & v & Hp & n & Hn & Hpn & _). apply Z.ltb_lt.
        apply list_elem_of_lookup in Hn as [i Hi].
        destruct (Nat.lt_ge_cases i I) as [Hlt'|Hge].
        -- pose proof (ordered_lookup_le l i (I - 1) n s Ho ltac:(lia) Hi Hs).
           lia.
        -- specialize (HT i n Hge Hi). bool_prop. lia.
  - intros Hge. unfold overlaps.
    rewrite (proj2 (Z.ltb_ge _ _) Hge). done.
Qed.

(** The theorem holds of a range with a hole between 16 and 20. *)
Lemma overlaps_interval_live_witness :
  ordered [mkSegment 0 16 1; mkSegment 20 36 2]
  ∧ overlaps [mkSegment 0 16 1; mkSegment 20 36 2] 16 20 = Ok false
  ∧ overlaps [mkSegment 0 16 1; mkSegment 20 36 2] 20 16
    = Err AssertionFailed.
Proof.
  assert (Ho : ordered [mkSegment 0 16 1; mkSegment 20 36 2]).
  { simpl. unfold seg_before. simpl. repeat split; lia. }
  split; [exact Ho|].
  pose proof (overlaps_interval_live [mkSegment 0 16 1; mkSegment 20 36 2]
                20 16 Ho) as [_ He].
  split; [reflexivity|]. apply He. lia.
Defined.

(** *** overlapsFrom *)

Lemma apart_sym a b : apart a b → apart b a.
Proof. intros H x y Hx Hy. destruct (H y x Hy Hx); auto. Qed.

Lemma apart_not_overlap a b : apart a b → ¬ segments_overlap a b.
Proof.
  intros H (x & y & Hx & Hy & H1 & H2). destruct (H x y Hx Hy); lia.
Qed.

Lemma apart_take_S a b i s :
  ordered b → a !! i = Some s → apart (take i a) b →
  (∀ y, y ∈ b → (end_ s ≤ start y)%Z ∨ (end_ y ≤ start s)%Z) →
  apart (take (S i) a) b.
Proof.
  intros Hb Hs Ha Hy x y Hx Hyb.
  rewrite (take_S_r _ _ _ Hs) in Hx.
  apply elem_of_app in Hx as [Hx|Hx%list_elem_of_singleton]; [auto|].
  subst. auto.
Qed.

(** A segment that ends at or before the start of [b !! j] meets no
    segment of [b], when it meets none before the position [j]. *)
Lemma apart_from a b i j si sj :
  ordered b → a !! i = Some si → b !! j = Some sj →
  apart a (take j b) → (end_ si ≤ start sj)%Z →
  ∀ y, y ∈ b → (end_ si ≤ start y)%Z ∨ (end_ y ≤ start si)%Z.
Proof.
  intros Hb Hi Hj Hap Hle y Hy.
  apply list_elem_of_lookup in Hy as [k Hk].
  destruct (Nat.lt_ge_cases k j) as [Hlt|Hge].
  - apply (Hap si y); [by eapply list_elem_of_lookup_2|].
    apply list_elem_of_lookup. exists k. rewrite lookup_take_lt; done.
  - pose proof (ordered_lookup_le b j k sj y Hb Hge Hj Hk). left. lia.
Qed.

Lemma overlapsFrom_loop_spec fuel : ∀ a i b j,
  ordered a → ordered b → i ≤ length a → j < length b →
  (length a - i) + (length b - j) ≤ fuel →
  apart (take i a) b → apart a (take j b) →
  ∃ r, overlapsFrom_loop fuel a i b j = Ok r
       ∧ (r = true ↔ segments_overlap a b).
Proof.
  induction fuel as [|fuel IH]; intros a i b j Ha Hb Hi Hj Hf H1 H2; [lia|].
  simpl. destruct (Nat.eqb_spec i (length a)) as [->|Hne].
  { eexists. split; [done|]. split; [done|].
    rewrite firstn_all in H1. intros Ho. by apply apart_not_overlap in Ho. }
  destruct (lookup_lt_is_Some_2 a i ltac:(lia)) as [si Hsi].
  destruct (lookup_lt_is_Some_2 b j Hj) as [sj Hsj].
  unfold at_. rewrite Hsi, Hsj. simpl.
  pose proof (ordered_lookup_pos _ _ _ Ha Hsi) as Hpi.
  pose proof (ordered_lookup_pos _ _ _ Hb Hsj) as Hpj.
  assert (Hin_i : si ∈ a) by by eapply list_elem_of_lookup_2.
  assert (Hin_j : sj ∈ b) by by eapply list_elem_of_lookup_2.
  destruct (Z.ltb_spec (start sj) (start si)) as [Hsw|Hsw].
  - destruct (Z.ltb_spec (start si) (end_ sj)) as [Hov|Hov].
    + eexists. split; [done|]. split; [|done]. intros _.
      exists si, sj. repeat split; try done; lia.
    + destruct (IH b (j + 1) a i) as (r & Hr & Hiff);
        [done|done|lia|lia|lia| |by apply apart_sym|].
      * replace (j + 1) with (S j) by lia.
        eapply apart_take_S; [done|done|by apply apart_sym|].
        eapply (apart_from b a j i sj si); try done.
        by apply apart_sym.
      * exists r. split; [done|]. rewrite Hiff.
        split; apply segments_overlap_sym.
  - destruct (Z.ltb_spec (start sj) (end_ si)) as [Hov|Hov].
    + eexists. split; [done|]. split; [|done]. intros _.
      exists si, sj. repeat split; try done; lia.
    + destruct (IH a (i + 1) b j) as (r & Hr & Hiff);
        [done|done|lia|lia|lia| |done|].
      * replace (i + 1) with (S i) by lia.
        eapply apart_take_S; [done|done|done|].
        by eapply (apart_from a b i j si sj).
      * by exists r.
Qed.

(** X3. For two ranges that satisfy the ordering invariants and a hint
    that passes the assertion, [overlapsFrom] returns whether the ranges
    share a point. *)
Theorem overlapsFrom_shares_point l other StartPos :
  ordered l → ordered other → l ≠ [] → hint_ok l other StartPos →
  ∃ b, overlapsFrom l other StartPos = Ok b
       ∧ (b = true ↔ ∃ p v w, live_at l p v ∧ live_at other p w).
Proof.
  intros Hl Ho Hne (Hsp & Hhint).
  enough (∃ b, overlapsFrom l other StartPos = Ok b
               ∧ (b = true ↔ segments_overlap l other)) as (b & Hb & Hiff).
  { exists b. split; [done|]. rewrite Hiff.
    by apply segments_overlap_point. }
  unfold overlapsFrom.
  destruct l as [|s0 l'] eqn:El; [done|]. rewrite <- El in *.
  assert (Hs0 : l !! 0 = Some s0) by by rewrite El.
  assert (Hlen : length l ≠ 0) by (rewrite El; simpl; lia).
  rewrite (proj2 (Nat.eqb_neq _ _) Hlen). simpl.
  destruct (lookup_lt_is_Some_2 other StartPos Hsp) as [sp Hspl].
  unfold at_ at 1 2. rewrite Hs0, Hspl. simpl.
  assert (Hchk : ((start sp <=? start s0)%Z || (StartPos =? 0))
                 && negb (StartPos =? length other) = true).
  { apply andb_true_iff. split.
    - apply orb_true_iff. destruct Hhint as [->|(sp' & s0' & H1 & H2 & H3)].
      + by right.
      + left. rewrite El in H2. simpl in H2. apply Z.leb_le. congruence.
    - apply negb_true_iff, Nat.eqb_neq. lia. }
  rewrite Hchk. simpl.
  pose proof (ordered_lookup_pos _ _ _ Hl Hs0) as Hp0.
  pose proof (ordered_lookup_pos _ _ _ Ho Hspl) as Hpsp.
  assert (Hbefore : ∀ y, y ∈ take StartPos other →
                         (end_ y ≤ start sp)%Z).
  { intros y Hy. apply list_elem_of_lookup in Hy as [k Hk].
    pose proof (lookup_lt_Some _ _ _ Hk) as Hklt.
    rewrite length_take in Hklt.
    rewrite lookup_take_lt in Hk by lia.
    eapply (ordered_lookup_lt other k StartPos); eauto. lia. }
  assert (Hfirst : ∀ x, x ∈ l → (start s0 ≤ start x)%Z).
  { intros x Hx. apply list_elem_of_lookup in Hx as [k Hk].
    pose proof (ordered_lookup_le l 0 k s0 x Hl ltac:(lia) Hs0 Hk). lia. }
  destruct (Z.ltb_spec (start s0) (start sp)) as [Hlt|Hge].
  - (* the range starts first *)
    assert (StartPos = 0) as ->.
    { destruct Hhint as [->|(sp' & s0' & H1 & H2 & H3)]; [done|].
      rewrite El in H2. simpl in H2. simplify_eq. lia. }
    destruct (upper_bound_spec l (start sp) Hl) as (Hub & HF & HT).
    set (ub := upper_bound l (start sp)) in *.
    assert (Hub0 : ub ≠ 0).
    { intros Hz. rewrite Hz in HT. specialize (HT 0 s0 ltac:(lia) Hs0).
      bool_prop. lia. }
    rewrite (proj2 (Nat.eqb_neq _ _) Hub0). simpl.
    destruct (length other) as [|n] eqn:Eo; [lia|]. rewrite <- Eo.
    apply overlapsFrom_loop_spec; try done; try lia.
    + intros x y Hx Hy. left.
      apply list_elem_of_lookup in Hx as [k Hk].
      pose proof (lookup_lt_Some _ _ _ Hk) as Hklt.
      rewrite length_take in Hklt.
      rewrite lookup_take_lt in Hk by lia.
      destruct (lookup_lt_is_Some_2 l (ub - 1) ltac:(lia)) as [m Hm].
      pose proof (ordered_lookup_lt l k (ub - 1) x m Hl ltac:(lia) Hk Hm).
      pose proof (HF (ub - 1) m ltac:(lia) Hm) as Hms. bool_prop.
      apply list_elem_of_lookup in Hy as [k' Hk'].
      pose proof (ordered_lookup_le other 0 k' sp y Ho ltac:(lia) Hspl Hk').
      lia.
    + intros x y Hx Hy. rewrite take_0 in Hy. by apply elem_of_nil in Hy.
  - destruct (Z.ltb_spec (start sp) (start s0)) as [Hlt|Hge'].
    + (* the other range starts first *)
      assert (Hgoal : ∀ j, j < length other →
                (∀ y, y ∈ take j other → (end_ y ≤ start s0)%Z) →
                ∃ b, (if j =? length other then Ok false
                      else overlapsFrom_loop (length l + length other)
                             l 0 other j) = Ok b
                     ∧ (b = true ↔ segments_overlap l other)).
      { intros j Hj Hy.
        rewrite (proj2 (Nat.eqb_neq j (length other))) by lia.
        apply overlapsFrom_loop_spec; try done; try lia.
        - intros x y Hx. rewrite take_0 in Hx. by apply elem_of_nil in Hx.
        - intros x y Hx Hyj. right. specialize (Hy y Hyj).
          specialize (Hfirst x Hx). lia. }
      destruct (Nat.eqb_spec (StartPos + 1) (length other)) as [Hend|Hend];
        simpl.
      { apply Hgoal; [done|]. intros y Hy. specialize (Hbefore y Hy). lia. }
      destruct (lookup_lt_is_Some_2 other (StartPos + 1) ltac:(lia))
        as [n Hn].
      unfold at_. rewrite Hn. simpl.
      destruct (Z.leb_spec (start n) (start s0)) as [Hnle|Hngt]; simpl.
      2:{ apply Hgoal; [done|]. intros y Hy. specialize (Hbefore y Hy).
          lia. }
      rewrite (proj2 (Nat.ltb_lt (StartPos + 1) (length other))) by lia.
      rewrite (proj2 (Nat.ltb_lt 0 (length l))) by lia. simpl.
      assert (Hpp : partition_point (λ s, (start s0 <? start s)%Z) other
                (upper_bound_loop (length other - StartPos)
                   (λ s, (start s0 <? start s)%Z) other StartPos
                   (length other - StartPos))).
      { apply upper_bound_loop_spec.
        - intros i j a b Hij Hia Hjb Hp. bool_prop. apply Z.ltb_lt.
          pose proof (ordered_lookup_le other i j a b Ho Hij Hia Hjb). lia.
        - lia.
        - lia.
        - intros i a Hi Hia. apply Z.ltb_ge.
          pose proof (ordered_lookup_le other i StartPos a sp Ho ltac:(lia)
                        Hia Hspl). lia.
        - intros i a Hi Hia. apply lookup_lt_Some in Hia. lia. }
      destruct Hpp as (Hub & HF & HT).
      set (ub := upper_bound_loop _ _ _ _ _) in *.
      assert (Hub2 : StartPos + 2 ≤ ub).
      { destruct (Nat.lt_ge_cases (StartPos + 1) ub) as [?|Hc]; [lia|].
        specialize (HT (StartPos + 1) n Hc Hn). bool_prop. lia. }
      rewrite (proj2 (Nat.eqb_neq ub 0)) by lia. simpl.
      apply Hgoal; [lia|].
      intros y Hy. apply list_elem_of_lookup in Hy as [k Hk].
      pose proof (lookup_lt_Some _ _ _ Hk) as Hklt.
      rewrite length_take in Hklt.
      rewrite lookup_take_lt in Hk by lia.
      destruct (lookup_lt_is_Some_2 other (ub - 1) ltac:(lia)) as [m Hm].
      pose proof (ordered_lookup_lt other k (ub - 1) y m Ho ltac:(lia) Hk Hm).
      pose proof (HF (ub - 1) m ltac:(lia) Hm) as Hms. bool_prop. lia.
    + (* both start at the same slot *)
      eexists. split; [done|]. split; [|done]. intros _.
      exists s0, sp. split; [by eapply list_elem_of_lookup_2|].
      split; [by eapply list_elem_of_lookup_2|]. lia.
Qed.

(** The theorem holds of two ranges that touch at the slot 16. *)
Lemma overlapsFrom_shares_point_witness :
  ∃ b, overlapsFrom [mkSegment 0 16 1; mkSegment 20 36 2]
         [mkSegment 16 20 1] 0 = Ok b
       ∧ (b = true ↔
          ∃ p v w, live_at [mkSegment 0 16 1; mkSegment 20 36 2] p v
                   ∧ live_at [mkSegment 16 20 1] p w).
Proof.
  apply overlapsFrom_shares_point.
  - simpl. unfold seg_before. simpl. repeat split; lia.
  - simpl. lia.
  - done.
  - split; [simpl; lia|by left].
Defined.

(** ** What the mutations do to the live points *)

(** No point of the other segments of an ordered list lies in the segment
    [s]. *)
Lemma live_at_middle pre s post p v :
  ordered (pre ++ s :: post) → live_at (pre ++ post) p v →
  ¬ (start s ≤ p < end_ s)%Z.
Proof.
  intros Ho (x & Hx & Hpx & _) Hps.
  apply elem_of_app in Hx as [Hx|Hx].
  - assert (seg_before x s) as [? _]; [|lia].
    eapply ordered_app_before; [done..|]. by left.
  - apply ordered_app_inv in Ho as [_ Ho].
    pose proof (ordered_cons_lt _ _ Ho) as HF.
    rewrite Forall_forall in HF. specialize (HF x Hx). simpl in HF. lia.
Qed.

Lemma live_at_split pre s post p v :
  live_at (pre ++ s :: post) p v ↔
  live_at (pre ++ post) p v ∨ ((start s ≤ p < end_ s)%Z ∧ valno s = v).
Proof. rewrite !live_at_app, live_at_cons. tauto. Qed.

Lemma live_at_one s p v :
  live_at [s] p v ↔ (start s ≤ p < end_ s)%Z ∧ valno s = v.
Proof. rewrite live_at_cons, live_at_nil. tauto. Qed.

(** [removeSegment] on a range that satisfies the invariants: when it
    succeeds and what stays live. *)
Lemma removeSegment_points A lr Start End RemoveDeadValNo :
  LRInv A lr →
  (within_segment (segments lr) Start End →
   ∃ A' lr',
     removeSegment A lr Start End RemoveDeadValNo = Ok (A', lr')
     ∧ (∀ p v, live_at (segments lr') p v ↔
               live_at (segments lr) p v ∧ ¬ (Start ≤ p < End)%Z)
     ∧ (RemoveDeadValNo = false → A' = A ∧ valnos lr' = valnos lr))
  ∧ (¬ within_segment (segments lr) Start End →
     ∃ e, removeSegment A lr Start End RemoveDeadValNo = Err e).
Proof.
  intros HI. split.
  - intros Hw. pose proof HI as [Hv Ho Hval Ht Hh].
    destruct Hw as (Hlt & s & Hs & Hs1 & Hs2).
    apply list_elem_of_lookup in Hs as [i Hi].
    destruct (split_at _ _ _ Hi) as (pre & post & Hsegs & Hlen & _ & _).
    unfold removeSegment. rewrite Hsegs in *.
    pose proof (ordered_lookup_pos _ _ _ Ho Hi) as Hpos.
    rewrite (find_middle pre s post Start Ho); [|..|lia].
    2:{ intros a Ha. apply last_Some_elem_of in Ha.
        assert (seg_before a s) as [? _]; [|lia].
        eapply ordered_app_before; [done..|]. by left. }
    rewrite (proj2 (Nat.eqb_neq (length pre) (length (pre ++ s :: post))))
      by (rewrite length_app; simpl; lia).
    simpl. unfold at_. rewrite lookup_middle. simpl.
    unfold Segment_containsInterval.
    rewrite (proj2 (Z.ltb_lt _ _) Hlt). simpl.
    rewrite (proj2 (Z.leb_le _ _) Hs1), (proj2 (Z.leb_le _ _) Hs2).
    rewrite (proj2 (Z.ltb_lt Start (end_ s))) by lia.
    rewrite (proj2 (Z.ltb_lt (start s) End)) by lia. simpl.
    pose proof (live_at_middle pre s post) as Hmid.
    destruct (Z.eqb_spec (start s) Start) as [Hst|Hst].
    + destruct (Z.eqb_spec (end_ s) End) as [Hen|Hen].
      * (* the whole segment goes *)
        pose proof (erase_middle pre post s) as Her.
        assert (Hlive : ∀ p v, live_at (pre ++ post) p v ↔
                  live_at (pre ++ s :: post) p v ∧ ¬ (Start ≤ p < End)%Z).
        { intros p v. rewrite live_at_split. specialize (Hmid p v Ho).
          split; [intros H; split; [by left|]; subst; auto|].
          intros [[H|[H _]] Hn]; [done|]. subst. lia. }
        destruct (RemoveDeadValNo
                  && negb (valno_used_elsewhere (pre ++ s :: post)
                             (length pre) (valno s))) eqn:Hdead.
        -- bool_prop.
           apply Forall_app in Ht as [Ht1 [Hts Ht2]%Forall_cons].
           destruct (markValNoForDeletion_spec A (valnos lr) (valno s) Hh)
             as (A' & vs' & Hm & Hmark); [by apply vn_live_in_table|].
           rewrite Hm. simpl. rewrite Her. eexists _, _. split; [done|].
           simpl. split; [done|]. intros ->. done.
        -- simpl. rewrite Her. eexists _, _. split; [done|]. by split.
      * (* a prefix goes *)
        rewrite insert_middle. eexists _, _. split; [done|].
        simpl. split; [|done]. intros p v.
        rewrite !live_at_split. simpl. specialize (Hmid p v Ho).
        split.
        -- intros [H|[H <-]]; [split; [by left|]; intros ?; apply Hmid; [done|lia]|].
           split; [right; split; [lia|done]|lia].
        -- intros [[H|[H <-]] Hn]; [by left|]. right. split; [lia|done].
    + destruct (Z.eqb_spec (end_ s) End) as [Hen|Hen].
      * (* a suffix goes *)
        rewrite insert_middle. eexists _, _. split; [done|].
        simpl. split; [|done]. intros p v.
        rewrite !live_at_split. simpl. specialize (Hmid p v Ho).
        split.
        -- intros [H|[H <-]]; [split; [by left|]; intros ?; apply Hmid; [done|lia]|].
           split; [right; split; [lia|done]|lia].
        -- intros [[H|[H <-]] Hn]; [by left|]. right. split; [lia|done].
      * (* the segment is split in two *)
        unfold Segment_new. rewrite (proj2 (Z.ltb_lt End (end_ s))) by lia.
        simpl. rewrite insert_middle, insert_at_next.
        eexists _, _. split; [done|].
        simpl. split; [|done]. intros p v.
        rewrite (live_at_split pre s post).
        rewrite (live_at_split pre (set_end s Start)).
        rewrite (live_at_split pre (mkSegment End (end_ s) (valno s)) post).
        simpl.
        specialize (Hmid p v Ho).
        split.
        -- intros [[H|[H <-]]|[H <-]].
           ++ split; [by left|]. intros ?. apply Hmid; [done|lia].
           ++ split; [right; split; [lia|done]|lia].
           ++ split; [right; split; [lia|done]|lia].
        -- intros [[H|[H <-]] Hn]; [by left; left|].
           destruct (Z.lt_ge_cases p Start).
           ++ right. split; [lia|done].
           ++ left. right. split; [lia|done].
  - intros Hn. destruct (removeSegment A lr Start End RemoveDeadValNo)
      as [[A' lr']|e] eqn:Hrun; [|by eexists].
    exfalso. apply Hn. unfold removeSegment in Hrun.
    inv_res. unfold Segment_containsInterval in *. inv_res. bool_prop.
    subst. bool_prop.
    split; [done|]. eexists. split; [by eapply list_elem_of_lookup_2|].
    lia.
Qed.

(** X4. On a range that satisfies the invariants, [removeSegment(Start,
    End)] succeeds exactly when [Start, End) is a forward interval inside
    one segment; the points that stay live are those outside
    [Start, End), with their values, and the value table is untouched
    unless dead values are to be removed. *)
Theorem removeSegment_live A lr Start End RemoveDeadValNo :
  LRInv A lr →
  (within_segment (segments lr) Start End →
   ∃ A' lr',
     removeSegment A lr Start End RemoveDeadValNo = Ok (A', lr')
     ∧ (∀ p v, live_at (segments lr') p v ↔
               live_at (segments lr) p v ∧ ¬ (Start ≤ p < End)%Z)
     ∧ (RemoveDeadValNo = false → A' = A ∧ valnos lr' = valnos lr))
  ∧ (¬ within_segment (segments lr) Start End →
     ∃ e, removeSegment A lr Start End RemoveDeadValNo = Err e).
Proof. apply removeSegment_points. Qed.

(** The theorem holds of the removal of [4, 8) from the segment [0, 12). *)
Lemma removeSegment_live_witness :
  ∃ A' lr',
    removeSegment [VNInfo.mk 0 0 false false]
      (mkLiveRange [mkSegment 0 12 1] [1] None) 4 8 true = Ok (A', lr')
    ∧ (∀ p v, live_at (segments lr') p v ↔
              live_at [mkSegment 0 12 1] p v ∧ ¬ (4 ≤ p < 8)%Z)
    ∧ (true = false → A' = [VNInfo.mk 0 0 false false]
                      ∧ valnos lr' = [1]).
Proof.
  apply (removeSegment_live [VNInfo.mk 0 0 false false]
           (mkLiveRange [mkSegment 0 12 1] [1] None) 4 8 true).
  - concrete_LRInv.
  - split; [lia|]. exists (mkSegment 0 12 1).
    split; [by left|]. simpl. lia.
Defined.

(** ** The value [createDeadDef] returns *)

Lemma isSameInstr_sym a b : isSameInstr a b = isSameInstr b a.
Proof. unfold isSameInstr. apply Z.eqb_sym. Qed.

Lemma isSameInstr_refl a : isSameInstr a a = true.
Proof. unfold isSameInstr. apply Z.eqb_refl. Qed.

Lemma same_instr_dead_slot a b :
  isSameInstr a b = true → (b ≤ getDeadSlot a)%Z.
Proof.
  unfold isSameInstr, getDeadSlot. intros H%Z.eqb_eq.
  pose proof (Z.mod_pos_bound b 4 ltac:(lia)).
  pose proof (Z.div_mod b 4 ltac:(lia)). lia.
Qed.

(** X5. Under the invariants and the precondition of [createDeadDef], the
    call returns a value that is live at [Def]; the value is defined at
    or before [Def], in the same instruction, and is live from its def
    on; every point that was live stays live with its value, and the
    only new points are points of the returned value in the instruction
    of [Def]. *)
Theorem createDeadDef_defines A lr Def :
  LRInv A lr → createDeadDef_pre A lr Def →
  ∃ A' lr' V w,
    LiveRange_createDeadDef A lr Def = Ok (A', lr', V)
    ∧ deref A' V = Ok w
    ∧ (VNInfo.def w ≤ Def)%Z ∧ isSameInstr (VNInfo.def w) Def = true
    ∧ live_at (segments lr') (VNInfo.def w) V
    ∧ live_at (segments lr') Def V
    ∧ (∀ p u, live_at (segments lr) p u → live_at (segments lr') p u)
    ∧ (∀ p u, live_at (segments lr') p u →
         live_at (segments lr) p u
         ∨ (u = V ∧ (VNInfo.def w ≤ p < getDeadSlot Def)%Z)).
Proof.
  intros [Hv Ho Hval Ht Hh] (Hdef & Hdead & Hfirst).
  unfold LiveRange_createDeadDef. rewrite Hv.
  destruct (find_split (segments lr) Def Ho)
    as (pre & post & Hsegs & Hfind & Hpre & Hpost).
  unfold first_after in Hfirst. rewrite Hfind, Hsegs in Hfirst.
  rewrite Hsegs in *.
  pose proof (dead_slot_after Def Hdead) as Hds.
  destruct post as [|s post].
  - (* no segment ends after Def *)
    rewrite app_nil_r in *. rewrite createDeadDef_at_end by done. simpl.
    eexists _, _, _, _. split; [done|].
    split; [apply deref_alloc_new|]. simpl.
    split; [lia|]. split; [apply isSameInstr_refl|].
    assert (Hl : live_at (pre ++ [mkSegment Def (getDeadSlot Def)
                                     (S (length A))]) Def (S (length A))).
    { apply live_at_app. right. apply live_at_one. simpl. split; [lia|done]. }
    split; [done|]. split; [done|]. split.
    + intros p u H. apply live_at_app. by left.
    + intros p u [H|H%live_at_one]%live_at_app; [by left|].
      simpl in H. right. split; [by destruct H|lia].
  - apply Forall_cons in Hpost as [Hs Hpost].
    rewrite lookup_middle in Hfirst. specialize (Hfirst s eq_refl).
    destruct (isSameInstr Def (start s)) eqn:Hsame.
    + (* the definition moves to the earlier slot *)
      destruct Hfirst as [(v & Hdv & Hvd) Htouch].
      rewrite (createDeadDef_promote A (valnos lr) pre s post Def v)
        by done.
      simpl.
      assert (Hw : ∃ w, deref
                (if (Z.min Def (start s) =? start s)%Z then A
                 else store A (valno s)
                        (VNInfo.set_def v (Z.min Def (start s))))
                (valno s) = Ok w ∧ VNInfo.def w = Z.min Def (start s)).
      { destruct (Z.eqb_spec (Z.min Def (start s)) (start s)) as [He|He].
        - exists v. split; [done|]. lia.
        - eexists. split; [by eapply deref_store_eq|]. done. }
      destruct Hw as (w & Hw & Hwd).
      eexists _, _, _, w. split; [done|]. split; [exact Hw|].
      rewrite Hwd. split; [lia|]. split.
      { destruct (Z.min_spec Def (start s)) as [[? ->]|[? ->]];
          [apply isSameInstr_refl|by rewrite isSameInstr_sym]. }
      pose proof (ordered_lookup_pos _ _ _ Ho (lookup_middle pre post s))
        as Hpos.
      split; [|split; [|split]].
      * apply live_at_split. right. simpl. split; [lia|done].
      * apply live_at_split. right. simpl. split; [lia|done].
      * intros p u. simpl. rewrite !live_at_split. simpl.
        intros [H|[H <-]]; [by left|]. right. split; [lia|done].
      * intros p u. simpl. rewrite !live_at_split. simpl.
        intros [H|[H <-]]; [by left; left|].
        destruct (Z.lt_ge_cases p (start s)).
        -- right. split; [done|].
           pose proof (same_instr_dead_slot _ _ Hsame). lia.
        -- left. right. split; [lia|done].
    + (* a new value is defined before the segment *)
      rewrite createDeadDef_before by done. simpl.
      eexists _, _, _, _. split; [done|].
      split; [apply deref_alloc_new|]. simpl.
      split; [lia|]. split; [apply isSameInstr_refl|].
      assert (Hl : live_at (pre ++ mkSegment Def (getDeadSlot Def)
                                     (S (length A)) :: s :: post)
                     Def (S (length A))).
      { apply live_at_split. right. simpl. split; [lia|done]. }
      split; [done|]. split; [done|]. split.
      * intros p u H. apply live_at_split. by left.
      * intros p u [H|[H <-]]%live_at_split; [by left|].
        simpl in H. right. split; [done|lia].
Qed.

(** The theorem holds of a def at the early-clobber slot of an
    instruction whose register slot starts a segment. *)
Lemma createDeadDef_defines_witness :
  ∃ A' lr' V w,
    LiveRange_createDeadDef [VNInfo.mk 0 10 false false]
      (mkLiveRange [mkSegment 10 12 1] [1] None) 9 = Ok (A', lr', V)
    ∧ deref A' V = Ok w
    ∧ (VNInfo.def w ≤ 9)%Z ∧ isSameInstr (VNInfo.def w) 9 = true
    ∧ live_at (segments lr') (VNInfo.def w) V
    ∧ live_at (segments lr') 9 V
    ∧ (∀ p u, live_at [mkSegment 10 12 1] p u → live_at (segments lr') p u)
    ∧ (∀ p u, live_at (segments lr') p u →
         live_at [mkSegment 10 12 1] p u
         ∨ (u = V ∧ (VNInfo.def w ≤ p < getDeadSlot 9)%Z)).
Proof.
  apply (createDeadDef_defines [VNInfo.mk 0 10 false false]
           (mkLiveRange [mkSegment 10 12 1] [1] None) 9).
  - concrete_LRInv.
  - split; [lia|]. split; [done|].
    intros s Hs. vm_compute in Hs. injection Hs as <-.
    change (isSameInstr 9 (start (mkSegment 10 12 1))) with true.
    simpl. split; [by eexists|].
    intros a Ha%list_elem_of_singleton He. subst. simpl in He. lia.
Defined.

(** ** The table [RenumberValues] builds *)

Lemma in_order_seen done vs s :
  in_order_of_appearance done vs → valno s ∈ vs →
  in_order_of_appearance (done ++ [s]) vs.
Proof.
  intros (Hnd & Hmem & Hord) Hin. split; [done|]. split.
  - intros p. rewrite Hmem. split.
    + intros (x & Hx & ?). exists x. split; [|done].
      apply elem_of_app. by left.
    + intros (x & [Hx|Hx%list_elem_of_singleton]%elem_of_app & Hp).
      * by exists x.
      * subst. by apply Hmem.
  - intros i j p q Hij Hi Hj.
    destruct (Hord i j p q Hij Hi Hj) as (k & x & Hk & Hx & Hbefore).
    exists k, x. split; [by apply lookup_app_l_Some|]. split; [done|].
    intros k' s' Hk' Hs'. apply (Hbefore k' s' Hk').
    pose proof (lookup_lt_Some _ _ _ Hk).
    rewrite lookup_app_l in Hs' by lia. done.
Qed.

Lemma in_order_new done vs s :
  in_order_of_appearance done vs → valno s ∉ vs →
  in_order_of_appearance (done ++ [s]) (vs ++ [valno s]).
Proof.
  intros (Hnd & Hmem & Hord) Hin. split; [|split].
  - apply NoDup_app. split; [done|]. split; [|apply NoDup_singleton].
    intros x Hx ->%list_elem_of_singleton. done.
  - intros p. rewrite !elem_of_app, list_elem_of_singleton, Hmem. split.
    + intros [(x & Hx & ?)| ->].
      * exists x. split; [|done]. apply elem_of_app. by left.
      * exists s. split; [|done]. apply elem_of_app. right. by left.
    + intros (x & [Hx|Hx%list_elem_of_singleton]%elem_of_app & Hp).
      * left. by exists x.
      * right. by subst.
  - intros i j p q Hij Hi Hj.
    pose proof (lookup_lt_Some _ _ _ Hj) as Hjlt.
    rewrite length_app in Hjlt. simpl in Hjlt.
    assert (Hi' : vs !! i = Some p).
    { rewrite lookup_app_l in Hi by lia. done. }
    destruct (Nat.lt_ge_cases j (length vs)) as [Hjv|Hjv].
    + rewrite lookup_app_l in Hj by done.
      destruct (Hord i j p q Hij Hi' Hj) as (k & x & Hk & Hx & Hbefore).
      exists k, x. split; [by apply lookup_app_l_Some|]. split; [done|].
      intros k' s' Hk' Hs'. apply (Hbefore k' s' Hk').
      pose proof (lookup_lt_Some _ _ _ Hk).
      rewrite lookup_app_l in Hs' by lia. done.
    + assert (j = length vs) as -> by lia.
      rewrite lookup_app_r, Nat.sub_diag in Hj by lia.
      injection Hj as <-.
      assert (p ∈ vs) as (x & Hx & Hp)%Hmem by by eapply list_elem_of_lookup_2.
      apply list_elem_of_lookup in Hx as [k Hk].
      exists k, x. split; [by apply lookup_app_l_Some|]. split; [done|].
      intros k' s' Hk' Hs' Heq.
      pose proof (lookup_lt_Some _ _ _ Hk).
      rewrite lookup_app_l in Hs' by lia.
      apply Hin, Hmem. exists s'. split; [by eapply list_elem_of_lookup_2|done].
Qed.

Lemma RenumberValues_loop_order l : ∀ done A vs (Seen : gset nat) A' vs',
  (∀ p, p ∈ Seen ↔ p ∈ vs) →
  in_order_of_appearance done vs →
  RenumberValues_loop A vs Seen l = Ok (A', vs') →
  in_order_of_appearance (done ++ l) vs'.
Proof.
  induction l as [|s l IH]; intros done A vs Seen A' vs' Hseen Hin Hrun.
  - simpl in Hrun. injection Hrun as <- <-. by rewrite app_nil_r.
  - simpl in Hrun. rewrite (cons_middle s done l), app_assoc.
    case_bool_decide as Hs.
    + eapply IH; [exact Hseen| |exact Hrun].
      apply in_order_seen; [done|]. by apply Hseen.
    + inv_res. eapply IH; [| |exact Hrun].
      * intros p. rewrite elem_of_union, elem_of_singleton, elem_of_app,
          list_elem_of_singleton, Hseen. tauto.
      * apply in_order_new; [done|]. by rewrite <- Hseen.
Qed.

(** X6. On a range that satisfies the invariants, [RenumberValues]
    leaves the segments as they are and rebuilds the table: it lists the
    values of the segments, each once, in the order in which they first
    appear, and every entry has its position as its id and is not flagged
    unused. *)
Theorem RenumberValues_table A lr :
  LRInv A lr →
  ∃ A' lr',
    RenumberValues A lr = Ok (A', lr')
    ∧ segments lr' = segments lr
    ∧ in_order_of_appearance (segments lr) (valnos lr')
    ∧ (∀ i p, valnos lr' !! i = Some p →
         ∃ v, deref A' p = Ok v ∧ VNInfo.id v = i
              ∧ VNInfo.unused v = false).
Proof.
  intros [Hv Ho Hval Ht Hh]. unfold RenumberValues.
  destruct (RenumberValues_loop_spec (segments lr) A [] ∅)
    as (A' & vs' & Hrun & Hid & _ & _).
  { intros p. rewrite elem_of_nil. set_solver. }
  { intros i p Hi. done. }
  { eapply Forall_impl; [exact Ht|]. intros s (v & Hd & _ & Hu).
    right. by exists v. }
  rewrite Hrun. simpl. eexists _, _. split; [done|]. simpl.
  split; [done|]. split; [|done].
  apply (RenumberValues_loop_order (segments lr) [] A [] ∅ A' vs');
    [|split; [constructor|split]|done].
  - intros p. rewrite elem_of_nil. set_solver.
  - intros p. rewrite elem_of_nil. split; [done|].
    intros (s & Hs & _). by apply elem_of_nil in Hs.
  - intros i j p q _ Hi. done.
Qed.

(** The theorem holds of a range whose second value appears first. *)
Lemma RenumberValues_table_witness :
  ∃ A' lr',
    RenumberValues [VNInfo.mk 0 8 false false; VNInfo.mk 1 0 false false]
      (mkLiveRange [mkSegment 0 4 2; mkSegment 8 12 1] [1; 2] None)
    = Ok (A', lr')
    ∧ valnos lr' = [2; 1].
Proof.
  destruct (RenumberValues_table
              [VNInfo.mk 0 8 false false; VNInfo.mk 1 0 false false]
              (mkLiveRange [mkSegment 0 4 2; mkSegment 8 12 1] [1; 2] None))
    as (A' & lr' & Hrun & _).
  - concrete_LRInv.
  - exists A', lr'. split; [exact Hrun|].
    vm_compute in Hrun. by injection Hrun as <- <-.
Defined.

(** ** The segment set and the segment vector *)

Lemma Segment_lt_spec a b :
  Segment_lt a b = true ↔
  (start a < start b)%Z ∨ (start a = start b ∧ (end_ a < end_ b)%Z).
Proof.
  unfold Segment_lt. rewrite orb_true_iff, andb_true_iff, !Z.ltb_lt, Z.eqb_eq.
  tauto.
Qed.

(** [set_upper_bound] stops at the first element greater than the key. *)
Lemma set_upper_bound_spec l S0 :
  set_upper_bound l S0 ≤ length l
  ∧ (∀ i a, i < set_upper_bound l S0 → l !! i = Some a →
            Segment_lt S0 a = false)
  ∧ (∀ a, l !! set_upper_bound l S0 = Some a → Segment_lt S0 a = true).
Proof.
  induction l as [|s l (IH1 & IH2 & IH3)]; simpl.
  - split; [lia|]. split; intros; done.
  - destruct (Segment_lt S0 s) eqn:Hs.
    + split; [lia|]. split; [intros; lia|]. by intros a [= <-].
    + split; [lia|]. split.
      * intros [|i] a Hi Ha; simpl in Ha; [by injection Ha as <-|].
        apply (IH2 i); [lia|done].
      * intros a Ha. simpl in Ha. by apply IH3.
Qed.

(** The position of a key that lies between the segments before [I] and
    those from [I] on. *)
Lemma set_upper_bound_at l S0 I :
  I ≤ length l →
  (∀ i a, i < I → l !! i = Some a → Segment_lt S0 a = false) →
  (∀ a, l !! I = Some a → Segment_lt S0 a = true) →
  set_upper_bound l S0 = I.
Proof.
  intros HI HF HT.
  destruct (set_upper_bound_spec l S0) as (H1 & H2 & H3).
  destruct (Nat.lt_trichotomy (set_upper_bound l S0) I) as [Hlt|[?|Hlt]];
    [|done|].
  - destruct (lookup_lt_is_Some_2 l (set_upper_bound l S0) ltac:(lia))
      as [a Ha].
    specialize (H3 a Ha). specialize (HF _ a Hlt Ha). congruence.
  - destruct (lookup_lt_is_Some_2 l I ltac:(lia)) as [a Ha].
    specialize (HT a Ha). specialize (H2 _ a Hlt Ha). congruence.
Qed.

Lemma set_find_vector l Pos : ordered l → set_find l Pos = find l Pos.
Proof.
  intros Ho. symmetry. unfold set_find.
  destruct (set_upper_bound_spec l (mkSegment Pos (getNextSlot Pos) nullptr))
    as (Hlen & HF & HT).
  set (I := set_upper_bound l _) in *.
  assert (HT' : ∀ a, l !! I = Some a → (Pos < end_ a)%Z).
  { intros a Ha. specialize (HT a Ha). apply Segment_lt_spec in HT.
    pose proof (ordered_lookup_pos _ _ _ Ho Ha). simpl in HT.
    unfold getNextSlot in HT. lia. }
  destruct (Nat.eqb_spec I 0) as [HI|HI].
  { apply find_unique; [done|lia|intros; lia|done]. }
  destruct (lookup_lt_is_Some_2 l (I - 1) ltac:(lia)) as [P HP].
  rewrite HP.
  destruct (Z.ltb_spec Pos (end_ P)) as [Hlt|Hge].
  - apply find_unique; [done|lia| |].
    + intros j a Hj Ha.
      pose proof (ordered_lookup_lt l j (I - 1) a P Ho Hj Ha HP).
      pose proof (HF (I - 1) P ltac:(lia) HP) as HFP.
      destruct (Segment_lt _ P) eqn:E; [done|].
      assert (¬ ((Pos < start P)%Z
                 ∨ (Pos = start P ∧ (getNextSlot Pos < end_ P)%Z))) as Hn.
      { intros Hc.
        apply (Segment_lt_spec (mkSegment Pos (getNextSlot Pos) nullptr) P)
          in Hc.
        congruence. }
      lia.
    + intros a Ha. by simplify_eq.
  - apply find_unique; [done|lia| |done].
    intros j a Hj Ha.
    pose proof (ordered_lookup_le l j (I - 1) a P Ho ltac:(lia) Ha HP). lia.
Qed.

Lemma set_findInsertPos_vector l S0 :
  ordered l → set_findInsertPos l S0 = upper_bound l (start S0).
Proof.
  intros Ho.
  apply (partition_point_unique (λ s, (start S0 <? start s)%Z) l);
    [|by apply upper_bound_spec].
  unfold set_findInsertPos.
  destruct (set_upper_bound_spec l S0) as (Hlen & HF & HT).
  set (I := set_upper_bound l S0) in *.
  assert (HF' : ∀ i a, i < I → l !! i = Some a → (start a ≤ start S0)%Z).
  { intros i a Hi Ha. specialize (HF i a Hi Ha).
    destruct (Z.le_gt_cases (start a) (start S0)); [done|].
    assert (Segment_lt S0 a = true); [|congruence].
    apply Segment_lt_spec. lia. }
  destruct (l !! I) as [s|] eqn:Hs.
  - specialize (HT s eq_refl). apply Segment_lt_spec in HT.
    pose proof (ordered_lookup_pos _ _ _ Ho Hs) as Hpos.
    destruct (Z.ltb_spec (start S0) (start s)) as [Hlt|Hge]; simpl.
    + split; [done|]. split.
      * intros i a Hi Ha. apply Z.ltb_ge. by eapply HF'.
      * intros i a Hi Ha. apply Z.ltb_lt.
        pose proof (ordered_lookup_le l I i s a Ho Hi Hs Ha). lia.
    + apply lookup_lt_Some in Hs as Hlt. split; [lia|]. split.
      * intros i a Hi Ha. apply Z.ltb_ge.
        destruct (decide (i = I)) as [->|]; [by simplify_eq; lia|].
        apply (HF' i); [lia|done].
      * intros i a Hi Ha. apply Z.ltb_lt.
        pose proof (ordered_lookup_lt l I i s a Ho ltac:(lia) Hs Ha). lia.
  - apply lookup_ge_None in Hs. split; [done|]. split.
    + intros i a Hi Ha. apply Z.ltb_ge. by eapply HF'.
    + intros i a Hi Ha. apply lookup_lt_Some in Ha. lia.
Qed.

(** X7. On a collection that satisfies the ordering invariants, the
    searches of the segment set return the positions the searches of the
    segment vector return: [find] the first segment that ends after the
    slot, [findInsertPos] the first segment that starts after the start
    of the key. *)
Theorem set_searches_agree l :
  ordered l →
  (∀ Pos, @impl_find CalcLiveRangeUtilSet l Pos
          = @impl_find CalcLiveRangeUtilVector l Pos)
  ∧ (∀ S0, @impl_findInsertPos CalcLiveRangeUtilSet l S0
           = @impl_findInsertPos CalcLiveRangeUtilVector l S0)
  ∧ (∀ Pos, partition_point (λ s, (Pos <? end_ s)%Z) l (set_find l Pos))
  ∧ (∀ S0, partition_point (λ s, (start S0 <? start s)%Z) l
             (set_findInsertPos l S0)).
Proof.
  intros Ho. split; [|split; [|split]].
  - intros Pos. by apply set_find_vector.
  - intros S0. by apply set_findInsertPos_vector.
  - intros Pos. rewrite set_find_vector by done. by apply find_spec.
  - intros S0. rewrite set_findInsertPos_vector by done.
    by apply upper_bound_spec.
Qed.

(** The theorem holds of a range with a hole between 16 and 20. *)
Lemma set_searches_agree_witness :
  set_find [mkSegment 0 16 1; mkSegment 20 36 2] 18
  = find [mkSegment 0 16 1; mkSegment 20 36 2] 18
  ∧ set_findInsertPos [mkSegment 0 16 1; mkSegment 20 36 2]
      (mkSegment 20 24 2)
    = upper_bound [mkSegment 0 16 1; mkSegment 20 36 2] 20.
Proof.
  destruct (set_searches_agree [mkSegment 0 16 1; mkSegment 20 36 2])
    as (H1 & H2 & _).
  - simpl. unfold seg_before. simpl. repeat split; lia.
  - split; [apply H1|apply (H2 (mkSegment 20 24 2))].
Defined.

(** *** The algorithms on both collections *)

(** The set takes a new segment at the position [I] when the segments
    before [I] start before it and those from [I] on start after it. *)
Lemma set_insert_at l S0 I :
  I ≤ length l →
  (∀ i a, i < I → l !! i = Some a → (start a < start S0)%Z) →
  (∀ a, l !! I = Some a → (start S0 < start a)%Z) →
  set_insert l S0 = (insert_at l I S0, I).
Proof.
  intros HI HF HT. unfold set_insert.
  rewrite (set_upper_bound_at l S0 I); [|done| |].
  - destruct (Nat.eqb_spec I 0) as [Hz|Hnz]; [done|].
    destruct (lookup_lt_is_Some_2 l (I - 1) ltac:(lia)) as [P HP].
    rewrite HP.
    assert (Segment_lt P S0 = true) as ->; [|done].
    apply Segment_lt_spec. left. apply (HF (I - 1)); [lia|done].
  - intros i a Hi Ha. specialize (HF i a Hi Ha).
    destruct (Segment_lt S0 a) eqn:E; [|done].
    apply Segment_lt_spec in E. lia.
  - intros a Ha. apply Segment_lt_spec. left. by apply HT.
Qed.

(** The backward scan stops at once when the segment before [I] starts
    before the new start. *)
Lemma startTo_scan_prev ValNo NewStart coll I s p :
  coll !! S I = Some s → valno s = ValNo → coll !! I = Some p →
  (start p < NewStart)%Z →
  startTo_scan ValNo NewStart coll (S I) = Ok (Some I).
Proof.
  intros Hs Hv Hp Hlt. simpl. unfold at_. rewrite Hs, Hp. simpl.
  rewrite (proj2 (Nat.eqb_eq _ _) Hv). simpl.
  by rewrite (proj2 (Z.leb_gt _ _) Hlt).
Qed.

Lemma extendSegmentStartTo_agree coll I NewStart :
  (∀ p, I ≠ 0 → coll !! (I - 1) = Some p → (start p < NewStart)%Z) →
  @extendSegmentStartTo CalcLiveRangeUtilSet coll I NewStart
  = @extendSegmentStartTo CalcLiveRangeUtilVector coll I NewStart.
Proof.
  intros Hprev. unfold extendSegmentStartTo.
  destruct (check (I <? length coll) AssertionFailed) as [[]|e] eqn:Hc;
    [|done].
  simpl. apply check_Ok in Hc. bool_prop.
  destruct (lookup_lt_is_Some_2 coll I Hc) as [s Hs].
  assert (Hat : at_ coll I = Ok s) by by apply at_Ok.
  rewrite Hat. simpl.
  destruct I as [|I]; [reflexivity|].
  destruct (lookup_lt_is_Some_2 coll I ltac:(lia)) as [p Hp].
  rewrite (startTo_scan_prev (valno s) NewStart coll I s p); try done.
  apply Hprev; [done|]. by rewrite Nat.sub_1_r.
Qed.

Lemma addSegment_agree coll S0 :
  ordered coll →
  @addSegment CalcLiveRangeUtilSet coll S0
  = @addSegment CalcLiveRangeUtilVector coll S0.
Proof.
  intros Ho. unfold addSegment.
  change (@impl_findInsertPos CalcLiveRangeUtilSet coll S0)
    with (set_findInsertPos coll S0).
  change (@impl_findInsertPos CalcLiveRangeUtilVector coll S0)
    with (upper_bound coll (start S0)).
  rewrite set_findInsertPos_vector by done.
  destruct (upper_bound_spec coll (start S0) Ho) as (Hlen & HF & HT).
  set (I := upper_bound coll (start S0)) in *.
  match goal with
  | |- bind ?m _ = bind ?m _ => destruct m as [[res|]|e] eqn:Hfirst
  end; simpl; [done| |done].
  (* the segment before the insert position starts before the new one *)
  assert (Hprev : ∀ p, I ≠ 0 → coll !! (I - 1) = Some p →
                       (start p < start S0)%Z).
  { intros p HI Hp. rewrite (proj2 (Nat.eqb_neq _ _) HI) in Hfirst.
    simpl in Hfirst. unfold at_ in Hfirst. rewrite Hp in Hfirst.
    simpl in Hfirst.
    pose proof (ordered_lookup_pos _ _ _ Ho Hp) as Hpos.
    pose proof (HF (I - 1) p ltac:(lia) Hp) as Hle. bool_prop.
    destruct (valno S0 =? valno p).
    - destruct ((start p <=? start S0)%Z && (start S0 <=? end_ p)%Z)
        eqn:Hc.
      + destruct (extendSegmentEndTo coll (I - 1) (end_ S0)); done.
      + bool_prop. destruct Hc; bool_prop; lia.
    - inv_res. bool_prop. lia. }
  assert (Hbefore : ∀ i a, i < I → coll !! i = Some a →
                           (start a < start S0)%Z).
  { intros i a Hi Ha.
    destruct (lookup_lt_is_Some_2 coll (I - 1) ltac:(lia)) as [p Hp].
    pose proof (ordered_lookup_le coll i (I - 1) a p Ho ltac:(lia) Ha Hp).
    specialize (Hprev p ltac:(lia) Hp). lia. }
  assert (Hins : set_insert coll S0 = (insert_at coll I S0, I)).
  { apply set_insert_at; [done|done|].
    intros a Ha. specialize (HT I a ltac:(lia) Ha). by bool_prop. }
  rewrite (extendSegmentStartTo_agree coll I (start S0) Hprev).
  by rewrite Hins.
Qed.

Lemma createDeadDef_agree A vs coll Def :
  ordered coll →
  @createDeadDef CalcLiveRangeUtilSet A vs coll Def
  = @createDeadDef CalcLiveRangeUtilVector A vs coll Def.
Proof.
  intros Ho. unfold createDeadDef.
  change (@impl_find CalcLiveRangeUtilSet coll Def) with (set_find coll Def).
  change (@impl_find CalcLiveRangeUtilVector coll Def) with (find coll Def).
  rewrite set_find_vector by done.
  destruct (find_spec coll Def Ho) as (Hlen & HF & HT).
  set (I := find coll Def) in *.
  destruct (check (negb (isDead Def)) DeadSlotDef) as [[]|e] eqn:Hc; [|done].
  simpl. apply check_Ok in Hc.
  assert (Hbefore : ∀ i a, i < I → coll !! i = Some a → (start a < Def)%Z).
  { intros i a Hi Ha. specialize (HF i a Hi Ha).
    pose proof (ordered_lookup_pos _ _ _ Ho Ha). bool_prop. lia. }
  destruct (Nat.eqb_spec I (length coll)) as [HI|HI].
  - (* the new segment goes to the end *)
    unfold getNextValue, alloc, Segment_new.
    destruct (check (Def <? getDeadSlot Def)%Z InvalidSegment) as [[]|e];
      [|done].
    simpl. rewrite (set_insert_at coll _ (length coll)); [|done| |].
    + simpl. by rewrite insert_at_end.
    + simpl. rewrite <- HI. done.
    + intros a Ha. apply lookup_lt_Some in Ha. lia.
  - destruct (lookup_lt_is_Some_2 coll I ltac:(lia)) as [s Hs].
    unfold at_. rewrite Hs. simpl.
    destruct (isSameInstr Def (start s)); [done|].
    destruct (check (isEarlierInstr Def (start s)) AssertionFailed)
      as [[]|e] eqn:He; [|done].
    simpl. apply check_Ok in He.
    unfold getNextValue, alloc, Segment_new.
    destruct (check (Def <? getDeadSlot Def)%Z InvalidSegment) as [[]|e];
      [|done].
    simpl. rewrite (set_insert_at coll _ I); [done|done|done|].
    intros a Ha. simplify_eq. simpl.
    pose proof (dead_slot_earlier _ _ He).
    pose proof (dead_slot_after Def ltac:(by bool_prop)). lia.
Qed.

Lemma extendInBlock_agree coll StartIdx Use :
  ordered coll →
  @extendInBlock CalcLiveRangeUtilSet coll StartIdx Use
  = @extendInBlock CalcLiveRangeUtilVector coll StartIdx Use.
Proof.
  intros Ho. unfold extendInBlock.
  destruct (length coll =? 0); [done|].
  destruct (Segment_new (getPrevSlot Use) Use nullptr) as [Key|e]; [|done].
  simpl.
  change (@impl_findInsertPos CalcLiveRangeUtilSet coll Key)
    with (set_findInsertPos coll Key).
  by rewrite set_findInsertPos_vector.
Qed.

(** X8. On a collection that satisfies the ordering invariants, the
    algorithms of [CalcLiveRangeUtilBase] give the same result, whether
    they run on the segment set or on the segment vector: the same
    segments, the same position or value, the same failed assertion. *)
Theorem set_algorithms_agree coll :
  ordered coll →
  (∀ S0, @addSegment CalcLiveRangeUtilSet coll S0
         = @addSegment CalcLiveRangeUtilVector coll S0)
  ∧ (∀ A vs Def, @createDeadDef CalcLiveRangeUtilSet A vs coll Def
                 = @createDeadDef CalcLiveRangeUtilVector A vs coll Def)
  ∧ (∀ StartIdx Use,
       @extendInBlock CalcLiveRangeUtilSet coll StartIdx Use
       = @extendInBlock CalcLiveRangeUtilVector coll StartIdx Use).
Proof.
  intros Ho. split; [|split].
  - intros S0. by apply addSegment_agree.
  - intros A vs Def. by apply createDeadDef_agree.
  - intros StartIdx Use. by apply extendInBlock_agree.
Qed.

(** The theorem holds of a segment added into the hole of a range. *)
Lemma set_algorithms_agree_witness :
  @addSegment CalcLiveRangeUtilSet [mkSegment 0 16 1; mkSegment 20 36 2]
    (mkSegment 16 18 1)
  = @addSegment CalcLiveRangeUtilVector [mkSegment 0 16 1; mkSegment 20 36 2]
      (mkSegment 16 18 1).
Proof.
  apply (set_algorithms_agree [mkSegment 0 16 1; mkSegment 20 36 2]).
  simpl. unfold seg_before. simpl. repeat split; lia.
Defined.

(** ** DistributeRange *)

Lemma filter_all {X} (P : X → Prop) `{∀ x, Decision (P x)} l :
  Forall P l → filter P l = l.
Proof.
  induction 1 as [|x l Hx Hl IH]; [done|].
  by rewrite filter_cons_True, IH.
Qed.

Lemma filter_none {X} (P : X → Prop) `{∀ x, Decision (P x)} l :
  Forall (λ x, ¬ P x) l → filter P l = [].
Proof.
  induction 1 as [|x l Hx Hl IH]; [done|].
  by rewrite filter_cons_False, IH.
Qed.

Lemma seg_class_Ok A C s c : class_of A C s = Ok c → seg_class A C s = c.
Proof. unfold seg_class. by intros ->. Qed.

Lemma targets_hold_insert C Sp0 Sp segs_of values_of segs_of' values_of' c :
  targets_hold C Sp0 Sp segs_of values_of → c ∈ C → c ≠ 0 →
  (∀ c', c' ≠ c →
         segs_of' c' = segs_of c' ∧ values_of' c' = values_of c') →
  targets_hold C Sp0
    (<[c - 1 := Some (mkLiveRange (segs_of' c) (values_of' c) None)]> Sp)
    segs_of' values_of'.
Proof.
  intros (Hlen & Hcl & Hother) Hc Hc0 Heq. split; [|split].
  - by rewrite length_insert.
  - intros c' Hc' Hc'0. destruct (decide (c' = c)) as [->|Hne].
    + apply list_lookup_insert_eq.
      specialize (Hcl c Hc Hc0). by eapply lookup_lt_Some.
    + rewrite list_lookup_insert_ne by lia.
      destruct (Heq c' Hne) as [-> ->]. by apply Hcl.
  - intros k Hk. rewrite list_lookup_insert_ne; [by apply Hother|].
    intros <-. apply Hk. by replace (S (c - 1)) with c by lia.
Qed.

(** A write through the iterator [J] that trails the iterator [I]:
    [keep] are the elements written so far, [junk] those between the two
    iterators. *)
Lemma write_keep {X} (keep junk rest : list X) x :
  ∃ junk',
    write_at (keep ++ junk ++ x :: rest) (length keep) x
    = Ok ((keep ++ [x]) ++ junk' ++ rest)
    ∧ length ((keep ++ [x]) ++ junk') = length (keep ++ junk) + 1.
Proof.
  unfold write_at.
  rewrite (proj2 (Nat.ltb_lt (length keep) _))
    by (rewrite !length_app; destruct junk; simpl; lia).
  destruct junk as [|j junk].
  - exists []. simpl. rewrite insert_middle, app_nil_r.
    split; [by rewrite <- app_assoc|]. rewrite !length_app. simpl. lia.
  - exists (junk ++ [x]). simpl. rewrite insert_middle.
    split; [by rewrite <- !app_assoc|]. rewrite !length_app. simpl. lia.
Qed.

Lemma DistributeRange_skip_spec A C rest : ∀ done,
  (∀ s, s ∈ rest → ∃ c, class_of A C s = Ok c) →
  ∃ k, DistributeRange_skip (length rest) A C (done ++ rest) (length done)
       = Ok (length done + k)
       ∧ k ≤ length rest
       ∧ Forall (λ s, seg_class A C s = 0) (take k rest).
Proof.
  induction rest as [|s rest IH]; intros done Hcl.
  - exists 0. simpl. split; [f_equal; lia|]. split; [done|constructor].
  - simpl. unfold at_. rewrite lookup_middle. simpl.
    destruct (Hcl s ltac:(by left)) as [c Hc]. rewrite Hc. simpl.
    destruct (Nat.eqb_spec c 0) as [->|Hne].
    + destruct (IH (done ++ [s])) as (k & Hk & Hle & HF).
      { intros x Hx. apply Hcl. by right. }
      rewrite <- app_assoc, length_app in Hk. simpl in Hk.
      exists (S k). rewrite Hk. split; [f_equal; lia|].
      split; [lia|]. simpl. constructor; [by apply seg_class_Ok|done].
    + exists 0. split; [f_equal; lia|]. split; [lia|constructor].
Qed.

Lemma DistributeRange_move_spec A C Sp0 rest : ∀ done keep junk Sp,
  (∀ s, s ∈ rest → ∃ c, class_of A C s = Ok c ∧ c ∈ C) →
  ordered (done ++ rest) →
  keep = filter (λ s, seg_class A C s = 0) done →
  length (keep ++ junk) = length done →
  targets_hold C Sp0 Sp (segments_of_class A C done) (λ _, []) →
  ∃ junk' Sp',
    DistributeRange_move (length rest) A C (keep ++ junk ++ rest) Sp
      (length keep) (length done)
    = Ok ((keep ++ filter (λ s, seg_class A C s = 0) rest) ++ junk', Sp',
          length (keep ++ filter (λ s, seg_class A C s = 0) rest))
    ∧ length ((keep ++ filter (λ s, seg_class A C s = 0) rest) ++ junk')
      = length (done ++ rest)
    ∧ targets_hold C Sp0 Sp' (segments_of_class A C (done ++ rest))
        (λ _, []).
Proof.
  induction rest as [|s rest IH]; intros done keep junk Sp Hcl Ho Hkeep Hlen Ht.
  - exists junk, Sp. simpl. rewrite !app_nil_r.
    split; [done|]. split; [done|]. done.
  - simpl.
    assert (Hat : at_ (keep ++ junk ++ s :: rest) (length done) = Ok s).
    { apply at_Ok. rewrite app_assoc, <- Hlen. apply lookup_middle. }
    rewrite Hat. simpl.
    destruct (Hcl s ltac:(by left)) as (c & Hc & HcC). rewrite Hc. simpl.
    pose proof (seg_class_Ok _ _ _ _ Hc) as Hsc.
    assert (Hcl' : ∀ x, x ∈ rest → ∃ c, class_of A C x = Ok c ∧ c ∈ C).
    { intros x Hx. apply Hcl. by right. }
    assert (Ho' : ordered ((done ++ [s]) ++ rest)) by by rewrite <- app_assoc.
    destruct (Nat.eqb_spec c 0) as [Hz|Hnz]; simpl.
    + (* the segment stays: it is written at [J] *)
      destruct (write_keep keep junk rest s) as (junk1 & Hw & Hlen1).
      rewrite Hw. simpl.
      destruct (IH (done ++ [s]) (keep ++ [s]) junk1 Sp Hcl' Ho')
        as (junk' & Sp' & Hrun & Hlen' & Ht').
      { rewrite filter_app, Hkeep. f_equal.
        rewrite filter_cons_True by lia. done. }
      { rewrite Hlen1, Hlen, length_app. simpl. lia. }
      { destruct Ht as (H1 & H2 & H3). split; [done|]. split; [|done].
        intros c' Hc' Hne. unfold segments_of_class. rewrite filter_app.
        rewrite (filter_cons_False _ s) by lia.
        rewrite filter_nil, app_nil_r. by apply H2. }
      rewrite !length_app in Hrun. simpl in Hrun.
      rewrite !length_app. rewrite Hrun.
      rewrite filter_cons_True by lia.
      exists junk', Sp'.
      rewrite <- !app_assoc in *. simpl in *.
      rewrite !length_app in *. simpl in *.
      split; [do 2 f_equal; lia|]. split; [lia|done].
    + (* the segment moves to the target of its class *)
      destruct Ht as (H1 & H2 & H3).
      unfold split_at_class, at_. rewrite (H2 c HcC Hnz). simpl.
      set (mine := segments_of_class A C done c).
      assert (Hex : (if length mine =? 0 then Ok true
                     else expiredAt mine (start s)) = Ok true).
      { destruct (Nat.eqb_spec (length mine) 0) as [|Hne]; [done|].
        unfold expiredAt. destruct (last mine) as [back|] eqn:Hlast.
        - f_equal. apply Z.leb_le.
          apply last_Some_elem_of in Hlast.
          apply list_elem_of_filter in Hlast as [_ Hin].
          assert (seg_before back s) as [? _]; [|done].
          eapply ordered_app_before; [exact Ho|done|by left].
        - apply last_None in Hlast. rewrite Hlast in Hne. done. }
      rewrite Hex. unfold with_segments. simpl.
      destruct (IH (done ++ [s]) keep (junk ++ [s])
                  (<[c - 1 := Some (mkLiveRange (mine ++ [s]) [] None)]> Sp)
                  Hcl' Ho')
        as (junk' & Sp' & Hrun & Hlen' & Ht').
      { rewrite filter_app, Hkeep.
        rewrite (filter_cons_False _ s) by lia.
        by rewrite filter_nil, app_nil_r. }
      { rewrite app_assoc, !length_app, <- Hlen, length_app. simpl. lia. }
      { assert (Hmine : mine ++ [s] = segments_of_class A C (done ++ [s]) c).
        { unfold mine, segments_of_class. rewrite filter_app.
          by rewrite (filter_cons_True _ s) by done. }
        rewrite Hmine.
        apply (targets_hold_insert C Sp0 Sp
                 (segments_of_class A C done) (λ _, [])
                 (segments_of_class A C (done ++ [s])) (λ _, []));
          [done|done|done|].
        intros c' Hne. split; [|done]. unfold segments_of_class.
        rewrite filter_app. rewrite (filter_cons_False _ s) by lia.
        by rewrite filter_nil, app_nil_r. }
      rewrite length_app in Hrun. simpl in Hrun.
      rewrite <- !app_assoc in Hrun. simpl in Hrun. rewrite Hrun.
      rewrite filter_cons_False by lia.
      exists junk', Sp'.
      rewrite <- !app_assoc in *. simpl in *.
      split; [done|]. split; [|done].
      rewrite !length_app in *. simpl in *. lia.
Qed.

Lemma DistributeRange_skip_values_spec rest : ∀ done,
  ∃ k, DistributeRange_skip_values (length rest) (done ++ rest) (length done)
       = Ok (length done + k)
       ∧ k ≤ length rest ∧ Forall (λ c, c = 0) (take k rest).
Proof.
  induction rest as [|c rest IH]; intros done.
  - exists 0. simpl. split; [f_equal; lia|]. split; [done|constructor].
  - simpl. unfold at_. rewrite lookup_middle. simpl.
    destruct (Nat.eqb_spec c 0) as [->|Hne].
    + destruct (IH (done ++ [0])) as (k & Hk & Hle & HF).
      rewrite <- app_assoc, length_app in Hk. simpl in Hk.
      exists (S k). rewrite Hk. split; [f_equal; lia|].
      split; [lia|]. simpl. by constructor.
    + exists 0. split; [f_equal; lia|]. split; [lia|constructor].
Qed.

Lemma vals_of_app ps qs c : vals_of (ps ++ qs) c = vals_of ps c ++ vals_of qs c.
Proof. unfold vals_of. by rewrite filter_app, fmap_app. Qed.

Lemma vals_of_one p c c' :
  vals_of [(p, c)] c' = if decide (c = c') then [p] else [].
Proof.
  unfold vals_of. rewrite filter_cons. simpl.
  destruct (decide (c = c')); done.
Qed.

Lemma vals_of_elem ps c p : p ∈ vals_of ps c ↔ (p, c) ∈ ps.
Proof.
  unfold vals_of. rewrite list_elem_of_fmap. split.
  - intros ([q c'] & -> & [Hc Hin]%list_elem_of_filter). simpl in *.
    by subst.
  - intros Hin. exists (p, c). split; [done|].
    apply list_elem_of_filter. by split.
Qed.

Lemma vals_of_sub ps c p : p ∈ vals_of ps c → p ∈ ps.*1.
Proof.
  intros Hin%vals_of_elem. apply list_elem_of_fmap. by exists (p, c).
Qed.

Lemma arena_holds_step A0 A donep restp p c v j :
  NoDup ((donep ++ (p, c) :: restp).*1) →
  arena_holds A0 A donep ((p, c) :: restp) →
  deref A p = Ok v → j = length (vals_of donep c) →
  arena_holds A0 (store A p (VNInfo.set_id v j)) (donep ++ [(p, c)]) restp.
Proof.
  intros Hnd (Ha & Hb & Hc) Hv ->.
  rewrite fmap_app, fmap_cons in Hnd. simpl in Hnd.
  apply NoDup_app in Hnd as (Hnd1 & Hnd2 & Hnd3).
  apply NoDup_cons in Hnd3 as [Hnd3 Hnd4].
  assert (Hp1 : p ∉ donep.*1).
  { intros Hin. apply (Hnd2 p Hin). by left. }
  split; [|split].
  - intros c' m q. rewrite vals_of_app, vals_of_one.
    intros Hq. apply lookup_app_Some in Hq as [Hq|[Hge Hq]].
    + assert (q ≠ p).
      { intros ->. apply Hp1. eapply vals_of_sub.
        by eapply list_elem_of_lookup_2. }
      rewrite deref_store_ne by done. by eapply Ha.
    + destruct (decide (c = c')) as [<-|]; [|done].
      apply list_lookup_singleton_Some in Hq as [Hm <-].
      eexists. split; [by eapply deref_store_eq|]. simpl. lia.
  - intros q Hq.
    assert (q ≠ p) by (intros ->; done).
    rewrite deref_store_ne by done. apply Hb. by right.
  - intros q v0 Hq. destruct (decide (p = q)) as [<-|Hne].
    + destruct (Hc p v0 Hq) as (v' & Hv' & Hu).
      eexists. split; [by eapply deref_store_eq|]. simpl. congruence.
    + rewrite deref_store_ne by done. by apply Hc.
Qed.

Lemma DistributeRange_values_spec A0 C Sp0 segs_of restp :
  ∀ donep A keep junk Sp,
  C = (donep ++ restp).*2 →
  NoDup ((donep ++ restp).*1) →
  (∀ p, p ∈ restp.*1 → ∃ v, deref A0 p = Ok v) →
  keep = vals_of donep 0 → length (keep ++ junk) = length donep →
  arena_holds A0 A donep restp →
  targets_hold C Sp0 Sp segs_of (vals_of donep) →
  ∃ A' junk' Sp',
    DistributeRange_values (length restp) A C (keep ++ junk ++ restp.*1) Sp
      (length keep) (length donep)
    = Ok (A', vals_of (donep ++ restp) 0 ++ junk', Sp',
          length (vals_of (donep ++ restp) 0))
    ∧ arena_holds A0 A' (donep ++ restp) []
    ∧ targets_hold C Sp0 Sp' segs_of (vals_of (donep ++ restp)).
Proof.
  induction restp as [|[p c] restp IH];
    intros donep A keep junk Sp HC Hnd Hd Hkeep Hlen Ha Ht.
  - exists A, junk, Sp. simpl. rewrite !app_nil_r. subst keep.
    split; [done|]. split; [done|]. done.
  - rewrite fmap_cons. simpl.
    assert (Hat : at_ (keep ++ junk ++ p :: restp.*1) (length donep) = Ok p).
    { apply at_Ok. rewrite app_assoc, <- Hlen. apply lookup_middle. }
    rewrite Hat. simpl.
    assert (HatC : at_ C (length donep) = Ok c).
    { apply at_Ok. rewrite HC, fmap_app, fmap_cons. simpl.
      rewrite <- (length_fmap snd donep). apply lookup_middle. }
    rewrite HatC. simpl.
    assert (HcC : c ∈ C).
    { rewrite HC, fmap_app, fmap_cons. apply elem_of_app. right. by left. }
    destruct (Hd p ltac:(by left)) as [v0 Hv0].
    pose proof Ha as (Ha1 & Ha2 & Ha3).
    assert (∃ v, deref A p = Ok v) as [v Hv].
    { rewrite (Ha2 p ltac:(by left)). by exists v0. }
    rewrite Hv. simpl.
    assert (HC' : C = ((donep ++ [(p, c)]) ++ restp).*2)
      by by rewrite <- app_assoc.
    assert (Hnd' : NoDup ((donep ++ [(p, c)]) ++ restp).*1)
      by by rewrite <- app_assoc.
    assert (Hd' : ∀ q, q ∈ restp.*1 → ∃ v, deref A0 q = Ok v).
    { intros q Hq. apply Hd. by right. }
    destruct (Nat.eqb_spec c 0) as [Hz|Hnz]; simpl.
    + (* the value stays in the table of the range *)
      subst c.
      destruct (write_keep keep junk (restp.*1) p) as (junk1 & Hw & Hlen1).
      rewrite Hw. simpl.
      destruct (IH (donep ++ [(p, 0)])
                  (store A p (VNInfo.set_id v (length keep)))
                  (keep ++ [p]) junk1 Sp HC' Hnd' Hd')
        as (A' & junk' & Sp' & Hrun & Ha' & Ht').
      { by rewrite vals_of_app, vals_of_one, Hkeep. }
      { rewrite Hlen1, Hlen, length_app. simpl. lia. }
      { apply arena_holds_step; try done. by rewrite Hkeep. }
      { destruct Ht as (H1 & H2 & H3). split; [done|]. split; [|done].
        intros c' Hc' Hne. rewrite vals_of_app, vals_of_one.
        destruct (decide (0 = c')); [lia|]. rewrite app_nil_r.
        by apply H2. }
      rewrite !length_app in Hrun. simpl in Hrun.
      rewrite <- !app_assoc in Hrun. simpl in Hrun.
      rewrite <- !app_assoc in Ha', Ht'. simpl in Ha', Ht'.
      rewrite <- (app_assoc keep [p]). simpl.
      rewrite Hrun. by exists A', junk', Sp'.
    + (* the value goes to the target of its class *)
      destruct Ht as (H1 & H2 & H3).
      unfold split_at_class, at_. rewrite (H2 c HcC Hnz).
      unfold with_valnos. simpl.
      destruct (IH (donep ++ [(p, c)])
                  (store A p (VNInfo.set_id v (length (vals_of donep c))))
                  keep (junk ++ [p])
                  (<[c - 1 := Some (mkLiveRange (segs_of c)
                                      (vals_of donep c ++ [p]) None)]> Sp)
                  HC' Hnd' Hd')
        as (A' & junk' & Sp' & Hrun & Ha' & Ht').
      { rewrite vals_of_app, vals_of_one.
        destruct (decide (c = 0)); [lia|]. by rewrite app_nil_r. }
      { rewrite app_assoc, !length_app, <- Hlen, length_app. simpl. lia. }
      { by apply arena_holds_step. }
      { assert (Hmine : vals_of donep c ++ [p]
                  = vals_of (donep ++ [(p, c)]) c).
        { rewrite vals_of_app, vals_of_one.
          destruct (decide (c = c)); done. }
        rewrite Hmine.
        apply (targets_hold_insert C Sp0 Sp segs_of (vals_of donep)
                 segs_of (vals_of (donep ++ [(p, c)]))); [done|done|done|].
        intros c' Hne. split; [done|]. rewrite vals_of_app, vals_of_one.
        destruct (decide (c = c')); [congruence|]. by rewrite app_nil_r. }
      rewrite length_app in Hrun. simpl in Hrun.
      rewrite <- !app_assoc in Hrun. simpl in Hrun.
      rewrite <- !app_assoc in Ha', Ht'. simpl in Ha', Ht'.
      rewrite Hrun. by exists A', junk', Sp'.
Qed.

Lemma table_wf_NoDup A vs : table_wf A vs → NoDup vs.
Proof.
  intros Hwf. apply NoDup_alt. intros i j p Hi Hj.
  destruct (Hwf i p Hi) as (v & Hv & <-).
  destruct (Hwf j p Hj) as (v' & Hv' & <-). congruence.
Qed.

(** The class of a segment whose value is an entry of the table. *)
Lemma seg_class_table A C vs s v :
  length C = length vs →
  deref A (valno s) = Ok v → vs !! VNInfo.id v = Some (valno s) →
  ∃ c, class_of A C s = Ok c ∧ C !! VNInfo.id v = Some c
       ∧ zip vs C !! VNInfo.id v = Some (valno s, c).
Proof.
  intros Hlen Hv Hid. pose proof (lookup_lt_Some _ _ _ Hid) as Hlt.
  destruct (lookup_lt_is_Some_2 C (VNInfo.id v) ltac:(lia)) as [c Hc].
  exists c. split; [|split; [done|]].
  - unfold class_of. rewrite Hv. simpl. by apply at_Ok.
  - by apply lookup_zip_Some.
Qed.

(** The range that holds the segments and the values of one class
    satisfies the invariants. *)
Lemma distributed_inv A0 A' lr C c T :
  LRInv A0 lr → length C = length (valnos lr) →
  arena_holds A0 A' (zip (valnos lr) C) [] →
  segments T = segments_of_class A0 C (segments lr) c →
  valnos T = values_of_class C (valnos lr) c →
  segmentSet T = None →
  LRInv A' T ∧ table_wf A' (valnos T).
Proof.
  intros [Hv Ho Hval Ht Hh] Hlen (Ha & _ & Hc) Hsegs Hvals Hset.
  unfold values_of_class in Hvals.
  split; [split|].
  - done.
  - rewrite Hsegs. by apply ordered_filter.
  - rewrite Hsegs. by apply Forall_filter_keep.
  - rewrite Hsegs, Hvals. unfold segments_of_class. apply Forall_forall.
    intros s [Hcl Hin]%list_elem_of_filter.
    rewrite Forall_forall in Ht. destruct (Ht s Hin) as (v & Hdv & Hid & Hu).
    destruct (seg_class_table A0 C (valnos lr) s v Hlen Hdv Hid)
      as (c' & Hc' & _ & Hz).
    rewrite (seg_class_Ok _ _ _ _ Hc') in Hcl. subst c'.
    assert (Hmem : valno s ∈ vals_of (zip (valnos lr) C) c).
    { apply vals_of_elem. by eapply list_elem_of_lookup_2. }
    apply list_elem_of_lookup in Hmem as [m Hm].
    destruct (Ha c m (valno s) Hm) as (v' & Hv' & Hid').
    destruct (Hc (valno s) v Hdv) as (v'' & Hv'' & Hu').
    exists v'. split; [done|]. split; [by rewrite Hid'|].
    congruence.
  - rewrite Hvals. apply Forall_forall. intros p Hp.
    apply list_elem_of_lookup in Hp as [m Hm].
    destruct (Ha c m p Hm) as (v' & Hv' & _). by exists v'.
  - rewrite Hvals. intros m p Hm. by apply (Ha c m p).
Qed.

(** X9. [DistributeRange] on a range that satisfies the invariants, whose
    table gives every value its position as id, and targets that are
    empty ranges: the segments and the values of the class 0 stay in the
    range, those of a class [c] above 0 go to the target [c - 1], in
    their order; the range and every target satisfy the invariants
    afterwards, with tables that give every value its position as id; the
    other entries of the target array stay as they are. *)
Theorem DistributeRange_splits A lr Splits C :
  LRInv A lr → table_wf A (valnos lr) → length C = length (valnos lr) →
  (∀ c, c ∈ C → c ≠ 0 →
        Splits !! (c - 1) = Some (Some (mkLiveRange [] [] None))) →
  ∃ A' lr' Splits',
    DistributeRange A lr Splits C = Ok (A', lr', Splits')
    ∧ LRInv A' lr' ∧ table_wf A' (valnos lr')
    ∧ segments lr' = segments_of_class A C (segments lr) 0
    ∧ valnos lr' = values_of_class C (valnos lr) 0
    ∧ length Splits' = length Splits
    ∧ (∀ c, c ∈ C → c ≠ 0 →
         ∃ T, Splits' !! (c - 1) = Some (Some T)
              ∧ LRInv A' T ∧ table_wf A' (valnos T)
              ∧ segments T = segments_of_class A C (segments lr) c
              ∧ valnos T = values_of_class C (valnos lr) c)
    ∧ (∀ k, S k ∉ C → Splits' !! k = Splits !! k).
Proof.
  intros HI Hwf Hlen Hfresh. pose proof HI as [Hv Ho Hval Ht Hh].
  unfold DistributeRange.
  (* the class of every segment is defined *)
  assert (Hcl : ∀ s, s ∈ segments lr → ∃ c, class_of A C s = Ok c ∧ c ∈ C).
  { intros s Hs. rewrite Forall_forall in Ht.
    destruct (Ht s Hs) as (v & Hdv & Hid & _).
    destruct (seg_class_table A C (valnos lr) s v Hlen Hdv Hid)
      as (c & Hc & HcC & _).
    exists c. split; [done|]. by eapply list_elem_of_lookup_2. }
  (* the segments *)
  destruct (DistributeRange_skip_spec A C (segments lr) [])
    as (J & HJ & HJle & HJ0).
  { intros s Hs. destruct (Hcl s Hs) as (c & Hc & _). by exists c. }
  simpl in HJ. rewrite HJ. simpl.
  destruct (DistributeRange_move_spec A C Splits (drop J (segments lr))
              (take J (segments lr)) (take J (segments lr)) [] Splits)
    as (junk & Sp1 & Hmove & Hlen1 & Ht1).
  { intros s Hs. apply Hcl. eapply subseteq_drop. done. }
  { by rewrite take_drop. }
  { symmetry. by apply filter_all. }
  { by rewrite app_nil_r. }
  { split; [done|]. split; [|done]. intros c Hc Hne.
    unfold segments_of_class. rewrite filter_none; [by apply Hfresh|].
    eapply Forall_impl; [exact HJ0|]. simpl. intros; lia. }
  rewrite take_drop in Hlen1, Ht1.
  simpl in Hmove. rewrite take_drop, length_drop, length_take in Hmove.
  rewrite (Nat.min_l J) in Hmove by lia.
  rewrite Hmove. simpl.
  assert (Hsegs : take J (segments lr)
                    ++ filter (λ s, seg_class A C s = 0)
                         (drop J (segments lr))
                  = segments_of_class A C (segments lr) 0).
  { unfold segments_of_class.
    rewrite <- (take_drop J (segments lr)) at 3.
    rewrite filter_app. f_equal. symmetry. by apply filter_all. }
  rewrite Hsegs in *.
  (* the values *)
  destruct (DistributeRange_skip_values_spec C []) as (j & Hj & Hjle & Hj0).
  simpl in Hj. rewrite <- Hlen, Hj. simpl.
  set (ps := zip (valnos lr) C).
  assert (Hps1 : ps.*1 = valnos lr) by (apply fst_zip; lia).
  assert (Hps2 : ps.*2 = C) by (apply snd_zip; lia).
  assert (Hpsl : length ps = length C).
  { unfold ps. rewrite length_zip. lia. }
  assert (Hdonev : vals_of (take j ps) 0 = take j (valnos lr)).
  { unfold vals_of. rewrite filter_all.
    - by rewrite fmap_take, Hps1.
    - apply Forall_forall. intros [p c] Hin. simpl.
      apply list_elem_of_lookup in Hin as [i Hi].
      pose proof (lookup_lt_Some _ _ _ Hi) as Hlt.
      rewrite length_take in Hlt.
      rewrite lookup_take_lt in Hi by lia.
      apply lookup_zip_Some in Hi as [_ Hc].
      rewrite Forall_lookup in Hj0. apply (Hj0 i).
      rewrite lookup_take_lt by lia. done. }
  assert (Hother : ∀ c, c ≠ 0 → vals_of (take j ps) c = []).
  { intros c Hne. unfold vals_of. rewrite filter_none; [done|].
    apply Forall_forall. intros [p c'] Hin. simpl.
    apply list_elem_of_lookup in Hin as [i Hi].
    pose proof (lookup_lt_Some _ _ _ Hi) as Hlt.
    rewrite length_take in Hlt.
    rewrite lookup_take_lt in Hi by lia.
    apply lookup_zip_Some in Hi as [_ Hc].
    rewrite Forall_lookup in Hj0.
    rewrite (Hj0 i c'); [lia|]. rewrite lookup_take_lt by lia. done. }
  destruct (DistributeRange_values_spec A C Splits
              (segments_of_class A C (segments lr))
              (drop j ps) (take j ps) A (take j (valnos lr)) [] Sp1)
    as (A' & junk' & Sp2 & Hvalues & Ha' & Ht2).
  { by rewrite take_drop. }
  { rewrite take_drop, Hps1. by eapply table_wf_NoDup. }
  { intros p Hp. rewrite fmap_drop, Hps1 in Hp.
    apply subseteq_drop in Hp.
    apply list_elem_of_lookup in Hp as [i Hi].
    destruct (Hwf i p Hi) as (v & Hdv & _). by exists v. }
  { done. }
  { rewrite app_nil_r, !length_take. lia. }
  { split; [|split].
    - intros c m p Hm. destruct (decide (c = 0)) as [->|Hne].
      + rewrite Hdonev in Hm.
        pose proof (lookup_lt_Some _ _ _ Hm) as Hlt.
        rewrite length_take in Hlt.
        rewrite lookup_take_lt in Hm by lia. by apply Hwf.
      + rewrite Hother in Hm by done. done.
    - done.
    - intros p v Hp. by exists v. }
  { destruct Ht1 as (H1 & H2 & H3). split; [done|]. split; [|done].
    intros c Hc Hne. rewrite Hother by done. by apply H2. }
  rewrite !take_drop in *.
  simpl in Hvalues. rewrite fmap_drop, Hps1, take_drop in Hvalues.
  rewrite length_drop, !length_take in Hvalues.
  rewrite ?(Nat.min_l j (length ps)), ?(Nat.min_l j (length (valnos lr)))
    in Hvalues by lia.
  replace (length ps - j) with (length C - j) in Hvalues by lia.
  rewrite Hlen in *.
  rewrite Hvalues. simpl.
  rewrite take_app_length.
  eexists _, _, _. split; [done|].
  assert (Her : erase
            (segments_of_class A C (segments lr) 0 ++ junk)
            (length (segments_of_class A C (segments lr) 0))
            (length (segments lr))
          = segments_of_class A C (segments lr) 0).
  { unfold erase. rewrite take_app_length, drop_ge, app_nil_r; [done|lia]. }
  rewrite Her.
  destruct Ht2 as (H1 & H2 & H3). destruct Ht1 as (H1' & _ & _).
  destruct (distributed_inv A A' lr C 0
              (with_valnos
                 (with_segments lr (segments_of_class A C (segments lr) 0))
                 (vals_of ps 0))) as [Hinv Hwf']; try done.
  split; [done|]. split; [done|]. split; [done|]. split; [done|].
  split; [lia|]. split; [|done].
  intros c Hc Hne. eexists. split; [by apply H2|].
  destruct (distributed_inv A A' lr C c
              (mkLiveRange (segments_of_class A C (segments lr) c)
                 (vals_of ps c) None)) as [Hinvc Hwfc]; done.
Qed.

(** The theorem holds of a range of two values of which the second one
    moves to the only target. *)
Lemma DistributeRange_splits_witness :
  ∃ A' lr' Splits',
    DistributeRange [VNInfo.mk 0 0 false false; VNInfo.mk 1 8 false false]
      (mkLiveRange [mkSegment 0 4 1; mkSegment 8 12 2] [1; 2] None)
      [Some (mkLiveRange [] [] None)] [0; 1]
    = Ok (A', lr', Splits')
    ∧ LRInv A' lr'
    ∧ segments lr' = [mkSegment 0 4 1]
    ∧ Splits' = [Some (mkLiveRange [mkSegment 8 12 2] [2] None)].
Proof.
  destruct (DistributeRange_splits
              [VNInfo.mk 0 0 false false; VNInfo.mk 1 8 false false]
              (mkLiveRange [mkSegment 0 4 1; mkSegment 8 12 2] [1; 2] None)
              [Some (mkLiveRange [] [] None)] [0; 1])
    as (A' & lr' & Sp' & Hrun & Hinv & _).
  - concrete_LRInv.
  - intros [|[|i]] p Hp; simpl in Hp; [| |done]; injection Hp as <-;
      by eexists.
  - done.
  - intros c Hc Hne. apply elem_of_cons in Hc as [->|Hc]; [done|].
    apply list_elem_of_singleton in Hc as ->. done.
  - exists A', lr', Sp'. split; [exact Hrun|]. split; [exact Hinv|].
    vm_compute in Hrun. by injection Hrun as <- <- <-.
Defined.

(** ** What the updater keeps live *)

Lemma spans_refl x : spans x x.
Proof. unfold spans. repeat split; lia. Qed.

Lemma spans_trans x y z : spans x y → spans y z → spans x z.
Proof. unfold spans. intros (? & ? & ?) (? & ? & ?). split; [lia|]. split; [lia|congruence]. Qed.

Lemma seg_covered_elem l y : y ∈ l → seg_covered l y.
Proof. intros Hy. exists y. split; [done|apply spans_refl]. Qed.

Lemma seg_covered_spans l x y : seg_covered l x → spans x y → seg_covered l y.
Proof.
  intros (z & Hz & Hzx) Hxy. exists z. split; [done|].
  by eapply spans_trans.
Qed.

Lemma seg_covered_live l y p :
  seg_covered l y → (start y ≤ p < end_ y)%Z → live_at l p (valno y).
Proof.
  intros (x & Hx & H1 & H2 & H3) Hp. exists x. split; [done|].
  split; [lia|done].
Qed.

Lemma pts_of_updater_of lr L s : pts_of (updater_of lr L s) = pts s.
Proof.
  unfold pts_of, updater_of, pts. simpl. rewrite take_app_length.
  do 2 f_equal. rewrite app_assoc. apply drop_app_length'.
  by rewrite length_app.
Qed.

Lemma repr_pts_of u lr s : repr u lr s → pts_of u = pts s.
Proof.
  intros (HLR & _ & Hsegs & HW & HR & HS). unfold pts_of, pts.
  rewrite HLR, Hsegs, HW, HR, HS. rewrite take_app_length.
  do 2 f_equal. rewrite app_assoc. apply drop_app_length'.
  by rewrite length_app.
Qed.

(** The areas after a write to the segment before [WriteI]. *)
Lemma pts_of_write lr L a1i w x G2 a2' Sp2 :
  pts_of {| LR := Some (with_segments lr
                    (<[length (a1i ++ [w]) - 1 := x]>
                       ((a1i ++ [w]) ++ G2 ++ a2')));
            LastStart := L; WriteI := length (a1i ++ [w]);
            ReadI := length (a1i ++ [w]) + length G2; Spills := Sp2 |}
  = (a1i ++ [x]) ++ Sp2 ++ a2'.
Proof.
  unfold pts_of. simpl.
  replace (length (a1i ++ [w]) - 1) with (length a1i)
    by (rewrite length_app; simpl; lia).
  rewrite <- !app_assoc. simpl. rewrite insert_middle.
  replace (a1i ++ x :: G2 ++ a2') with ((a1i ++ [x]) ++ G2 ++ a2')
    by (by rewrite <- app_assoc).
  replace (length (a1i ++ [w])) with (length (a1i ++ [x]))
    by (by rewrite !length_app).
  rewrite take_app_length. rewrite <- !app_assoc. do 2 f_equal.
  simpl. f_equal.
  replace (a1i ++ x :: G2 ++ a2') with (((a1i ++ [x]) ++ G2) ++ a2')
    by (by rewrite <- !app_assoc).
  apply drop_app_length'. by rewrite !length_app.
Qed.

(** The segments [coalesce_read] swallows lie within the result. *)
Lemma coalesce_read_covers rest : ∀ N R N1 R1,
  coalesce_read N rest R = Ok (N1, R1) →
  ∃ m, R1 = R + m ∧ m ≤ length rest ∧ spans N1 N
       ∧ start N1 = start N
       ∧ Forall (λ y, spans N1 y) (take m rest).
Proof.
  induction rest as [|r rest IH]; intros N R N1 R1 Hrun.
  - simpl in Hrun. injection Hrun as <- <-. exists 0.
    split; [lia|]. split; [done|]. split; [apply spans_refl|].
    split; [done|constructor].
  - cbn [coalesce_read] in Hrun.
    apply bind_Ok in Hrun as (c & Hc & Hrun). destruct c.
    + apply coalescable_true in Hc as (Hc1 & Hc2 & Hc3).
      apply IH in Hrun as (m & -> & Hm & (H1 & H2 & H3) & Hs & Hsw).
      simpl in *. exists (S m). split; [lia|]. split; [lia|].
      split; [unfold spans; split; [lia|split; [lia|done]]|].
      split; [done|]. simpl. constructor; [|done].
      unfold spans. split; [lia|]. split; [lia|congruence].
    + injection Hrun as <- <-. exists 0.
      split; [lia|]. split; [lia|]. split; [apply spans_refl|].
      split; [done|constructor].
Qed.

(** The tail of [add] keeps what the three areas held and covers the
    segment it is given. *)
Lemma add_insert_covers lr L a1 G a2 Sp N u' :
  add_insert lr L (a1 ++ G ++ a2) (length a1) (length a1 + length G) Sp N
  = Ok u' →
  (∀ y, y ∈ a1 ++ Sp ++ a2 → seg_covered (pts_of u') y)
  ∧ seg_covered (pts_of u') N.
Proof.
  unfold add_insert. intros Hrun.
  assert (Hdrop : drop (length a1 + length G) (a1 ++ G ++ a2) = a2).
  { rewrite app_assoc. apply drop_app_length'. by rewrite length_app. }
  rewrite Hdrop in Hrun.
  apply bind_Ok in Hrun as ([N1 R1] & Hcr & Hrun).
  apply coalesce_read_covers in Hcr as (m & -> & Hm & HN1 & Hs1 & Hsw).
  set (G2 := G ++ take m a2) in *. set (a2' := drop m a2) in *.
  assert (Hsegs : a1 ++ G ++ a2 = a1 ++ G2 ++ a2').
  { unfold G2, a2'. by rewrite <- app_assoc, take_drop. }
  assert (HR : length a1 + length G + m = length a1 + length G2).
  { unfold G2. rewrite length_app, length_take. lia. }
  rewrite Hsegs, HR in Hrun. clear Hsegs HR Hdrop.
  rewrite Forall_forall in Hsw.
  apply bind_Ok in Hrun as ([N2 Sp2] & Hsp & Hrun).
  (* the last spill *)
  assert (Hspill : spans N2 N1
            ∧ (∀ y, y ∈ Sp → y ∈ Sp2 ∨ spans N2 y)).
  { destruct (last Sp) as [back|] eqn:Hlast.
    - apply bind_Ok in Hsp as (c & Hc & Hsp).
      destruct c; injection Hsp as <- <-.
      + apply coalescable_true in Hc as (Hc1 & Hc2 & Hc3).
        split; [unfold spans; simpl; split; [lia|split; [lia|done]]|].
        intros y Hy. destruct Sp as [|x Sp' _] using rev_ind; [done|].
        rewrite last_snoc in Hlast. injection Hlast as ->.
        rewrite List.removelast_last.
        apply elem_of_app in Hy as [Hy|Hy%list_elem_of_singleton];
          [by left|right].
        subst y. unfold spans. simpl. split; [lia|]. split; [lia|done].
      + split; [apply spans_refl|]. intros y Hy. by left.
    - injection Hsp as <- <-. split; [apply spans_refl|].
      intros y Hy. by left. }
  destruct Hspill as [HN2 HSp].
  assert (HN : spans N2 N) by by eapply spans_trans.
  assert (Hold : ∀ P,
    (∀ y, y ∈ a1 → seg_covered P y) →
    (∀ y, y ∈ Sp2 → seg_covered P y) →
    (∀ y, y ∈ a2' → seg_covered P y) →
    seg_covered P N2 →
    (∀ y, y ∈ a1 ++ Sp ++ a2 → seg_covered P y) ∧ seg_covered P N).
  { intros P H1 H2 H3 H4. split; [|by eapply seg_covered_spans].
    intros y. rewrite !elem_of_app. intros [Hy|[Hy|Hy]].
    - by apply H1.
    - destruct (HSp y Hy) as [?|?]; [by apply H2|].
      by eapply seg_covered_spans.
    - rewrite <- (take_drop m a2) in Hy.
      apply elem_of_app in Hy as [Hy|Hy]; [|by apply H3].
      eapply seg_covered_spans; [exact H4|].
      eapply spans_trans; [exact HN2|]. by apply Hsw. }
  apply bind_Ok in Hrun as (ow & Hw & Hrun).
  destruct ow as [w'|].
  - (* the segment goes into the one before WriteI *)
    destruct (Nat.eqb_spec (length a1) 0) as [|Hne]; [done|].
    cbn [negb] in Hw.
    apply bind_Ok in Hw as (w & Hwat & Hw).
    apply bind_Ok in Hw as (c & Hc & Hw).
    destruct c; [|done]. injection Hw as <-.
    apply at_prev_Ok in Hwat as (j & Hj & Hlk).
    destruct a1 as [|w0 a1i _] using rev_ind; [done|].
    rewrite length_app in Hj. simpl in Hj.
    assert (j = length a1i) as -> by lia.
    rewrite <- app_assoc in Hlk. simpl in Hlk.
    rewrite lookup_middle in Hlk. injection Hlk as ->.
    apply bind_Ok in Hrun as (segs' & Hwr & Hrun).
    apply write_at_Ok in Hwr as [_ ->]. injection Hrun as <-.
    apply coalescable_true in Hc as (Hc1 & Hc2 & Hc3).
    rewrite pts_of_write.
    apply Hold.
    + intros y Hy. apply elem_of_app in Hy as [Hy|Hy%list_elem_of_singleton].
      * apply seg_covered_elem. rewrite !elem_of_app. by left; left.
      * subst y. exists (set_end w (Z.max (end_ w) (end_ N2))).
        split; [rewrite !elem_of_app; left; right; by left|].
        unfold spans. simpl. split; [lia|]. split; [lia|done].
    + intros y Hy. apply seg_covered_elem. rewrite !elem_of_app.
      by right; left.
    + intros y Hy. apply seg_covered_elem. rewrite !elem_of_app.
      by right; right.
    + exists (set_end w (Z.max (end_ w) (end_ N2))).
      split; [rewrite !elem_of_app; left; right; by left|].
      unfold spans. simpl. split; [lia|]. split; [lia|done].
  - (* the segment is stored *)
    destruct (place_spec lr L a1 G2 a2' Sp2 N2) as (s' & Heq & Hshape).
    rewrite Heq in Hrun. injection Hrun as <-.
    rewrite pts_of_updater_of. unfold pts.
    destruct Hshape as [[G3 ->]| ->]; simpl; apply Hold.
    + intros y Hy. apply seg_covered_elem. rewrite !elem_of_app.
      by left; left.
    + intros y Hy. apply seg_covered_elem. rewrite !elem_of_app.
      by right; left.
    + intros y Hy. apply seg_covered_elem. rewrite !elem_of_app.
      by right; right.
    + apply seg_covered_elem. rewrite !elem_of_app. left. right. by left.
    + intros y Hy. apply seg_covered_elem. rewrite !elem_of_app. by left.
    + intros y Hy. apply seg_covered_elem. rewrite !elem_of_app.
      by right; left; left.
    + intros y Hy. apply seg_covered_elem. rewrite !elem_of_app.
      by right; right.
    + apply seg_covered_elem. rewrite !elem_of_app.
      right. left. right. by left.
Qed.

(** The body of [add] keeps what the three areas held and covers the
    segment it is given. *)
Lemma add_from_covers lr u s last Seg u' :
  repr u lr s → UInv s last →
  add_from lr u Seg = Ok u' →
  (∀ y, y ∈ pts s → seg_covered (pts_of u') y)
  ∧ seg_covered (pts_of u') Seg.
Proof.
  intros (HLR & Hset & Hsegs & HW & HR & HS) Hu.
  unfold add_from. rewrite Hsegs, HW, HR, HS.
  destruct (add_advance_spec s last Seg Hu)
    as (j & m & G' & Hadv & Hlen & Hall & Hhead).
  cbv zeta in Hadv, Hlen, Hhead. rewrite Hadv. cbn [bind]. clear Hadv.
  rewrite <- Hlen. clear Hlen Hall.
  assert (Hel : ∀ y, y ∈ pts s → y ∈ pts (advanced s j m G')).
  { intros y Hy. by apply advanced_elem. }
  set (s1 := advanced s j m G') in *. clearbody s1.
  intros Hrun.
  enough ((∀ y, y ∈ pts s1 → seg_covered (pts_of u') y)
          ∧ seg_covered (pts_of u') Seg) as [H1 H2].
  { split; [|done]. intros y Hy. by apply H1, Hel. }
  clear Hel Hu Hsegs HW HR HS s. destruct s1 as [a1 G a2 sp].
  simpl in *. unfold pts. simpl.
  apply bind_Ok in Hrun as (? & Hchk & Hrun).
  apply bind_Ok in Hrun as (ord & Hrd & Hrun).
  destruct a2 as [|rd a2].
  { (* ReadI is at the end *)
    rewrite (proj2 (Nat.eqb_eq _ _)) in Hrd
      by (rewrite !length_app; simpl; lia).
    cbn [negb] in Hrd. injection Hrd as <-.
    by apply add_insert_covers in Hrun. }
  rewrite (proj2 (Nat.eqb_neq _ _)) in Hrd, Hchk
    by (rewrite !length_app; simpl; lia).
  cbn [negb] in Hrd, Hchk.
  assert (Hr : (a1 ++ G ++ rd :: a2) !! (length a1 + length G) = Some rd).
  { rewrite app_assoc. rewrite <- length_app. apply lookup_middle. }
  unfold at_ in Hrd, Hchk. rewrite Hr in Hrd, Hchk. cbn [bind] in Hrd, Hchk.
  apply check_Ok in Hchk. apply Z.ltb_lt in Hchk.
  destruct (Z.leb_spec (start rd) (start Seg)) as [Hearly|Hlate];
    injection Hrd as <-.
  - (* the segment at ReadI begins early *)
    apply bind_Ok in Hrun as (? & Hv & Hrun).
    apply check_Ok in Hv. apply Nat.eqb_eq in Hv.
    destruct (Z.leb_spec (end_ Seg) (end_ rd)) as [Hin|Hout].
    + injection Hrun as <-.
      change (pts_of _) with (pts_of (updater_of lr (start Seg)
                                        (mkAreas a1 G (rd :: a2) sp))).
      rewrite pts_of_updater_of. unfold pts. simpl. split.
      * intros y Hy. by apply seg_covered_elem.
      * exists rd. split; [rewrite !elem_of_app; right; right; by left|].
        unfold spans. split; [lia|]. split; [lia|done].
    + replace (a1 ++ G ++ rd :: a2) with (a1 ++ (G ++ [rd]) ++ a2) in Hrun
        by (by rewrite <- !app_assoc).
      replace (length a1 + length G + 1)
        with (length a1 + length (G ++ [rd])) in Hrun
        by (rewrite length_app; simpl; lia).
      apply add_insert_covers in Hrun as [H1 H2].
      assert (Hrds : spans (set_start Seg (start rd)) rd).
      { unfold spans. simpl. split; [lia|]. split; [lia|done]. }
      split.
      * intros y. rewrite !elem_of_app, elem_of_cons.
        intros [Hy|[Hy|[->|Hy]]].
        -- apply H1. rewrite !elem_of_app. by left.
        -- apply H1. rewrite !elem_of_app. by right; left.
        -- by eapply seg_covered_spans.
        -- apply H1. rewrite !elem_of_app. by right; right.
      * eapply seg_covered_spans; [exact H2|].
        unfold spans. simpl. split; [lia|]. split; [lia|done].
  - by apply add_insert_covers in Hrun.
Qed.

(** [add] on an updater in a state [s]: the state afterwards satisfies
    the invariants of the class, and its points are those of [s] and
    those of the segment. *)
Lemma add_live A vs u lr s Seg :
  updater_ok A vs u lr s → seg_wf A vs Seg → (start Seg < end_ Seg)%Z →
  no_conflict (pts s) Seg →
  ∃ u' lr' s',
    add A u Seg = Ok u' ∧ updater_ok A vs u' lr' s'
    ∧ isDirty u' = true
    ∧ (∀ p v, live_at (pts s') p v ↔
              live_at (pts s) p v
              ∨ ((start Seg ≤ p < end_ Seg)%Z ∧ v = valno Seg)).
Proof.
  intros Hok HwfS HSeg Hnc.
  destruct (add_prepare_spec A vs u lr s Seg Hok)
    as (u1 & lr1 & s1 & last & Hprep & Hrepr & Hvs1 & Hu1 & Hlast & Hpts).
  destruct Hok as (HLR & Hset & Hvs & Hwf & Hst).
  unfold add. rewrite HLR.
  rewrite bool_decide_eq_false_2 by (intros H; by apply H).
  rewrite Hprep. cbn [bind].
  pose proof Hrepr as (HLR1 & Hset1 & _). rewrite HLR1.
  destruct (add_from_spec lr1 u1 s1 last Seg Hrepr Hu1 Hlast HSeg)
    as (s' & Hadd & Hu' & Hmem).
  { intros n Hn. apply Hnc. by apply Hpts. }
  destruct (add_from_covers lr1 u1 s1 last Seg _ Hrepr Hu1 Hadd)
    as [Hc1 Hc2].
  rewrite pts_of_updater_of in Hc1, Hc2.
  rewrite Hadd.
  assert (Hmem' : ∀ x, x ∈ pts s' → x ∈ pts s ∨ stands_for (pts s) Seg x).
  { intros x Hx. destruct (Hmem x Hx) as [H|H].
    - left. by apply Hpts.
    - right. eapply stands_for_ext; [|done]. intros y. by apply Hpts. }
  destruct HwfS as [HS0 HSv].
  assert (Hvalid : isValid (start Seg) = true).
  { unfold isValid. by apply Z.leb_le. }
  exists (updater_of lr1 (start Seg) s'),
    (with_segments lr1 (area1 s' ++ gap s' ++ area2 s')), s'.
  split; [done|]. split; [|split; [done|]].
  - unfold updater_ok. splits; [done|done|done| |].
    + rewrite Forall_forall in Hwf. apply Forall_forall. intros x Hx.
      destruct (Hmem' x Hx) as [H|(Hv & _ & Hkey & _)]; [by apply Hwf|].
      unfold seg_wf. rewrite Hv. split; [|done].
      destruct Hkey as [->|(y & Hy & -> & _)]; [done|].
      by destruct (Hwf y Hy).
    + simpl. rewrite Hvalid. split; [by apply repr_updater_of|done].
  - intros p v. split.
    + intros (x & Hx & Hp & Hv).
      destruct (Hmem' x Hx) as [H|(Hv' & _ & _ & Hcov)].
      * left. by exists x.
      * destruct (Hcov p Hp) as [Hin|Hl].
        -- right. split; [done|]. congruence.
        -- left. by rewrite <- Hv, Hv'.
    + intros [(x & Hx & Hp & <-)|[Hp ->]].
      * apply seg_covered_live; [|done]. apply Hc1. by apply Hpts.
      * by apply seg_covered_live.
Qed.

(** Adding a list of segments: the points afterwards are those of the
    state and those of the list. *)
Lemma add_all_live A vs l : ∀ u lr s,
  updater_ok A vs u lr s → Forall (seg_wf A vs) l →
  Forall (λ n, (start n < end_ n)%Z) l →
  consistent (pts s ++ l) →
  ∃ u' lr' s',
    add_all A u l = Ok u' ∧ updater_ok A vs u' lr' s'
    ∧ (∀ p v, live_at (pts s') p v ↔ live_at (pts s ++ l) p v).
Proof.
  induction l as [|Seg l IH]; intros u lr s Hok Hwf Hne Hc.
  { exists u, lr, s. splits; [done|done|].
    intros p v. by rewrite app_nil_r. }
  apply Forall_cons in Hwf as [HwfS Hwf].
  apply Forall_cons in Hne as [HneS Hne].
  destruct (add_live A vs u lr s Seg Hok HwfS HneS)
    as (u1 & lr1 & s1 & Hadd & Hok1 & _ & Hlive1).
  { eapply consistent_no_conflict; [done| |done].
    intros n Hn. by eapply updater_ok_nonempty. }
  assert (Htrack : ∀ p v, live_at (pts s1 ++ l) p v ↔
                          live_at (pts s ++ Seg :: l) p v).
  { intros p v. rewrite !live_at_app, live_at_cons, Hlive1.
    intuition (subst; auto). }
  destruct (IH u1 lr1 s1 Hok1 Hwf Hne) as (u' & lr' & s' & Hall & Hok' & Hlive).
  { intros p v v' H1 H2. eapply Hc; by apply Htrack. }
  exists u', lr', s'. simpl. rewrite Hadd. cbn [bind].
  splits; [done|done|].
  intros p v. by rewrite Hlive, Htrack.
Qed.

(** X10. [add] on an updater whose state satisfies the invariants of the
    class, given a forward segment of a live value that overlaps no
    segment of another value: the call succeeds, the state afterwards
    satisfies the invariants and is dirty, and it holds the points it
    held before and the points of the segment, with their values. *)
Theorem add_keeps_class_invariants A vs u lr s Seg :
  updater_ok A vs u lr s → seg_wf A vs Seg → (start Seg < end_ Seg)%Z →
  no_conflict (pts s) Seg →
  ∃ u' lr' s',
    add A u Seg = Ok u' ∧ updater_ok A vs u' lr' s'
    ∧ isDirty u' = true
    ∧ (∀ p v, live_at (pts s') p v ↔
              live_at (pts s) p v
              ∨ ((start Seg ≤ p < end_ Seg)%Z ∧ v = valno Seg)).
Proof. apply add_live. Qed.

Lemma add_keeps_class_invariants_witness :
  ∃ u',
    add [VNInfo.mk 0 0 false false]
      {| LR := Some (mkLiveRange [mkSegment 20 30 1] [1] None);
         LastStart := 0; WriteI := 0; ReadI := 0;
         Spills := [mkSegment 0 10 1] |}
      (mkSegment 10 20 1) = Ok u'
    ∧ isDirty u' = true.
Proof.
  destruct (add_keeps_class_invariants [VNInfo.mk 0 0 false false] [1]
              {| LR := Some (mkLiveRange [mkSegment 20 30 1] [1] None);
                 LastStart := 0; WriteI := 0; ReadI := 0;
                 Spills := [mkSegment 0 10 1] |}
              (mkLiveRange [mkSegment 20 30 1] [1] None)
              (mkAreas [] [] [mkSegment 20 30 1] [mkSegment 0 10 1])
              (mkSegment 10 20 1))
    as (u' & _ & _ & Hrun & _ & Hd & _).
  - unfold updater_ok. simpl. splits; try done.
    + unfold pts. simpl. concrete_Forall; (split; [simpl; lia|by eexists]).
    + unfold UInv. simpl. splits; try done.
      * intros a b Ha Hb. apply list_elem_of_singleton in Ha as ->.
        apply list_elem_of_singleton in Hb as ->.
        unfold seg_before. simpl. lia.
      * intros a x Ha. by apply elem_of_nil in Ha.
      * intros a Ha. by apply list_elem_of_singleton in Ha as ->.
  - split; [simpl; lia|by eexists].
  - simpl. lia.
  - intros n Hn Hneq. unfold pts in Hn. simpl in Hn.
    apply elem_of_cons in Hn as [->|Hn]; [done|].
    by apply list_elem_of_singleton in Hn as ->.
  - by exists u'.
Defined.

(** X11. [flush] on an updater whose state satisfies the invariants of
    the class: the call succeeds and leaves a range that satisfies the
    invariants of a live range, with the value table it had and exactly
    the segments of the three areas. *)
Theorem flush_restores_invariants A vs u lr s :
  updater_ok A vs u lr s →
  Forall (λ p, ∃ v, deref A p = Ok v) vs →
  ∃ u' lr',
    flush A u = Ok u' ∧ LR u' = Some lr' ∧ isDirty u' = false
    ∧ LRInv A lr' ∧ valnos lr' = vs
    ∧ (∀ x, x ∈ segments lr' ↔ x ∈ pts s).
Proof.
  intros Hok Hh.
  destruct (flush_spec A vs u lr s Hok Hh) as (u' & lr' & Hf & H1 & H2 & H3 & H4).
  exists u', lr'. splits; try done.
  unfold flush in Hf. destruct (isDirty u) eqn:Hd; cbn [negb] in Hf.
  - destruct (LR u); [|done].
    destruct (length (Spills u) =? 0).
    + inv_res. by subst.
    + inv_res. destruct r as [[? ?] ?]. inv_res. by subst.
  - by injection Hf as <-.
Qed.

Lemma flush_restores_invariants_witness :
  ∃ u' lr',
    flush [VNInfo.mk 0 0 false false]
      {| LR := Some (mkLiveRange [mkSegment 20 30 1] [1] None);
         LastStart := 0; WriteI := 0; ReadI := 0;
         Spills := [mkSegment 0 10 1] |} = Ok u'
    ∧ LR u' = Some lr'
    ∧ segments lr' = [mkSegment 0 10 1; mkSegment 20 30 1].
Proof.
  destruct (flush_restores_invariants [VNInfo.mk 0 0 false false] [1]
              {| LR := Some (mkLiveRange [mkSegment 20 30 1] [1] None);
                 LastStart := 0; WriteI := 0; ReadI := 0;
                 Spills := [mkSegment 0 10 1] |}
              (mkLiveRange [mkSegment 20 30 1] [1] None)
              (mkAreas [] [] [mkSegment 20 30 1] [mkSegment 0 10 1]))
    as (u' & lr' & Hrun & HLR & _).
  - unfold updater_ok. simpl. splits; try done.
    + unfold pts. simpl. concrete_Forall; (split; [simpl; lia|by eexists]).
    + unfold UInv. simpl. splits; try done.
      * intros a b Ha Hb. apply list_elem_of_singleton in Ha as ->.
        apply list_elem_of_singleton in Hb as ->.
        unfold seg_before. simpl. lia.
      * intros a x Ha. by apply elem_of_nil in Ha.
      * intros a Ha. by apply list_elem_of_singleton in Ha as ->.
  - concrete_Forall. by eexists.
  - exists u', lr'. split; [exact Hrun|].
    vm_compute in Hrun. injection Hrun as <-. simpl in HLR.
    by injection HLR as <-.
Defined.

(** ** Merging the segments of another range *)

Lemma live_at_same_elems l l' :
  (∀ x, x ∈ l ↔ x ∈ l') → ∀ p v, live_at l p v ↔ live_at l' p v.
Proof.
  intros H p v. unfold live_at. split; intros (x & Hx & ?); exists x;
    (split; [by apply H|done]).
Qed.

Lemma live_at_as_value V l p v :
  live_at (map (as_value V) l) p v ↔ v = V ∧ ∃ w, live_at l p w.
Proof.
  unfold live_at. split.
  - intros (x & Hx & Hp & Hv). apply list_elem_of_fmap in Hx as (s & -> & Hs).
    simpl in *. split; [done|]. exists (valno s), s. done.
  - intros (-> & w & s & Hs & Hp & _). exists (as_value V s).
    split; [by apply list_elem_of_fmap_2|done].
Qed.

Lemma add_all_as_map A V l : ∀ u,
  Forall (λ s, (start s < end_ s)%Z) l →
  add_all_as A u l V = add_all A u (map (as_value V) l).
Proof.
  induction l as [|s l IH]; intros u Hne; [done|].
  apply Forall_cons in Hne as [Hs Hne]. simpl. unfold Segment_new.
  rewrite (proj2 (Z.ltb_lt _ _) Hs). cbn [check bind]. fold (as_value V s).
  destruct (add A u (as_value V s)); cbn [bind]; [|done]. by apply IH.
Qed.

Lemma add_value_as_filter A R V l : ∀ u,
  Forall (λ s, valno s = R → (start s < end_ s)%Z) l →
  add_value_as A u l R V
  = add_all A u (map (as_value V) (filter (λ s, valno s = R) l)).
Proof.
  induction l as [|s l IH]; intros u Hne; [done|].
  apply Forall_cons in Hne as [Hs Hne]. simpl.
  destruct (Nat.eqb_spec (valno s) R) as [Heq|Hneq].
  - rewrite filter_cons_True by done. simpl. unfold Segment_new.
    rewrite (proj2 (Z.ltb_lt _ _) (Hs Heq)). cbn [check bind].
    fold (as_value V s).
    destruct (add A u (as_value V s)); cbn [bind]; [|done]. by apply IH.
  - rewrite filter_cons_False by done. by apply IH.
Qed.

(** An updater made for a range that satisfies the invariants, given a
    list of segments and then flushed. *)
Lemma merge_in_spec A lr l :
  LRInv A lr →
  Forall (seg_wf A (valnos lr)) l →
  Forall (λ n, (start n < end_ n)%Z) l →
  consistent (segments lr ++ l) →
  ∃ u u' lr',
    add_all A (LiveRangeUpdater_new (Some lr)) l = Ok u
    ∧ flush A u = Ok u' ∧ LR u' = Some lr'
    ∧ LRInv A lr' ∧ valnos lr' = valnos lr
    ∧ (∀ p v, live_at (segments lr') p v ↔
              live_at (segments lr) p v ∨ live_at l p v).
Proof.
  intros Hinv Hwf Hne Hc.
  destruct (add_all_live A (valnos lr) l (LiveRangeUpdater_new (Some lr)) lr
              (mkAreas [] [] (segments lr) []))
    as (u & lr1 & s1 & Hadd & Hok & Hlive); [|done|done|done|].
  { unfold updater_ok. simpl. splits; [done|by destruct Hinv|done| |done| |].
    - unfold pts. simpl. apply Forall_forall. intros x Hx. split.
      + pose proof (inv_valid _ _ Hinv) as Hv. rewrite Forall_forall in Hv.
        by apply Hv.
      + pose proof (inv_table _ _ Hinv) as Ht. rewrite Forall_forall in Ht.
        by apply Ht.
    - done.
    - by destruct Hinv. }
  destruct (flush_spec A (valnos lr) u lr1 s1 Hok (inv_handles _ _ Hinv))
    as (u' & lr' & Hf & HLR & Hinv' & Hvs & Hel).
  exists u, u', lr'. splits; try done.
  intros p v. rewrite (live_at_same_elems _ _ Hel), Hlive.
  unfold pts. simpl. by rewrite live_at_app.
Qed.

(** The segments given to the updater of a merge agree with the range
    where they share a point with it. *)
Lemma merge_consistent lr l V :
  ordered (segments lr) →
  (∀ n r, n ∈ segments lr → r ∈ l → valno n ≠ V →
          (end_ n ≤ start r)%Z ∨ (end_ r ≤ start n)%Z) →
  consistent (segments lr ++ map (as_value V) l).
Proof.
  intros Ho Hapart p v v' H1 H2.
  apply live_at_app in H1 as [H1|H1]; apply live_at_app in H2 as [H2|H2].
  - by eapply live_at_unique.
  - apply live_at_as_value in H2 as (-> & w & r & Hr & Hpr & _).
    destruct H1 as (n & Hn & Hpn & <-).
    destruct (decide (valno n = V)) as [|Hneq]; [done|].
    destruct (Hapart n r Hn Hr Hneq); lia.
  - apply live_at_as_value in H1 as (-> & w & r & Hr & Hpr & _).
    destruct H2 as (n & Hn & Hpn & <-).
    destruct (decide (valno n = V)) as [|Hneq]; [done|].
    destruct (Hapart n r Hn Hr Hneq); lia.
  - apply live_at_as_value in H1 as (-> & _).
    by apply live_at_as_value in H2 as (-> & _).
Qed.

(** X12. [MergeSegmentsInAsValue(RHS, LHSValNo)] on a range that
    satisfies the invariants, for a value of the range's table and
    segments of [RHS] (in any order) that are not empty and overlap no
    segment of the range with another value: the call succeeds, the range
    satisfies the invariants and keeps its value table, and it is live
    exactly where it was, with the values it had, and where [RHS] is live,
    with the value [LHSValNo]. *)
Theorem MergeSegmentsInAsValue_live A lr RHS LHSValNo :
  LRInv A lr →
  vn_live A (valnos lr) LHSValNo →
  Forall (λ s, (0 ≤ start s < end_ s)%Z) (segments RHS) →
  (∀ n r, n ∈ segments lr → r ∈ segments RHS → valno n ≠ LHSValNo →
          (end_ n ≤ start r)%Z ∨ (end_ r ≤ start n)%Z) →
  ∃ lr',
    MergeSegmentsInAsValue A lr RHS LHSValNo = Ok lr'
    ∧ LRInv A lr' ∧ valnos lr' = valnos lr
    ∧ (∀ p v, live_at (segments lr') p v ↔
              live_at (segments lr) p v
              ∨ (v = LHSValNo ∧ ∃ w, live_at (segments RHS) p w)).
Proof.
  intros Hinv HV HR Hapart.
  destruct (merge_in_spec A lr (map (as_value LHSValNo) (segments RHS)))
    as (u & u' & lr' & Hadd & Hf & HLR & Hinv' & Hvs & Hlive); [done| | | |].
  { apply Forall_forall. intros x Hx.
    apply list_elem_of_fmap in Hx as (s & -> & Hs).
    rewrite Forall_forall in HR. specialize (HR s Hs). simpl in HR.
    split; [simpl; lia|done]. }
  { apply Forall_forall. intros x Hx.
    apply list_elem_of_fmap in Hx as (s & -> & Hs).
    rewrite Forall_forall in HR. specialize (HR s Hs). simpl in *. lia. }
  { apply merge_consistent; [by destruct Hinv|done]. }
  exists lr'. unfold MergeSegmentsInAsValue.
  rewrite add_all_as_map
    by (eapply Forall_impl; [exact HR|]; intros s Hs; simpl in Hs; lia).
  rewrite Hadd. cbn [bind]. rewrite Hf. cbn [bind]. rewrite HLR.
  splits; try done.
  intros p v. by rewrite Hlive, live_at_as_value.
Qed.

Lemma MergeSegmentsInAsValue_live_witness :
  ∃ lr',
    MergeSegmentsInAsValue [VNInfo.mk 0 0 false false]
      (mkLiveRange [mkSegment 0 10 1] [1] None)
      (mkLiveRange [mkSegment 30 40 7; mkSegment 10 20 9] [] None) 1 = Ok lr'
    ∧ segments lr' = [mkSegment 0 20 1; mkSegment 30 40 1].
Proof.
  destruct (MergeSegmentsInAsValue_live [VNInfo.mk 0 0 false false]
              (mkLiveRange [mkSegment 0 10 1] [1] None)
              (mkLiveRange [mkSegment 30 40 7; mkSegment 10 20 9] [] None) 1)
    as (lr' & Hrun & _).
  - concrete_LRInv.
  - by eexists.
  - simpl. concrete_Forall; lia.
  - simpl. intros n r Hn _ Hneq. apply list_elem_of_singleton in Hn as ->.
    done.
  - exists lr'. split; [exact Hrun|].
    vm_compute in Hrun. by injection Hrun as <-.
Defined.

(** X13. [MergeValueInAsValue(RHS, RHSValNo, LHSValNo)] under the same
    conditions on the segments of [RHS] whose value is [RHSValNo]: the
    call succeeds, the range satisfies the invariants and keeps its value
    table, and it is live exactly where it was, with the values it had,
    and where [RHS] is live with the value [RHSValNo], there with the
    value [LHSValNo]. *)
Theorem MergeValueInAsValue_live A lr RHS RHSValNo LHSValNo :
  LRInv A lr →
  vn_live A (valnos lr) LHSValNo →
  Forall (λ s, valno s = RHSValNo → (0 ≤ start s < end_ s)%Z)
         (segments RHS) →
  (∀ n r, n ∈ segments lr → r ∈ segments RHS → valno r = RHSValNo →
          valno n ≠ LHSValNo →
          (end_ n ≤ start r)%Z ∨ (end_ r ≤ start n)%Z) →
  ∃ lr',
    MergeValueInAsValue A lr RHS RHSValNo LHSValNo = Ok lr'
    ∧ LRInv A lr' ∧ valnos lr' = valnos lr
    ∧ (∀ p v, live_at (segments lr') p v ↔
              live_at (segments lr) p v
              ∨ (v = LHSValNo ∧ live_at (segments RHS) p RHSValNo)).
Proof.
  intros Hinv HV HR Hapart.
  set (sel := filter (λ s, valno s = RHSValNo) (segments RHS)).
  assert (Hsel : ∀ s, s ∈ sel ↔ s ∈ segments RHS ∧ valno s = RHSValNo).
  { intros s. unfold sel. rewrite list_elem_of_filter. tauto. }
  rewrite Forall_forall in HR.
  destruct (merge_in_spec A lr (map (as_value LHSValNo) sel))
    as (u & u' & lr' & Hadd & Hf & HLR & Hinv' & Hvs & Hlive); [done| | | |].
  { apply Forall_forall. intros x Hx.
    apply list_elem_of_fmap in Hx as (s & -> & Hs).
    apply Hsel in Hs as [Hs Hv]. specialize (HR s Hs Hv).
    split; [simpl; lia|done]. }
  { apply Forall_forall. intros x Hx.
    apply list_elem_of_fmap in Hx as (s & -> & Hs).
    apply Hsel in Hs as [Hs Hv]. specialize (HR s Hs Hv). simpl. lia. }
  { apply merge_consistent; [by destruct Hinv|].
    intros n r Hn Hr. apply Hsel in Hr as [Hr Hv]. by apply Hapart. }
  exists lr'. unfold MergeValueInAsValue.
  rewrite add_value_as_filter.
  2:{ apply Forall_forall. intros s Hs Hv. specialize (HR s Hs Hv). lia. }
  fold sel. rewrite Hadd. cbn [bind]. rewrite Hf. cbn [bind]. rewrite HLR.
  splits; try done.
  intros p v. rewrite Hlive, live_at_as_value.
  enough ((∃ w, live_at sel p w) ↔ live_at (segments RHS) p RHSValNo)
    as -> by done.
  unfold live_at. split.
  - intros (w & s & Hs & Hp & _). apply Hsel in Hs as [Hs Hv]. by exists s.
  - intros (s & Hs & Hp & Hv). exists RHSValNo, s.
    split; [by apply Hsel|done].
Qed.

Lemma MergeValueInAsValue_live_witness :
  ∃ lr',
    MergeValueInAsValue [VNInfo.mk 0 0 false false]
      (mkLiveRange [mkSegment 0 10 1] [1] None)
      (mkLiveRange [mkSegment 5 8 7; mkSegment 10 20 9] [] None) 9 1 = Ok lr'
    ∧ segments lr' = [mkSegment 0 20 1].
Proof.
  destruct (MergeValueInAsValue_live [VNInfo.mk 0 0 false false]
              (mkLiveRange [mkSegment 0 10 1] [1] None)
              (mkLiveRange [mkSegment 5 8 7; mkSegment 10 20 9] [] None) 9 1)
    as (lr' & Hrun & _).
  - concrete_LRInv.
  - by eexists.
  - simpl. concrete_Forall; intros; (lia || done).
  - simpl. intros n r Hn _ _ Hneq. apply list_elem_of_singleton in Hn as ->.
    done.
  - exists lr'. split; [exact Hrun|].
    vm_compute in Hrun. by injection Hrun as <-.
Defined.

(** ** Where a joined range is live *)

Lemma remap_fixed f s : f (valno s) = valno s → remap f s = s.
Proof. intros H. unfold remap, set_valno. rewrite H. by destruct s. Qed.

(** The merged rewrite loses no point of the mapped segments. *)
Lemma coalesce_map_covers f rest : ∀ o p v,
  (start o ≤ end_ o)%Z → Forall (λ s, (start s ≤ end_ s)%Z) rest →
  live_at (o :: map (remap f) rest) p v →
  live_at (coalesce_map f o rest) p v.
Proof.
  induction rest as [|s rest IH]; intros o p v Ho Hr Hl; simpl; [done|].
  apply Forall_cons in Hr as [Hs Hr].
  destruct ((valno o =? f (valno s)) && (end_ o =? start s)%Z) eqn:Htest.
  - apply andb_true_iff in Htest as [Ht1 Ht2].
    apply Nat.eqb_eq in Ht1. apply Z.eqb_eq in Ht2.
    apply IH; [simpl; lia|done|].
    apply live_at_cons in Hl as [[Hp Hv]|Hl].
    { apply live_at_cons. left. simpl. split; [lia|done]. }
    simpl in Hl. apply live_at_cons in Hl as [[Hp Hv]|Hl].
    + apply live_at_cons. left. simpl in *. split; [lia|congruence].
    + apply live_at_cons. by right.
  - apply live_at_cons in Hl as [Hl|Hl].
    { apply live_at_cons. by left. }
    apply live_at_cons. right.
    apply IH; [simpl; lia|done|]. exact Hl.
Qed.

(** X14. [join] under its precondition succeeds and leaves a range that
    satisfies the invariants; the segments of [Other] have their values
    mapped through its assignments; and the range is live exactly where
    a segment of the range or of [Other] was, with the value the
    assignments give to the value of that segment. *)
Theorem join_live_where_either_was A lr Other LHS RHS New :
  join_pre A lr Other LHS RHS New →
  ∃ A' lr' Other',
    join A lr Other LHS RHS New = Ok (A', lr', Other') ∧ LRInv A' lr'
    ∧ segments Other'
      = map (remap (value_map A RHS New)) (segments Other)
    ∧ (∀ p v, live_at (segments lr') p v ↔
              live_at (map (remap (value_map A LHS New)) (segments lr)) p v
              ∨ live_at (segments Other') p v).
Proof.
  intros (Hinv & HO & HlenL & HL & HN & HNew & HmapL & HmapR & Hcons).
  set (fL := value_map A LHS New) in *.
  set (fR := value_map A RHS New) in *.
  unfold join.
  rewrite (proj2 (verify_Ok A lr tt) (LRInv_verified _ _ Hinv)).
  cbn [bind].
  (* the scan for mapped values *)
  destruct (join_must_map_spec LHS New (valnos lr) 0) as (b & -> & Hb);
    [|done|].
  { intros k Hk. simpl. destruct (lookup_lt_is_Some_2 LHS k) as [z Hz];
      [lia|]. exists z. split; [done|].
    rewrite Forall_forall in HL. apply HL.
    by eapply list_elem_of_lookup_2. }
  cbn [bind].
  (* the rewrite of the range's own segments *)
  assert (Hsegs : ∃ segs',
    (if b && negb (length (segments lr) =? 0)
     then join_map A LHS New (segments lr) else Ok (segments lr)) = Ok segs'
    ∧ ordered segs'
    ∧ (∀ x, x ∈ segs' → ∃ s, s ∈ segments lr ∧ start x = start s
                             ∧ valno x = fL (valno s))
    ∧ (∀ p v, live_at segs' p v ↔
              live_at (map (remap fL) (segments lr)) p v)).
  { pose proof (inv_ordered _ _ Hinv) as Ho.
    assert (Hsame : b = false → ∀ s, s ∈ segments lr → fL (valno s) = valno s).
    { intros -> s Hs. specialize (Hb eq_refl).
      pose proof (inv_table _ _ Hinv) as Ht. rewrite Forall_forall in Ht.
      destruct (Ht s Hs) as (v & Hv & Hid & _).
      destruct (Hb _ _ Hid) as (Hz & n & Hn & Hnv). simpl in Hz, Hn.
      assert (fL (valno s) = n) as Hf.
      { unfold fL, value_map, join_lookup. rewrite Hv. cbn [bind].
        unfold at_ at 1. rewrite Hz. cbn [bind]. unfold at_Z.
        rewrite (proj2 (Z.ltb_ge _ _)) by lia. rewrite Nat2Z.id.
        unfold at_. by rewrite Hn. }
      specialize (HmapL s Hs). rewrite Hf in *.
      by destruct Hnv as [->| ->]. }
    assert (Hid : (∀ s, s ∈ segments lr → fL (valno s) = valno s) →
      ordered (segments lr)
      ∧ (∀ x, x ∈ segments lr → ∃ s, s ∈ segments lr ∧ start x = start s
                                     ∧ valno x = fL (valno s))
      ∧ (∀ p v, live_at (segments lr) p v ↔
                live_at (map (remap fL) (segments lr)) p v)).
    { intros Hs. splits; [done| |].
      - intros x Hx. exists x. by rewrite Hs.
      - intros p v. apply live_at_same_elems. intros x.
        rewrite list_elem_of_fmap. split.
        + intros Hx. exists x. split; [|done].
          symmetry. by apply remap_fixed, Hs.
        + intros (y & -> & Hy). by rewrite remap_fixed by by apply Hs. }
    destruct b; cbn [andb]; [|exists (segments lr); split; [done|]; auto].
    destruct (segments lr) as [|s0 rest] eqn:Hsg.
    { exists []. simpl. splits; try done.
      intros x Hx. by apply elem_of_nil in Hx. }
    cbn [length Nat.eqb negb].
    rewrite join_map_spec by done. fold fL.
    eexists. split; [done|]. splits.
    - pose proof Ho as (Hs0 & _).
      apply coalesce_map_ordered; [done|by eapply ordered_cons_inv|].
      intros n Hn. simpl. destruct rest as [|r rest]; [done|].
      injection Hn as ->. by destruct Ho as (_ & [? _] & _).
    - intros x Hx. apply coalesce_map_elem in Hx as [[? ?]|(y & Hy & ?)].
      + exists s0. split; [by left|done].
      + exists y. split; [by right|done].
    - intros p v. split; [apply coalesce_map_live|].
      pose proof (ordered_Forall _ Ho) as Hne.
      apply Forall_cons in Hne as [Hne0 Hne].
      apply coalesce_map_covers; [simpl; lia|].
      eapply Forall_impl; [exact Hne|]. intros x Hx. simpl in Hx. lia. }
  destruct Hsegs as (segs' & -> & Hord & Hel & Hlive). cbn [bind].
  rewrite join_map_other_spec by done. fold fR. cbn [bind].
  set (osegs := map (remap fR) (segments Other)).
  (* the new value table *)
  destruct (join_renumber_spec New A (valnos lr) 0 (length (valnos lr)))
    as (A' & vs' & k' & -> & Hlen' & Hk' & _ & Hent & Hder & Hnew & _).
  { lia. }
  { eapply Forall_impl; [exact HNew|]. intros p Hp Hpn.
    destruct (Hp Hpn) as (v & ? & _). by exists v. }
  cbn [bind].
  set (vs'' := if length New <? length (valnos lr)
               then take (length New) vs' else vs').
  assert (Hlook : ∀ i p, i < k' → vs' !! i = Some p → vs'' !! i = Some p).
  { intros i p Hi Hp. unfold vs''. destruct (_ <? _); [|done].
    rewrite lookup_take_lt by lia. done. }
  assert (Hvlive : ∀ p, p ∈ New → p ≠ nullptr → vn_live A' vs'' p).
  { intros p Hp Hpn. destruct (Hnew p Hp Hpn) as (v' & Hv' & Hid & Hvs).
    exists v'. splits; [done|by apply Hlook; [lia|]|].
    rewrite Forall_forall in HNew. destruct (HNew p Hp Hpn) as (v & Hv & Hu).
    destruct (Hder p v Hv) as (w & Hw & Huw). congruence. }
  assert (Hhandles : Forall (λ p, ∃ v, deref A' p = Ok v) vs'').
  { apply Forall_forall. intros p Hp.
    assert (p ∈ vs') as Hp'.
    { unfold vs'' in Hp. destruct (_ <? _); [|done].
      by eapply subseteq_take. }
    apply list_elem_of_lookup_1 in Hp' as [i Hi].
    destruct (Hent i p Hi) as [Hold|[Hin Hnn]].
    - pose proof (inv_handles _ _ Hinv) as Hh. rewrite Forall_forall in Hh.
      destruct (Hh p) as [v Hv]; [by eapply list_elem_of_lookup_2|].
      destruct (Hder p v Hv) as (w & ? & _). by exists w.
    - destruct (Hnew p Hin Hnn) as (v' & ? & _). by exists v'. }
  set (lr' := with_valnos (with_segments lr segs') vs'').
  (* the segments of Other are added *)
  destruct (add_all_live A' vs'' osegs (LiveRangeUpdater_new (Some lr')) lr'
              (mkAreas [] [] segs' []))
    as (u & lr1 & s1 & -> & Hok & Hpts).
  { unfold updater_ok. simpl. splits; [done|by destruct Hinv|done| |done..].
    unfold pts. simpl. apply Forall_forall. intros x Hx.
    destruct (Hel x Hx) as (s & Hs & Hst & Hv). split.
    - rewrite Hst. pose proof (inv_valid _ _ Hinv) as Hval.
      rewrite Forall_forall in Hval. by apply Hval.
    - rewrite Hv. apply Hvlive; [|by apply HmapL].
      apply value_map_elem. by apply HmapL. }
  { apply Forall_forall. intros x Hx. unfold osegs in Hx.
    apply list_elem_of_fmap in Hx as (s & -> & Hs). split.
    - simpl. rewrite Forall_forall in HO. specialize (HO s Hs). simpl in HO.
      lia.
    - simpl. apply Hvlive; [|by apply HmapR].
      apply value_map_elem. by apply HmapR. }
  { apply Forall_forall. intros x Hx. unfold osegs in Hx.
    apply list_elem_of_fmap in Hx as (s & -> & Hs). simpl.
    rewrite Forall_forall in HO. specialize (HO s Hs). simpl in HO. lia. }
  { unfold pts. simpl. intros p v v' H1 H2.
    apply (Hcons p); apply live_at_app.
    - apply live_at_app in H1 as [H1|H1]; [left; by apply Hlive|by right].
    - apply live_at_app in H2 as [H2|H2]; [left; by apply Hlive|by right]. }
  cbn [bind].
  (* the flush of the updater *)
  destruct (flush_spec A' vs'' u lr1 s1 Hok Hhandles)
    as (u' & lr'' & -> & HLR & Hres & _ & Hflush).
  cbn [bind]. rewrite HLR. eexists _, _, _. splits; [done|done|done|].
  intros p v. rewrite (live_at_same_elems _ _ Hflush), Hpts.
  unfold pts. simpl. by rewrite live_at_app, Hlive.
Qed.

Lemma join_live_where_either_was_witness :
  ∃ A' lr' Other',
    join [VNInfo.mk 0 0 false false; VNInfo.mk 0 40 false false]
      (mkLiveRange [mkSegment 0 40 1] [1] None)
      (mkLiveRange [mkSegment 40 80 2] [2] None) [0%Z] [0%Z] [1]
    = Ok (A', lr', Other')
    ∧ segments lr' = [mkSegment 0 80 1].
Proof.
  destruct (join_live_where_either_was
              [VNInfo.mk 0 0 false false; VNInfo.mk 0 40 false false]
              (mkLiveRange [mkSegment 0 40 1] [1] None)
              (mkLiveRange [mkSegment 40 80 2] [2] None) [0%Z] [0%Z] [1])
    as (A' & lr' & Other' & Hrun & _).
  - unfold join_pre. simpl.
    split; [concrete_LRInv|].
    split; [concrete_Forall; lia|].
    split; [reflexivity|].
    split; [concrete_Forall; lia|].
    split; [lia|].
    split; [concrete_Forall; intros _; eexists; split; reflexivity|].
    split; [intros s Hs; apply list_elem_of_singleton in Hs as ->;
            vm_compute; discriminate|].
    split; [intros s Hs; apply list_elem_of_singleton in Hs as ->;
            vm_compute; discriminate|].
    intros p v v' (x & Hx & _ & <-) (y & Hy & _ & <-).
    apply elem_of_cons in Hx as [->|Hx];
      [|apply list_elem_of_singleton in Hx as ->];
      (apply elem_of_cons in Hy as [->|Hy];
       [|apply list_elem_of_singleton in Hy as ->]); reflexivity.
  - exists A', lr', Other'. split; [exact Hrun|].
    vm_compute in Hrun. by injection Hrun as <- <- <-.
Defined.

(** ** Where a range is live after [addSegment] *)

(** [extendSegmentEndTo] adds the points up to [NewEnd] to the segment
    and loses none. *)
Lemma extendSegmentEndTo_live pre s rest NewEnd coll' :
  ordered (pre ++ s :: rest) →
  (∀ n, n ∈ rest → valno n ≠ valno s → (NewEnd ≤ start n)%Z) →
  extendSegmentEndTo (pre ++ s :: rest) (length pre) NewEnd = Ok coll' →
  ∀ p v, live_at coll' p v ↔
         live_at (pre ++ s :: rest) p v
         ∨ ((start s ≤ p < NewEnd)%Z ∧ v = valno s).
Proof.
  intros Ho Hconf Hrun.
  pose proof (ordered_app_inv _ _ Ho) as [Hpre Hsr].
  pose proof (ordered_cons_inv _ _ Hsr) as Hrest.
  pose proof (ordered_Forall _ Hrest) as Hpos. rewrite Forall_forall in Hpos.
  assert (Hval : ∀ n, n ∈ rest → (end_ n ≤ NewEnd)%Z → valno n = valno s).
  { intros n Hn Hle. destruct (decide (valno n = valno s)); [done|].
    specialize (Hconf n Hn ltac:(done)). specialize (Hpos n Hn). lia. }
  destruct (mergeTo_scan_spec (valno s) NewEnd rest (length pre + 1) Hval)
    as (k & Hscan & Hk & Hsw & Hstop).
  rewrite (extendSegmentEndTo_middle pre s rest NewEnd k Hscan Hk) in Hrun.
  injection Hrun as <-.
  unfold extended_end, end_before_merge.
  pose proof (take_drop k rest) as Hsplit.
  assert (Hs_pos : (start s < end_ s)%Z) by (simpl in Hsr; tauto).
  pose proof (ordered_cons_lt _ _ Hsr) as Hafter.
  rewrite Forall_forall in Hafter. rewrite Forall_forall in Hsw.
  assert (Hin_sw : ∀ x, x ∈ take k rest →
            (end_ s ≤ start x)%Z ∧ (start x < end_ x)%Z
            ∧ (end_ x ≤ NewEnd)%Z ∧ valno x = valno s).
  { intros x Hx.
    assert (x ∈ rest) as Hx' by (rewrite <- Hsplit, elem_of_app; by left).
    specialize (Hsw x Hx). splits; [by apply Hafter|by apply Hpos|done|].
    by apply Hval. }
  assert (He1 : Z.max NewEnd (match last (take k rest) with
                              | Some n => end_ n
                              | None => end_ s
                              end) = Z.max NewEnd (end_ s)).
  { destruct (last (take k rest)) as [n|] eqn:Hl; [|done].
    apply last_Some_elem_of in Hl.
    destruct (Hin_sw n Hl) as (? & ? & ? & _). lia. }
  rewrite He1. clear He1.
  assert (Hsw_live : ∀ p v, live_at (take k rest) p v →
            (end_ s ≤ p < NewEnd)%Z ∧ v = valno s).
  { intros p v (x & Hx & Hp & <-).
    destruct (Hin_sw x Hx) as (? & ? & ? & ?). split; [lia|done]. }
  intros p v. rewrite <- Hsplit at 2.
  rewrite (live_at_app pre), live_at_cons, (live_at_app (take k rest)).
  destruct (drop k rest) as [|M post] eqn:Hd.
  - rewrite live_at_app, live_at_one. simpl. split.
    + intros [H|[Hp Hv]]; [tauto|].
      destruct (decide (p < NewEnd)%Z); [right; split; [lia|done]|].
      left. right. left. split; [lia|done].
    + intros [[H|[[Hp Hv]|[H|H]]]|[Hp Hv]].
      * by left.
      * right. split; [lia|done].
      * apply Hsw_live in H as [? ->]. right. split; [lia|done].
      * by apply live_at_nil in H.
      * right. split; [lia|done].
  - assert (HMrest : M ∈ rest).
    { rewrite <- Hsplit, elem_of_app. right. by left. }
    assert (HMstop : (NewEnd < end_ M)%Z).
    { apply Hstop. rewrite <- (Nat.add_0_r k), <- lookup_drop, Hd. done. }
    pose proof (Hafter M HMrest) as HMs. pose proof (Hpos M HMrest) as HMp.
    destruct ((start M <=? Z.max NewEnd (end_ s))%Z && (valno M =? valno s))
      eqn:Hmerge.
    + apply andb_true_iff in Hmerge as [Hm1 Hm2].
      apply Z.leb_le in Hm1. apply Nat.eqb_eq in Hm2.
      rewrite live_at_app, !live_at_cons. simpl. split.
      * intros [H|[[Hp Hv]|H]]; [tauto| |tauto].
        destruct (decide (p < NewEnd)%Z); [right; split; [lia|done]|].
        destruct (decide (p < end_ s)%Z).
        { left. right. left. split; [lia|done]. }
        left. right. right. right. left. split; [lia|congruence].
      * intros [[H|[[Hp Hv]|[H|[[Hp Hv]|H]]]]|[Hp Hv]].
        -- by left.
        -- right. left. split; [lia|done].
        -- apply Hsw_live in H as [? ->]. right. left. split; [lia|done].
        -- right. left. split; [lia|congruence].
        -- by right; right.
        -- right. left. split; [lia|done].
    + rewrite live_at_app, !live_at_cons. simpl. split.
      * intros [H|[[Hp Hv]|[[Hp Hv]|H]]]; [tauto| |tauto|tauto].
        destruct (decide (p < NewEnd)%Z); [right; split; [lia|done]|].
        left. right. left. split; [lia|done].
      * intros [[H|[[Hp Hv]|[H|[[Hp Hv]|H]]]]|[Hp Hv]].
        -- by left.
        -- right. left. split; [lia|done].
        -- apply Hsw_live in H as [? ->]. right. left. split; [lia|done].
        -- right. right. left. done.
        -- by right; right; right.
        -- right. left. split; [lia|done].
Qed.

Lemma addSegment_added coll S0 :
  ordered coll → (start S0 < end_ S0)%Z → no_conflict coll S0 →
  ∃ coll' I,
    @addSegment CalcLiveRangeUtilVector coll S0 = Ok (coll', I)
    ∧ added coll S0 coll' I.
Proof.
  intros Ho HS Hconf. unfold addSegment. simpl.
  destruct (upper_bound_split coll (start S0) Ho)
    as (pre & post & Hcoll & Hub & Hpre & Hpost).
  rewrite Hub. subst coll.
  pose proof (ordered_Forall _ Ho) as Hpos. rewrite Forall_forall in Hpos.
  rewrite Forall_forall in Hpost.
  assert (Hconf_post : ∀ n, n ∈ post → valno n ≠ valno S0 →
                            (end_ S0 ≤ start n)%Z).
  { intros n Hn Hv. specialize (Hpost n Hn).
    destruct (Hconf n) as [H|H]; [apply elem_of_app; by right|done| |done].
    specialize (Hpos n ltac:(apply elem_of_app; by right)). lia. }
  (* the first phase looks at the segment before the insert position *)
  assert (Hphase1 :
    (∃ coll' I, (if negb (length pre =? 0) then
            B <- at_ (pre ++ post) (length pre - 1) ;;
            if valno S0 =? valno B then
              if (start B <=? start S0)%Z && (start S0 <=? end_ B)%Z then
                coll' <- extendSegmentEndTo (pre ++ post) (length pre - 1)
                           (end_ S0) ;;
                Ok (Some (coll', length pre - 1))
              else Ok None
            else
              _ <- check (end_ B <=? start S0)%Z OverlapMismatch ;;
              Ok None
          else Ok None) = Ok (Some (coll', I))
        ∧ added (pre ++ post) S0 coll' I)
    ∨ ((if negb (length pre =? 0) then
            B <- at_ (pre ++ post) (length pre - 1) ;;
            if valno S0 =? valno B then
              if (start B <=? start S0)%Z && (start S0 <=? end_ B)%Z then
                coll' <- extendSegmentEndTo (pre ++ post) (length pre - 1)
                           (end_ S0) ;;
                Ok (Some (coll', length pre - 1))
              else Ok None
            else
              _ <- check (end_ B <=? start S0)%Z OverlapMismatch ;;
              Ok None
          else Ok None) = Ok None
       ∧ ∀ B, last pre = Some B →
           (start B < start S0)%Z ∧ (end_ B ≤ start S0)%Z
           ∧ (valno B = valno S0 → (end_ B < start S0)%Z))).
  { destruct (decide (pre = [])) as [->|Hne]; [right; by split|].
    destruct (exists_last Hne) as (pre' & B & ->).
    rewrite length_app. simpl.
    rewrite (proj2 (Nat.eqb_neq (length pre' + 1) 0)) by lia. simpl.
    replace (length pre' + 1 - 1) with (length pre') by lia.
    rewrite <- app_assoc in *. simpl in *.
    unfold at_. rewrite lookup_middle. simpl.
    assert (HB : (start B ≤ start S0)%Z).
    { by apply Forall_app in Hpre as [_ [? _]%Forall_cons]. }
    assert (HBpos : (start B < end_ B)%Z).
    { apply Hpos. apply elem_of_app. right. by left. }
    destruct (Nat.eqb_spec (valno S0) (valno B)) as [Hv|Hv].
    - rewrite (proj2 (Z.leb_le _ _) HB). simpl.
      destruct (Z.leb_spec (start S0) (end_ B)) as [Hle|Hgt].
      + left.
        assert (Hc : ∀ n, n ∈ post → valno n ≠ valno B →
                          (end_ S0 ≤ start n)%Z).
        { intros n Hn Hvn. apply Hconf_post; [done|congruence]. }
        destruct (extendSegmentEndTo_ordered pre' B post (end_ S0) Ho Hc)
          as (e' & k & He & Hord & Hmax).
        pose proof (extendSegmentEndTo_live pre' B post (end_ S0) _ Ho Hc He)
          as Hlive.
        rewrite He. simpl. eexists _, _. split; [done|].
        split; [done|]. split.
        * exists (set_end B e'). rewrite lookup_middle. simpl.
          splits; [done|done|lia|done].
        * intros p v. rewrite Hlive. split.
          -- intros [H|[Hp ->]]; [by left|].
             destruct (decide (p < start S0)%Z).
             ++ left. exists B. split; [|split; [lia|done]].
                apply elem_of_app. right. by left.
             ++ right. split; [lia|done].
          -- intros [H|[Hp ->]]; [by left|]. right. split; [lia|done].
      + right. split; [done|]. intros B' HB'.
        rewrite last_snoc in HB'. injection HB' as <-. lia.
    - assert (HBe : (end_ B ≤ start S0)%Z).
      { destruct (Hconf B) as [H|H];
          [apply elem_of_app; right; by left|congruence|done|lia]. }
      rewrite (proj2 (Z.leb_le _ _) HBe). simpl. right. split; [done|].
      intros B' HB'. rewrite last_snoc in HB'. injection HB' as <-.
      split; [lia|]. split; [done|]. congruence. }
  destruct Hphase1 as [(coll' & I & -> & Hadded)|[-> HB]].
  { simpl. by eexists _, _. }
  simpl.
  (* the second phase looks at the segment at the insert position *)
  assert (Hinsert : ∀ post',
    ordered (pre ++ post') →
    (∀ N, head post' = Some N →
          (end_ S0 ≤ start N)%Z
          ∧ (valno S0 = valno N → (end_ S0 < start N)%Z)) →
    added (pre ++ post') S0 (insert_at (pre ++ post') (length pre) S0)
      (length pre)).
  { intros post' Ho' HN. rewrite insert_at_app. split; [|split].
    - apply ordered_app; [by apply ordered_app_inv in Ho' as [? _]| |].
      + apply ordered_cons; [done|by apply ordered_app_inv in Ho' as [_ ?]|].
        intros n Hn. destruct (HN n Hn) as [H1 H2].
        split; [done|]. intros He Hv. specialize (H2 Hv). lia.
      + intros a b Ha [= <-]. destruct (HB a Ha) as (_ & H3 & H4).
        split; [done|]. intros He Hv. specialize (H4 Hv). lia.
    - exists S0. rewrite lookup_middle. splits; [done|lia|lia|done].
    - intros p v. rewrite !live_at_app, live_at_cons. split.
      + intros [H|[[Hp Hv]|H]]; [tauto|right; done|tauto].
      + intros [[H|H]|[Hp Hv]]; [tauto|tauto|right; left; done]. }
  destruct post as [|N post].
  - specialize (Hinsert [] Ho ltac:(done)).
    rewrite app_nil_r in *. rewrite Nat.eqb_refl. simpl.
    by eexists _, _.
  - rewrite (proj2 (Nat.eqb_neq (length pre) (length (pre ++ N :: post))))
      by (rewrite length_app; simpl; lia).
    simpl. unfold at_ at 1. rewrite lookup_middle. simpl.
    assert (HN : (start S0 < start N)%Z) by (apply Hpost; by left).
    assert (HNpos : (start N < end_ N)%Z).
    { apply Hpos. apply elem_of_app. right. by left. }
    destruct (Nat.eqb_spec (valno S0) (valno N)) as [Hv|Hv].
    + destruct (Z.leb_spec (start N) (end_ S0)) as [Hle|Hgt].
      * rewrite extendSegmentStartTo_simple.
        2:{ intros B HB'. destruct (HB B HB') as (H1 & H2 & H3).
            split; [done|]. intros HvB. apply H3. congruence. }
        simpl. unfold at_. rewrite lookup_middle. simpl.
        assert (Ho1 : ordered (pre ++ set_start N (start S0) :: post)).
        { apply ordered_app;
            [by apply ordered_app_inv in Ho as [? _]| |].
          - apply ordered_app_inv in Ho as [_ Ho].
            apply ordered_cons; [simpl; lia|by eapply ordered_cons_inv|].
            intros n Hn. destruct post as [|n' post]; [done|].
            injection Hn as ->. by destruct Ho as (_ & ? & _).
          - intros a b Ha [= <-]. destruct (HB a Ha) as (_ & H3 & H4).
            split; simpl; [done|]. intros He HvB. rewrite <- Hv in HvB.
            specialize (H4 HvB). lia. }
        assert (Hlive1 : ∀ p v,
          live_at (pre ++ set_start N (start S0) :: post) p v ↔
          live_at (pre ++ N :: post) p v
          ∨ ((start S0 ≤ p < Z.min (end_ S0) (end_ N))%Z ∧ v = valno S0)).
        { intros p v. rewrite !live_at_app, !live_at_cons. simpl. split.
          - intros [H|[[Hp Hv']|H]]; [tauto| |tauto].
            destruct (decide (p < start N)%Z).
            + right. split; [lia|congruence].
            + left. right. left. split; [lia|done].
          - intros [[H|[[Hp Hv']|H]]|[Hp Hv']]; [tauto| |tauto|].
            + right. left. split; [lia|done].
            + right. left. split; [lia|congruence]. }
        destruct (Z.ltb_spec (end_ N) (end_ S0)) as [Hlt|Hge].
        -- assert (Hc : ∀ n, n ∈ post →
                      valno n ≠ valno (set_start N (start S0)) →
                      (end_ S0 ≤ start n)%Z).
           { intros n Hn Hvn. simpl in Hvn.
             apply Hconf_post; [by right|congruence]. }
           destruct (extendSegmentEndTo_ordered pre
                       (set_start N (start S0)) post (end_ S0) Ho1 Hc)
             as (e' & k & He & Hord & Hmax).
           pose proof (extendSegmentEndTo_live pre (set_start N (start S0))
                         post (end_ S0) _ Ho1 Hc He) as Hlive.
           simpl in He. rewrite He. simpl. eexists _, _. split; [done|].
           split; [done|]. split.
           ++ eexists. rewrite lookup_middle. split; [done|]. simpl.
              simpl in Hmax. splits; [lia|lia|done].
           ++ intros p v. rewrite Hlive, Hlive1. simpl. split.
              ** intros [[H|[Hp ->]]|[Hp ->]]; [by left| |].
                 --- right. split; [lia|done].
                 --- right. split; [lia|done].
              ** intros [H|[Hp ->]]; [by left; left|].
                 right. split; [lia|done].
        -- simpl. eexists _, _. split; [done|]. split; [done|]. split.
           ++ eexists. rewrite lookup_middle. split; [done|]. simpl.
              splits; [lia|lia|done].
           ++ intros p v. rewrite Hlive1. split.
              ** intros [H|[Hp ->]]; [by left|]. right. split; [lia|done].
              ** intros [H|[Hp ->]]; [by left|].
                 right. split; [lia|done].
      * simpl. eexists _, _. split; [done|]. apply Hinsert; [done|].
        intros N' [= <-]. split; [lia|]. intros _. lia.
    + assert (HNe : (end_ S0 ≤ start N)%Z).
      { apply Hconf_post; [by left|congruence]. }
      rewrite (proj2 (Z.leb_le _ _) HNe). simpl.
      eexists _, _. split; [done|]. apply Hinsert; [done|].
      intros N' [= <-]. split; [done|]. intros ?. congruence.
Qed.

(** ** Ranges that are live at the same points *)

Lemma ordered_head_first s t p v :
  ordered (s :: t) → live_at (s :: t) p v → (start s ≤ p)%Z.
Proof.
  intros Ho Hl. apply live_at_cons in Hl as [[Hp _]|(x & Hx & Hp & _)]; [lia|].
  pose proof (ordered_cons_lt _ _ Ho) as Hlt. rewrite Forall_forall in Hlt.
  specialize (Hlt x Hx). destruct Ho as (Hs & _). lia.
Qed.

Lemma ordered_tail_after s t p v :
  ordered (s :: t) → live_at t p v → (end_ s ≤ p)%Z.
Proof.
  intros Ho (x & Hx & Hp & _).
  pose proof (ordered_cons_lt _ _ Ho) as Hlt. rewrite Forall_forall in Hlt.
  specialize (Hlt x Hx). lia.
Qed.

Lemma ordered_end_not_live s t :
  ordered (s :: t) → ¬ live_at (s :: t) (end_ s) (valno s).
Proof.
  intros Ho Hl. apply live_at_cons in Hl as [[Hp _]|(x & Hx & Hp & Hv)]; [lia|].
  pose proof (ordered_cons_before _ _ Ho) as Hb. rewrite Forall_forall in Hb.
  destruct (Hb x Hx) as [H1 H2]. apply H2; [lia|done].
Qed.

Lemma ordered_head_live s t :
  ordered (s :: t) → live_at (s :: t) (start s) (valno s).
Proof.
  intros (Hs & _). apply live_at_cons. left. split; [lia|done].
Qed.

(** Under the invariants the segments are determined by the points at
    which the range is live and their values. *)
Lemma ordered_live_eq l : ∀ l',
  ordered l → ordered l' →
  (∀ p v, live_at l p v ↔ live_at l' p v) → l = l'.
Proof.
  induction l as [|s t IH]; intros [|s' t'] Ho Ho' Hl.
  - done.
  - pose proof (ordered_head_live _ _ Ho') as H. apply Hl in H.
    by apply live_at_nil in H.
  - pose proof (ordered_head_live _ _ Ho) as H. apply Hl in H.
    by apply live_at_nil in H.
  - pose proof (ordered_head_live _ _ Ho) as Hh.
    pose proof (ordered_head_live _ _ Ho') as Hh'.
    assert (Hstart : start s = start s').
    { pose proof (ordered_head_first _ _ _ _ Ho' (proj1 (Hl _ _) Hh)).
      pose proof (ordered_head_first _ _ _ _ Ho (proj2 (Hl _ _) Hh')). lia. }
    assert (Hvalno : valno s = valno s').
    { apply (live_at_unique (s :: t) (start s)); [done|done|].
      apply Hl. by rewrite Hstart. }
    pose proof Ho as (Hs & _). pose proof Ho' as (Hs' & _).
    assert (Hend : end_ s = end_ s').
    { destruct (Z.lt_trichotomy (end_ s) (end_ s')) as [Hlt|[Heq|Hgt]];
        [|done|].
      - exfalso. apply (ordered_end_not_live _ _ Ho). apply Hl.
        apply live_at_cons. left. split; [lia|done].
      - exfalso. apply (ordered_end_not_live _ _ Ho'). apply Hl.
        apply live_at_cons. left. split; [lia|done]. }
    assert (s = s') as <-.
    { destruct s, s'. simpl in *. congruence. }
    f_equal. apply IH; [by eapply ordered_cons_inv..|].
    intros p v. split; intros H.
    + pose proof (ordered_tail_after _ _ _ _ Ho H).
      assert (live_at (s :: t') p v) as H'.
      { apply Hl. apply live_at_cons. by right. }
      apply live_at_cons in H' as [[Hp _]|H']; [lia|done].
    + pose proof (ordered_tail_after _ _ _ _ Ho' H).
      assert (live_at (s :: t) p v) as H'.
      { apply Hl. apply live_at_cons. by right. }
      apply live_at_cons in H' as [[Hp _]|H']; [lia|done].
Qed.

(** [addSegment] on a range in vector form. *)
Lemma LiveRange_addSegment_added A lr S0 :
  LRInv A lr → addSegment_pre A lr S0 →
  ∃ lr' I,
    LiveRange_addSegment lr S0 = Ok (lr', I)
    ∧ LRInv A lr' ∧ valnos lr' = valnos lr
    ∧ added (segments lr) S0 (segments lr') I.
Proof.
  intros Hinv Hpre.
  destruct (addSegment_inv A lr S0 Hinv Hpre) as (lr' & I & Hrun & Hinv').
  exists lr', I. split; [done|]. split; [done|].
  destruct Hpre as (_ & HS & _ & Hconf).
  destruct (addSegment_added (segments lr) S0 (inv_ordered _ _ Hinv) HS Hconf)
    as (coll' & I' & Hadd & Hadded).
  unfold LiveRange_addSegment in Hrun.
  rewrite (inv_vector _ _ Hinv), Hadd in Hrun. simpl in Hrun.
  by injection Hrun as <- <-.
Qed.

(** X15. [addSegment] on a range that satisfies the invariants, given a
    forward segment of a live value that overlaps no segment of another
    value: the call succeeds; the range satisfies the invariants and keeps
    its value table; the iterator returned is at a segment of that value
    that contains the one added; and the range is live exactly where it
    was, with the values it had, and on the segment, with its value. *)
Theorem addSegment_adds_its_points A lr S0 :
  LRInv A lr → addSegment_pre A lr S0 →
  ∃ lr' I,
    LiveRange_addSegment lr S0 = Ok (lr', I)
    ∧ LRInv A lr' ∧ valnos lr' = valnos lr
    ∧ (∃ s, segments lr' !! I = Some s ∧ (start s ≤ start S0)%Z
            ∧ (end_ S0 ≤ end_ s)%Z ∧ valno s = valno S0)
    ∧ (∀ p v, live_at (segments lr') p v ↔
              live_at (segments lr) p v
              ∨ ((start S0 ≤ p < end_ S0)%Z ∧ v = valno S0)).
Proof.
  intros Hinv Hpre.
  destruct (LiveRange_addSegment_added A lr S0 Hinv Hpre)
    as (lr' & I & Hrun & Hinv' & Hvs & _ & Hit & Hlive).
  by exists lr', I.
Qed.

Lemma addSegment_adds_its_points_witness :
  ∃ lr' I,
    LiveRange_addSegment
      (mkLiveRange [mkSegment 0 10 1; mkSegment 20 30 1] [1] None)
      (mkSegment 10 20 1) = Ok (lr', I)
    ∧ segments lr' = [mkSegment 0 30 1] ∧ I = 0.
Proof.
  destruct (addSegment_adds_its_points [VNInfo.mk 0 0 false false]
              (mkLiveRange [mkSegment 0 10 1; mkSegment 20 30 1] [1] None)
              (mkSegment 10 20 1))
    as (lr' & I & Hrun & _).
  - concrete_LRInv.
  - unfold addSegment_pre. simpl. splits; [lia|lia|by eexists|].
    intros n Hn Hneq. apply elem_of_cons in Hn as [->|Hn]; [done|].
    by apply list_elem_of_singleton in Hn as ->.
  - exists lr', I. split; [exact Hrun|].
    vm_compute in Hrun. by injection Hrun as <- <-.
Defined.

(** X16. Removing the interval of a segment that [addSegment] has just
    added: both calls succeed, the arena and the value table are what they
    were, and the range is live where it was outside the interval; when
    the range was not live in the interval, its segments are again the
    ones it had. *)
Theorem addSegment_then_removeSegment A lr S0 :
  LRInv A lr → addSegment_pre A lr S0 →
  ∃ lr1 I A2 lr2,
    LiveRange_addSegment lr S0 = Ok (lr1, I)
    ∧ removeSegment A lr1 (start S0) (end_ S0) false = Ok (A2, lr2)
    ∧ A2 = A ∧ valnos lr2 = valnos lr ∧ LRInv A lr2
    ∧ (∀ p v, live_at (segments lr2) p v ↔
              live_at (segments lr) p v ∧ ¬ (start S0 ≤ p < end_ S0)%Z)
    ∧ ((∀ p v, live_at (segments lr) p v → ¬ (start S0 ≤ p < end_ S0)%Z) →
       segments lr2 = segments lr).
Proof.
  intros Hinv Hpre.
  destruct (LiveRange_addSegment_added A lr S0 Hinv Hpre)
    as (lr1 & I & Hrun & Hinv1 & Hvs1 & Ho1 & (s & Hs & Hs1 & Hs2 & _) & Hlive1).
  assert (Hw : within_segment (segments lr1) (start S0) (end_ S0)).
  { split; [by destruct Hpre as (_ & ? & _)|]. exists s.
    split; [by eapply list_elem_of_lookup_2|done]. }
  destruct (removeSegment_points A lr1 (start S0) (end_ S0) false Hinv1)
    as [Hrem _].
  destruct (Hrem Hw) as (A2 & lr2 & Hrun2 & Hlive2 & Hsame).
  destruct (Hsame eq_refl) as [-> Hvs2].
  destruct (removeSegment_inv A lr1 (start S0) (end_ S0) false Hinv1 Hw)
    as (A2' & lr2' & Hrun2' & Hinv2).
  rewrite Hrun2 in Hrun2'. injection Hrun2' as <- <-.
  exists lr1, I, A, lr2. splits; [done|done|done|congruence|done| |].
  - intros p v. rewrite Hlive2, Hlive1. split.
    + intros [[H|[Hp _]] Hn]; [done|lia].
    + intros [H Hn]. split; [by left|done].
  - intros Hhole. apply ordered_live_eq;
      [by destruct Hinv2|by destruct Hinv|].
    intros p v. rewrite Hlive2, Hlive1. split.
    + intros [[H|[Hp _]] Hn]; [done|lia].
    + intros H. split; [by left|]. by eapply Hhole.
Qed.

Lemma addSegment_then_removeSegment_witness :
  ∃ lr1 I lr2,
    LiveRange_addSegment
      (mkLiveRange [mkSegment 0 10 1; mkSegment 20 30 1] [1] None)
      (mkSegment 10 20 1) = Ok (lr1, I)
    ∧ removeSegment [VNInfo.mk 0 0 false false] lr1 10 20 false
      = Ok ([VNInfo.mk 0 0 false false], lr2)
    ∧ segments lr2 = [mkSegment 0 10 1; mkSegment 20 30 1].
Proof.
  destruct (addSegment_then_removeSegment [VNInfo.mk 0 0 false false]
              (mkLiveRange [mkSegment 0 10 1; mkSegment 20 30 1] [1] None)
              (mkSegment 10 20 1))
    as (lr1 & I & A2 & lr2 & Hrun1 & Hrun2 & -> & _).
  - concrete_LRInv.
  - unfold addSegment_pre. simpl. splits; [lia|lia|by eexists|].
    intros n Hn Hneq. apply elem_of_cons in Hn as [->|Hn]; [done|].
    by apply list_elem_of_singleton in Hn as ->.
  - exists lr1, I, lr2. split; [exact Hrun1|]. split; [exact Hrun2|].
    vm_compute in Hrun1. injection Hrun1 as <- <-.
    vm_compute in Hrun2. by injection Hrun2 as <-.
Defined.

(** X17. The segments [addSegment] leaves depend only on the points
    added: adding a segment a second time changes nothing, and two
    segments that do not overlap each other with different values can be
    added in either order. *)
Theorem addSegment_order_irrelevant A lr S1 S2 :
  LRInv A lr → addSegment_pre A lr S1 → addSegment_pre A lr S2 →
  (valno S1 ≠ valno S2 →
   (end_ S1 ≤ start S2)%Z ∨ (end_ S2 ≤ start S1)%Z) →
  ∃ lr1 I1 lr2 I2 lr12 I12 lr21 I21 lr11 I11,
    LiveRange_addSegment lr S1 = Ok (lr1, I1)
    ∧ LiveRange_addSegment lr S2 = Ok (lr2, I2)
    ∧ LiveRange_addSegment lr1 S2 = Ok (lr12, I12)
    ∧ LiveRange_addSegment lr2 S1 = Ok (lr21, I21)
    ∧ LiveRange_addSegment lr1 S1 = Ok (lr11, I11)
    ∧ segments lr12 = segments lr21
    ∧ segments lr11 = segments lr1.
Proof.
  intros Hinv Hpre1 Hpre2 Hapart.
  destruct (LiveRange_addSegment_added A lr S1 Hinv Hpre1)
    as (lr1 & I1 & Hrun1 & Hinv1 & Hvs1 & Hadded1).
  destruct (LiveRange_addSegment_added A lr S2 Hinv Hpre2)
    as (lr2 & I2 & Hrun2 & Hinv2 & Hvs2 & Hadded2).
  assert (Hnext : ∀ lr' I Sa Sb,
    valnos lr' = valnos lr → added (segments lr) Sa (segments lr') I →
    addSegment_pre A lr Sa → addSegment_pre A lr Sb →
    (valno Sa ≠ valno Sb →
     (end_ Sa ≤ start Sb)%Z ∨ (end_ Sb ≤ start Sa)%Z) →
    addSegment_pre A lr' Sb).
  { intros lr' I Sa Sb Hvs Hadd (_ & HSa & _ & _) (Hb0 & HSb & Hbv & Hbc)
      Hab.
    unfold addSegment_pre. rewrite Hvs. splits; [done|done|done|].
    intros n Hn Hv.
    destruct (decide ((end_ n ≤ start Sb)%Z ∨ (end_ Sb ≤ start n)%Z))
      as [|Hov]; [done|]. exfalso.
    pose proof Hadd as (Ho' & _ & Hlive').
    pose proof (ordered_Forall _ Ho') as Hpos. rewrite Forall_forall in Hpos.
    specialize (Hpos n Hn).
    (* a point that [n] and [Sb] share *)
    set (p := Z.max (start n) (start Sb)).
    assert (Hpn : live_at (segments lr') p (valno n)).
    { exists n. split; [done|]. split; [unfold p; lia|done]. }
    apply Hlive' in Hpn as [(m & Hm & Hpm & Hvm)|[Hpa Hva]].
    - destruct (Hbc m Hm ltac:(congruence)); unfold p in *; lia.
    - destruct Hab as [|]; [congruence|unfold p in *; lia..]. }
  destruct (LiveRange_addSegment_added A lr1 S2 Hinv1)
    as (lr12 & I12 & Hrun12 & Hinv12 & _ & Hadded12).
  { by eapply (Hnext lr1 I1 S1 S2). }
  destruct (LiveRange_addSegment_added A lr2 S1 Hinv2)
    as (lr21 & I21 & Hrun21 & Hinv21 & _ & Hadded21).
  { eapply (Hnext lr2 I2 S2 S1); try done.
    intros Hv. destruct Hapart as [|]; [congruence|by right|by left]. }
  destruct (LiveRange_addSegment_added A lr1 S1 Hinv1)
    as (lr11 & I11 & Hrun11 & Hinv11 & _ & Hadded11).
  { by eapply (Hnext lr1 I1 S1 S1). }
  exists lr1, I1, lr2, I2, lr12, I12, lr21, I21, lr11, I11.
  splits; try done.
  - apply ordered_live_eq; [by destruct Hinv12|by destruct Hinv21|].
    intros p v.
    destruct Hadded12 as (_ & _ & ->). destruct Hadded21 as (_ & _ & ->).
    destruct Hadded1 as (_ & _ & Hl1). destruct Hadded2 as (_ & _ & Hl2).
    rewrite Hl1, Hl2. tauto.
  - apply ordered_live_eq; [by destruct Hinv11|by destruct Hinv1|].
    intros p v. destruct Hadded11 as (_ & _ & ->).
    destruct Hadded1 as (_ & _ & Hl1). rewrite Hl1. tauto.
Qed.

Lemma addSegment_order_irrelevant_witness :
  ∃ lr1 I1 lr2 I2 lr12 I12 lr21 I21,
    LiveRange_addSegment (mkLiveRange [mkSegment 0 10 1] [1; 2] None)
      (mkSegment 10 20 1) = Ok (lr1, I1)
    ∧ LiveRange_addSegment (mkLiveRange [mkSegment 0 10 1] [1; 2] None)
        (mkSegment 20 30 2) = Ok (lr2, I2)
    ∧ LiveRange_addSegment lr1 (mkSegment 20 30 2) = Ok (lr12, I12)
    ∧ LiveRange_addSegment lr2 (mkSegment 10 20 1) = Ok (lr21, I21)
    ∧ segments lr12 = segments lr21.
Proof.
  destruct (addSegment_order_irrelevant
              [VNInfo.mk 0 0 false false; VNInfo.mk 1 20 false false]
              (mkLiveRange [mkSegment 0 10 1] [1; 2] None)
              (mkSegment 10 20 1) (mkSegment 20 30 2))
    as (lr1 & I1 & lr2 & I2 & lr12 & I12 & lr21 & I21 & _ & _ & H1 & H2
        & H12 & H21 & _ & Heq & _).
  - concrete_LRInv.
  - unfold addSegment_pre. simpl. splits; [lia|lia|by eexists|].
    intros n Hn Hneq. by apply list_elem_of_singleton in Hn as ->.
  - unfold addSegment_pre. simpl. splits; [lia|lia|by eexists|].
    intros n Hn Hneq. apply list_elem_of_singleton in Hn as ->.
    simpl. lia.
  - simpl. intros _. lia.
  - by exists lr1, I1, lr2, I2, lr12, I12, lr21, I21.
Defined.

(** ** [append] *)

Lemma live_at_snoc l s p v :
  live_at (l ++ [s]) p v ↔
  live_at l p v ∨ ((start s ≤ p < end_ s)%Z ∧ v = valno s).
Proof.
  rewrite live_at_app, live_at_one. split; intros [H|[? ?]]; auto.
Qed.

(** X18. [append] on a range that satisfies the invariants succeeds
    exactly when the range is empty or its last segment ends at or before
    the start of the segment, and puts the segment at the back as it is.
    The range then satisfies the invariants exactly when the segment is a
    forward interval of valid slots, its value is a live entry of the
    table, and it does not touch the last segment with the same value; in
    that case [addSegment] leaves the same range and returns the position
    of the new segment. *)
Theorem append_at_the_back A lr S0 :
  LRInv A lr →
  ((∀ b, last (segments lr) = Some b → (end_ b ≤ start S0)%Z) →
   ∃ lr',
     append lr S0 = Ok lr'
     ∧ lr' = with_segments lr (segments lr ++ [S0])
     ∧ (LRInv A lr' ↔
        (0 ≤ start S0 < end_ S0)%Z ∧ vn_live A (valnos lr) (valno S0)
        ∧ ∀ b, last (segments lr) = Some b → end_ b = start S0 →
               valno b ≠ valno S0)
     ∧ (LRInv A lr' →
        LiveRange_addSegment lr S0 = Ok (lr', length (segments lr))))
  ∧ ((∃ b, last (segments lr) = Some b ∧ (start S0 < end_ b)%Z) →
     append lr S0 = Err OrderViolation).
Proof.
  intros Hinv. split.
  - intros Hback.
    assert (Hall : ∀ y, y ∈ segments lr → (end_ y ≤ start S0)%Z).
    { intros y Hy. destruct (last (segments lr)) as [b|] eqn:Hl.
      - specialize (Hback b eq_refl).
        apply last_Some in Hl as [pre Hpre]. rewrite Hpre in Hy.
        apply elem_of_app in Hy as [Hy|Hy].
        + pose proof (inv_ordered _ _ Hinv) as Ho. rewrite Hpre in Ho.
          assert (seg_before y b) as [? _].
          { eapply ordered_app_before; [done|done|by left]. }
          pose proof (ordered_Forall _ Ho) as Hpos.
          rewrite Forall_forall in Hpos.
          specialize (Hpos b ltac:(apply elem_of_app; right; by left)). lia.
        + by apply list_elem_of_singleton in Hy as ->.
      - apply last_None in Hl. rewrite Hl in Hy.
        by apply elem_of_nil in Hy. }
    set (lr' := with_segments lr (segments lr ++ [S0])).
    assert (Hiff : LRInv A lr' ↔
        (0 ≤ start S0 < end_ S0)%Z ∧ vn_live A (valnos lr) (valno S0)
        ∧ ∀ b, last (segments lr) = Some b → end_ b = start S0 →
               valno b ≠ valno S0).
    { split.
      - intros [Hv Ho Hval Ht Hh]. simpl in *.
        apply ordered_snoc in Ho as (_ & HS & Hbefore).
        apply Forall_app in Hval as [_ [H0 _]%Forall_cons].
        apply Forall_app in Ht as [_ [Hlive _]%Forall_cons].
        splits; [lia|lia|done|].
        intros b Hb. apply last_Some_elem_of in Hb.
        rewrite Forall_forall in Hbefore. by destruct (Hbefore b Hb).
      - intros ([H0 HS] & Hlive & Htouch). destruct Hinv as [Hv Ho Hval Ht Hh].
        split; simpl; [done| | | |done].
        + apply ordered_snoc. splits; [done|done|].
          apply Forall_forall. intros y Hy. split; [by apply Hall|].
          intros He. destruct (last (segments lr)) as [b|] eqn:Hl.
          * apply last_Some in Hl as [pre Hpre].
            rewrite Hpre in Hy. apply elem_of_app in Hy as [Hy|Hy].
            -- rewrite Hpre in Ho.
               assert (seg_before y b) as [? _].
               { eapply ordered_app_before; [done|done|by left]. }
               pose proof (ordered_Forall _ Ho) as Hpos.
               rewrite Forall_forall in Hpos.
               specialize (Hpos b ltac:(apply elem_of_app; right; by left)).
               specialize (Hback b eq_refl). lia.
            -- apply list_elem_of_singleton in Hy as ->.
               by apply Htouch.
          * apply last_None in Hl. rewrite Hl in Hy.
            by apply elem_of_nil in Hy.
        + apply Forall_app. split; [done|]. by constructor.
        + apply Forall_app. split; [done|]. by constructor. }
    exists lr'. splits; [|done|done|].
    + unfold append. destruct (last (segments lr)) as [b|]; [|done].
      by rewrite (proj2 (Z.leb_le _ _) (Hback b eq_refl)).
    + intros Hinv'. pose proof (proj1 Hiff Hinv') as ([H0 HS] & Hlive & _).
      destruct (LiveRange_addSegment_added A lr S0 Hinv)
        as (lr2 & I & Hrun & Hinv2 & Hvs & Hord & (s & Hs & Hs1 & Hs2 & Hsv)
            & Hlive2).
      { unfold addSegment_pre. splits; [done|done|done|].
        intros n Hn _. left. by apply Hall. }
      assert (Hsegs : segments lr2 = segments lr ++ [S0]).
      { apply ordered_live_eq; [done|by destruct Hinv'|].
        intros p v. by rewrite Hlive2, live_at_snoc. }
      rewrite Hrun. f_equal.
      unfold LiveRange_addSegment in Hrun.
      rewrite (inv_vector _ _ Hinv) in Hrun.
      destruct (addSegment _ _) as [[coll' I']|]; [|done].
      simpl in Hrun. injection Hrun as <- <-. simpl in Hsegs. subst coll'.
      f_equal.
      (* the position is that of the segment at the back *)
      simpl in Hs. apply lookup_lt_Some in Hs as Hlt.
      rewrite length_app in Hlt. simpl in Hlt.
      destruct (decide (I' = length (segments lr))) as [|Hne]; [done|].
      exfalso. rewrite lookup_app_l in Hs by lia.
      apply list_elem_of_lookup_2 in Hs. specialize (Hall s Hs). lia.
  - intros (b & Hb & Hlt). unfold append. rewrite Hb.
    by rewrite (proj2 (Z.leb_gt _ _)) by lia.
Qed.

Lemma append_at_the_back_witness :
  ∃ lr',
    append (mkLiveRange [mkSegment 0 10 1] [1] None) (mkSegment 10 20 1)
    = Ok lr'
    ∧ ¬ LRInv [VNInfo.mk 0 0 false false] lr'.
Proof.
  destruct (append_at_the_back [VNInfo.mk 0 0 false false]
              (mkLiveRange [mkSegment 0 10 1] [1] None) (mkSegment 10 20 1))
    as [Hok _].
  - concrete_LRInv.
  - destruct Hok as (lr' & Hrun & _ & Hiff & _).
    + simpl. intros b [= <-]. simpl. lia.
    + exists lr'. split; [exact Hrun|]. intros Hinv.
      apply Hiff in Hinv as (_ & _ & Htouch).
      by apply (Htouch (mkSegment 0 10 1)).
Defined.

(** ** The segment set *)

(** X19. A range under construction, whose segments are in the segment
    set: [addSegment] puts the segment in the set and returns [end()],
    and [flushSegmentSet] then leaves the range that [addSegment] leaves
    on a range with the segments of the set in its vector; that range
    satisfies the invariants, and it cannot be flushed again. *)
Theorem segment_set_builds_same_range A lr set S0 :
  segmentSet lr = Some set → segments lr = [] →
  LRInv A (mkLiveRange set (valnos lr) None) →
  addSegment_pre A (mkLiveRange set (valnos lr) None) S0 →
  ∃ lr1 lr2 I,
    LiveRange_addSegment lr S0 = Ok (lr1, 0)
    ∧ segments lr1 = []
    ∧ flushSegmentSet A lr1 = Ok lr2
    ∧ LiveRange_addSegment (mkLiveRange set (valnos lr) None) S0
      = Ok (lr2, I)
    ∧ LRInv A lr2
    ∧ flushSegmentSet A lr2 = Err AssertionFailed.
Proof.
  intros Hset Hsegs Hinv Hpre.
  destruct (LiveRange_addSegment_added A _ S0 Hinv Hpre)
    as (lr2 & I & Hrun & Hinv2 & Hvs & _).
  pose proof Hrun as Hrun'.
  unfold LiveRange_addSegment in Hrun'. simpl in Hrun'.
  destruct (@addSegment CalcLiveRangeUtilVector set S0) as [[coll' I']|]
    eqn:Hadd; [|done].
  simpl in Hrun'. injection Hrun' as <- <-.
  exists (with_segmentSet lr (Some coll')),
    (mkLiveRange coll' (valnos lr) None), I'.
  unfold LiveRange_addSegment, addSegmentToSet. rewrite Hset.
  rewrite addSegment_agree by (by destruct Hinv). rewrite Hadd. simpl.
  rewrite Hsegs. simpl. splits; [done|done| |done|done|done].
  unfold flushSegmentSet. simpl. rewrite Hsegs. simpl.
  unfold with_segmentSet, with_segments. simpl.
  change (verify A _) with (verify A (mkLiveRange coll' (valnos lr) None)).
  by rewrite (proj2 (verify_Ok A (mkLiveRange coll' (valnos lr) None) tt)
                (LRInv_verified _ _ Hinv2)).
Qed.

Lemma segment_set_builds_same_range_witness :
  ∃ lr1 lr2,
    LiveRange_addSegment (mkLiveRange [] [1] (Some [mkSegment 0 10 1]))
      (mkSegment 10 20 1) = Ok (lr1, 0)
    ∧ flushSegmentSet [VNInfo.mk 0 0 false false] lr1 = Ok lr2
    ∧ segments lr2 = [mkSegment 0 20 1].
Proof.
  destruct (segment_set_builds_same_range [VNInfo.mk 0 0 false false]
              (mkLiveRange [] [1] (Some [mkSegment 0 10 1]))
              [mkSegment 0 10 1] (mkSegment 10 20 1))
    as (lr1 & lr2 & I & Hrun & _ & Hflush & _).
  - done.
  - done.
  - concrete_LRInv.
  - unfold addSegment_pre. simpl. splits; [lia|lia|by eexists|].
    intros n Hn Hneq. by apply list_elem_of_singleton in Hn as ->.
  - exists lr1, lr2. split; [exact Hrun|]. split; [exact Hflush|].
    vm_compute in Hrun. injection Hrun as <-.
    vm_compute in Hflush. by injection Hflush as <-.
Defined.

(** ** [clearSubRanges] *)

Lemma clearSubRanges_loop_spec l : ∀ fuel H head,
  is_list (nodes H) head l → length l < fuel →
  clearSubRanges_loop fuel H head
  = Ok {| nodes := nodes H; freed := freed H ++ l.*1 |}.
Proof.
  induction l as [|[a n] l IH]; intros fuel H head Hl Hfuel;
    (destruct fuel as [|fuel]; [simpl in Hfuel; lia|]); simpl in *.
  - subst head. simpl. rewrite app_nil_r. by destruct H.
  - destruct Hl as (-> & Ha & Hn & Hl).
    rewrite (proj2 (Nat.eqb_neq a 0) Ha).
    rewrite (proj2 (node_at_Ok H a n)) by done. cbn [bind].
    rewrite (IH fuel (freeSubRange H a) (Next n)); [|done|lia].
    simpl. by rewrite <- app_assoc.
Qed.

(** X20. [clearSubRanges] on an interval whose sub-ranges form a list:
    [freeSubRange] runs on every node of the list once, in the order of
    the list; the list of the interval is empty afterwards; and the main
    range and the register are as they were. *)
Theorem clearSubRanges_destroys_every_node l fuel H li :
  is_list (nodes H) (SubRanges li) l → length l < fuel →
  ∃ H' li',
    clearSubRanges fuel H li = Ok (H', li')
    ∧ freed H' = freed H ++ l.*1
    ∧ SubRanges li' = 0
    ∧ LI_range li' = LI_range li ∧ reg li' = reg li.
Proof.
  intros Hl Hfuel. unfold clearSubRanges.
  rewrite (clearSubRanges_loop_spec l fuel H (SubRanges li) Hl Hfuel).
  cbn [bind]. eexists _, _. split; [done|]. done.
Qed.

Lemma clearSubRanges_destroys_every_node_witness :
  ∃ H' li',
    clearSubRanges 3
      (mkHeap (<[1 := mkSubRange (mkLiveRange [] [] None) 1 2]>
                 (<[2 := mkSubRange
                           (mkLiveRange [mkSegment 0 10 1] [1] None) 2 0]>
                    ∅)) [])
      (mkLiveInterval (mkLiveRange [mkSegment 0 10 1] [1] None) 5 1)
    = Ok (H', li')
    ∧ freed H' = [1; 2] ∧ SubRanges li' = 0.
Proof.
  destruct (clearSubRanges_destroys_every_node
              [(1, mkSubRange (mkLiveRange [] [] None) 1 2);
               (2, mkSubRange (mkLiveRange [mkSegment 0 10 1] [1] None) 2 0)]
              3
              (mkHeap (<[1 := mkSubRange (mkLiveRange [] [] None) 1 2]>
                         (<[2 := mkSubRange
                                   (mkLiveRange [mkSegment 0 10 1] [1] None)
                                   2 0]> ∅)) [])
              (mkLiveInterval (mkLiveRange [mkSegment 0 10 1] [1] None) 5 1))
    as (H' & li' & Hrun & Hfreed & Hhead & _).
  - simpl. splits; try done.
  - simpl. lia.
  - exists H', li'. split; [exact Hrun|]. split; [exact Hfreed|exact Hhead].
Defined.

(** ** Walking a range with a cursor *)

(** The range is live at no point that lies at or after the end of every
    segment before the position [r] and before the start of the segment
    at [r]. *)
Lemma gap_not_live l r p v :
  ordered l →
  (∀ k s, k < r → l !! k = Some s → (end_ s ≤ p)%Z) →
  (∀ s, l !! r = Some s → (p < start s)%Z) →
  ¬ live_at l p v.
Proof.
  intros Ho Hbefore Hat (x & Hx & Hp & _).
  apply list_elem_of_lookup in Hx as [i Hi].
  destruct (Nat.lt_ge_cases i r) as [Hlt|Hge].
  - specialize (Hbefore i x Hlt Hi). lia.
  - destruct (l !! r) as [s|] eqn:Hr.
    + specialize (Hat s eq_refl).
      pose proof (ordered_lookup_le l r i s x Ho Hge Hr Hi). lia.
    + apply lookup_ge_None in Hr. apply lookup_lt_Some in Hi. lia.
Qed.

Lemma advanceTo_loop_spec fuel : ∀ l I Pos k s,
  l !! k = Some s → I ≤ k → (Pos < end_ s)%Z → k - I < fuel →
  ∃ r, advanceTo_loop fuel l I Pos = Ok r ∧ I ≤ r ≤ k
       ∧ (∀ j a, I ≤ j < r → l !! j = Some a → (end_ a ≤ Pos)%Z)
       ∧ (∃ a, l !! r = Some a ∧ (Pos < end_ a)%Z).
Proof.
  induction fuel as [|fuel IH]; intros l I Pos k s Hk HI Hs Hf; [lia|].
  simpl. destruct (lookup_lt_is_Some_2 l I) as [x Hx].
  { apply lookup_lt_Some in Hk. lia. }
  unfold at_. rewrite Hx. cbn [bind].
  destruct (Z.leb_spec (end_ x) Pos) as [Hle|Hgt].
  - assert (I ≠ k) by (intros ->; rewrite Hk in Hx; injection Hx as ->; lia).
    destruct (IH l (I + 1) Pos k s Hk ltac:(lia) Hs ltac:(lia))
      as (r & Hr & Hrange & Hskip & Hat).
    exists r. split; [done|]. split; [lia|]. split; [|done].
    intros j a Hj Ha. destruct (decide (j = I)) as [->|].
    + rewrite Hx in Ha. by injection Ha as <-.
    + apply (Hskip j a); [lia|done].
  - exists I. split; [done|]. split; [lia|]. split; [intros; lia|].
    by exists x.
Qed.

(** [advanceTo] from a cursor that is not [end()]: the result is the
    first position at or after the cursor whose segment ends after
    [Pos]. *)
Lemma advanceTo_spec l I Pos :
  ordered l → I < length l →
  ∃ r, advanceTo l I Pos = Ok r ∧ I ≤ r ≤ length l
       ∧ (∀ j a, I ≤ j < r → l !! j = Some a → (end_ a ≤ Pos)%Z)
       ∧ (∀ a, l !! r = Some a → (Pos < end_ a)%Z).
Proof.
  intros Ho HI. unfold advanceTo.
  rewrite (proj2 (Nat.eqb_neq I (length l))) by lia. cbn [negb check bind].
  destruct (last l) as [back|] eqn:Hlast.
  2:{ apply last_None in Hlast. subst l. simpl in HI. lia. }
  pose proof Hlast as Hback. rewrite last_lookup in Hback.
  destruct (Z.leb_spec (end_ back) Pos) as [Hle|Hgt].
  - exists (length l). split; [done|]. split; [lia|]. split.
    + intros j a Hj Ha.
      pose proof (ordered_lookup_le l j (pred (length l)) a back Ho
                    ltac:(lia) Ha Hback). lia.
    + intros a Ha. apply lookup_lt_Some in Ha. lia.
  - destruct (advanceTo_loop_spec (length l) l I Pos (pred (length l)) back
                Hback ltac:(lia) Hgt ltac:(lia))
      as (r & Hr & Hrange & Hskip & (a & Ha & Hpa)).
    exists r. split; [done|]. split; [lia|]. split; [done|].
    intros a' Ha'. rewrite Ha in Ha'. by injection Ha' as <-.
Qed.

(** ** [covers] *)

Lemma covers_follow_spec fuel : ∀ l I s OEnd,
  ordered l → l !! I = Some s → length l - I ≤ fuel →
  ∃ r, covers_follow fuel l I OEnd = Ok r
       ∧ match r with
         | Some I' =>
           I ≤ I'
           ∧ (∃ s', l !! I' = Some s' ∧ (OEnd ≤ end_ s')%Z
                    ∧ ∀ p, (start s ≤ p < end_ s')%Z → live_somewhere l p)
           ∧ (∀ k a, I ≤ k < I' → l !! k = Some a → (end_ a < OEnd)%Z)
         | None =>
           ∃ p, (end_ s ≤ p < OEnd)%Z ∧ ¬ live_somewhere l p
         end.
Proof.
  induction fuel as [|fuel IH]; intros l I s OEnd Ho Hs Hf.
  { apply lookup_lt_Some in Hs. lia. }
  simpl. unfold at_ at 1. rewrite Hs. cbn [bind].
  pose proof (ordered_lookup_pos _ _ _ Ho Hs) as Hpos.
  assert (Hself : ∀ p, (start s ≤ p < end_ s)%Z → live_somewhere l p).
  { intros p Hp. exists (valno s), s.
    split; [by eapply list_elem_of_lookup_2|done]. }
  assert (Hups : ∀ k a, k < I + 1 → l !! k = Some a → (end_ a ≤ end_ s)%Z).
  { intros k a Hk Ha.
    pose proof (ordered_lookup_le l k I a s Ho ltac:(lia) Ha Hs). lia. }
  destruct (Z.ltb_spec (end_ s) OEnd) as [Hlt|Hge].
  - destruct (Nat.eqb_spec (I + 1) (length l)) as [Hend|Hmore].
    + eexists. split; [done|]. exists (end_ s). split; [lia|].
      intros [v Hv]. eapply (gap_not_live l (I + 1)); [done|done| |done].
      intros a Ha. apply lookup_lt_Some in Ha. lia.
    + destruct (lookup_lt_is_Some_2 l (I + 1)) as [n Hn].
      { apply lookup_lt_Some in Hs. lia. }
      unfold at_. rewrite Hn. cbn [bind].
      pose proof (ordered_lookup_lt l I (I + 1) s n Ho ltac:(lia) Hs Hn)
        as Hsn.
      destruct (Z.eqb_spec (end_ s) (start n)) as [Hadj|Hgap]; cbn [negb].
      * destruct (IH l (I + 1) n OEnd Ho Hn ltac:(lia)) as (r & Hr & Hres).
        exists r. split; [done|]. destruct r as [I'|].
        -- destruct Hres as (HI' & (s' & Hs' & He & Hcov) & Hsk).
           split; [lia|]. split.
           ++ exists s'. split; [done|]. split; [done|].
              intros p Hp. destruct (decide (p < end_ s)%Z).
              ** apply Hself. lia.
              ** apply Hcov. lia.
           ++ intros k a Hk Ha. destruct (decide (k = I)) as [->|].
              ** rewrite Hs in Ha. by injection Ha as <-.
              ** apply (Hsk k a); [lia|done].
        -- destruct Hres as (p & Hp & Hnl). exists p. split; [|done].
           pose proof (ordered_lookup_pos _ _ _ Ho Hn). lia.
      * eexists. split; [done|]. exists (end_ s). split; [lia|].
        intros [v Hv]. eapply (gap_not_live l (I + 1)); [done|done| |done].
        intros a Ha. rewrite Hn in Ha. injection Ha as <-. lia.
  - eexists. split; [done|]. split; [lia|]. split; [|intros; lia].
    exists s. split; [done|]. split; [lia|done].
Qed.

Lemma covers_loop_spec l other : ∀ I,
  ordered l → ordered other → I < length l →
  (∀ k a o, k < I → l !! k = Some a → o ∈ other → (end_ a ≤ start o)%Z) →
  ∃ b, covers_loop l I other = Ok b
       ∧ (b = true ↔
          ∀ o p, o ∈ other → (start o ≤ p < end_ o)%Z → live_somewhere l p).
Proof.
  induction other as [|o other IH]; intros I Ho Hoo HI Hbefore.
  { exists true. split; [done|]. split; [|done].
    intros _ o p Ho'. by apply elem_of_nil in Ho'. }
  simpl.
  pose proof Hoo as (Hopos & _).
  pose proof (ordered_cons_lt _ _ Hoo) as Hafter.
  rewrite Forall_forall in Hafter.
  destruct (advanceTo_spec l I (start o) Ho HI)
    as (r & -> & Hr & Hskip & Hat).
  cbn [bind].
  assert (Hbefore_r : ∀ k a, k < r → l !! k = Some a →
                             (end_ a ≤ start o)%Z).
  { intros k a Hk Ha. destruct (Nat.lt_ge_cases k I).
    - apply (Hbefore k a o); [done|done|by left].
    - apply (Hskip k a); [lia|done]. }
  assert (Hfail : (∀ s, l !! r = Some s → (start o < start s)%Z) →
    ¬ ∀ o' p, o' ∈ o :: other → (start o' ≤ p < end_ o')%Z →
              live_somewhere l p).
  { intros Hgap Hall.
    destruct (Hall o (start o) ltac:(by left) ltac:(lia)) as [v Hv].
    by eapply (gap_not_live l r). }
  destruct (Nat.eqb_spec r (length l)) as [Hend|Hin].
  { exists false. split; [done|]. split; [done|]. intros Hall.
    exfalso. apply Hfail; [|done]. intros s Hs.
    apply lookup_lt_Some in Hs. lia. }
  destruct (lookup_lt_is_Some_2 l r ltac:(lia)) as [s Hs].
  unfold at_. rewrite Hs. cbn [bind].
  destruct (Z.ltb_spec (start o) (start s)) as [Hgap|Hin_s].
  { exists false. split; [done|]. split; [done|]. intros Hall.
    exfalso. apply Hfail; [|done]. intros s' Hs'.
    rewrite Hs in Hs'. by injection Hs' as <-. }
  destruct (covers_follow_spec (length l) l r s (end_ o) Ho Hs ltac:(lia))
    as (res & -> & Hres).
  cbn [bind]. destruct res as [I'|].
  - destruct Hres as (HI' & (s' & Hs' & He & Hcov) & Hsk).
    destruct (IH I') as (b & Hb & Hiff).
    + done.
    + by eapply ordered_cons_inv.
    + by eapply lookup_lt_Some.
    + intros k a o' Hk Ha Ho'. specialize (Hafter o' Ho').
      destruct (Nat.lt_ge_cases k r).
      * specialize (Hbefore_r k a ltac:(done) Ha). lia.
      * specialize (Hsk k a ltac:(lia) Ha). lia.
    + exists b. split; [done|]. rewrite Hiff. split.
      * intros Hall o' p Ho' Hp. apply elem_of_cons in Ho' as [->|Ho'].
        -- apply Hcov. lia.
        -- by eapply Hall.
      * intros Hall o' p Ho' Hp. apply (Hall o'); [by right|done].
  - destruct Hres as (p & Hp & Hnl).
    exists false. split; [done|]. split; [done|]. intros Hall.
    exfalso. apply Hnl. apply (Hall o); [by left|].
    pose proof (ordered_lookup_pos _ _ _ Ho Hs).
    specialize (Hat s Hs). lia.
Qed.

(** X21. For two ranges that satisfy the ordering invariants,
    [covers(Other)] returns true exactly when the range is live at every
    point at which [Other] is live. *)
Theorem covers_every_point l other :
  ordered l → ordered other →
  ∃ b, covers l other = Ok b
       ∧ (b = true ↔
          ∀ p v, live_at other p v → ∃ w, live_at l p w).
Proof.
  intros Ho Hoo. unfold covers.
  destruct l as [|s l].
  - simpl. eexists. split; [done|]. destruct other as [|o other]; simpl.
    + split; [|done]. intros _ p v Hl. by apply live_at_nil in Hl.
    + split; [done|]. intros Hall.
      destruct (Hall (start o) (valno o) (ordered_head_live _ _ Hoo))
        as [w Hw].
      by apply live_at_nil in Hw.
  - cbn [length Nat.eqb].
    destruct (covers_loop_spec (s :: l) other 0 Ho Hoo) as (b & Hb & Hiff).
    { simpl. lia. }
    { intros k a o Hk. lia. }
    exists b. split; [done|]. rewrite Hiff. split.
    + intros Hall p v (o & Ho' & Hp & _). by apply (Hall o p).
    + intros Hall o p Ho' Hp. apply (Hall p (valno o)). by exists o.
Qed.

Lemma covers_every_point_witness :
  covers [mkSegment 0 10 1; mkSegment 10 20 2; mkSegment 30 40 1]
    [mkSegment 5 15 7; mkSegment 32 33 7] = Ok true
  ∧ covers [mkSegment 0 10 1; mkSegment 10 20 2; mkSegment 30 40 1]
      [mkSegment 15 31 7] = Ok false.
Proof.
  split.
  - destruct (covers_every_point
                [mkSegment 0 10 1; mkSegment 10 20 2; mkSegment 30 40 1]
                [mkSegment 5 15 7; mkSegment 32 33 7])
      as (b & Hb & _).
    + unfold seg_before; simpl; repeat split; (lia || done).
    + unfold seg_before; simpl; repeat split; (lia || done).
    + vm_compute in Hb. injection Hb as <-. reflexivity.
  - reflexivity.
Defined.

(** ** [isLiveAtIndexes] *)

Lemma ascending_cons a Slots :
  ascending (a :: Slots) →
  ascending Slots ∧ ∀ b, b ∈ Slots → (a ≤ b)%Z.
Proof.
  intros Hasc. split.
  - intros i j x y Hij Hx Hy. by apply (Hasc (S i) (S j)); [lia|..].
  - intros b Hb. apply list_elem_of_lookup in Hb as [j Hj].
    by apply (Hasc 0 (S j)); [lia|..].
Qed.

Lemma isLiveAtIndexes_loop_spec l Slots : ∀ SegmentI,
  ordered l → ascending Slots → SegmentI < length l →
  (∀ k a slot, k < SegmentI → l !! k = Some a → slot ∈ Slots →
               (end_ a ≤ slot)%Z) →
  ∃ b, isLiveAtIndexes_loop l SegmentI Slots = Ok b
       ∧ (b = true ↔ ∃ slot, slot ∈ Slots ∧ live_somewhere l slot).
Proof.
  induction Slots as [|Slot Slots IH]; intros I Ho Hasc HI Hbefore.
  { exists false. split; [done|]. split; [done|].
    intros (slot & Hs & _). by apply elem_of_nil in Hs. }
  simpl. apply ascending_cons in Hasc as [Hasc Hle].
  destruct (advanceTo_spec l I Slot Ho HI) as (r & -> & Hr & Hskip & Hat).
  cbn [bind].
  assert (Hbefore_r : ∀ k a, k < r → l !! k = Some a → (end_ a ≤ Slot)%Z).
  { intros k a Hk Ha. destruct (Nat.lt_ge_cases k I).
    - apply (Hbefore k a Slot); [done|done|by left].
    - apply (Hskip k a); [lia|done]. }
  destruct (Nat.eqb_spec r (length l)) as [Hend|Hin].
  { exists false. split; [done|]. split; [done|].
    intros (slot & Hs & [v Hv]). exfalso.
    eapply (gap_not_live l r slot); [done| | |done].
    - intros k a Hk Ha. specialize (Hbefore_r k a Hk Ha).
      apply elem_of_cons in Hs as [->|Hs]; [done|].
      specialize (Hle slot Hs). lia.
    - intros s Hs'. apply lookup_lt_Some in Hs'. lia. }
  destruct (lookup_lt_is_Some_2 l r ltac:(lia)) as [s Hs].
  unfold at_. rewrite Hs. cbn [bind]. unfold Segment_contains.
  specialize (Hat s Hs).
  rewrite (proj2 (Z.ltb_lt Slot (end_ s)) Hat), andb_true_r.
  destruct (Z.leb_spec (start s) Slot) as [Hin_s|Hgap].
  { exists true. split; [done|]. split; [|done]. intros _.
    exists Slot. split; [by left|]. exists (valno s), s.
    split; [by eapply list_elem_of_lookup_2|]. split; [lia|done]. }
  destruct (IH r Ho Hasc ltac:(lia)) as (b & Hb & Hiff).
  { intros k a slot Hk Ha Hslot. specialize (Hbefore_r k a Hk Ha).
    specialize (Hle slot Hslot). lia. }
  exists b. split; [done|]. rewrite Hiff. split.
  - intros (slot & Hslot & Hl). exists slot. split; [by right|done].
  - intros (slot & Hslot & Hl).
    apply elem_of_cons in Hslot as [->|Hslot]; [|by exists slot].
    exfalso. destruct Hl as [v Hv].
    eapply (gap_not_live l r Slot); [done|done| |done].
    intros s' Hs'. rewrite Hs in Hs'. by injection Hs' as <-.
Qed.

(** X22. On a range that satisfies the ordering invariants and slots in
    ascending order, [isLiveAtIndexes] returns true exactly when the
    range is live at one of the slots. *)
Theorem isLiveAtIndexes_some_slot_live l Slots :
  ordered l → ascending Slots →
  ∃ b, isLiveAtIndexes l Slots = Ok b
       ∧ (b = true ↔ ∃ slot v, slot ∈ Slots ∧ live_at l slot v).
Proof.
  intros Ho Hasc. unfold isLiveAtIndexes.
  destruct Slots as [|Slot Slots].
  { exists false. split; [done|]. split; [done|].
    intros (slot & v & Hs & _). by apply elem_of_nil in Hs. }
  destruct (find_split l Slot Ho) as (pre & post & Hl & Hfind & Hpre & Hpost).
  pose proof (ascending_cons _ _ Hasc) as [_ Hle].
  assert (Hbefore : ∀ k a slot, k < find l Slot → l !! k = Some a →
                      slot ∈ Slot :: Slots → (end_ a ≤ slot)%Z).
  { intros k a slot Hk Ha Hslot. rewrite Hfind in Hk. subst l.
    rewrite lookup_app_l in Ha by done.
    rewrite Forall_forall in Hpre.
    specialize (Hpre a ltac:(by eapply list_elem_of_lookup_2)).
    apply elem_of_cons in Hslot as [->|Hslot]; [done|].
    specialize (Hle slot Hslot). lia. }
  destruct (Nat.eqb_spec (find l Slot) (length l)) as [Hend|Hin].
  - exists false. split; [done|]. split; [done|].
    intros (slot & v & Hs & Hv). exfalso.
    eapply (gap_not_live l (find l Slot) slot); [done| | |done].
    + intros k a Hk Ha. by eapply Hbefore.
    + intros s Hs'. apply lookup_lt_Some in Hs'. lia.
  - destruct (isLiveAtIndexes_loop_spec l (Slot :: Slots) (find l Slot)
                Ho Hasc) as (b & Hb & Hiff).
    { assert (find l Slot ≤ length l); [|lia].
      rewrite Hfind, Hl, length_app. lia. }
    { done. }
    exists b. split; [done|]. rewrite Hiff. split.
    + intros (slot & Hs & v & Hv). by exists slot, v.
    + intros (slot & v & Hs & Hv). exists slot. split; [done|by exists v].
Qed.

Lemma isLiveAtIndexes_some_slot_live_witness :
  isLiveAtIndexes [mkSegment 0 10 1; mkSegment 20 30 2] [12%Z; 15%Z; 20%Z]
  = Ok true.
Proof.
  destruct (isLiveAtIndexes_some_slot_live
              [mkSegment 0 10 1; mkSegment 20 30 2] [12%Z; 15%Z; 20%Z])
    as (b & Hb & _).
  - unfold seg_before; simpl; repeat split; (lia || done).
  - intros i j a b Hij Ha Hb.
    destruct i as [|[|[|i]]]; destruct j as [|[|[|j]]]; simpl in *;
      try lia; try done; injection Ha as <-; injection Hb as <-; lia.
  - vm_compute in Hb. injection Hb as <-. reflexivity.
Defined.

(** ** Overlap that a coalescable copy excuses *)

Lemma ignored_sym isC x y : ignored isC x y → ignored isC y x.
Proof. unfold ignored. by rewrite Z.max_comm. Qed.

Lemma no_interference_sym isC a b :
  no_interference isC a b → no_interference isC b a.
Proof.
  intros H x y Hx Hy. destruct (H y x Hy Hx) as [?|[?|?]]; auto.
  right. right. by apply ignored_sym.
Qed.

Lemma overlaps_advance_spec fuel : ∀ b J IStart,
  J < length b → length b - J ≤ fuel →
  ∃ r, overlaps_advance fuel b J IStart = Ok r
       ∧ match r with
         | Some J' =>
           J < J' < length b
           ∧ (∃ s, b !! J' = Some s ∧ (IStart ≤ end_ s)%Z)
           ∧ (∀ k s, J < k < J' → b !! k = Some s → (end_ s < IStart)%Z)
         | None =>
           ∀ k s, J < k → b !! k = Some s → (end_ s < IStart)%Z
         end.
Proof.
  induction fuel as [|fuel IH]; intros b J IStart HJ Hf; [lia|].
  simpl. destruct (Nat.eqb_spec (J + 1) (length b)) as [Hend|Hmore].
  { eexists. split; [done|]. intros k s Hk Hs.
    apply lookup_lt_Some in Hs. lia. }
  destruct (lookup_lt_is_Some_2 b (J + 1) ltac:(lia)) as [sj Hsj].
  unfold at_. rewrite Hsj. cbn [bind].
  destruct (Z.ltb_spec (end_ sj) IStart) as [Hlt|Hge].
  - destruct (IH b (J + 1) IStart ltac:(lia) ltac:(lia)) as (r & Hr & Hres).
    exists r. split; [done|]. destruct r as [J'|].
    + destruct Hres as (HJ' & Hat & Hsk). split; [lia|]. split; [done|].
      intros k s Hk Hs. destruct (decide (k = J + 1)) as [->|].
      * rewrite Hsj in Hs. by injection Hs as <-.
      * apply (Hsk k s); [lia|done].
    + intros k s Hk Hs. destruct (decide (k = J + 1)) as [->|].
      * rewrite Hsj in Hs. by injection Hs as <-.
      * apply (Hres k s); [lia|done].
  - eexists. split; [done|]. split; [lia|]. split; [by exists sj|].
    intros; lia.
Qed.

(** The segment at [J] ends first: once it has been compared with the
    segment at [I], it and the segments that are skipped after it
    interfere with no segment of [a]. *)
Lemma advance_no_interference isC a b I J si sj J' :
  ordered a → ordered b → a !! I = Some si → b !! J = Some sj →
  no_interference isC (take I a) b → no_interference isC a (take J b) →
  ((end_ si ≤ start sj)%Z ∨ (end_ sj ≤ start si)%Z ∨ ignored isC si sj) →
  (end_ sj ≤ end_ si)%Z →
  (∀ k s, J < k < J' → b !! k = Some s → (end_ s < start si)%Z) →
  no_interference isC a (take J' b).
Proof.
  intros Ha Hb Hsi Hsj H1 H2 Hpair Hfirst Hskip x y Hx Hy.
  apply list_elem_of_lookup in Hx as [i Hi].
  apply list_elem_of_lookup in Hy as [k Hk].
  apply lookup_take_Some in Hk as [Hk HkJ].
  destruct (Nat.lt_ge_cases i I) as [HiI|HiI].
  { apply H1; [|by eapply list_elem_of_lookup_2].
    apply list_elem_of_lookup. exists i. by rewrite lookup_take_lt. }
  destruct (Nat.lt_trichotomy k J) as [Hlt|[->|Hgt]].
  - apply H2; [by eapply list_elem_of_lookup_2|].
    apply list_elem_of_lookup. exists k. by rewrite lookup_take_lt.
  - rewrite Hsj in Hk. injection Hk as <-.
    destruct (decide (i = I)) as [->|Hne].
    + rewrite Hsi in Hi. by injection Hi as <-.
    + pose proof (ordered_lookup_lt a I i si x Ha ltac:(lia) Hsi Hi).
      right. left. lia.
  - specialize (Hskip k y ltac:(lia) Hk).
    pose proof (ordered_lookup_le a I i si x Ha HiI Hsi Hi). right. left. lia.
Qed.

Lemma overlaps_loop_spec isC fuel : ∀ a I b J si sj,
  ordered a → ordered b → a !! I = Some si → b !! J = Some sj →
  (start si ≤ end_ sj)%Z →
  (length a - I) + (length b - J) ≤ fuel + 1 →
  no_interference isC (take I a) b → no_interference isC a (take J b) →
  ∃ r, overlaps_loop fuel isC a I b J = Ok r
       ∧ (r = false → no_interference isC a b)
       ∧ (r = true →
          ∃ x y, x ∈ a ∧ y ∈ b ∧ (start x ≤ end_ y)%Z
                 ∧ (start y ≤ end_ x)%Z ∧ ¬ ignored isC x y).
Proof.
  induction fuel as [|fuel IH];
    intros a I b J si sj Ha Hb Hsi Hsj Hassert Hf H1 H2.
  { apply lookup_lt_Some in Hsi, Hsj. lia. }
  simpl. unfold at_. rewrite Hsi, Hsj. cbn [bind].
  rewrite (proj2 (Z.leb_le _ _) Hassert). cbn [check bind].
  pose proof (lookup_lt_Some _ _ _ Hsi) as HI.
  pose proof (lookup_lt_Some _ _ _ Hsj) as HJ.
  pose proof (ordered_lookup_pos _ _ _ Ha Hsi) as Hpi.
  pose proof (ordered_lookup_pos _ _ _ Hb Hsj) as Hpj.
  destruct ((start sj <? end_ si)%Z
            && (isBlock (Z.max (start si) (start sj))
                || negb (isC (Z.max (start si) (start sj))))) eqn:Htest.
  { apply andb_true_iff in Htest as [Hov Hne]. apply Z.ltb_lt in Hov.
    exists true. split; [done|]. split; [done|]. intros _.
    exists si, sj. split; [by eapply list_elem_of_lookup_2|].
    split; [by eapply list_elem_of_lookup_2|]. split; [done|].
    split; [lia|]. intros [Hb1 Hb2].
    rewrite Hb1, Hb2 in Hne. done. }
  assert (Hpair : (end_ si ≤ start sj)%Z ∨ (end_ sj ≤ start si)%Z
                  ∨ ignored isC si sj).
  { apply andb_false_iff in Htest as [Hno|Hig].
    - apply Z.ltb_ge in Hno. by left.
    - apply orb_false_iff in Hig as [Hb1 Hb2].
      apply negb_false_iff in Hb2. by right; right. }
  destruct (Z.ltb_spec (end_ si) (end_ sj)) as [Hswap|Hkeep].
  - (* the two ranges change roles *)
    destruct (overlaps_advance_spec (length a) a I (start sj) HI
                ltac:(lia)) as (r & -> & Hres).
    cbn [bind].
    assert (Hpair' : (end_ sj ≤ start si)%Z ∨ (end_ si ≤ start sj)%Z
                     ∨ ignored isC sj si).
    { destruct Hpair as [?|[?|?]]; auto. right. right.
      by apply ignored_sym. }
    destruct r as [I'|].
    + destruct Hres as (HI' & (s' & Hs' & Hge) & Hsk).
      destruct (IH b J a I' sj s') as (r & Hr & Hfalse & Htrue);
        [done|done|done|done|done|lia| | |].
      * by apply no_interference_sym.
      * eapply (advance_no_interference isC b a J I sj si I');
          try done; [by apply no_interference_sym..|lia].
      * exists r. split; [done|]. split.
        -- intros Hrf. by apply no_interference_sym, Hfalse.
        -- intros Hrt. destruct (Htrue Hrt) as (x & y & ? & ? & ? & ? & Hn).
           exists y, x. splits; try done. intros Hig.
           by apply Hn, ignored_sym.
    + exists false. split; [done|]. split; [|done]. intros _.
      apply no_interference_sym.
      rewrite <- (firstn_all a).
      eapply (advance_no_interference isC b a J I sj si (length a));
        try done; [by apply no_interference_sym..|lia|].
      intros k s Hk. apply Hres. lia.
  - destruct (overlaps_advance_spec (length b) b J (start si) HJ
                ltac:(lia)) as (r & -> & Hres).
    cbn [bind]. destruct r as [J'|].
    + destruct Hres as (HJ' & (s' & Hs' & Hge) & Hsk).
      destruct (IH a I b J' si s') as (r & Hr & Hfalse & Htrue);
        [done|done|done|done|done|lia|done| |].
      * by eapply (advance_no_interference isC a b I J si sj J').
      * by exists r.
    + exists false. split; [done|]. split; [|done]. intros _.
      rewrite <- (firstn_all b).
      eapply (advance_no_interference isC a b I J si sj (length b));
        try done.
      intros k s Hk. apply Hres. lia.
Qed.

(** X23. For two ranges that satisfy the ordering invariants, the first
    one not empty, [overlaps(Other, CP, Indexes)] returns.  When it
    returns false, every two segments of the two ranges that share a
    point start, the later of the two, at a slot that is not a block
    boundary and is a coalescable copy.  When it returns true, a segment
    of each range overlap or touch and the later of their starts is a
    block boundary or is not a coalescable copy.  On an empty range the
    assertion of the function fails. *)
Theorem overlaps_coalescable_conservative isCoalescable l other :
  ordered l → ordered other →
  (l ≠ [] →
   ∃ b, overlaps_coalescable isCoalescable l other = Ok b
        ∧ (b = false →
           ∀ x y, x ∈ l → y ∈ other →
                  (start x < end_ y)%Z → (start y < end_ x)%Z →
                  ignored isCoalescable x y)
        ∧ (b = true →
           ∃ x y, x ∈ l ∧ y ∈ other ∧ (start x ≤ end_ y)%Z
                  ∧ (start y ≤ end_ x)%Z ∧ ¬ ignored isCoalescable x y))
  ∧ (l = [] →
     overlaps_coalescable isCoalescable l other = Err AssertionFailed).
Proof.
  intros Ho Hoo. split; [|by intros ->].
  intros Hne.
  enough (∃ b, overlaps_coalescable isCoalescable l other = Ok b
               ∧ (b = false → no_interference isCoalescable l other)
               ∧ (b = true →
                  ∃ x y, x ∈ l ∧ y ∈ other ∧ (start x ≤ end_ y)%Z
                         ∧ (start y ≤ end_ x)%Z
                         ∧ ¬ ignored isCoalescable x y))
    as (b & Hb & Hfalse & Htrue).
  { exists b. split; [done|]. split; [|done].
    intros Hbf x y Hx Hy H1 H2.
    destruct (Hfalse Hbf x y Hx Hy) as [?|[?|?]]; [lia|lia|done]. }
  unfold overlaps_coalescable.
  destruct l as [|s0 l0] eqn:Hl; [done|]. rewrite <- Hl in *.
  assert ((length l =? 0) = false) as ->.
  { apply Nat.eqb_neq. rewrite Hl. simpl. lia. }
  cbn [negb check bind].
  destruct other as [|o0 other'] eqn:Hother.
  { exists false. split; [done|]. split; [|done].
    intros _ x y _ Hy. by apply elem_of_nil in Hy. }
  rewrite <- Hother in *. simpl.
  replace (head other) with (Some o0) by by rewrite Hother.
  destruct (find_split l (start o0) Ho)
    as (pre & post & Hsplit & Hfind & Hpre & Hpost).
  rewrite Forall_forall in Hpre.
  assert (Hofirst : ∀ y, y ∈ other → (start o0 ≤ start y)%Z).
  { intros y Hy. apply list_elem_of_lookup in Hy as [k Hk].
    assert (other !! 0 = Some o0) as H0 by by rewrite Hother.
    pose proof (ordered_lookup_le other 0 k o0 y Hoo ltac:(lia) H0 Hk).
    lia. }
  assert (H1 : no_interference isCoalescable (take (find l (start o0)) l)
                 other).
  { intros x y Hx Hy. rewrite Hfind, Hsplit, take_app_length in Hx.
    specialize (Hpre x Hx). specialize (Hofirst y Hy). left. lia. }
  destruct (Nat.eqb_spec (find l (start o0)) (length l)) as [Hend|Hin].
  { exists false. split; [done|]. split; [|done]. intros _.
    rewrite Hend, firstn_all in H1. done. }
  assert (find l (start o0) < length l) as HI.
  { assert (find l (start o0) ≤ length l); [|lia].
    rewrite Hfind, Hsplit, length_app. lia. }
  destruct (lookup_lt_is_Some_2 l _ HI) as [si Hsi].
  unfold at_. rewrite Hsi. cbn [bind].
  destruct (find_split other (start si) Hoo)
    as (pre' & post' & Hsplit' & Hfind' & Hpre' & Hpost').
  rewrite Forall_forall in Hpre'. rewrite Forall_forall in Hpost'.
  assert (H2 : no_interference isCoalescable l
                 (take (find other (start si)) other)).
  { intros x y Hx Hy. rewrite Hfind', Hsplit', take_app_length in Hy.
    specialize (Hpre' y Hy).
    apply list_elem_of_lookup in Hx as [i Hi].
    destruct (Nat.lt_ge_cases i (find l (start o0))) as [Hlt|Hge].
    - apply H1; [|rewrite Hsplit'; apply elem_of_app; by left].
      apply list_elem_of_lookup. exists i. by rewrite lookup_take_lt.
    - pose proof (ordered_lookup_le l _ i si x Ho Hge Hsi Hi).
      right. left. lia. }
  destruct (Nat.eqb_spec (find other (start si)) (length other))
    as [Hend'|Hin'].
  { exists false. split; [done|]. split; [|done]. intros _.
    rewrite Hend', firstn_all in H2. done. }
  assert (find other (start si) < length other) as HJ.
  { assert (find other (start si) ≤ length other); [|lia].
    rewrite Hfind', Hsplit', length_app. lia. }
  destruct (lookup_lt_is_Some_2 other _ HJ) as [sj Hsj].
  assert (start si < end_ sj)%Z as Hlt.
  { apply Hpost'. rewrite Hfind', Hsplit' in Hsj.
    rewrite lookup_app_r in Hsj by lia.
    by eapply list_elem_of_lookup_2. }
  apply (overlaps_loop_spec isCoalescable (length l + length other) l _
           other _ si sj); try done; lia.
Qed.

Lemma overlaps_coalescable_conservative_witness :
  overlaps_coalescable (λ Def, (Def =? 9)%Z)
    [mkSegment 1 20 1] [mkSegment 9 12 7] = Ok false
  ∧ overlaps_coalescable (λ Def, (Def =? 9)%Z)
      [mkSegment 1 20 1] [mkSegment 10 12 7] = Ok true.
Proof.
  split.
  - destruct (overlaps_coalescable_conservative (λ Def, (Def =? 9)%Z)
                [mkSegment 1 20 1] [mkSegment 9 12 7])
      as [Hrun _].
    + unfold seg_before; simpl; repeat split; (lia || done).
    + unfold seg_before; simpl; repeat split; (lia || done).
    + destruct Hrun as (b & Hb & _); [done|].
      vm_compute in Hb. injection Hb as <-. reflexivity.
  - reflexivity.
Defined.

(** ** What [LiveInterval::verify] checks *)

Lemma land_lor_0 a b c :
  Z.land (Z.lor a b) c = 0%Z ↔ Z.land a c = 0%Z ∧ Z.land b c = 0%Z.
Proof. by rewrite Z.land_lor_distr_l, Z.lor_eq_0_iff. Qed.

Lemma LiveInterval_verify_loop_spec A H main MaxMask rest :
  ∀ fuel Mask I,
  ordered main → is_list (nodes H) I rest → length rest < fuel →
  Z.land Mask (Z.lxor MaxMask (2 ^ 32 - 1)) = 0%Z →
  LiveInterval_verify_loop fuel A H main MaxMask Mask I = Ok tt ↔
  Forall (λ n, Z.land Mask (LaneMask n) = 0%Z) rest.*2
  ∧ lanes_disjoint (LaneMask <$> rest.*2)
  ∧ Forall (subrange_ok A main MaxMask) rest.*2.
Proof.
  induction rest as [|[a n] rest IH]; intros fuel Mask I Ho Hl Hf HMask;
    (destruct fuel as [|fuel]; [simpl in Hf; lia|]); simpl in *.
  { subst I. simpl. split; [|done]. intros _. by splits. }
  destruct Hl as (-> & Ha & Hn & Hl).
  rewrite (proj2 (Nat.eqb_neq a 0) Ha).
  rewrite (proj2 (node_at_Ok H a n)) by done. cbn [bind].
  rewrite !Forall_cons.
  destruct (Z.eqb_spec (Z.land Mask (LaneMask n)) 0) as [Hm1|Hm1];
    cbn [check bind]; [|split; [done|tauto]].
  destruct (Z.eqb_spec (Z.land (Z.lor Mask (LaneMask n))
                          (Z.lxor MaxMask (2 ^ 32 - 1))) 0) as [Hm2|Hm2];
    cbn [check bind].
  2:{ split; [done|]. intros (_ & _ & (Hlanes & _) & _). exfalso.
      apply Hm2. by apply land_lor_0. }
  pose proof (proj1 (land_lor_0 _ _ _) Hm2) as [_ Hlanes].
  unfold SubRange_empty.
  destruct (Nat.eqb_spec (length (segments (SR_range n))) 0) as [He|He];
    cbn [negb check bind].
  { split; [done|]. intros (_ & _ & (_ & Hne & _) & _). exfalso.
    by apply Hne, nil_length_inv. }
  assert (Hne : segments (SR_range n) ≠ []).
  { intros Hnil. by rewrite Hnil in He. }
  destruct (verify A (SR_range n)) as [[]|e] eqn:Hv; cbn [bind].
  2:{ split; [done|]. intros (_ & _ & (_ & _ & Hver & _) & _). exfalso.
      apply (verify_Ok A _ tt) in Hver. congruence. }
  apply verify_Ok in Hv. pose proof Hv as (Hos & _).
  destruct (covers_every_point main (segments (SR_range n)) Ho Hos)
    as (b & -> & Hcov).
  cbn [bind]. destruct b; cbn [check bind].
  2:{ split; [done|]. intros (_ & _ & (_ & _ & _ & Hall) & _). exfalso.
      by apply Hcov in Hall. }
  pose proof (proj1 Hcov eq_refl) as Hall.
  rewrite (IH fuel (Z.lor Mask (LaneMask n)) (Next n) Ho Hl ltac:(lia) Hm2).
  assert (Hsplit : Forall (λ n0, Z.land (Z.lor Mask (LaneMask n))
                                   (LaneMask n0) = 0%Z) rest.*2 ↔
                   Forall (λ n0, Z.land Mask (LaneMask n0) = 0%Z) rest.*2
                   ∧ Forall (λ m', Z.land (LaneMask n) m' = 0%Z)
                       (LaneMask <$> rest.*2)).
  { rewrite !Forall_forall. split.
    - intros Hx. split.
      + intros x Hin. by destruct (proj1 (land_lor_0 _ _ _) (Hx x Hin)).
      + intros m Hin. apply list_elem_of_fmap in Hin as (x & -> & Hin).
        by destruct (proj1 (land_lor_0 _ _ _) (Hx x Hin)).
    - intros [H1 H2] x Hin. apply land_lor_0. split; [by apply H1|].
      apply H2. by apply list_elem_of_fmap_2. }
  rewrite Hsplit. unfold subrange_ok at 2. tauto.
Qed.

(** X24. For an interval whose sub-ranges form a list,
    [LiveInterval::verify] passes exactly when the main range passes
    [LiveRange::verify], the lane masks of the sub-ranges are pairwise
    disjoint and within the maximal lane mask of the register (all lanes
    when there is no register info), and every sub-range is not empty,
    passes [LiveRange::verify], and is live only where the main range is
    live. *)
Theorem LiveInterval_verify_checks A H li MaxMask fuel l :
  is_list (nodes H) (SubRanges li) l → length l < fuel →
  LiveInterval_verify fuel A H li MaxMask = Ok tt ↔
  verified A (LI_range li)
  ∧ lanes_disjoint (LaneMask <$> l.*2)
  ∧ Forall (subrange_ok A (segments (LI_range li))
              (match MaxMask with
               | Some m => m
               | None => (2 ^ 32 - 1)%Z
               end)) l.*2.
Proof.
  intros Hl Hf. unfold LiveInterval_verify.
  destruct (verify A (LI_range li)) as [[]|e] eqn:Hv; cbn [bind].
  2:{ split; [done|]. intros (Hver & _). exfalso.
      apply (verify_Ok A _ tt) in Hver. congruence. }
  apply verify_Ok in Hv. pose proof Hv as (Ho & _).
  rewrite (LiveInterval_verify_loop_spec A H _ _ l fuel 0 _ Ho Hl Hf)
    by apply Z.land_0_l.
  split.
  - intros (_ & Hd & Hok). by splits.
  - intros (_ & Hd & Hok). splits; [|done|done].
    apply Forall_forall. intros n _. apply Z.land_0_l.
Qed.

Lemma LiveInterval_verify_checks_witness :
  LiveInterval_verify 3 [VNInfo.mk 0 0 false false]
    (mkHeap (<[1 := mkSubRange (mkLiveRange [mkSegment 0 4 1] [1] None)
                      1 2]>
               (<[2 := mkSubRange
                         (mkLiveRange [mkSegment 4 10 1] [1] None) 2 0]>
                  ∅)) [])
    (mkLiveInterval (mkLiveRange [mkSegment 0 10 1] [1] None) 5 1)
    None = Ok tt.
Proof.
  apply (LiveInterval_verify_checks [VNInfo.mk 0 0 false false] _ _ None 3
           [(1, mkSubRange (mkLiveRange [mkSegment 0 4 1] [1] None) 1 2);
            (2, mkSubRange (mkLiveRange [mkSegment 4 10 1] [1] None) 2 0)]).
  - simpl. by splits.
  - simpl. lia.
  - assert (Hver : ∀ a b,
      (0 ≤ a < b)%Z →
      verified [VNInfo.mk 0 0 false false]
        (mkLiveRange [mkSegment a b 1] [1] None)).
    { intros a b Hab. apply (verify_Ok _ _ tt). unfold verify. simpl.
      unfold verify_segment, isValid. simpl.
      rewrite (proj2 (Z.leb_le 0 a)), (proj2 (Z.leb_le 0 b)),
        (proj2 (Z.ltb_lt a b)) by lia. done. }
    split; [apply Hver; lia|]. split.
    + simpl. split; [|done]. by constructor.
    + assert (Hsub : ∀ a b m,
        (0 ≤ a < b)%Z → (b ≤ 10)%Z →
        Z.land m (Z.lxor (2 ^ 32 - 1) (2 ^ 32 - 1)) = 0%Z →
        ∀ nx, subrange_ok [VNInfo.mk 0 0 false false] [mkSegment 0 10 1]
                (2 ^ 32 - 1)
                (mkSubRange (mkLiveRange [mkSegment a b 1] [1] None) m nx)).
      { intros a b m Hab Hb Hm nx. unfold subrange_ok. simpl.
        splits; [done|done|by apply Hver|].
        intros p v Hl. apply live_at_one in Hl as [Hp _]. simpl in Hp.
        exists 1. apply live_at_one. simpl. split; [lia|done]. }
      simpl. apply Forall_cons. split; [apply Hsub; [lia|lia|reflexivity]|].
      apply Forall_cons. split; [apply Hsub; [lia|lia|reflexivity]|].
      constructor.
Defined.

(** ** [LiveRange::extendInBlock] *)

Lemma with_collection_same lr : with_collection lr (collection lr) = lr.
Proof.
  unfold with_collection, collection. destruct lr as [segs vs [set|]]; done.
Qed.

(** [LiveRange::extendInBlock] dispatches to the template on the
    collection in use; on an ordered collection the two instantiations
    give the same result. *)
Lemma LiveRange_extendInBlock_collection lr StartIdx Kill :
  ordered (collection lr) →
  LiveRange_extendInBlock lr StartIdx Kill
  = (r <- @extendInBlock CalcLiveRangeUtilVector (collection lr)
            StartIdx Kill ;;
     Ok (with_collection lr r.1, r.2)).
Proof.
  unfold LiveRange_extendInBlock, collection, with_collection.
  destruct (segmentSet lr) as [set|]; [|done].
  intros Ho. by rewrite extendInBlock_agree.
Qed.

(** C3: on a range whose segments, in the vector or in the segment set,
    satisfy the ordering invariants, [LiveRange::extendInBlock(StartIdx,
    Use)] returns no value and leaves the range as it is when no segment
    that starts before [Use] ends after [StartIdx]; otherwise the last
    segment [s] that starts before [Use] gets an end at or after [Use],
    which is the larger of its end and [Use] unless [s] did not reach
    [Use] and is merged with a segment of its value that starts at
    [Use], and the value of [s] is returned.  On the range
    [10, 10.dead), in the vector as in the set, the call
    [extendInBlock(8, 20)] returns the value and leaves [10, 20). *)
Theorem extendInBlock_preceding_segment lr StartIdx Use :
  ordered (collection lr) →
  (Forall (λ n, ¬ ((start n < Use)%Z ∧ (StartIdx < end_ n)%Z))
     (collection lr) →
   LiveRange_extendInBlock lr StartIdx Use = Ok (lr, nullptr))
  ∧ (∀ pre s post,
       collection lr = pre ++ s :: post → (start s < Use)%Z →
       Forall (λ n, (Use ≤ start n)%Z) post → (StartIdx < end_ s)%Z →
       ∃ e post',
         LiveRange_extendInBlock lr StartIdx Use
         = Ok (with_collection lr (pre ++ set_end s e :: post'), valno s)
         ∧ (Use ≤ e)%Z ∧ (end_ s ≤ e)%Z
         ∧ ((post' = post ∧ e = Z.max (end_ s) Use)
            ∨ ∃ M, post = M :: post' ∧ (end_ s < Use)%Z ∧ start M = Use
                   ∧ valno M = valno s ∧ e = end_ M))
  ∧ LiveRange_extendInBlock
      (mkLiveRange [mkSegment 10 (getDeadSlot 10) 1] [1] None) 8 20
    = Ok (mkLiveRange [mkSegment 10 20 1] [1] None, 1)
  ∧ LiveRange_extendInBlock
      (mkLiveRange [] [1] (Some [mkSegment 10 (getDeadSlot 10) 1])) 8 20
    = Ok (mkLiveRange [] [1] (Some [mkSegment 10 20 1]), 1).
Proof.
  intros Ho. rewrite (LiveRange_extendInBlock_collection lr) by done.
  destruct (extendInBlock_vector_preceding (collection lr) StartIdx Use Ho)
    as [Hnone Hext].
  splits; [| |reflexivity|reflexivity].
  - intros Hall. rewrite (Hnone Hall). cbn [bind]. simpl.
    by rewrite with_collection_same.
  - intros pre s post Hcoll Hs Hpost Hlive.
    destruct (Hext pre s post Hcoll Hs Hpost Hlive)
      as (e & post' & -> & He).
    cbn [bind]. by exists e, post'.
Qed.

(** The theorem holds of the range [10, 10.dead) in a segment set,
    extended to the use 20. *)
Lemma extendInBlock_preceding_segment_witness :
  ordered [mkSegment 10 (getDeadSlot 10) 1]
  ∧ ∃ e post',
      LiveRange_extendInBlock
        (mkLiveRange [] [1] (Some [mkSegment 10 (getDeadSlot 10) 1])) 8 20
      = Ok (mkLiveRange [] [1]
              (Some ([] ++ set_end (mkSegment 10 (getDeadSlot 10) 1) e
                     :: post')), 1)
      ∧ (20 ≤ e)%Z.
Proof.
  assert (Ho : ordered [mkSegment 10 (getDeadSlot 10) 1]).
  { vm_compute. repeat split. }
  split; [exact Ho|].
  destruct (proj1 (proj2 (extendInBlock_preceding_segment
              (mkLiveRange [] [1] (Some [mkSegment 10 (getDeadSlot 10) 1]))
              8 20 Ho))
              [] (mkSegment 10 (getDeadSlot 10) 1) [])
    as (e & post' & Heq & He & _).
  - reflexivity.
  - simpl. lia.
  - constructor.
  - reflexivity.
  - exists e, post'. split; [exact Heq|exact He].
Defined.
